(** * MapCodec: a shallow embedding of the tile-map codec

    The development follows the TypeScript sources:
    - [MapCodec.ts]      : [encodeMap], [decodeMap]
    - [MapEncoder.ts]    : module [MapEncoder]
    - [ZoneCalculator.ts]: module [ZoneCalculator]
    - [MapDecoder.ts]    : module [MapDecoder]

    JavaScript numbers that hold cell indices, counters and field values are
    integers here ([Z]); a [Uint16Array] is a [list Z] whose stores wrap
    modulo [2^16] and whose out-of-range reads give [None] (JS [undefined])
    and out-of-range stores do nothing; a sparse [boolean[]] used as a
    membership table is a [gset Z].  The arithmetic is JS arithmetic for a
    [width] other than 0; for [width = 0] JS computes [NaN], which is
    modelled where a comparison against it decides control flow: the
    neighbour tests of [exploreZone] ([jsRemIs]), the chunk of a cell
    ([MapEncoder.chunkOf]) and the comparison of the two costs
    ([MapEncoder.costGt]). *)

From Stdlib Require Import ZArith List Lia Bool String Ascii Permutation Sorted.
From stdpp Require Import base list gmap strings.

Local Open Scope Z_scope.

(** ** Failures and the result monad *)

Inductive Failure : Type :=
| UnknownTileType (id : Z)      (* CodecException of validateTileTypeUsage *)
| UnsupportedVersion (v : Z)    (* Error thrown by decodeMap *)
| StringTooLong                 (* bit writer: string longer than its field *)
| RangeError                    (* new Uint16Array(n) with a negative n *)
| InvalidString                 (* bit reader: length prefix above the maximum *)
| Truncated                     (* bit reader: end of buffer inside a field *)
| Stuck                         (* a read of an absent element that JS would
                                   carry on with as undefined *)
| OutOfFuel.                    (* a loop did not finish within the fuel *)

Inductive result (A : Type) : Type :=
| Ok (a : A)
| Err (e : Failure).
Arguments Ok {A} a.
Arguments Err {A} e.

#[global] Instance result_ret : MRet result := fun A a => Ok a.
#[global] Instance result_bind : MBind result :=
  fun A B f m => match m with Ok a => f a | Err e => Err e end.

Definition ofOption {A} (e : Failure) (o : option A) : result A :=
  match o with Some a => Ok a | None => Err e end.

(** ** JavaScript arithmetic and array access *)

(** [Math.ceil(a / b)] for a positive [b]. *)
Definition ceilDiv (a b : Z) : Z := - ((- a) / b).

(** [Math.ceil(Math.log2(n))] for [n >= 1].  (For [n = 0] JS gives
    [-Infinity]; the encoder never uses the value then, as a map without
    zones has no line, and neither does the decoder on a stream without
    lines.) *)
Definition log2ceil (n : Z) : Z := Z.log2_up n.

(** [a % b === r]: false when [b] is 0, as [a % 0] is [NaN]. *)
Definition jsRemIs (a b r : Z) : bool :=
  if b =? 0 then false else Z.rem a b =? r.

(** [a[i]] on an array: [None] is [undefined]. *)
Definition geti {A} (a : list A) (i : Z) : option A :=
  if i <? 0 then None else a !! Z.to_nat i.

(** [a[i] = v] on a [Uint16Array]. *)
Definition set16 (a : list Z) (i v : Z) : list Z :=
  if i <? 0 then a else <[Z.to_nat i := v mod 65536]> a.

(** [a[i] = v] on a [Uint8Array]. *)
Definition set8 (a : list Z) (i v : Z) : list Z :=
  if i <? 0 then a else <[Z.to_nat i := v mod 256]> a.

(** [a === b] on two array reads ([undefined === undefined] holds). *)
Definition sameRead (a b : option Z) : bool :=
  match a, b with
  | Some x, Some y => x =? y
  | None, None => true
  | _, _ => false
  end.

(** Truthiness of a numeric array read. *)
Definition truthy (a : option Z) : bool :=
  match a with Some x => negb (x =? 0) | None => false end.

(** [a.indexOf(x)]: the first index holding [x], or -1. *)
Fixpoint indexOfFrom {A} `{EqDecision A} (x : A) (a : list A) (i : Z) : Z :=
  match a with
  | [] => -1
  | y :: a' => if decide (y = x) then i else indexOfFrom x a' (i + 1)
  end.
Definition indexOf {A} `{EqDecision A} (a : list A) (x : A) : Z :=
  indexOfFrom x a 0.

(** ** Data carried by the codec ([MapCodec.ts]) *)

Record TileType : Type := {
  name : string;
  colorBase : string;
  colorVariant : Z;
  conquerable : bool;
  navigable : bool;
  expansionTime : Z;
  expansionCost : Z
}.

Record RawMapData : Type := {
  width : Z;
  height : Z;
  tiles : list Z;          (* Uint16Array *)
  types : list TileType
}.

(** ** The bit stream *)

Module BitStream.

(** Modelled from the spec: [LazyWriter] and [StreamReader] are not among the
    sources; section 4.1 of the specification gives their contract.  A writer
    is the sequence of bits written so far, a reader the sequence of bits
    still to read.  Integers are written most significant bit first, and a
    value is taken modulo [2^n]. *)
Definition Writer : Type := list bool.
Definition Reader : Type := list bool.

Fixpoint bitsOf (n : nat) (v : Z) : list bool :=
  match n with
  | O => []
  | S k => Z.testbit v (Z.of_nat k) :: bitsOf k v
  end.

Definition valueOf (bs : list bool) : Z :=
  fold_left (fun acc (b : bool) => 2 * acc + (if b then 1 else 0)) bs 0.

(** Modelled from the spec: [writeBits(n, value)]. *)
Definition writeBits (n v : Z) (w : Writer) : Writer :=
  w ++ bitsOf (Z.to_nat n) v.

(** Modelled from the spec: [writeBoolean(b)], one bit. *)
Definition writeBoolean (b : bool) (w : Writer) : Writer := w ++ [b].

Definition asciiBits (c : ascii) : list bool :=
  bitsOf 8 (Z.of_nat (nat_of_ascii c)).

(** Modelled from the spec: [writeString(maxChars, s)], a length prefix of
    [ceil(log2(maxChars + 1))] bits and then the bytes of [s]. *)
Definition writeString (maxChars : Z) (s : string) (w : Writer) : result Writer :=
  let len := Z.of_nat (String.length s) in
  if maxChars <? len then Err StringTooLong
  else Ok (writeBits (log2ceil (maxChars + 1)) len w
             ++ flat_map asciiBits (list_ascii_of_string s)).

Definition byteOfBits (bs : list bool) : Byte.byte :=
  match Byte.of_N (Z.to_N (valueOf bs)) with
  | Some b => b
  | None => Byte.x00
  end.

Fixpoint packBytes (fuel : nat) (bs : list bool) : list Byte.byte :=
  match fuel with
  | O => []
  | S f =>
      match bs with
      | [] => []
      | _ => byteOfBits (take 8 (bs ++ repeat false 7)) :: packBytes f (drop 8 bs)
      end
  end.

(** Modelled from the spec: [compress()], which pads the last byte with zero
    bits. *)
Definition compress (w : Writer) : list Byte.byte :=
  packBytes (length w) w.

Definition byteBits (b : Byte.byte) : list bool :=
  bitsOf 8 (Z.of_N (Byte.to_N b)).

(** Modelled from the spec: [new StreamReader(data)]. *)
Definition newReader (data : list Byte.byte) : Reader :=
  flat_map byteBits data.

(** Modelled from the spec: [readBits(n)]; reading past the end fails with
    [Truncated]. *)
Definition readBits (n : Z) (r : Reader) : result (Z * Reader) :=
  let k := Z.to_nat n in
  if (length r <? k)%nat then Err Truncated
  else Ok (valueOf (take k r), drop k r).

(** Modelled from the spec: [readBoolean()]. *)
Definition readBoolean (r : Reader) : result (bool * Reader) :=
  match r with
  | [] => Err Truncated
  | b :: r' => Ok (b, r')
  end.

Fixpoint bytesOfBits (n : nat) (bs : list bool) : list ascii :=
  match n with
  | O => []
  | S k => ascii_of_nat (Z.to_nat (valueOf (take 8 bs))) :: bytesOfBits k (drop 8 bs)
  end.

(** Modelled from the spec: [readString(maxChars)]. *)
Definition readString (maxChars : Z) (r : Reader) : result (string * Reader) :=
  '(len, r1) ← readBits (log2ceil (maxChars + 1)) r;
  if maxChars <? len then Err InvalidString
  else
    let k := Z.to_nat (len * 8) in
    if (length r1 <? k)%nat then Err Truncated
    else Ok (string_of_list_ascii (bytesOfBits (Z.to_nat len) r1), drop k r1).

End BitStream.

(** ** [ZoneCalculator.ts] *)

Module ZoneCalculator.

(** A [TileZone].  Its [tileMap] field is a reference to the one zone map of
    [buildZones], shared by all zones and read only after [buildZones] has
    returned; the model passes that final zone map alongside the zones. *)
Record TileZone : Type := {
  id : Z;
  leftBorder : list Z;
  leftBorderMap : gset Z;
  topBorder : list Z;
  topBorderMap : gset Z
}.

(** The variables of the loop of [exploreZone]; [stack] is the live part of
    the source's array, top first. *)
Record Explore : Type := {
  stack : list Z;
  zoneMap : list Z;
  lb : list Z;
  lbMap : gset Z;
  tb : list Z;
  tbMap : gset Z
}.

(** The four neighbour tests of [exploreZone]. *)
Definition leftOk (tileTypes : list Z) (width current : Z) : bool :=
  negb (jsRemIs current width 0)
  && sameRead (geti tileTypes (current - 1)) (geti tileTypes current).
Definition rightOk (tileTypes : list Z) (width current : Z) : bool :=
  negb (jsRemIs current width (width - 1))
  && sameRead (geti tileTypes (current + 1)) (geti tileTypes current).
Definition topOk (tileTypes : list Z) (width current : Z) : bool :=
  (width <=? current)
  && sameRead (geti tileTypes (current - width)) (geti tileTypes current).
Definition bottomOk (tileTypes : list Z) (width current : Z) : bool :=
  (current <? Z.of_nat (length tileTypes) - width)
  && sameRead (geti tileTypes (current + width)) (geti tileTypes current).

(** The body of the [while] loop for a cell that is not yet in a zone. *)
Definition visit (tileTypes : list Z) (width zoneId current : Z) (st : Explore) : Explore :=
  let zm := set16 (zoneMap st) current zoneId in
  let stk := stack st in
  let '(stk, lb', lbMap') :=
    if leftOk tileTypes width current then (current - 1 :: stk, lb st, lbMap st)
    else if decide (current ∈ lbMap st) then (stk, lb st, lbMap st)
    else (stk, lb st ++ [current], {[current]} ∪ lbMap st) in
  let stk := if rightOk tileTypes width current then current + 1 :: stk else stk in
  let '(stk, tb', tbMap') :=
    if topOk tileTypes width current then (current - width :: stk, tb st, tbMap st)
    else if decide (current ∈ tbMap st) then (stk, tb st, tbMap st)
    else (stk, tb st ++ [current], {[current]} ∪ tbMap st) in
  let stk := if bottomOk tileTypes width current then current + width :: stk else stk in
  {| stack := stk; zoneMap := zm; lb := lb'; lbMap := lbMap'; tb := tb'; tbMap := tbMap' |}.

(** The [while] loop of [exploreZone]: pop a cell, skip it if it is in a
    zone, visit it otherwise. *)
Fixpoint exploreLoop (fuel : nat) (tileTypes : list Z) (width zoneId : Z) (st : Explore)
  : option Explore :=
  match stack st with
  | [] => Some st
  | current :: rest =>
      match fuel with
      | O => None
      | S f =>
          let st := {| stack := rest; zoneMap := zoneMap st; lb := lb st;
                       lbMap := lbMap st; tb := tb st; tbMap := tbMap st |} in
          if truthy (geti (zoneMap st) current)
          then exploreLoop f tileTypes width zoneId st
          else exploreLoop f tileTypes width zoneId (visit tileTypes width zoneId current st)
      end
  end.

(** [exploreZone]: the zone record and the zone map after the
    exploration.  The record fields [leftBorder], ... are the variables [lb],
    ... of the loop. *)
Definition exploreZone (fuel : nat) (tile : Z) (tileTypes : list Z) (width : Z)
    (zoneMap0 : list Z) (zoneId : Z) : result (TileZone * list Z) :=
  st ← ofOption OutOfFuel
         (exploreLoop fuel tileTypes width zoneId
            {| stack := [tile]; zoneMap := zoneMap0; lb := []; lbMap := ∅;
               tb := []; tbMap := ∅ |});
  tid ← ofOption Stuck (geti tileTypes tile);
  Ok ({| id := tid; leftBorder := lb st; leftBorderMap := lbMap st;
         topBorder := tb st; topBorderMap := tbMap st |}, zoneMap st).

(** The scan of [buildZones] over the cells [i, i + n). *)
Fixpoint buildLoop (fuel n : nat) (i : Z) (tileTypes : list Z) (width : Z)
    (acc : list TileZone) (zm : list Z) : result (list TileZone * list Z) :=
  match n with
  | O => Ok (acc, zm)
  | S k =>
      if truthy (geti zm i) then buildLoop fuel k (i + 1) tileTypes width acc zm
      else
        '(zone, zm) ← exploreZone fuel i tileTypes width zm (Z.of_nat (length acc) + 1);
        buildLoop fuel k (i + 1) tileTypes width (acc ++ [zone]) zm
  end.

(** [new Uint16Array(n)]: an array of [n] zeros; a negative [n] throws a
    [RangeError].  (A length that the engine cannot allocate throws as well;
    that limit depends on the engine and is not modelled.) *)
Definition newUint16Array (n : Z) : result (list Z) :=
  if n <? 0 then Err RangeError else Ok (repeat 0 (Z.to_nat n)).

(** [buildZones]: the zones in the order found, and the zone map. *)
Definition buildZones (fuel : nat) (data : RawMapData) : result (list TileZone * list Z) :=
  zoneMap ← newUint16Array (width data * height data);
  buildLoop fuel (length (tiles data)) 0 (tiles data) (width data) [] zoneMap.

End ZoneCalculator.

(** ** [MapEncoder.ts] *)

Module MapEncoder.
Import BitStream.
Import ZoneCalculator.

Record RawLineData : Type := {
  from : Z;
  to : Z;
  path : list Z
}.

Record LineData : Type := {
  lid : Z;                 (* the field [id] of the source *)
  line : list Z
}.

#[global] Instance LineData_eq_dec : EqDecision LineData.
Proof. solve_decision. Defined.

(** [array[0] === v]. *)
Definition firstIs (a : list Z) (v : Z) : bool :=
  match a with x :: _ => x =? v | [] => false end.

(** *** Writing *)

Fixpoint writeTypeMapLoop (typeMap : list TileType) (w : Writer) : result Writer :=
  match typeMap with
  | [] => Ok w
  | t :: rest =>
      let w := writeBits 3 0 w in                  (* reserved for future use *)
      w ← writeString 32 (name t) w;
      w ← writeString 16 (colorBase t) w;
      let w := writeBits 4 (colorVariant t) w in
      let w := writeBoolean (conquerable t) w in
      let w := writeBoolean (navigable t) w in
      let w := writeBits 8 (expansionTime t) w in
      let w := writeBits 8 (expansionCost t) w in
      writeTypeMapLoop rest w
  end.

Definition writeTypeMap (w : Writer) (typeMap : list TileType) : result Writer :=
  writeTypeMapLoop typeMap (writeBits 16 (Z.of_nat (length typeMap)) w).

(** The chunk number [chunkY * Math.ceil(width / 32) + chunkX] of the cell
    [position], for a width other than 0. *)
Definition chunkNumber (width position : Z) : Z :=
  let chunkX := Z.rem position width / 32 in
  let chunkY := position / width / 32 in
  chunkY * ceilDiv width 32 + chunkX.

(** The chunk of the cell [position], as [checkChunk], [chunkLines] and
    [calculateCost] each compute it.  [None] is [NaN]: for a width of 0,
    [position % 0] is [NaN] and so is the chunk. *)
Definition chunkOf (width position : Z) : option Z :=
  if width =? 0 then None else Some (chunkNumber width position).

(** The [while] loop of [checkChunk]. *)
Fixpoint checkChunkLoop (fuel : nat) (w : Writer) (chunk currentChunk : Z)
  : option (Writer * Z) :=
  if chunk =? currentChunk then Some (w, currentChunk)
  else match fuel with
       | O => None
       | S f => checkChunkLoop f (writeBits 1 1 w) chunk (currentChunk + 1)
       end.

(** [checkChunk]; [None] when the loop does not end.  A chunk that is [NaN]
    differs from every [currentChunk], so the loop never ends then. *)
Definition checkChunk (fuel : nat) (width : Z) (w : Writer) (currentChunk position : Z)
  : option (Writer * Z) :=
  match chunkOf width position with
  | None => None
  | Some chunk =>
      match checkChunkLoop fuel w chunk currentChunk with
      | Some (w, currentChunk) => Some (writeBits 1 0 w, currentChunk)
      | None => None
      end
  end.

(** The step code of the move from [prev] to [cur]. *)
Definition stepCode (width prev cur : Z) : Z :=
  let diff := cur - prev in
  if diff =? 1 then 0 else if diff =? -1 then 1 else if diff =? width then 2 else 3.

Fixpoint writeSteps (width prev : Z) (rest : list Z) (w : Writer) : Writer :=
  match rest with
  | [] => w
  | cur :: rest' => writeSteps width cur rest' (writeBits 2 (stepCode width prev cur) w)
  end.

(** One turn of the loop of [writeLines]. *)
Definition writeLine (fuel : nat) (width typeLength : Z) (w : Writer) (currentChunk : Z)
    (l : LineData) : result (Writer * Z) :=
  match line l with
  | [] => Err Stuck
  | first :: rest =>
      '(w, currentChunk) ← ofOption OutOfFuel (checkChunk fuel width w currentChunk first);
      let w := writeBits 1 0 w in                  (* reserved for future use *)
      let w := writeBits 8 (Z.of_nat (length (line l)) - 1) w in
      let w := writeBits typeLength (lid l) w in
      let w := writeBits 10 (Z.rem (Z.rem first width) 32 + Z.rem (first / width) 32 * 32) w in
      Ok (writeSteps width first rest w, currentChunk)
  end.

Fixpoint writeLinesLoop (fuel : nat) (width typeLength : Z) (lines : list LineData)
    (w : Writer) (currentChunk : Z) : result Writer :=
  match lines with
  | [] => Ok w
  | l :: rest =>
      '(w, currentChunk) ← writeLine fuel width typeLength w currentChunk l;
      writeLinesLoop fuel width typeLength rest w currentChunk
  end.

Definition writeLines (fuel : nat) (width : Z) (w : Writer) (lines : list LineData)
    (typeLength : Z) : result Writer :=
  writeLinesLoop fuel width typeLength lines
    (writeBits 32 (Z.of_nat (length lines)) w) 0.

(** *** Palette compaction *)

(** First loop of [validateTileTypeUsage]: [tileUsage] holds, per type, the
    zones of that type; a zone object is named by its index in [zones], so
    that the later write to its [id] reaches the zone itself. *)
Fixpoint collectUsage (types : list TileType) (zones : list TileZone) (k : nat)
    (tileUsage : list (list nat)) : result (list (list nat)) :=
  match zones with
  | [] => Ok tileUsage
  | zone :: rest =>
      match geti types (id zone) with
      | None => Err (UnknownTileType (id zone))
      | Some _ =>
          collectUsage types rest (S k)
            (alter (fun u => u ++ [k]) (Z.to_nat (id zone)) tileUsage)
      end
  end.

Definition setId (newId : Z) (zones : list TileZone) (k : nat) : list TileZone :=
  alter (fun z => {| id := newId; leftBorder := leftBorder z;
                     leftBorderMap := leftBorderMap z; topBorder := topBorder z;
                     topBorderMap := topBorderMap z |}) k zones.

(** Second loop of [validateTileTypeUsage]. *)
Fixpoint compactTypes (types : list TileType) (tileUsage : list (list nat))
    (usedTypes : list TileType) (zones : list TileZone) : list TileType * list TileZone :=
  match types, tileUsage with
  | t :: types', u :: tileUsage' =>
      match u with
      | [] => compactTypes types' tileUsage' usedTypes zones
      | _ =>
          let usedTypes := usedTypes ++ [t] in
          compactTypes types' tileUsage' usedTypes
            (fold_left (setId (Z.of_nat (length usedTypes) - 1)) u zones)
      end
  | _, _ => (usedTypes, zones)
  end.

(** [validateTileTypeUsage]: the used types, and the zones with their ids
    rewritten. *)
Definition validateTileTypeUsage (types : list TileType) (zones : list TileZone)
  : result (list TileType * list TileZone) :=
  tileUsage ← collectUsage types zones 0 (repeat [] (length types));
  Ok (compactTypes types tileUsage [] zones).

(** *** Paths between border points *)

(** The [for] loop over the four neighbours in [calculatePaths]. *)
Fixpoint pushNeighbours (cands : list Z) (zoneId : Z) (tileMap : list Z) (path0 : list Z)
    (open : list Z) (paths : list (list Z)) (visited : gset Z)
  : list Z * list (list Z) * gset Z :=
  match cands with
  | [] => (open, paths, visited)
  | nextPoint :: cands' =>
      if negb (bool_decide (nextPoint ∈ visited))
         && bool_decide (geti tileMap nextPoint = Some zoneId)
      then pushNeighbours cands' zoneId tileMap path0
             (open ++ [nextPoint]) (paths ++ [path0 ++ [nextPoint]])
             ({[nextPoint]} ∪ visited)
      else pushNeighbours cands' zoneId tileMap path0 open paths visited
  end.

(** The [while] loop of [calculatePaths]; [res] is the [Map] in insertion
    order (a point is set at most once, when it leaves the queue). *)
Fixpoint pathsLoop (fuel : nat) (width : Z) (pointMap : gset Z) (zoneId : Z)
    (tileMap : list Z) (open : list Z) (paths : list (list Z)) (visited : gset Z)
    (res : list (Z * list Z)) : result (list (Z * list Z)) :=
  match open, paths with
  | [], _ => Ok res
  | _ :: _, [] => Err Stuck
  | point :: open', path0 :: paths' =>
      match fuel with
      | O => Err OutOfFuel
      | S f =>
          let res := if decide (point ∈ pointMap)
                     then res ++ [(point, removelast path0)] else res in
          if (Z.of_nat (length path0) <? 8)
          then
            let '(open', paths', visited) :=
              pushNeighbours [point - 1; point + 1; point - width; point + width]
                zoneId tileMap path0 open' paths' visited in
            pathsLoop f width pointMap zoneId tileMap open' paths' visited res
          else pathsLoop f width pointMap zoneId tileMap open' paths' visited res
      end
  end.

Definition calculatePaths (fuel : nat) (width start : Z) (pointMap : gset Z) (zoneId : Z)
    (tileMap : list Z) : result (list (Z * list Z)) :=
  pathsLoop fuel width pointMap zoneId tileMap [start] [[]] {[start]} [].

(** The loop over the paths found from point number [i]. *)
Fixpoint addConnections (points : list Z) (i : Z) (found : list (Z * list Z))
    (connectionMap : list (list RawLineData)) : result (list (list RawLineData)) :=
  match found with
  | [] => Ok connectionMap
  | (point, pth) :: found' =>
      let index := indexOf points point in
      if i <=? index then addConnections points i found' connectionMap
      else
        let d := length pth in
        match connectionMap !! d with
        | None => Err Stuck
        | Some _ =>
            addConnections points i found'
              (alter (fun b => b ++ [{| from := i; to := index; path := pth |}]) d connectionMap)
        end
  end.

Fixpoint connectionsLoop (fuel : nat) (width : Z) (points rest : list Z) (i : Z)
    (pointMap : gset Z) (zoneId : Z) (tileMap : list Z)
    (connectionMap : list (list RawLineData)) : result (list (list RawLineData)) :=
  match rest with
  | [] => Ok connectionMap
  | p :: rest' =>
      found ← calculatePaths fuel width p pointMap zoneId tileMap;
      connectionMap ← addConnections points i found connectionMap;
      connectionsLoop fuel width points rest' (i + 1) pointMap zoneId tileMap connectionMap
  end.

Definition calculateConnections (fuel : nat) (width : Z) (points : list Z)
    (pointMap : gset Z) (zoneId : Z) (tileMap : list Z) : result (list (list RawLineData)) :=
  connectionsLoop fuel width points points 0 pointMap zoneId tileMap (repeat [] 8).

(** *** Stitching *)

Definition concatSegment (segment pth : list Z) (ending toAdd : Z) : list Z :=
  if firstIs segment ending then toAdd :: pth ++ segment
  else segment ++ rev pth ++ [toAdd].

(** [connectSegments]: the new [segmentB] and the returned start.  The
    source reverses [segmentA] in place in two of its four cases and reads
    it again for the returned value; [a'] is [segmentA] after the splice. *)
Definition connectSegments (segmentA segmentB : list Z) (startA startB : Z) (pth : list Z)
  : list Z * option Z :=
  let '(b', a') :=
    if firstIs segmentB startB then
      if firstIs segmentA startA then (rev segmentA ++ pth ++ segmentB, rev segmentA)
      else (segmentA ++ pth ++ segmentB, segmentA)
    else
      if firstIs segmentA startA then (segmentB ++ rev pth ++ segmentA, segmentA)
      else (segmentB ++ rev pth ++ rev segmentA, rev segmentA) in
  (b', if firstIs a' startA then last a' else head a').

(** The state of the stitching loop of [calculateNeededLines]. *)
Record Stitch : Type := {
  segments : list (list Z);
  segmentMap : gmap Z Z;
  connectionCount : list Z     (* Uint8Array *)
}.

Definition segmentAt (st : Stitch) (pointIndex : Z) : result (Z * list Z) :=
  sidx ← ofOption Stuck (segmentMap st !! pointIndex);
  seg ← ofOption Stuck (geti (segments st) sidx);
  Ok (sidx, seg).

Definition setSegment (segs : list (list Z)) (sidx : Z) (seg : list Z) : list (list Z) :=
  <[Z.to_nat sidx := seg]> segs.

(** [processConnection]: whether the connection was used, and the new
    segments and segment map. *)
Definition processConnection (fromIsNew toIsNew : bool) (connection : RawLineData)
    (border : list Z) (st : Stitch) : result (bool * Stitch) :=
  valueFrom ← ofOption Stuck (geti border (from connection));
  valueTo ← ofOption Stuck (geti border (to connection));
  if fromIsNew && toIsNew then
    let segs := segments st ++ [valueFrom :: path connection ++ [valueTo]] in
    let sidx := Z.of_nat (length segs) - 1 in
    Ok (true, {| segments := segs;
                 segmentMap := <[from connection := sidx]>
                                 (<[to connection := sidx]> (segmentMap st));
                 connectionCount := connectionCount st |})
  else if fromIsNew then
    '(sidx, seg) ← segmentAt st (to connection);
    Ok (true, {| segments := setSegment (segments st) sidx
                               (concatSegment seg (path connection) valueTo valueFrom);
                 segmentMap := <[from connection := sidx]> (segmentMap st);
                 connectionCount := connectionCount st |})
  else if toIsNew then
    '(sidx, seg) ← segmentAt st (from connection);
    Ok (true, {| segments := setSegment (segments st) sidx
                               (concatSegment seg (rev (path connection)) valueFrom valueTo);
                 segmentMap := <[to connection := sidx]> (segmentMap st);
                 connectionCount := connectionCount st |})
  else if negb (bool_decide (segmentMap st !! from connection = segmentMap st !! to connection)) then
    '(ia, segA) ← segmentAt st (from connection);
    '(ib, segB) ← segmentAt st (to connection);
    let '(segB', start) := connectSegments segA segB valueFrom valueTo (path connection) in
    start ← ofOption Stuck start;
    Ok (true, {| segments := setSegment (setSegment (segments st) ib segB') ia [];
                 segmentMap := <[indexOf border start := ib]> (segmentMap st);
                 connectionCount := connectionCount st |})
  else Ok (false, st).

(** [connectionCount[i] >= 2], [!connectionCount[i]] and
    [connectionCount[i]++]. *)
Definition countFull (cc : list Z) (i : Z) : bool :=
  match geti cc i with Some c => 2 <=? c | None => false end.
Definition countZero (cc : list Z) (i : Z) : bool :=
  negb (truthy (geti cc i)).
Definition countUp (cc : list Z) (i : Z) : list Z :=
  match geti cc i with Some c => set8 cc i (c + 1) | None => cc end.

(** The loop over the connections, shortest first. *)
Fixpoint stitchLoop (connections : list RawLineData) (points : list Z) (st : Stitch)
  : result Stitch :=
  match connections with
  | [] => Ok st
  | connection :: rest =>
      let cc := connectionCount st in
      if countFull cc (from connection) || countFull cc (to connection)
      then stitchLoop rest points st
      else
        '(used, st') ← processConnection (countZero cc (from connection))
                         (countZero cc (to connection)) connection points st;
        if used : bool then
          stitchLoop rest points
            {| segments := segments st'; segmentMap := segmentMap st';
               connectionCount := countUp (countUp cc (from connection)) (to connection) |}
        else stitchLoop rest points st'
  end.

(** The loop of [cropLines]; [lines.length] is read again at every turn, so
    a pushed tail is reached by the same loop. *)
Fixpoint cropLoop (fuel : nat) (i : nat) (lines : list (list Z)) : option (list (list Z)) :=
  match lines !! i with
  | None => Some lines
  | Some l =>
      match fuel with
      | O => None
      | S f =>
          if (256 <? length l)%nat
          then cropLoop f (S i) (<[i := take 256 l]> lines ++ [drop 256 l])
          else cropLoop f (S i) lines
      end
  end.

Definition cropLines (fuel : nat) (lines : list (list Z)) : option (list (list Z)) :=
  cropLoop fuel 0 lines.

Fixpoint addSinglesLoop (border : list Z) (i : Z) (cc : list Z) (lines : list (list Z))
  : list (list Z) :=
  match border with
  | [] => lines
  | b :: border' =>
      addSinglesLoop border' (i + 1) cc
        (if bool_decide (geti cc i = Some 0) then lines ++ [[b]] else lines)
  end.

Definition addSingles (border : list Z) (cc : list Z) (lines : list (list Z))
  : list (list Z) :=
  addSinglesLoop border 0 cc lines.

Definition calculateNeededLines (fuel : nat) (width : Z) (points : list Z)
    (pointMap : gset Z) (zoneId : Z) (tileMap : list Z) : result (list (list Z)) :=
  connectionMap ← calculateConnections fuel width points pointMap zoneId tileMap;
  st ← stitchLoop (concat connectionMap) points
         {| segments := []; segmentMap := ∅;
            connectionCount := repeat 0 (length points) |};
  segs ← ofOption OutOfFuel (cropLines fuel (segments st));
  let segs := addSingles points (connectionCount st) segs in
  Ok (filter (fun segment => (0 < length segment)%nat) segs).

(** *** Chunking and the choice of direction *)

(** [Array.prototype.sort] with a comparator: a stable sort; [cmp a b < 0]
    puts [a] first. *)
Fixpoint sortInsert {A} (cmp : A -> A -> Z) (x : A) (sorted : list A) : list A :=
  match sorted with
  | [] => [x]
  | y :: sorted' =>
      if cmp y x <=? 0 then y :: sortInsert cmp x sorted'
      else x :: y :: sorted'
  end.
Definition jsSort {A} (cmp : A -> A -> Z) (a : list A) : list A :=
  fold_left (fun sorted x => sortInsert cmp x sorted) a [].

(** The array [chunkMap] of [chunkLines]; [None] is the [NaN] that an empty
    line gives. *)
Definition chunkMapOf (width : Z) (lines : list LineData) : list (option Z) :=
  map (fun l => head (line l) ≫= chunkOf width) lines.

(** The comparator of [chunkLines].  The source looks a line up with
    [indexOf], which compares object identities; two distinct line objects
    with equal contents start in the same cell and so have the same chunk,
    hence a look-up by contents finds the same chunk number. *)
Definition chunkCmp (lines : list LineData) (chunkMap : list (option Z)) (a b : LineData) : Z :=
  match mjoin (geti chunkMap (indexOf lines a)), mjoin (geti chunkMap (indexOf lines b)) with
  | Some ca, Some cb => ca - cb
  | _, _ => 0
  end.

(** [chunkLines]: the comparator reads [lines] as it was before the sort. *)
Definition chunkLines (width : Z) (lines : list LineData) : list LineData :=
  jsSort (chunkCmp lines (chunkMapOf width lines)) lines.

(** The loop of [calculateCost]; [None] is [NaN], which a sum with a [NaN]
    chunk gives and keeps. *)
Fixpoint costLoop (width typeLength : Z) (lines : list LineData) (cost currentChunk : option Z)
  : option Z :=
  match lines with
  | [] => cost
  | l :: rest =>
      let chunk := head (line l) ≫= chunkOf width in
      costLoop width typeLength rest
        (cost ← cost; chunk ← chunk; currentChunk ← currentChunk;
         Some (cost + ((Z.of_nat (length (line l)) - 1) * 2 + 20 + typeLength
                       + (chunk - currentChunk))))
        chunk
  end.

Definition calculateCost (width : Z) (lines : list LineData) (typeLength : Z) : option Z :=
  costLoop width typeLength lines (Some 0) (Some 0).

(** [a > b] on two costs: false when one of them is [NaN]. *)
Definition costGt (a b : option Z) : bool :=
  match a, b with
  | Some a, Some b => b <? a
  | _, _ => false
  end.

(** The loop over the zones in [calculateLines]. *)
Fixpoint zoneLines (fuel : nat) (width : Z) (zones : list TileZone) (zoneId : Z)
    (tileMap : list Z) (linesL2R linesT2B : list LineData)
  : result (list LineData * list LineData) :=
  match zones with
  | [] => Ok (linesL2R, linesT2B)
  | zone :: rest =>
      l2r ← calculateNeededLines fuel width (leftBorder zone) (leftBorderMap zone)
              (zoneId + 1) tileMap;
      t2b ← calculateNeededLines fuel width (topBorder zone) (topBorderMap zone)
              (zoneId + 1) tileMap;
      let wrap := map (fun l => {| lid := id zone; line := l |}) in
      zoneLines fuel width rest (zoneId + 1) tileMap
        (linesL2R ++ wrap l2r) (linesT2B ++ wrap t2b)
  end.

Definition calculateLines (fuel : nat) (width : Z) (w : Writer) (zones : list TileZone)
    (tileMap : list Z) (typeLength : Z) : result (Writer * list LineData) :=
  '(linesL2R, linesT2B) ← zoneLines fuel width zones 0 tileMap [] [];
  let linesL2R := chunkLines width linesL2R in
  let linesT2B := chunkLines width linesT2B in
  let costL2R := calculateCost width linesL2R typeLength in
  let costT2B := calculateCost width linesT2B typeLength in
  let w := writeBoolean (costGt costL2R costT2B) w in
  Ok (w, if costGt costL2R costT2B then linesT2B else linesL2R).

(** [writeCompressed]; the local [types] of the source is [usedTypes]
    here. *)
Definition writeCompressed (fuel : nat) (w : Writer) (data : RawMapData) : result Writer :=
  let w := writeBits 8 0 w in                      (* reserved for future use *)
  let width := width data in
  '(zones, tileMap) ← buildZones fuel data;
  '(usedTypes, zones) ← validateTileTypeUsage (types data) zones;
  let typeLength := log2ceil (Z.of_nat (length usedTypes)) in
  '(w, lines) ← calculateLines fuel width w zones tileMap typeLength;
  let w := writeBits 1 0 w in                      (* reserved for future use *)
  w ← writeTypeMap w (types data);
  writeLines fuel width w lines typeLength.

End MapEncoder.

(** ** [MapDecoder.ts] *)

Module MapDecoder.
Import BitStream.

(** The body of the loop of [readTypeMap], run [n] times. *)
Fixpoint readTypes (n : nat) (r : Reader) (acc : list TileType)
  : result (list TileType * Reader) :=
  match n with
  | O => Ok (acc, r)
  | S k =>
      '(_, r) ← readBits 3 r;                      (* reserved for future use *)
      '(nm, r) ← readString 32 r;
      '(cb, r) ← readString 16 r;
      '(cv, r) ← readBits 4 r;
      '(cq, r) ← readBoolean r;
      '(nv, r) ← readBoolean r;
      '(et, r) ← readBits 8 r;
      '(ec, r) ← readBits 8 r;
      readTypes k r (acc ++ [{| name := nm; colorBase := cb; colorVariant := cv;
                               conquerable := cq; navigable := nv;
                               expansionTime := et; expansionCost := ec |}])
  end.

Definition readTypeMap (r : Reader) : result (list TileType * Reader) :=
  '(typeMapLength, r) ← readBits 16 r;
  readTypes (Z.to_nat typeMapLength) r [].

(** [while (reader.readBoolean()) currentChunk++]: every turn consumes one
    bit of the reader. *)
Fixpoint readChunk (r : Reader) (currentChunk : Z) : result (Z * Reader) :=
  match r with
  | [] => Err Truncated
  | true :: r' => readChunk r' (currentChunk + 1)
  | false :: r' => Ok (currentChunk, r')
  end.

(** The grid under reconstruction: [result] and [valueMap]. *)
Definition Grid : Type := (list Z * gset Z)%type.

Definition put (g : Grid) (position type : Z) : Grid :=
  (set16 g.1 position type, {[position]} ∪ g.2).

(** The inner loop of [putLines]: [n] step codes. *)
Fixpoint putSteps (n : nat) (r : Reader) (g : Grid) (width type position : Z)
  : result (Grid * Reader) :=
  match n with
  | O => Ok (g, r)
  | S k =>
      '(diff, r) ← readBits 2 r;
      let position :=
        position + (if diff =? 0 then 1 else if diff =? 1 then -1
                    else if diff =? 2 then width else - width) in
      putSteps k r (put g position type) width type position
  end.

(** The outer loop of [putLines]: [n] line records. *)
Fixpoint putLinesLoop (n : nat) (r : Reader) (g : Grid) (width typeLength currentChunk : Z)
  : result (Grid * Reader) :=
  match n with
  | O => Ok (g, r)
  | S k =>
      '(currentChunk, r) ← readChunk r currentChunk;
      '(_, r) ← readBits 1 r;                      (* reserved for future use *)
      '(len1, r) ← readBits 8 r;
      let length := len1 + 1 in
      '(type, r) ← readBits typeLength r;
      '(position, r) ← readBits 10 r;
      let position :=
        Z.rem position 32 + Z.rem currentChunk (ceilDiv width 32) * 32
        + position / 32 * width + currentChunk / ceilDiv width 32 * 32 * width in
      '(g, r) ← putSteps (Z.to_nat (length - 1)) r (put g position type) width type position;
      putLinesLoop k r g width typeLength currentChunk
  end.

Definition putLines (r : Reader) (g : Grid) (width typeLength : Z)
  : result (Grid * Reader) :=
  '(lineCount, r) ← readBits 32 r;
  putLinesLoop (Z.to_nat lineCount) r g width typeLength 0.

(** One turn of a fill loop at cell [i]. *)
Definition fillCell (valueMap : gset Z) (i : Z) (st : list Z * Z) : list Z * Z :=
  let '(result, current) := st in
  let current :=
    if decide (i ∈ valueMap)
    then match geti result i with Some v => v | None => current end
    else current in
  (set16 result i current, current).

Fixpoint fillL2R (n : nat) (valueMap : gset Z) (i : Z) (st : list Z * Z) : list Z :=
  match n with
  | O => st.1
  | S k => fillL2R k valueMap (i + 1) (fillCell valueMap i st)
  end.

Definition fillLinesLeftToRight (result : list Z) (valueMap : gset Z) : list Z :=
  fillL2R (length result) valueMap 0 (result, 0).

(** The loop of [fillLinesTopToBottom], with its guard and its update of [i]
    as written. *)
Fixpoint fillT2B (fuel : nat) (valueMap : gset Z) (width i : Z) (st : list Z * Z)
  : option (list Z) :=
  let len := Z.of_nat (length st.1) in
  if i <? len - 1 then
    match fuel with
    | O => None
    | S f =>
        fillT2B f valueMap width
          (if len - width <=? i then Z.rem (i + 1) width else i + width)
          (fillCell valueMap i st)
    end
  else Some st.1.

Definition fillLinesTopToBottom (fuel : nat) (result : list Z) (valueMap : gset Z) (width : Z)
  : option (list Z) :=
  fillT2B fuel valueMap width 0 (result, 0).

Definition readCompressed (fuel : nat) (r : Reader) (width height : Z)
  : result (RawMapData * Reader) :=
  '(_, r) ← readBits 8 r;                          (* reserved for future use *)
  '(direction, r) ← readBoolean r;                 (* true: top to bottom *)
  '(_, r) ← readBits 1 r;                          (* reserved for future use *)
  '(tileTypes, r) ← readTypeMap r;
  let typeLength := log2ceil (Z.of_nat (length tileTypes)) in
  let result := repeat 0 (Z.to_nat (width * height)) in
  '(g, r) ← putLines r (result, ∅) width typeLength;
  tiles ← (if direction : bool
           then ofOption OutOfFuel (fillLinesTopToBottom fuel g.1 g.2 width)
           else Ok (fillLinesLeftToRight g.1 g.2));
  Ok ({| width := width; height := height; tiles := tiles; types := tileTypes |}, r).

End MapDecoder.

(** ** [MapCodec.ts]: the entry points *)

Definition CURRENT_VERSION : Z := 0.
Definition MINIMUM_VERSION : Z := 0.

(** [encodeMap]; [fuel] bounds the turns of each [while] loop of the
    encoder. *)
Definition encodeMap (fuel : nat) (data : RawMapData) : result (list Byte.byte) :=
  let writer : BitStream.Writer := [] in
  let writer := BitStream.writeBits 4 CURRENT_VERSION writer in
  let writer := BitStream.writeBits 16 (width data) writer in
  let writer := BitStream.writeBits 16 (height data) writer in
  writer ← MapEncoder.writeCompressed fuel writer data;
  let writer := BitStream.writeBits 8 0 writer in  (* reserved for future use *)
  Ok (BitStream.compress writer).

(** [decodeMap]; [fuel] bounds the turns of the top-to-bottom fill. *)
Definition decodeMap (fuel : nat) (data : list Byte.byte) : result RawMapData :=
  let reader := BitStream.newReader data in
  '(version, reader) ← BitStream.readBits 4 reader;
  if (CURRENT_VERSION <? version) || (version <? MINIMUM_VERSION)
  then Err (UnsupportedVersion version)
  else
    '(width, reader) ← BitStream.readBits 16 reader;
    '(height, reader) ← BitStream.readBits 16 reader;
    '(result, reader) ← MapDecoder.readCompressed fuel reader width height;
    '(_, reader) ← BitStream.readBits 8 reader;    (* reserved for future use *)
    Ok result.

(** ** Definitions used to state the properties *)

(** The failures a well-versioned stream can still end in. *)
Definition readFailure (e : Failure) : Prop :=
  e = Truncated \/ e = InvalidString \/ e = OutOfFuel.

(** What [decodeMap] does once the version is accepted. *)
Definition afterVersion (fuel : nat) (reader : BitStream.Reader) : result RawMapData :=
  '(width, reader) ← BitStream.readBits 16 reader;
  '(height, reader) ← BitStream.readBits 16 reader;
  '(result, reader) ← MapDecoder.readCompressed fuel reader width height;
  '(_, reader) ← BitStream.readBits 8 reader;
  Ok result.

(** The bits of the step codes of a line whose previous cell is [prev]. *)
Fixpoint stepBits (width prev : Z) (rest : list Z) : list bool :=
  match rest with
  | [] => []
  | cur :: rest' =>
      BitStream.bitsOf 2 (MapEncoder.stepCode width prev cur) ++ stepBits width cur rest'
  end.

(** The position of a cell inside its chunk: [(x mod 32) + (y mod 32) * 32]. *)
Definition positionInChunk (width first : Z) : Z :=
  Z.rem (Z.rem first width) 32 + Z.rem (first / width) 32 * 32.

(** The fields of a line record that follow the chunk-advance prefix, up to
    the reserved bit that precedes them. *)
Definition lineFields (width typeLength : Z) (l : MapEncoder.LineData) : list bool :=
  BitStream.bitsOf 8 (Z.of_nat (length (MapEncoder.line l)) - 1)
  ++ BitStream.bitsOf (Z.to_nat typeLength) (MapEncoder.lid l)
  ++ BitStream.bitsOf 10 (positionInChunk width (hd 0 (MapEncoder.line l)))
  ++ stepBits width (hd 0 (MapEncoder.line l)) (tl (MapEncoder.line l)).

(** The chunk-advance prefix: as many 1 bits as chunks to advance, then a 0. *)
Definition chunkPrefix (width currentChunk : Z) (l : MapEncoder.LineData) : list bool :=
  repeat true (Z.to_nat (MapEncoder.chunkNumber width (hd 0 (MapEncoder.line l)) - currentChunk))
  ++ [false].

(** A line record as the specification words it: the prefix, then at once
    the length field. *)
Definition lineRecordSpec (width typeLength currentChunk : Z) (l : MapEncoder.LineData)
  : list bool :=
  chunkPrefix width currentChunk l ++ lineFields width typeLength l.

(** A line record with the reserved bit of [writeLines] between the prefix
    and the length field. *)
Definition lineRecord (width typeLength currentChunk : Z) (l : MapEncoder.LineData)
  : list bool :=
  chunkPrefix width currentChunk l ++ [false] ++ lineFields width typeLength l.

Fixpoint lineRecords (width typeLength currentChunk : Z) (lines : list MapEncoder.LineData)
  : list bool :=
  match lines with
  | [] => []
  | l :: rest =>
      lineRecord width typeLength currentChunk l
      ++ lineRecords width typeLength (MapEncoder.chunkNumber width (hd 0 (MapEncoder.line l))) rest
  end.

(** The lines are not empty and their starting chunks do not decrease from
    [currentChunk] on. *)
Fixpoint chunksAscend (width currentChunk : Z) (lines : list MapEncoder.LineData) : Prop :=
  match lines with
  | [] => True
  | l :: rest =>
      MapEncoder.line l <> []
      /\ currentChunk <= MapEncoder.chunkNumber width (hd 0 (MapEncoder.line l))
      /\ chunksAscend width (MapEncoder.chunkNumber width (hd 0 (MapEncoder.line l))) rest
  end.

(** The cells [0 .. n-1]: a column of a map one cell wide. *)
Definition column (n : nat) : list Z := map Z.of_nat (seq 0 n).

(** The turns of the loop of [cropLines] that a segment gives rise to:
    one for itself and one for every tail it pushes. *)
Definition cropTurns (l : list Z) : nat := S ((length l - 1) / 256).

(** A segment that fits the 8-bit length field. *)
Definition short (l : list Z) : Prop := (length l <= 256)%nat.

(** The chunk of a cell in the words of the specification:
    [floor(y / 32) * ceil(width / 32) + floor(x / 32)] for the cell
    [(x, y)], that is [x = cell mod width] and [y = cell / width]. *)
Definition chunkIdSpec (width cell : Z) : Z :=
  (cell / width) / 32 * ceilDiv width 32 + (cell mod width) / 32.

(** The chunk id of the first cell of a line. *)
Definition startChunk (width : Z) (l : MapEncoder.LineData) : Z :=
  chunkIdSpec width (hd 0 (MapEncoder.line l)).

(** A line that has a first cell, which is a cell of the grid. *)
Definition startsInGrid (l : MapEncoder.LineData) : Prop :=
  MapEncoder.line l <> [] /\ 0 <= hd 0 (MapEncoder.line l).

(** The cell visited at turn [p] of a column-major walk of a grid [w] wide
    and [h] high: the cell of column [p / h] and row [p mod h]. *)
Definition colMajorCell (w h p : Z) : Z := p / h + (p mod h) * w.

(** The first [n] cells of the column-major walk. *)
Definition colMajor (w h : Z) (n : nat) : list Z :=
  map (fun p => colMajorCell w h (Z.of_nat p)) (seq 0 n).

(** The fill rule in the words of the specification, applied to the cells
    [cells] in that order with the carried value [current]: "if [anchor[i]],
    set [current = tiles[i]]; write [tiles[i] = current]". *)
Fixpoint fillRuleSpec (anchor : gset Z) (cells : list Z) (tiles : list Z) (current : Z)
  : list Z :=
  match cells with
  | [] => tiles
  | i :: rest =>
      let current := if decide (i ∈ anchor) then nth (Z.to_nat i) tiles 0 else current in
      fillRuleSpec anchor rest (<[Z.to_nat i := current]> tiles) current
  end.


(** Two palette entries and a few small maps for the worked instances. *)
Definition grass : TileType :=
  {| name := "grass"; colorBase := "green"; colorVariant := 1; conquerable := true;
     navigable := false; expansionTime := 50; expansionCost := 50 |}.
Definition water : TileType :=
  {| name := "water"; colorBase := "blue"; colorVariant := 2; conquerable := false;
     navigable := true; expansionTime := 60; expansionCost := 70 |}.

(** One cell of the second palette entry; the first entry is unused. *)
Definition mapUnusedEntry : RawMapData :=
  {| width := 1; height := 1; tiles := [1]; types := [grass; water] |}.

(** Two columns, the left of type 0 and the right of type 1. *)
Definition mapTwoColumns : RawMapData :=
  {| width := 2; height := 2; tiles := [0; 1; 0; 1]; types := [grass; water] |}.



(** A move between 4-neighbours, as a difference of cell indices. *)
Definition step (width a b : Z) : Prop :=
  b - a = 1 \/ b - a = -1 \/ b - a = width \/ b - a = - width.

(** Every two consecutive cells of the list are one [step] apart. *)
Fixpoint chain (width : Z) (l : list Z) : Prop :=
  match l with
  | [] => True
  | a :: l' => match l' with [] => True | b :: _ => step width a b end /\ chain width l'
  end.

(** The cell lies in the zone [zoneId] of the zone map. *)
Definition inZone (tileMap : list Z) (zoneId c : Z) : Prop :=
  geti tileMap c = Some zoneId.

(** A line of the zone: its cells lie in the zone, consecutive cells are one
    step apart. *)
Definition zoneChain (width : Z) (tileMap : list Z) (zoneId : Z) (l : list Z) : Prop :=
  Forall (inZone tileMap zoneId) l /\ chain width l.

(** The value is the first or the last cell of the segment. *)
Definition atEnd (s : list Z) (v : Z) : Prop := head s = Some v \/ last s = Some v.

(** An entry of the queue of [calculatePaths]: [pth] leads from [start] to
    [pt] through the zone. *)
Definition queueEntryOk (w : Z) (tm : list Z) (zoneId start pt : Z) (pth : list Z) : Prop :=
  last (start :: pth) = Some pt /\ chain w (start :: pth) /\ Forall (inZone tm zoneId) pth.

(** An entry of the map that [calculatePaths] returns: the start itself with
    an empty path, or a point with the cells between the start and it. *)
Definition foundOk (w : Z) (tm : list Z) (zoneId start : Z) (e : Z * list Z) : Prop :=
  (e.1 = start /\ e.2 = [])
  \/ (chain w (start :: e.2 ++ [e.1]) /\ Forall (inZone tm zoneId) e.2).

(** A connection between two border points: its path joins the two points
    through the zone. *)
Definition connOk (w : Z) (tm : list Z) (zoneId : Z) (border : list Z)
    (c : MapEncoder.RawLineData) : Prop :=
  MapEncoder.to c < MapEncoder.from c
  /\ forall vf vt,
       geti border (MapEncoder.from c) = Some vf ->
       geti border (MapEncoder.to c) = Some vt ->
       chain w (vf :: MapEncoder.path c ++ [vt])
       /\ Forall (inZone tm zoneId) (MapEncoder.path c).

(** The invariant of the stitching loop of [calculateNeededLines]: the
    segments are lines of the zone, and a border point that has one
    connection is the first or the last cell of the segment it is mapped
    to. *)
Record stitchInv (w : Z) (tm : list Z) (zoneId : Z) (border : list Z)
    (st : MapEncoder.Stitch) : Prop := {
  inv_segments : Forall (zoneChain w tm zoneId) (MapEncoder.segments st);
  inv_counts : Forall (fun c => 0 <= c) (MapEncoder.connectionCount st);
  inv_ends : forall j v,
      geti (MapEncoder.connectionCount st) j = Some 1 ->
      geti border j = Some v ->
      exists sidx s,
        MapEncoder.segmentMap st !! j = Some sidx
        /\ geti (MapEncoder.segments st) sidx = Some s
        /\ atEnd s v
}.

(** A line of the zone that fits a line record: 1 to 256 cells. *)
Definition lineOk (w : Z) (tm : list Z) (zoneId : Z) (l : list Z) : Prop :=
  Forall (inZone tm zoneId) l /\ chain w l /\ (1 <= length l <= 256)%nat.

(** Two cells of a grid [w] wide with [n] cells that are 4-neighbours. *)
Definition gridStep (w n a b : Z) : Prop :=
  0 <= a < n /\ 0 <= b < n
  /\ ((b = a - 1 /\ a mod w <> 0) \/ (b = a + 1 /\ a mod w <> w - 1)
      \/ b = a - w \/ b = a + w).

(** Two 4-neighbours of equal tile type. *)
Definition zoneStep (tileTypes : list Z) (w a b : Z) : Prop :=
  gridStep w (Z.of_nat (length tileTypes)) a b /\ geti tileTypes a = geti tileTypes b.

(** Two cells of one zone: joined by a path of 4-neighbours of equal type. *)
Definition sameZone (tileTypes : list Z) (w : Z) : Z -> Z -> Prop :=
  rtc (zoneStep tileTypes w).

(** The first cell of its zone in row-major order. *)
Definition zoneFirst (tileTypes : list Z) (w s : Z) : Prop :=
  0 <= s < Z.of_nat (length tileTypes)
  /\ forall c, sameZone tileTypes w s c -> s <= c.

(** The shape of a map that [buildZones] is meant for. *)
Definition wellFormed (data : RawMapData) : Prop :=
  0 < width data /\ 0 <= height data
  /\ Z.of_nat (length (tiles data)) = width data * height data.

(** The marks of a zone map are closed under steps inside a zone. *)
Definition closedMarks (tt : list Z) (w : Z) (zm : list Z) : Prop :=
  forall c c' v, geti zm c = Some v -> v <> 0 -> zoneStep tt w c c' -> geti zm c' = Some v.

(** The invariant of the loop of [exploreZone] that explores the zone of
    [seed] with the id [z], from the zone map [zm0]. *)
Record exploring (tt : list Z) (w : Z) (zm0 : list Z) (seed z : Z)
    (st : ZoneCalculator.Explore) : Prop := {
  ex_len : length (ZoneCalculator.zoneMap st) = length tt;
  ex_old : forall c v, geti zm0 c = Some v -> v <> 0 ->
                       geti (ZoneCalculator.zoneMap st) c = Some v;
  ex_new : forall c, geti (ZoneCalculator.zoneMap st) c <> geti zm0 c ->
                     geti (ZoneCalculator.zoneMap st) c = Some z /\ sameZone tt w seed c;
  ex_stack : forall x, x ∈ ZoneCalculator.stack st -> sameZone tt w seed x;
  ex_closed : forall c c', geti (ZoneCalculator.zoneMap st) c = Some z ->
                           zoneStep tt w c c' ->
                           geti (ZoneCalculator.zoneMap st) c' = Some z
                           \/ c' ∈ ZoneCalculator.stack st;
  ex_seed : geti (ZoneCalculator.zoneMap st) seed = Some z \/ seed ∈ ZoneCalculator.stack st
}.

(** The invariant of the scan of [buildZones]: the cells before [i] are
    marked, and a mark [k + 1] sits on the cells of the zone whose first
    cell is the [k]-th seed. *)
Record scanned (tt : list Z) (w : Z) (i : Z) (zm seeds : list Z) : Prop := {
  sc_len : length zm = length tt;
  sc_sorted : StronglySorted Z.lt seeds;
  sc_first : forall s, s ∈ seeds -> s < i /\ zoneFirst tt w s;
  sc_marks : forall c v, geti zm c = Some v -> v <> 0 ->
             exists (k : nat) s, seeds !! k = Some s /\ sameZone tt w s c
                                 /\ v = Z.of_nat k + 1;
  sc_closed : closedMarks tt w zm;
  sc_done : forall c, 0 <= c < i -> truthy (geti zm c) = true
}.

(** A cell that stays out of every zone: it is unmarked and all its
    neighbours of equal type are marked. *)
Definition leftOut (tt : list Z) (w : Z) (zm : list Z) (c0 : Z) : Prop :=
  geti zm c0 = Some 0 /\ forall y, zoneStep tt w c0 y -> truthy (geti zm y) = true.

(** A border list of the zone with id [z]: its points are distinct, they
    are the points of the membership table, and they carry [z] in the zone
    map. *)
Definition borderOk (zm : list Z) (z : Z) (border : list Z) (borderMap : gset Z) : Prop :=
  NoDup border /\ (forall x, x ∈ borderMap <-> x ∈ border) /\ Forall (inZone zm z) border.

(** The two border lists of the zone number [k]. *)
Definition zoneBordersOk (zm : list Z) (k : nat) (zone : ZoneCalculator.TileZone) : Prop :=
  borderOk zm (Z.of_nat k + 1) (ZoneCalculator.leftBorder zone)
    (ZoneCalculator.leftBorderMap zone)
  /\ borderOk zm (Z.of_nat k + 1) (ZoneCalculator.topBorder zone)
       (ZoneCalculator.topBorderMap zone).

(** Two zone records that differ at most in their type id. *)
Definition sameBorders (a b : ZoneCalculator.TileZone) : Prop :=
  ZoneCalculator.leftBorder a = ZoneCalculator.leftBorder b
  /\ ZoneCalculator.leftBorderMap a = ZoneCalculator.leftBorderMap b
  /\ ZoneCalculator.topBorder a = ZoneCalculator.topBorder b
  /\ ZoneCalculator.topBorderMap a = ZoneCalculator.topBorderMap b.

(** An emitted line is a line of one of the [m] zones. *)
Definition emittedOk (w : Z) (zm : list Z) (m : nat) (l : MapEncoder.LineData) : Prop :=
  exists k : nat, (k < m)%nat /\ lineOk w zm (Z.of_nat k + 1) (MapEncoder.line l).

(** The seed [s] is a cell of the type that the zone record carries. *)
Definition zoneSeed (tt : list Z) (s : Z) (zone : ZoneCalculator.TileZone) : Prop :=
  geti tt s = Some (ZoneCalculator.id zone).

(** The numeric fields of a palette entry as their bit fields hold them. *)
Definition stored (t : TileType) : TileType :=
  {| name := name t; colorBase := colorBase t;
     colorVariant := colorVariant t mod 16;
     conquerable := conquerable t; navigable := navigable t;
     expansionTime := expansionTime t mod 256;
     expansionCost := expansionCost t mod 256 |}.

(** The grid after the cells of a line, and of a list of lines, have been
    put with the type of the line. *)
Definition placeLine (g : MapDecoder.Grid) (l : MapEncoder.LineData) : MapDecoder.Grid :=
  fold_left (fun g c => MapDecoder.put g c (MapEncoder.lid l)) (MapEncoder.line l) g.
Definition placeLines (g : MapDecoder.Grid) (lines : list MapEncoder.LineData)
  : MapDecoder.Grid :=
  fold_left placeLine lines g.

(** A line that a line record can hold: 1 to 256 cells, each one step from
    the one before, a first cell in the grid, a type id of [typeLength]
    bits. *)
Definition fitsRecord (width typeLength : Z) (l : MapEncoder.LineData) : Prop :=
  (1 <= length (MapEncoder.line l) <= 256)%nat
  /\ chain width (MapEncoder.line l)
  /\ 0 <= hd 0 (MapEncoder.line l)
  /\ 0 <= MapEncoder.lid l < 2 ^ typeLength.

(** The palette entry [i] is the type of some zone. *)
Definition usedBy (zones : list ZoneCalculator.TileZone) (i : nat) : bool :=
  existsb (fun z => ZoneCalculator.id z =? Z.of_nat i) zones.

(** The entries among the first [i] of the palette that are the type of
    some zone, in the order of the palette. *)
Definition usedUpTo (types : list TileType) (zones : list ZoneCalculator.TileZone) (i : nat)
  : list TileType :=
  omap (fun j => if usedBy zones j then types !! j else None) (seq 0 i).

(** The indices, counted from [k], of the zones of type [i]. *)
Fixpoint zonesOf (zones : list ZoneCalculator.TileZone) (k i : nat) : list nat :=
  match zones with
  | [] => []
  | z :: rest =>
      (if ZoneCalculator.id z =? Z.of_nat i then [k] else []) ++ zonesOf rest (S k) i
  end.

(** A zone after the compaction of the palette up to the entry [i]: the
    borders are kept, and a type id below [i] has become its rank among the
    used entries. *)
Definition compacted (types : list TileType) (zones0 : list ZoneCalculator.TileZone)
    (i : nat) (z0 z : ZoneCalculator.TileZone) : Prop :=
  sameBorders z0 z
  /\ ZoneCalculator.id z
     = if ZoneCalculator.id z0 <? Z.of_nat i
       then Z.of_nat (length (usedUpTo types zones0 (Z.to_nat (ZoneCalculator.id z0))))
       else ZoneCalculator.id z0.

(** A border list that is complete for the neighbour test [ok]: it holds
    every cell with the mark [z] that fails the test, and only cells that
    fail it. *)
Definition borderFull (ok : Z -> bool) (zm : list Z) (z : Z) (border : list Z)
    (borderMap : gset Z) : Prop :=
  (forall x, x ∈ borderMap -> x ∈ border)
  /\ (forall c, geti zm c = Some z -> ok c = false -> c ∈ border)
  /\ (forall c, c ∈ border -> ok c = false).

(** The two border lists of the zone number [k] are complete. *)
Definition zoneBordersFull (tt : list Z) (w : Z) (zm : list Z) (k : nat)
    (zone : ZoneCalculator.TileZone) : Prop :=
  borderFull (ZoneCalculator.leftOk tt w) zm (Z.of_nat k + 1)
    (ZoneCalculator.leftBorder zone) (ZoneCalculator.leftBorderMap zone)
  /\ borderFull (ZoneCalculator.topOk tt w) zm (Z.of_nat k + 1)
       (ZoneCalculator.topBorder zone) (ZoneCalculator.topBorderMap zone).

(** Every border point that has a connection lies on a segment. *)
Definition covered (border cc : list Z) (segs : list (list Z)) : Prop :=
  forall j v, geti border j = Some v -> geti cc j <> Some 0 ->
              exists s, s ∈ segs /\ v ∈ s.

(** A line emitted for the zone number [k]: it carries the type id of the
    zone record and is a line of the zone. *)
Definition emittedFor (w : Z) (zm : list Z) (zones : list ZoneCalculator.TileZone)
    (l : MapEncoder.LineData) : Prop :=
  exists (k : nat) zone,
    zones !! k = Some zone /\ MapEncoder.lid l = ZoneCalculator.id zone
    /\ lineOk w zm (Z.of_nat k + 1) (MapEncoder.line l).

(** The cell lies on one of the lines. *)
Definition onLines (lines : list MapEncoder.LineData) (c : Z) : Prop :=
  exists l, l ∈ lines /\ c ∈ MapEncoder.line l.

(** The cells [cells], in that order, can be filled from the anchors
    [valueMap] towards the values [t] when the carried value is [cur]: each
    cell is an anchor or has the value carried from the cell before. *)
Fixpoint follows (valueMap : gset Z) (t : Z -> Z) (cur : Z) (cells : list Z) : Prop :=
  match cells with
  | [] => True
  | c :: rest => (c ∈ valueMap \/ t c = cur) /\ follows valueMap t (t c) rest
  end.

(** A grid of [n] cells whose anchors hold the values [t]. *)
Definition anchored (t : Z -> Z) (n : Z) (g : MapDecoder.Grid) : Prop :=
  Z.of_nat (length g.1) = n
  /\ forall c, c ∈ g.2 -> 0 <= c < n /\ geti g.1 c = Some (t c).

(** The tile of a cell, 0 outside of the map. *)
Definition tileAt (tiles : list Z) (c : Z) : Z := default 0 (geti tiles c).

(** The numeric fields of a palette entry fit their bit fields. *)
Definition fieldsFit (t : TileType) : Prop :=
  0 <= colorVariant t < 16 /\ 0 <= expansionTime t < 256 /\ 0 <= expansionCost t < 256.

(** Every palette entry is the type of some tile. *)
Definition paletteUsed (data : RawMapData) : Prop :=
  forall i, 0 <= i < Z.of_nat (length (types data)) -> i ∈ tiles data.

(** The map with its last tile set to 0. *)
Definition lastCleared (data : RawMapData) : RawMapData :=
  {| width := width data; height := height data;
     tiles := set16 (tiles data) (Z.of_nat (length (tiles data)) - 1) 0;
     types := types data |}.

(** The sum of the connection counts. *)
Definition zsum (l : list Z) : Z := fold_right Z.add 0 l.

(** The buckets of [calculateConnections]: eight of them, the bucket [d]
    holding paths of [d] cells. *)
Definition buckets (cm : list (list MapEncoder.RawLineData)) : Prop :=
  length cm = 8%nat
  /\ forall d b, cm !! d = Some b ->
       Forall (fun c => length (MapEncoder.path c) = d) b.

(** The invariant of the stitching loop that bounds the cells of the
    segments: nine cells at most for every connection used. *)
Definition stitchCount (border : list Z) (st : MapEncoder.Stitch) : Prop :=
  2 * Z.of_nat (length (concat (MapEncoder.segments st)))
    <= 9 * zsum (MapEncoder.connectionCount st)
  /\ Forall (fun c => 0 <= c <= 2) (MapEncoder.connectionCount st)
  /\ length (MapEncoder.connectionCount st) = length border.

(** A map that the format can hold: a grid of positive width, sizes of 16
    bits, fewer than 65536 palette entries with numeric fields that fit
    their bit fields, and few enough cells for the 32-bit count of
    lines. *)
Definition fitsFormat (data : RawMapData) : Prop :=
  wellFormed data
  /\ width data < 65536 /\ height data < 65536
  /\ 10 * (width data * height data) < 2 ^ 32
  /\ Z.of_nat (length (types data)) < 65536
  /\ Forall fieldsFit (types data).

(** A value of a [Uint16Array]. *)
Definition u16 (v : Z) : Prop := 0 <= v < 65536.

(** The shape of a decoded map: sizes of 16 bits, one tile of 16 bits per
    cell, fewer than 65536 palette entries with numeric fields in the range
    of their bit fields. *)
Definition decodedShape (d : RawMapData) : Prop :=
  0 <= width d < 65536 /\ 0 <= height d < 65536
  /\ length (tiles d) = Z.to_nat (width d * height d)
  /\ Forall u16 (tiles d)
  /\ Z.of_nat (length (types d)) < 65536
  /\ Forall fieldsFit (types d).

(** The type id of the last of the lines that run through the cell [c]. *)
Definition lastTypeAt (lines : list MapEncoder.LineData) (c : Z) : option Z :=
  MapEncoder.lid <$> last (filter (fun l => c ∈ MapEncoder.line l) lines).

(** The remainders that [cropLines] pushes for the segments [segs]: for
    every segment longer than 256 cells, in the order of the list, its cells
    from the 257th on. *)
Definition remainders (segs : list (list Z)) : list (list Z) :=
  map (drop 256) (filter (fun l => (256 < length l)%nat) segs).

(** The outcome of [cropLines] in the words of the corrected claim: the
    first 256 cells of every segment, in place; behind them the remainders
    of the over-long segments, cropped in the same way; [n] bounds the
    number of times that a remainder has a remainder again. *)
Fixpoint cropLevels (n : nat) (segs : list (list Z)) : list (list Z) :=
  map (take 256) segs
  ++ match n with
     | O => []
     | S k => cropLevels k (remainders segs)
     end.

Definition cropped (segs : list (list Z)) : list (list Z) :=
  cropLevels (length (concat segs)) segs.

(** A cell without a neighbour of equal type: the four neighbour tests of
    [exploreZone] fail. *)
Definition alone (tt : list Z) (w c : Z) : Prop :=
  ZoneCalculator.leftOk tt w c = false /\ ZoneCalculator.rightOk tt w c = false
  /\ ZoneCalculator.topOk tt w c = false /\ ZoneCalculator.bottomOk tt w c = false.

(** The record of a zone of one cell. *)
Definition cellZone (t c : Z) : ZoneCalculator.TileZone :=
  {| ZoneCalculator.id := t; ZoneCalculator.leftBorder := [c]; ZoneCalculator.leftBorderMap := {[c]} ∪ ∅;
     ZoneCalculator.topBorder := [c]; ZoneCalculator.topBorderMap := {[c]} ∪ ∅ |}.

(** A map of 2 rows and 65537 columns with 131072 zones.  The cells 0, 1
    and 65538 (the cell below the cell 1) are of type 0 and form the first
    zone; every other cell differs in type from its neighbours and is a zone
    of its own.  The cell 65536 is the 65536th zone found, and the cell
    65537, below the cell 0 and left of the cell 65538, is the 65537th. *)
(** Its three cells of the first zone. *)
Definition inFirstZone (c : Z) : bool := (c =? 0) || (c =? 1) || (c =? 65538).

Definition manyTile (c : Z) : Z :=
  if inFirstZone c then 0 else 1 + (c mod 65537 + c / 65537) mod 2.

Definition sand : TileType :=
  {| name := "sand"; colorBase := "yellow"; colorVariant := 3; conquerable := true;
     navigable := false; expansionTime := 40; expansionCost := 30 |}.

Definition mapManyZones : RawMapData :=
  {| width := 65537; height := 2;
     tiles := map (fun p => manyTile (Z.of_nat p)) (seq 0 (Z.to_nat 131074));
     types := [grass; water; sand] |}.

(** The record of the first zone of [mapManyZones]. *)
Definition firstZone : ZoneCalculator.TileZone :=
  {| ZoneCalculator.id := 0; ZoneCalculator.leftBorder := [0; 65538]; ZoneCalculator.leftBorderMap := {[65538]} ∪ ({[0]} ∪ ∅);
     ZoneCalculator.topBorder := [0; 1]; ZoneCalculator.topBorderMap := {[1]} ∪ ({[0]} ∪ ∅) |}.

(** The zone map with the marks of the first zone of [mapManyZones]. *)
Definition firstMarks (zm0 : list Z) : list Z :=
  set16 (set16 (set16 zm0 0 1) 1 1) 65538 1.

(** A zone map that marks the same cells with 1 as the zone map of
    [mapManyZones] does. *)
Definition manyMarks : list Z := [1; 1] ++ repeat 0 (Z.to_nat 65535) ++ [1; 1].


(** * Properties *)

(** ** The result monad *)

(** On a grid that has a size, [buildZones] is its scan from a zone map of
    zeros. *)
Lemma buildZones_unfold fuel data :
  0 <= width data * height data ->
  ZoneCalculator.buildZones fuel data
  = ZoneCalculator.buildLoop fuel (length (tiles data)) 0 (tiles data) (width data) []
      (repeat 0 (Z.to_nat (width data * height data))).
Proof.
  intros H. unfold ZoneCalculator.buildZones, ZoneCalculator.newUint16Array.
  by replace (width data * height data <? 0) with false by lia.
Qed.

Lemma bind_Ok {A B} (m : result A) (f : A -> result B) (b : B) :
  m ≫= f = Ok b -> exists a, m = Ok a /\ f a = Ok b.
Proof. destruct m as [a|e]; cbn; [eauto | discriminate]. Qed.

Lemma bind_Err {A B} (m : result A) (f : A -> result B) (e : Failure) :
  m ≫= f = Err e -> m = Err e \/ exists a, m = Ok a /\ f a = Err e.
Proof. destruct m as [a|e']; cbn; [eauto | intros [= ->]; auto]. Qed.

Lemma ofOption_Ok {A} (e : Failure) (o : option A) (a : A) :
  ofOption e o = Ok a -> o = Some a.
Proof. destruct o; cbn; congruence. Qed.

Lemma ofOption_Err {A} (e e' : Failure) (o : option A) :
  ofOption e o = Err e' -> e' = e /\ o = None.
Proof. destruct o; cbn; [discriminate | intros [= ->]; auto]. Qed.

(** ** The version gate of [decodeMap] *)

Section VersionGate.
Import BitStream MapDecoder.

Lemma readBits_Err n r e : readBits n r = Err e -> readFailure e.
Proof.
  unfold readBits, readFailure. destruct (_ <? _)%nat; [intros [= <-]; auto | discriminate].
Qed.

Lemma readBoolean_Err r e : readBoolean r = Err e -> readFailure e.
Proof. destruct r; cbn; [intros [= <-]; red; auto | discriminate]. Qed.

Lemma readString_Err n r e : readString n r = Err e -> readFailure e.
Proof.
  unfold readString. intros H.
  apply bind_Err in H as [H | ([len r1] & _ & H)]; [by eapply readBits_Err |].
  destruct (n <? len); [injection H as <-; red; auto |].
  destruct (_ <? _)%nat; [injection H as <-; red; auto | discriminate].
Qed.

Local Ltac step_err H :=
  apply bind_Err in H as [H | ([? ?] & _ & H)];
  [ first [ by eapply readBits_Err | by eapply readBoolean_Err | by eapply readString_Err ] | ].

Lemma readTypes_Err n r acc e : readTypes n r acc = Err e -> readFailure e.
Proof.
  revert r acc. induction n as [|n IH]; intros r acc H; [discriminate |].
  cbn [readTypes] in H. do 8 step_err H. by eapply IH.
Qed.

Lemma readTypeMap_Err r e : readTypeMap r = Err e -> readFailure e.
Proof. unfold readTypeMap. intros H. step_err H. by eapply readTypes_Err. Qed.

Lemma readChunk_Err r c e : readChunk r c = Err e -> readFailure e.
Proof.
  revert c. induction r as [|[] r IH]; intros c; cbn.
  - intros [= <-]; red; auto.
  - apply IH.
  - discriminate.
Qed.

Lemma putSteps_Err n r g w t p e : putSteps n r g w t p = Err e -> readFailure e.
Proof.
  revert r g p. induction n as [|n IH]; intros r g p H; [discriminate |].
  cbn [putSteps] in H. step_err H. by eapply IH.
Qed.

Lemma putLinesLoop_Err n r g w tl c e : putLinesLoop n r g w tl c = Err e -> readFailure e.
Proof.
  revert r g c. induction n as [|n IH]; intros r g c H; [discriminate |].
  cbn [putLinesLoop] in H.
  apply bind_Err in H as [H | ([? ?] & _ & H)]; [by eapply readChunk_Err |].
  do 4 step_err H.
  apply bind_Err in H as [H | ([? ?] & _ & H)]; [by eapply putSteps_Err |].
  by eapply IH.
Qed.

Lemma readCompressed_Err fuel r w h e :
  readCompressed fuel r w h = Err e -> readFailure e.
Proof.
  unfold readCompressed. intros H. do 3 step_err H.
  apply bind_Err in H as [H | ([? ?] & _ & H)]; [by eapply readTypeMap_Err |].
  apply bind_Err in H as [H | ([? ?] & _ & H)].
  { unfold putLines in H. step_err H. by eapply putLinesLoop_Err. }
  apply bind_Err in H as [H | (? & _ & H)]; [| discriminate].
  destruct b.
  - apply ofOption_Err in H as [-> _]. red; auto.
  - discriminate.
Qed.

Lemma valueOf_acc_nonneg bs acc :
  0 <= acc -> 0 <= fold_left (fun a (b : bool) => 2 * a + (if b then 1 else 0)) bs acc.
Proof.
  revert acc. induction bs as [|b bs IH]; intros acc Hacc; cbn; [done |].
  apply IH. destruct b; lia.
Qed.

Lemma valueOf_nonneg bs : 0 <= valueOf bs.
Proof. by apply valueOf_acc_nonneg. Qed.

Lemma readBits_nonneg n r v r' : readBits n r = Ok (v, r') -> 0 <= v.
Proof.
  unfold readBits. destruct (_ <? _)%nat; [discriminate |].
  intros [= <- _]. apply valueOf_nonneg.
Qed.

Lemma afterVersion_Err fuel r e : afterVersion fuel r = Err e -> readFailure e.
Proof.
  unfold afterVersion. intros H. do 2 step_err H.
  apply bind_Err in H as [H | ([? ?] & _ & H)]; [by eapply readCompressed_Err |].
  step_err H. discriminate.
Qed.

Lemma decodeMap_unfold fuel data :
  decodeMap fuel data =
    match readBits 4 (newReader data) with
    | Err e => Err e
    | Ok (version, reader) =>
        if 0 <? version then Err (UnsupportedVersion version)
        else afterVersion fuel reader
    end.
Proof.
  unfold decodeMap, afterVersion, CURRENT_VERSION, MINIMUM_VERSION.
  destruct (readBits 4 (newReader data)) as [[v r]|e] eqn:E; cbn; [| done].
  apply readBits_nonneg in E.
  replace (v <? 0) with false by lia. by rewrite orb_false_r.
Qed.

(** C7. [decodeMap] fails with [UnsupportedVersion] exactly when the first
    four bits of the stream hold a value above 0; when they hold 0 the
    version check is passed and decoding goes on with the width field. *)
Theorem decodeMap_version_gate (fuel : nat) (data : list Byte.byte) :
  ((exists v, decodeMap fuel data = Err (UnsupportedVersion v)) <->
   (exists v rest, readBits 4 (newReader data) = Ok (v, rest) /\ 0 < v)) /\
  (forall rest, readBits 4 (newReader data) = Ok (0, rest) ->
     decodeMap fuel data = afterVersion fuel rest).
Proof.
  rewrite decodeMap_unfold. split; [split |].
  - intros [v H]. destruct (readBits 4 (newReader data)) as [[v' r]|e] eqn:E.
    + destruct (0 <? v') eqn:Hv.
      * exists v', r. split; [done | lia].
      * apply afterVersion_Err in H as [H | [H | H]]; discriminate.
    + injection H as ->. apply readBits_Err in E as [E | [E | E]]; discriminate.
  - intros (v & rest & -> & Hv). exists v.
    by replace (0 <? v) with true by lia.
  - by intros rest ->.
Qed.

(** An instance: a stream that opens with the four bits 0001. *)
Lemma decodeMap_version_gate_witness :
  exists v, decodeMap 0 [Byte.x10; Byte.x00] = Err (UnsupportedVersion v).
Proof.
  apply (proj1 (decodeMap_version_gate 0 [Byte.x10; Byte.x00])).
  exists 1, [false; false; false; false; false; false; false; false;
             false; false; false; false].
  split; [reflexivity | lia].
Defined.

End VersionGate.

(** ** The layout of the line records *)

Section LineRecords.
Import BitStream MapEncoder.

Lemma checkChunkLoop_run fuel w chunk cur :
  cur <= chunk -> (Z.to_nat (chunk - cur) <= fuel)%nat ->
  checkChunkLoop fuel w chunk cur
  = Some (w ++ repeat true (Z.to_nat (chunk - cur)), chunk).
Proof.
  revert w cur. induction fuel as [|fuel IH]; intros w cur Hle Hfuel.
  - assert (chunk = cur) as -> by lia. cbn. rewrite Z.eqb_refl, Z.sub_diag.
    cbn. by rewrite app_nil_r.
  - cbn [checkChunkLoop]. destruct (chunk =? cur) eqn:E.
    + apply Z.eqb_eq in E as ->. rewrite Z.sub_diag. cbn. by rewrite app_nil_r.
    + apply Z.eqb_neq in E. rewrite IH by lia.
      replace (Z.to_nat (chunk - cur)) with (S (Z.to_nat (chunk - (cur + 1)))) by lia.
      unfold writeBits. cbn. by rewrite <- app_assoc.
Qed.

Lemma writeSteps_bits width prev rest w :
  writeSteps width prev rest w = w ++ stepBits width prev rest.
Proof.
  revert prev w. induction rest as [|cur rest IH]; intros prev w; cbn.
  - by rewrite app_nil_r.
  - rewrite IH. unfold writeBits. by rewrite <- app_assoc.
Qed.

Lemma stepBits_length width prev rest :
  length (stepBits width prev rest) = (2 * length rest)%nat.
Proof.
  revert prev. induction rest as [|cur rest IH]; intros prev; cbn; [done |].
  rewrite IH. lia.
Qed.

Lemma chunkOf_Some width position :
  width <> 0 -> chunkOf width position = Some (chunkNumber width position).
Proof. intros Hw. unfold chunkOf. by apply Z.eqb_neq in Hw as ->. Qed.

Lemma chunkOf_None position : chunkOf 0 position = None.
Proof. reflexivity. Qed.

Lemma writeLine_record fuel width typeLength w cur l :
  width <> 0 ->
  line l <> [] ->
  cur <= chunkNumber width (hd 0 (line l)) ->
  (Z.to_nat (chunkNumber width (hd 0%Z (line l)) - cur)%Z <= fuel)%nat ->
  writeLine fuel width typeLength w cur l
  = Ok (w ++ lineRecord width typeLength cur l, chunkNumber width (hd 0 (line l))).
Proof.
  intros Hw Hne Hle Hfuel.
  unfold writeLine, lineRecord, lineFields, chunkPrefix, positionInChunk.
  destruct (line l) as [|first rest] eqn:El; [done |]. cbn [hd tl].
  unfold checkChunk. rewrite chunkOf_Some by done.
  rewrite checkChunkLoop_run by done. cbn.
  rewrite writeSteps_bits. unfold writeBits. cbn [Z.to_nat Pos.to_nat Pos.iter_op Nat.add].
  f_equal. f_equal. rewrite <- !app_assoc. reflexivity.
Qed.

Lemma writeLinesLoop_records fuel width typeLength lines w cur :
  width <> 0 ->
  chunksAscend width cur lines -> 0 <= cur ->
  Forall (fun l => chunkNumber width (hd 0 (line l)) <= Z.of_nat fuel) lines ->
  writeLinesLoop fuel width typeLength lines w cur
  = Ok (w ++ lineRecords width typeLength cur lines).
Proof.
  intros Hw.
  revert w cur. induction lines as [|l lines IH]; intros w cur Hasc Hcur Hfuel; cbn.
  - by rewrite app_nil_r.
  - destruct Hasc as (Hne & Hle & Hasc). inversion Hfuel as [|? ? Hl Hrest]; subst.
    rewrite writeLine_record by (try done; lia). cbn.
    rewrite IH by (try done; lia). by rewrite <- app_assoc.
Qed.

(** C3 (as the code has it).  On a map of positive width, for lines that
    are not empty and whose starting chunks do not decrease, [writeLines]
    emits the 32-bit line count
    and then, per line and in this order: the chunk-advance prefix (one 1 bit
    per chunk to advance, then a 0 bit), one reserved 0 bit, the 8-bit
    [length - 1], the [typeLength]-bit type id, the 10-bit position in the
    chunk, and [length - 1] step codes of two bits each. *)
Theorem writeLines_layout (fuel : nat) (width typeLength : Z) (w : Writer)
    (lines : list LineData) :
  0 < width ->
  chunksAscend width 0 lines ->
  Forall (fun l => chunkNumber width (hd 0 (line l)) <= Z.of_nat fuel) lines ->
  writeLines fuel width w lines typeLength
  = Ok (w ++ bitsOf 32 (Z.of_nat (length lines)) ++ lineRecords width typeLength 0 lines)
  /\ Forall (fun l => length (stepBits width (hd 0 (line l)) (tl (line l)))
                      = (2 * (length (line l) - 1))%nat) lines.
Proof.
  intros Hw Hasc Hfuel. split.
  - unfold writeLines. rewrite writeLinesLoop_records by (try done; lia).
    unfold writeBits. by rewrite <- app_assoc.
  - apply Forall_forall. intros l _. rewrite stepBits_length.
    destruct (line l); cbn; lia.
Qed.

(** An instance: one line of three cells in chunk 0 of a map 4 cells wide. *)
Lemma writeLines_layout_witness :
  writeLines 0 4 [] [{| lid := 1; line := [0; 4; 5] |}] 1
  = Ok (bitsOf 32 1 ++ lineRecords 4 1 0 [{| lid := 1; line := [0; 4; 5] |}])
  /\ Forall (fun l => length (stepBits 4 (hd 0 (line l)) (tl (line l)))
                      = (2 * (length (line l) - 1))%nat)
       [{| lid := 1; line := [0; 4; 5] |}].
Proof.
  apply (writeLines_layout 0 4 1 [] [{| lid := 1; line := [0; 4; 5] |}]).
  - lia.
  - cbn. split; [discriminate | split; [by vm_compute | done]].
  - constructor; [by vm_compute | constructor].
Defined.

(** C3 as stated fails: the record of the single line [[0]] of a 1x1 map is
    not the prefix followed at once by the length field; the code writes a
    reserved bit in between, which makes the record one bit longer. *)
Lemma writeLines_reserved_bit :
  let l := {| lid := 0; line := [0] |} in
  writeLines 0 1 [] [l] 0 <> Ok (bitsOf 32 1 ++ lineRecordSpec 1 0 0 l)
  /\ (forall w, writeLines 0 1 [] [l] 0 = Ok w ->
        length w = S (length (bitsOf 32 1 ++ lineRecordSpec 1 0 0 l))).
Proof.
  split.
  - vm_compute. discriminate.
  - intros w. vm_compute. intros [= <-]. reflexivity.
Qed.

End LineRecords.

(** ** [cropLines] *)

Section CropLines.
Import MapEncoder.

Lemma cropLoop_step_long fuel done l pending :
  (256 < length l)%nat ->
  cropLoop (S fuel) (length done) (done ++ l :: pending)
  = cropLoop fuel (length (done ++ [take 256 l]))
      ((done ++ [take 256 l]) ++ pending ++ [drop 256 l]).
Proof.
  intros Hl. cbn [cropLoop].
  rewrite lookup_app_r, Nat.sub_diag by lia. cbn [lookup list_lookup].
  apply Nat.ltb_lt in Hl. rewrite Hl.
  rewrite insert_app_r_alt, Nat.sub_diag by lia. cbn [insert list_insert].
  rewrite length_app. cbn [length]. rewrite Nat.add_1_r.
  f_equal. by rewrite <- !app_assoc.
Qed.

Lemma cropLoop_step_short fuel done l pending :
  (length l <= 256)%nat ->
  cropLoop (S fuel) (length done) (done ++ l :: pending)
  = cropLoop fuel (length (done ++ [l])) ((done ++ [l]) ++ pending).
Proof.
  intros Hl. cbn [cropLoop].
  rewrite lookup_app_r, Nat.sub_diag by lia. cbn [lookup list_lookup].
  apply Nat.ltb_ge in Hl. rewrite Hl.
  rewrite length_app. cbn [length]. rewrite Nat.add_1_r.
  f_equal. by rewrite <- !app_assoc.
Qed.

Lemma cropLoop_end fuel done :
  cropLoop fuel (length done) (done ++ []) = Some done.
Proof.
  rewrite app_nil_r.
  assert (done !! length done = None) as E by (apply lookup_ge_None; lia).
  destruct fuel; cbn [cropLoop]; by rewrite E.
Qed.

Lemma cropLoop_zero done l pending :
  cropLoop 0 (length done) (done ++ l :: pending) = None.
Proof.
  cbn [cropLoop]. by rewrite lookup_app_r, Nat.sub_diag by lia.
Qed.

Lemma cropTurns_long l :
  (256 < length l)%nat -> cropTurns l = S (cropTurns (drop 256 l)).
Proof.
  intros Hl. unfold cropTurns. rewrite length_drop. f_equal.
  replace (length l - 1)%nat with ((length l - 256 - 1) + 1 * 256)%nat by lia.
  rewrite Nat.div_add by lia. lia.
Qed.

Lemma cropLoop_total fuel done pending :
  (list_sum (map cropTurns pending) <= fuel)%nat ->
  is_Some (cropLoop fuel (length done) (done ++ pending)).
Proof.
  revert done pending. induction fuel as [|fuel IH]; intros done pending Hfuel.
  - destruct pending as [|l pending]; [rewrite cropLoop_end; eauto |].
    cbn in Hfuel. unfold cropTurns in Hfuel at 1. lia.
  - destruct pending as [|l pending]; [rewrite cropLoop_end; eauto |].
    cbn [map list_sum fold_right] in Hfuel.
    destruct (Nat.lt_ge_cases 256 (length l)) as [Hl | Hl].
    + rewrite cropLoop_step_long by done. apply IH.
      rewrite map_app, list_sum_app.
      rewrite cropTurns_long in Hfuel by done.
      unfold list_sum in *. cbn [map fold_right] in *. lia.
    + rewrite cropLoop_step_short by done. apply IH.
      unfold cropTurns in Hfuel at 1. unfold list_sum in *. lia.
Qed.

Lemma cropLoop_result fuel done pending out :
  Forall short done ->
  cropLoop fuel (length done) (done ++ pending) = Some out ->
  Forall short out
  /\ (exists more, out = done ++ map (take 256) pending ++ more)
  /\ Permutation (concat out) (concat (done ++ pending)).
Proof.
  revert done pending. induction fuel as [|fuel IH]; intros done pending Hdone H.
  - destruct pending as [|l pending]; [| by rewrite cropLoop_zero in H].
    rewrite cropLoop_end in H. injection H as <-.
    split; [done |]. split; [exists []; by rewrite app_nil_r | by rewrite app_nil_r].
  - destruct pending as [|l pending].
    { rewrite cropLoop_end in H. injection H as <-.
      split; [done |]. split; [exists []; by rewrite app_nil_r | by rewrite app_nil_r]. }
    destruct (Nat.lt_ge_cases 256 (length l)) as [Hl | Hl].
    + rewrite cropLoop_step_long in H by done.
      apply IH in H as (Hs & [more ->] & Hp).
      2:{ apply Forall_app. split; [done |]. constructor; [| done].
          red. rewrite length_take. lia. }
      split; [done |]. split.
      * exists (take 256 (drop 256 l) :: more).
        rewrite map_app. cbn. by rewrite <- !app_assoc.
      * rewrite Hp. rewrite !concat_app. cbn. rewrite !app_nil_r.
        rewrite <- !app_assoc. apply Permutation_app_head.
        rewrite <- (take_drop 256 l) at 3. rewrite <- app_assoc.
        apply Permutation_app_head. apply Permutation_app_comm.
    + rewrite cropLoop_step_short in H by done.
      apply IH in H as (Hs & [more ->] & Hp).
      2:{ apply Forall_app. split; [done |]. by constructor. }
      split; [done |]. split.
      * exists more. cbn. rewrite take_ge by done. by rewrite <- !app_assoc.
      * rewrite Hp. by rewrite <- !app_assoc.
Qed.

(** C4 as stated fails: a segment of 600 cells is cut into pieces of 256,
    256 and 88 cells; the pushed tail of 344 cells is cropped again and no
    segment longer than 256 cells is left. *)
Lemma cropLines_tail_cropped_again :
  (512 < length (column 600))%nat
  /\ cropLines 3 [column 600]
     = Some [take 256 (column 600); take 256 (drop 256 (column 600));
             drop 512 (column 600)]
  /\ ~ Exists (fun l => (256 < length l)%nat)
         [take 256 (column 600); take 256 (drop 256 (column 600));
          drop 512 (column 600)].
Proof.
  split; [vm_compute; lia |]. split; [by vm_compute |].
  apply Forall_Exists_neg. repeat constructor; vm_compute; lia.
Qed.

End CropLines.

(** ** [chunkLines] *)

Section ChunkLines.
Import MapEncoder.

Lemma chunkNumber_spec width cell :
  0 < width -> 0 <= cell -> chunkNumber width cell = chunkIdSpec width cell.
Proof.
  intros Hw Hc. unfold chunkNumber, chunkIdSpec.
  rewrite Z.rem_mod_nonneg by lia. lia.
Qed.

Lemma indexOfFrom_found {A} `{EqDecision A} (x : A) (a : list A) (i : Z) :
  x ∈ a ->
  exists n : nat, indexOfFrom x a i = i + Z.of_nat n /\ a !! n = Some x.
Proof.
  revert i. induction a as [|y a IH]; intros i Hin; [by apply elem_of_nil in Hin |].
  cbn. destruct (decide (y = x)) as [-> | Hne].
  - exists 0%nat. split; [lia | done].
  - apply elem_of_cons in Hin as [-> | Hin]; [done |].
    destruct (IH (i + 1) Hin) as (n & -> & Hn).
    exists (S n). split; [lia | done].
Qed.

(** On the lines of the list the comparator of [chunkLines] is the
    difference of the starting chunks. *)
Lemma chunkCmp_members width lines a b :
  0 < width -> Forall startsInGrid lines -> a ∈ lines -> b ∈ lines ->
  chunkCmp lines (chunkMapOf width lines) a b = startChunk width a - startChunk width b.
Proof.
  intros Hw Hall Ha Hb.
  assert (forall x, x ∈ lines ->
            mjoin (geti (chunkMapOf width lines) (indexOf lines x))
            = Some (startChunk width x)) as Hlook.
  { intros x Hx. destruct (indexOfFrom_found x lines 0 Hx) as (n & Hn & Hnx).
    unfold indexOf. rewrite Hn. unfold geti.
    replace (0 + Z.of_nat n <? 0) with false by lia.
    replace (Z.to_nat (0 + Z.of_nat n)) with n by lia.
    unfold chunkMapOf. rewrite list_lookup_fmap, Hnx. cbn.
    rewrite Forall_forall in Hall. destruct (Hall x Hx) as [Hne Hpos].
    unfold startChunk. destruct (line x) as [|c rest]; [done |]. cbn in *.
    rewrite chunkOf_Some by lia. cbn. by rewrite chunkNumber_spec. }
  unfold chunkCmp. by rewrite (Hlook a Ha), (Hlook b Hb).
Qed.

Lemma filter_none {B} (Q : B -> Prop) `{forall x, Decision (Q x)} (l : list B) :
  Forall (fun x => ~ Q x) l -> filter Q l = [].
Proof.
  induction 1 as [|x l Hx _ IH]; [done |]. by rewrite filter_cons_False.
Qed.

Context {A : Type} (key : A -> Z) (cmp : A -> A -> Z) (P : A -> Prop).
Hypothesis cmp_key : forall a b, P a -> P b -> cmp a b = key a - key b.

Local Abbreviation keyLe := (fun a b => key a <= key b).

Lemma sortInsert_perm x s : Permutation (sortInsert cmp x s) (s ++ [x]).
Proof.
  induction s as [|y s IH]; cbn; [done |].
  destruct (cmp y x <=? 0).
  - by constructor.
  - change (x :: y :: s) with ([x] ++ (y :: s)). apply Permutation_app_comm.
Qed.

Lemma sortInsert_sorted x s :
  P x -> Forall P s -> StronglySorted keyLe s -> StronglySorted keyLe (sortInsert cmp x s).
Proof.
  intros Hx Hs Hsorted. induction Hsorted as [|y s Hsorted IH Hy]; cbn.
  - repeat constructor.
  - inversion Hs as [|? ? Py Ps]; subst. rewrite (cmp_key y x) by done.
    destruct (key y - key x <=? 0) eqn:E.
    + constructor; [by apply IH |].
      rewrite (sortInsert_perm x s). apply Forall_app. split; [done |].
      constructor; [lia | constructor].
    + constructor; [by constructor |].
      constructor; [lia |]. eapply Forall_impl; [exact Hy |]. cbn. lia.
Qed.

Lemma sortInsert_filter x s c :
  P x -> Forall P s -> StronglySorted keyLe s ->
  filter (fun a => key a = c) (sortInsert cmp x s)
  = filter (fun a => key a = c) s ++ filter (fun a => key a = c) [x].
Proof.
  intros Hx Hs Hsorted. induction Hsorted as [|y s Hsorted IH Hy]; cbn [sortInsert].
  - done.
  - inversion Hs as [|? ? Py Ps]; subst. rewrite (cmp_key y x) by done.
    destruct (key y - key x <=? 0) eqn:E.
    + rewrite !filter_cons. rewrite IH by done.
      destruct (decide (key y = c)); by rewrite ?filter_cons.
    + rewrite (filter_cons _ x). rewrite (filter_cons _ x []), filter_nil.
      destruct (decide (key x = c)) as [Hc | Hc]; [| by rewrite app_nil_r].
      assert (filter (fun a => key a = c) (y :: s) = []) as ->; [| done].
      apply filter_none. constructor; [lia |].
      eapply Forall_impl; [exact Hy |]. cbn. lia.
Qed.

Lemma jsSort_acc l acc :
  Forall P l -> Forall P acc -> StronglySorted keyLe acc ->
  let out := fold_left (fun sorted x => sortInsert cmp x sorted) l acc in
  Permutation out (acc ++ l) /\ StronglySorted keyLe out
  /\ forall c, filter (fun a => key a = c) out
               = filter (fun a => key a = c) acc ++ filter (fun a => key a = c) l.
Proof.
  revert acc. induction l as [|x l IH]; intros acc Hl Hacc Hsorted; cbn.
  - rewrite app_nil_r. split; [done |]. split; [done |].
    intros c. rewrite ?filter_nil. by rewrite app_nil_r.
  - inversion Hl as [|? ? Px Pl]; subst.
    destruct (IH (sortInsert cmp x acc)) as (Hperm & Hs & Hf); [done | | |].
    + rewrite (sortInsert_perm x acc). apply Forall_app. split; [done | by constructor].
    + by apply sortInsert_sorted.
    + split; [| split; [done |]].
      * rewrite Hperm, (sortInsert_perm x acc). by rewrite <- app_assoc.
      * intros c. rewrite Hf, sortInsert_filter by done.
        rewrite <- app_assoc. f_equal. by rewrite <- filter_app.
Qed.

End ChunkLines.

(** C5. [chunkLines] sorts the lines stably by the chunk of their first
    cell: the outcome holds the same lines, the chunk ids do not decrease
    along it, and the lines of any one chunk keep their order. *)
Theorem chunkLines_stable_sort (width : Z) (lines : list MapEncoder.LineData) :
  0 < width -> Forall startsInGrid lines ->
  Permutation (MapEncoder.chunkLines width lines) lines
  /\ StronglySorted (fun a b => startChunk width a <= startChunk width b)
       (MapEncoder.chunkLines width lines)
  /\ forall c, filter (fun l => startChunk width l = c) (MapEncoder.chunkLines width lines)
               = filter (fun l => startChunk width l = c) lines.
Proof.
  intros Hw Hall.
  destruct (jsSort_acc (startChunk width)
              (MapEncoder.chunkCmp lines (MapEncoder.chunkMapOf width lines))
              (fun l => l ∈ lines)
              (fun a b Ha Hb => chunkCmp_members width lines a b Hw Hall Ha Hb)
              lines []) as (Hperm & Hsorted & Hstable).
  - by apply Forall_forall.
  - constructor.
  - constructor.
  - unfold MapEncoder.chunkLines, MapEncoder.jsSort. split; [done |]. split; [done |].
    intros c. by rewrite Hstable.
Qed.

(** An instance: four one-cell lines of a map 40 cells wide, in the chunks
    2, 0, 1 and 0. *)
Lemma chunkLines_stable_sort_witness :
  let lines := map (fun c => {| MapEncoder.lid := 0; MapEncoder.line := [c] |})
                 [1300; 5; 39; 0] in
  Permutation (MapEncoder.chunkLines 40 lines) lines
  /\ StronglySorted (fun a b => startChunk 40 a <= startChunk 40 b)
       (MapEncoder.chunkLines 40 lines)
  /\ forall c, filter (fun l => startChunk 40 l = c) (MapEncoder.chunkLines 40 lines)
               = filter (fun l => startChunk 40 l = c) lines.
Proof.
  apply (chunkLines_stable_sort 40); [lia |].
  repeat constructor; cbn; (discriminate || lia).
Defined.

(** ** The top-to-bottom fill *)

Section TopToBottom.
Import MapDecoder.

Lemma set16_length a i v : length (set16 a i v) = length a.
Proof. unfold set16. destruct (i <? 0); [done | apply length_insert]. Qed.

Lemma geti_set16_ne a i j v : i <> j -> geti (set16 a i v) j = geti a j.
Proof.
  intros Hne. unfold geti, set16. destruct (j <? 0) eqn:Ej; [done |].
  destruct (i <? 0) eqn:Ei; [done |].
  apply list_lookup_insert_ne. lia.
Qed.

Lemma fillCell_length vm i st : length (fillCell vm i st).1 = length st.1.
Proof. destruct st as [res cur]. cbn. apply set16_length. Qed.

Lemma fillCell_other vm i j st : i <> j -> geti (fillCell vm i st).1 j = geti st.1 j.
Proof. intros Hne. destruct st as [res cur]. cbn. by apply geti_set16_ne. Qed.

(** The loop never stores into the last cell. *)
Lemma fillT2B_last_cell fuel vm w i st out :
  fillT2B fuel vm w i st = Some out ->
  length out = length st.1
  /\ geti out (Z.of_nat (length st.1) - 1) = geti st.1 (Z.of_nat (length st.1) - 1).
Proof.
  revert i st. induction fuel as [|fuel IH]; intros i st; cbn [fillT2B].
  - destruct (i <? _); [discriminate | by intros [= <-]].
  - destruct (i <? _) eqn:E; [| by intros [= <-]].
    intros H. apply IH in H as [Hlen Hget].
    rewrite fillCell_length in Hlen, Hget. split; [done |].
    rewrite Hget. apply fillCell_other. lia.
Qed.

Section Grid.
Context (w h : Z) (Hw : 0 < w) (Hh : 0 < h).

Lemma colMajorCell_next p :
  0 <= p -> p + 1 < w * h ->
  colMajorCell w h p < w * h - 1
  /\ (if w * h - w <=? colMajorCell w h p
      then Z.rem (colMajorCell w h p + 1) w else colMajorCell w h p + w)
     = colMajorCell w h (p + 1).
Proof.
  intros Hp Hlt. unfold colMajorCell.
  pose proof (Z.div_mod p h ltac:(lia)) as Hdm.
  pose proof (Z.mod_pos_bound p h Hh) as Hr.
  pose proof (Z.div_pos p h Hp Hh) as Hc.
  set (c := p / h) in *. set (r := p mod h) in *.
  assert (c < w) as Hcw by nia.
  destruct (Z.eq_dec r (h - 1)) as [Er | Er].
  - assert (c + 1 < w) as Hc1 by nia.
    assert ((p + 1) / h = c + 1) as ->.
    { symmetry. apply (Z.div_unique _ _ _ 0); lia. }
    assert ((p + 1) mod h = 0) as ->.
    { symmetry. apply (Z.mod_unique _ _ (c + 1)); lia. }
    split; [nia |].
    replace (w * h - w <=? c + r * w) with true by (symmetry; apply Z.leb_le; nia).
    rewrite Z.rem_mod_nonneg by nia.
    rewrite Er. replace (c + (h - 1) * w + 1) with (c + 1 + (h - 1) * w) by lia.
    rewrite Z.mod_add by lia. rewrite Z.mod_small by lia. lia.
  - assert ((p + 1) / h = c) as ->.
    { symmetry. apply (Z.div_unique _ _ _ (r + 1)); lia. }
    assert ((p + 1) mod h = r + 1) as ->.
    { symmetry. apply (Z.mod_unique _ _ c); lia. }
    split; [nia |].
    replace (w * h - w <=? c + r * w) with false by (symmetry; apply Z.leb_gt; nia).
    lia.
Qed.

Lemma colMajorCell_last : colMajorCell w h (w * h - 1) = w * h - 1.
Proof.
  unfold colMajorCell.
  assert ((w * h - 1) / h = w - 1) as ->.
  { symmetry. apply (Z.div_unique _ _ _ (h - 1)); lia. }
  assert ((w * h - 1) mod h = h - 1) as ->.
  { symmetry. apply (Z.mod_unique _ _ (w - 1)); lia. }
  lia.
Qed.

Lemma fillT2B_walk vm (k : nat) : forall fuel p st,
  0 <= p -> p = w * h - 1 - Z.of_nat k -> Z.of_nat (length st.1) = w * h ->
  (k <= fuel)%nat ->
  fillT2B fuel vm w (colMajorCell w h p) st
  = Some (fold_left (fun st i => fillCell vm i st)
            (map (fun q => colMajorCell w h (p + Z.of_nat q)) (seq 0 k)) st).1.
Proof.
  induction k as [|k IH]; intros fuel p st Hp Hk Hlen Hfuel.
  - assert (p = w * h - 1) as -> by lia. rewrite colMajorCell_last.
    destruct fuel; cbn [fillT2B]; rewrite Hlen, Z.ltb_irrefl; done.
  - destruct fuel as [|fuel]; [lia |]. cbn [fillT2B]. rewrite Hlen.
    destruct (colMajorCell_next p) as [Hlt Hnext]; [lia | lia |].
    replace (colMajorCell w h p <? w * h - 1) with true by lia.
    rewrite Hnext, IH; [| lia | lia | by rewrite fillCell_length | lia].
    cbn [seq map fold_left]. rewrite Z.add_0_r. f_equal. f_equal. f_equal.
    rewrite <- seq_shift, map_map. apply map_ext. intros q. f_equal. lia.
Qed.

End Grid.

End TopToBottom.

(** ** The failures of [encodeMap] *)

Section EncodeFailures.
Import BitStream ZoneCalculator MapEncoder.

















End EncodeFailures.



(** ** Round trips that fail *)

(** C1, at two failing inputs.  A map whose palette has an unused entry
    before a used one comes back with the compacted type number in its
    tiles; a map for which the top-to-bottom direction is chosen and whose
    last cell is not an anchor comes back with 0 in its last cell. *)
Theorem roundTrip_fails :
  (exists bytes, encodeMap 8 mapUnusedEntry = Ok bytes
     /\ decodeMap 8 bytes
        = Ok {| width := 1; height := 1; tiles := [0]; types := [grass; water] |})
  /\ (exists bytes, encodeMap 8 mapTwoColumns = Ok bytes
        /\ decodeMap 8 bytes
           = Ok {| width := 2; height := 2; tiles := [0; 1; 0; 0];
                   types := [grass; water] |}).
Proof.
  split; eexists; (split; [vm_compute; reflexivity | vm_compute; reflexivity]).
Qed.

(** C2, at a failing input.  One of two palette entries is used: the
    encoder computes a type width of 0 bits from the used types, the decoder
    a type width of 1 bit from the palette it has read. *)
Theorem typeLength_differs :
  (exists zones tileMap usedTypes zones',
      ZoneCalculator.buildZones 8 mapUnusedEntry = Ok (zones, tileMap)
      /\ MapEncoder.validateTileTypeUsage (types mapUnusedEntry) zones = Ok (usedTypes, zones')
      /\ log2ceil (Z.of_nat (length usedTypes)) = 0)
  /\ (exists bytes decoded,
        encodeMap 8 mapUnusedEntry = Ok bytes
        /\ decodeMap 8 bytes = Ok decoded
        /\ log2ceil (Z.of_nat (length (types decoded))) = 1).
Proof.
  split.
  - do 4 eexists. split; [vm_compute; reflexivity |].
    split; [vm_compute; reflexivity | reflexivity].
  - do 2 eexists. split; [vm_compute; reflexivity |].
    split; [vm_compute; reflexivity | reflexivity].
Qed.

(** ** Lines stay inside their zone *)

Lemma last_rev {A} (l : list A) : last (rev l) = head l.
Proof. rewrite rev_alt. apply last_reverse. Qed.

Lemma head_rev {A} (l : list A) : head (rev l) = last l.
Proof. rewrite rev_alt. apply head_reverse. Qed.

Section Chains.
Context (w : Z).

Lemma step_sym a b : step w a b -> step w b a.
Proof. unfold step. lia. Qed.

Lemma chain_snoc l a :
  chain w (l ++ [a]) <-> chain w l /\ (forall b, last l = Some b -> step w b a).
Proof.
  induction l as [|x l IH]; cbn [app chain].
  - split; [intros _; split; [done | by intros b] | done].
  - rewrite IH. destruct l as [|y l]; cbn [app].
    + split.
      * intros [Hs _]. split; [done |]. intros b [= <-]. done.
      * intros [_ Hs]. split; [by apply Hs | split; [done | by intros b]].
    + rewrite last_cons_cons. tauto.
Qed.

Lemma chain_glue l1 x l2 :
  chain w (l1 ++ [x]) -> chain w (x :: l2) -> chain w (l1 ++ x :: l2).
Proof.
  induction l1 as [|a l1 IH]; cbn [app chain]; [done |].
  intros [Ha H1] H2. split; [| by apply IH].
  destruct l1; cbn in *; done.
Qed.

Lemma chain_app_l l1 l2 : chain w (l1 ++ l2) -> chain w l1.
Proof.
  induction l1 as [|a l1 IH]; cbn [app chain]; [done |].
  intros [Ha H]. split; [| by apply IH]. destruct l1; cbn in *; done.
Qed.

Lemma chain_app_r l1 l2 : chain w (l1 ++ l2) -> chain w l2.
Proof.
  induction l1 as [|a l1 IH]; cbn [app chain]; [done |]. intros [_ H]. by apply IH.
Qed.

Lemma chain_rev l : chain w l -> chain w (rev l).
Proof.
  induction l as [|a l IH]; cbn [rev chain]; [done |].
  intros [Ha H]. apply chain_snoc. split; [by apply IH |].
  intros b Hb. rewrite last_rev in Hb.
  destruct l as [|y l]; [done |]. injection Hb as <-. by apply step_sym.
Qed.

Lemma chain_take n l : chain w l -> chain w (take n l).
Proof. intros H. rewrite <- (take_drop n l) in H. by eapply chain_app_l. Qed.

Lemma chain_drop n l : chain w l -> chain w (drop n l).
Proof. intros H. rewrite <- (take_drop n l) in H. by eapply chain_app_r. Qed.

End Chains.

Lemma geti_nat {A} (a : list A) (n : nat) : geti a (Z.of_nat n) = a !! n.
Proof.
  unfold geti. destruct (Z.ltb_spec (Z.of_nat n) 0); [lia |]. by rewrite Nat2Z.id.
Qed.

Lemma geti_Some {A} (a : list A) (i : Z) (x : A) :
  geti a i = Some x -> 0 <= i /\ a !! Z.to_nat i = Some x.
Proof.
  unfold geti. destruct (Z.ltb_spec i 0) as [Hi | Hi]; [discriminate |].
  intros Hx. split; [lia | done].
Qed.

Section IndexOf.
Context {A : Type} `{EqDecision A}.

Lemma indexOfFrom_spec (x : A) (a : list A) (i : Z) :
  (indexOfFrom x a i = -1 /\ x ∉ a)
  \/ (exists n : nat, indexOfFrom x a i = i + Z.of_nat n /\ a !! n = Some x
                      /\ forall m : nat, (m < n)%nat -> a !! m <> Some x).
Proof.
  revert i. induction a as [|y a IH]; intros i; cbn.
  - left. split; [done | apply not_elem_of_nil].
  - destruct (decide (y = x)) as [-> | Hne].
    + right. exists 0%nat. split; [lia |]. split; [done |]. intros m Hm. lia.
    + destruct (IH (i + 1)) as [[-> Hnot] | (n & -> & Hn & Hfirst)].
      * left. split; [done |]. rewrite not_elem_of_cons. done.
      * right. exists (S n). split; [lia |]. split; [done |].
        intros [|m] Hm; cbn; [congruence | apply Hfirst; lia].
Qed.

Lemma indexOf_geti (a : list A) (x y : A) : geti a (indexOf a x) = Some y -> y = x.
Proof.
  unfold indexOf. destruct (indexOfFrom_spec x a 0) as [[-> _] | (n & -> & Hn & _)].
  - discriminate.
  - rewrite Z.add_0_l, geti_nat. congruence.
Qed.

Lemma indexOf_NoDup (a : list A) (i : Z) (x : A) :
  NoDup a -> geti a i = Some x -> indexOf a x = i.
Proof.
  intros Hnd Hi. apply geti_Some in Hi as [Hpos Hi].
  unfold indexOf. destruct (indexOfFrom_spec x a 0) as [[_ Hnot] | (n & -> & Hn & _)].
  - exfalso. apply Hnot. by eapply list_elem_of_lookup_2.
  - assert (n = Z.to_nat i) as -> by (eapply NoDup_lookup; eauto). lia.
Qed.

End IndexOf.

Section Paths.
Import MapEncoder.
Context (w zoneId : Z) (tm : list Z).

Local Abbreviation entryOk := (queueEntryOk w tm zoneId).

Lemma pushNeighbours_ok start point path0 cands open paths vis open' paths' vis' :
  entryOk start point path0 ->
  Forall (step w point) cands ->
  Forall2 (entryOk start) open paths ->
  pushNeighbours cands zoneId tm path0 open paths vis = (open', paths', vis') ->
  Forall2 (entryOk start) open' paths'.
Proof.
  intros (Hlast & Hchain & Hzone) Hcands. revert open paths vis.
  induction Hcands as [|c cands Hc _ IH]; intros open paths vis Hq H; cbn in H.
  - by injection H as <- <- _.
  - destruct (negb _ && bool_decide _) eqn:E; [| by eapply IH].
    eapply IH; [| exact H]. apply Forall2_app; [done |].
    constructor; [| constructor].
    apply andb_true_iff in E as [_ Ez]. apply bool_decide_eq_true in Ez.
    split; [| split].
    + by rewrite app_comm_cons, last_snoc.
    + rewrite app_comm_cons. apply chain_snoc. split; [done |].
      intros b Hb. rewrite Hlast in Hb. by injection Hb as <-.
    + apply Forall_app. split; [done | by constructor].
Qed.

Lemma pathsLoop_ok start fuel pm open paths vis res out :
  Forall2 (entryOk start) open paths ->
  Forall (foundOk w tm zoneId start) res ->
  pathsLoop fuel w pm zoneId tm open paths vis res = Ok out ->
  Forall (foundOk w tm zoneId start) out.
Proof.
  revert open paths vis res. induction fuel as [|fuel IH]; intros open paths vis res Hq Hres H.
  - destruct Hq; cbn in H; [by injection H as <- | discriminate].
  - destruct Hq as [|point path0 open paths Hentry Hq]; cbn [pathsLoop] in H;
      [by injection H as <- |].
    assert (Forall (foundOk w tm zoneId start)
              (if decide (point ∈ pm) then res ++ [(point, removelast path0)] else res))
      as Hres'.
    { destruct (decide _); [| done]. apply Forall_app. split; [done |].
      constructor; [| constructor]. destruct Hentry as (Hlast & Hchain & Hzone).
      destruct (decide (path0 = [])) as [-> | Hne].
      - left. cbn in *. split; [congruence | done].
      - right. cbn [fst snd].
        assert (path0 = removelast path0 ++ [point]) as Hsplit.
        { destruct (exists_last Hne) as (l' & x & ->).
          rewrite app_comm_cons, last_snoc in Hlast. injection Hlast as ->.
          by rewrite removelast_last. }
        split.
        + by rewrite <- Hsplit.
        + rewrite Hsplit in Hzone. by apply Forall_app in Hzone as [? _]. }
    destruct (_ <? 8); [| by eapply IH].
    destruct (pushNeighbours _ _ _ _ _ _ _) as [[open' paths'] vis'] eqn:Ep.
    eapply IH; [| exact Hres' | exact H].
    eapply pushNeighbours_ok; [exact Hentry | | exact Hq | exact Ep].
    repeat constructor; unfold step; lia.
Qed.

Lemma calculatePaths_ok fuel start pm out :
  calculatePaths fuel w start pm zoneId tm = Ok out ->
  Forall (foundOk w tm zoneId start) out.
Proof.
  unfold calculatePaths. apply pathsLoop_ok; [| constructor].
  constructor; [| constructor]. split; [done | split; [by cbn | constructor]].
Qed.

Context (points : list Z) (Hnd : NoDup points).

Lemma addConnections_ok i start found cm cm' :
  geti points i = Some start ->
  Forall (foundOk w tm zoneId start) found ->
  Forall (Forall (connOk w tm zoneId points)) cm ->
  addConnections points i found cm = Ok cm' ->
  Forall (Forall (connOk w tm zoneId points)) cm'.
Proof.
  intros Hi Hfound. revert cm.
  induction Hfound as [|[point pth] found Hf _ IH]; intros cm Hcm H; cbn [addConnections] in H.
  - by injection H as <-.
  - destruct (i <=? indexOf points point) eqn:Ei; [by eapply IH |].
    destruct (cm !! length pth) eqn:Eb; [| discriminate].
    eapply IH; [| exact H]. apply Forall_alter; [done |].
    intros b Hb Hpb. apply Forall_app. split; [done |].
    constructor; [| constructor]. split; cbn; [lia |].
    intros vf vt Hvf Hvt. rewrite Hi in Hvf. injection Hvf as <-.
    apply indexOf_geti in Hvt as ->.
    destruct Hf as [[Hp _] | Hf]; [| done]. cbn in Hp. subst point.
    rewrite (indexOf_NoDup points i start Hnd Hi) in Ei. lia.
Qed.

Lemma connectionsLoop_ok fuel rest i pm cm cm' :
  (forall (k : nat) p, rest !! k = Some p -> geti points (i + Z.of_nat k) = Some p) ->
  Forall (Forall (connOk w tm zoneId points)) cm ->
  connectionsLoop fuel w points rest i pm zoneId tm cm = Ok cm' ->
  Forall (Forall (connOk w tm zoneId points)) cm'.
Proof.
  revert i cm. induction rest as [|p rest IH]; intros i cm Hrest Hcm H; cbn [connectionsLoop] in H.
  - by injection H as <-.
  - apply bind_Ok in H as (found & Hfound & H). apply bind_Ok in H as (cm1 & Hcm1 & H).
    eapply IH; [| | exact H].
    + intros k q Hk. replace (i + 1 + Z.of_nat k) with (i + Z.of_nat (S k)) by lia.
      by apply Hrest.
    + eapply addConnections_ok; [| | exact Hcm | exact Hcm1].
      * specialize (Hrest 0%nat p eq_refl). by rewrite Z.add_0_r in Hrest.
      * by eapply calculatePaths_ok.
Qed.

Lemma calculateConnections_ok fuel pm cm :
  calculateConnections fuel w points pm zoneId tm = Ok cm ->
  Forall (connOk w tm zoneId points) (concat cm).
Proof.
  unfold calculateConnections. intros H. apply Forall_concat.
  eapply connectionsLoop_ok; [| | exact H].
  - intros k p Hk. by rewrite Z.add_0_l, geti_nat.
  - repeat constructor.
Qed.

End Paths.

Section Segments.
Import MapEncoder.
Context (w zoneId : Z) (tm : list Z).

Local Abbreviation good := (zoneChain w tm zoneId).

Lemma firstIs_head s v : firstIs s v = true <-> head s = Some v.
Proof.
  destruct s as [|x s]; cbn; [split; discriminate |].
  rewrite Z.eqb_eq. split; congruence.
Qed.

Lemma atEnd_not_first s v : atEnd s v -> firstIs s v = false -> exists s0, s = s0 ++ [v].
Proof.
  intros [Hh | Hl] Hf.
  - apply firstIs_head in Hh. congruence.
  - by apply last_Some.
Qed.

Lemma last_app_ne {A} (l1 l2 : list A) : l2 <> [] -> last (l1 ++ l2) = last l2.
Proof.
  intros Hne. rewrite last_app. destruct (last l2) eqn:E; [done |].
  by apply last_None in E.
Qed.

Lemma head_app_ne {A} (l1 l2 : list A) : l1 <> [] -> head (l1 ++ l2) = head l1.
Proof. destruct l1; [done | by intros _]. Qed.

Lemma chain_rev_path a pth b :
  chain w (a :: pth ++ [b]) -> chain w (b :: rev pth ++ [a]).
Proof.
  intros H. apply chain_rev in H. cbn [rev] in H. by rewrite rev_app_distr in H.
Qed.

Lemma concatSegment_ok s pth ending toAdd :
  good s -> atEnd s ending ->
  chain w (toAdd :: pth ++ [ending]) -> Forall (inZone tm zoneId) pth ->
  inZone tm zoneId toAdd ->
  good (concatSegment s pth ending toAdd)
  /\ atEnd (concatSegment s pth ending toAdd) toAdd
  /\ (forall v, atEnd s v -> v <> ending -> atEnd (concatSegment s pth ending toAdd) v).
Proof.
  intros [Hz Hc] Hend Hpath Hpz Hadd. unfold concatSegment.
  destruct (firstIs s ending) eqn:Ef.
  - apply firstIs_head in Ef. apply head_Some in Ef as [s1 ->].
    split; [split |]; [| | split].
    + constructor; [done |]. by apply Forall_app.
    + rewrite app_comm_cons. apply chain_glue; [by rewrite <- app_comm_cons | done].
    + by left.
    + intros v [Hv | Hv] Hne; [cbn in Hv; congruence |]. right.
      rewrite app_comm_cons. by rewrite last_app_ne.
  - destruct (atEnd_not_first s ending Hend Ef) as [s0 ->].
    split; [split |]; [| | split].
    + apply Forall_app. split; [done |]. apply Forall_app. split; [| by constructor].
      by apply Forall_rev.
    + rewrite <- app_assoc. cbn [app]. apply chain_glue; [done |].
      by apply chain_rev_path.
    + right. by rewrite !app_assoc, last_snoc.
    + intros v [Hv | Hv] Hne.
      * left. rewrite head_app_ne; [done |]. by destruct s0.
      * rewrite last_snoc in Hv. congruence.
Qed.

Lemma connectSegments_ok a b vf vt pth b' start :
  good a -> good b -> atEnd a vf -> atEnd b vt ->
  chain w (vf :: pth ++ [vt]) -> Forall (inZone tm zoneId) pth ->
  connectSegments a b vf vt pth = (b', Some start) ->
  good b'
  /\ (forall v, atEnd a v -> v <> vf -> v = start)
  /\ (start <> vf -> atEnd b' start)
  /\ (forall v, atEnd b v -> v <> vt -> atEnd b' v).
Proof.
  intros [Haz Hac] [Hbz Hbc] Ha Hb Hpath Hpz. unfold connectSegments.
  destruct (firstIs b vt) eqn:Eb; destruct (firstIs a vf) eqn:Ea.
  - (* rev a ++ pth ++ b *)
    apply firstIs_head in Ea as Ha1. apply head_Some in Ha1 as [a1 ->].
    apply firstIs_head in Eb as Hb1. apply head_Some in Hb1 as [b1 ->].
    intros [= <- Hs]. change (rev a1 ++ [vf]) with (rev (vf :: a1)) in *.
    split; [split |]; [| | split; [| split]].
    + apply Forall_app. split; [by apply Forall_rev |]. by apply Forall_app.
    + cbn [rev]. rewrite <- app_assoc. cbn [app]. apply chain_glue.
      * apply chain_rev in Hac. by cbn [rev] in Hac.
      * rewrite app_comm_cons. apply chain_glue; [by rewrite <- app_comm_cons | done].
    + intros v [Hv | Hv] Hne; [cbn in Hv; congruence |].
      destruct (firstIs (rev (vf :: a1)) vf) eqn:E.
      * apply firstIs_head in E. rewrite head_rev in E. congruence.
      * rewrite head_rev in Hs. congruence.
    + intros Hne. left.
      destruct (firstIs (rev (vf :: a1)) vf) eqn:E.
      * rewrite last_rev in Hs. cbn in Hs. congruence.
      * rewrite head_app_ne; [done |]. cbn [rev]. by destruct (rev a1).
    + intros v [Hv | Hv] Hne; [cbn in Hv; congruence |]. right.
      by rewrite app_assoc, last_app_ne.
  - (* a ++ pth ++ b *)
    destruct (atEnd_not_first a vf Ha Ea) as [a0 ->].
    apply firstIs_head in Eb as Hb1. apply head_Some in Hb1 as [b1 ->].
    rewrite Ea. intros [= <- Hs]. split; [split |]; [| | split; [| split]].
    + apply Forall_app. split; [done |]. by apply Forall_app.
    + rewrite <- app_assoc. cbn [app]. apply chain_glue; [done |].
      rewrite app_comm_cons. apply chain_glue; [by rewrite <- app_comm_cons | done].
    + intros v [Hv | Hv] Hne; [congruence |]. rewrite last_snoc in Hv. congruence.
    + intros _. left. rewrite head_app_ne; [done |]. by destruct a0.
    + intros v [Hv | Hv] Hne; [cbn in Hv; congruence |]. right.
      by rewrite app_assoc, last_app_ne.
  - (* b ++ rev pth ++ a *)
    apply firstIs_head in Ea as Ha1. apply head_Some in Ha1 as [a1 ->].
    destruct (atEnd_not_first b vt Hb Eb) as [b0 ->].
    rewrite Ea. intros [= <- Hs]. split; [split |]; [| | split; [| split]].
    + apply Forall_app. split; [done |]. apply Forall_app. split; [by apply Forall_rev | done].
    + rewrite <- app_assoc. cbn [app]. apply chain_glue; [done |].
      rewrite app_comm_cons. apply chain_glue; [| done].
      rewrite <- app_comm_cons. by apply chain_rev_path.
    + intros v [Hv | Hv] Hne; [cbn in Hv; congruence | congruence].
    + intros _. right. by rewrite !app_assoc, last_app_ne.
    + intros v [Hv | Hv] Hne.
      * left. rewrite head_app_ne; [done |]. by destruct b0.
      * rewrite last_snoc in Hv. congruence.
  - (* b ++ rev pth ++ rev a *)
    destruct (atEnd_not_first a vf Ha Ea) as [a0 ->].
    destruct (atEnd_not_first b vt Hb Eb) as [b0 ->].
    rewrite rev_app_distr. cbn [rev app firstIs]. rewrite Z.eqb_refl.
    intros [= <- Hs]. split; [split |]; [| | split; [| split]].
    + apply Forall_app. split; [done |]. apply Forall_app. split; [by apply Forall_rev |].
      apply Forall_app in Haz as [Haz1 Haz2]. inversion Haz2; subst.
      constructor; [done | by apply Forall_rev].
    + rewrite <- app_assoc. cbn [app]. apply chain_glue; [done |].
      rewrite app_comm_cons. apply chain_glue; [by apply chain_rev_path |].
      apply chain_rev in Hac. rewrite rev_app_distr in Hac. by cbn [rev app] in Hac.
    + intros v [Hv | Hv] Hne.
      * destruct a0 as [|x a0]; cbn in Hv; [congruence |]. injection Hv as ->.
        rewrite last_cons, last_rev in Hs. cbn in Hs. congruence.
      * rewrite last_snoc in Hv. congruence.
    + intros _. right. rewrite app_assoc. by rewrite last_app_ne.
    + intros v [Hv | Hv] Hne.
      * left. rewrite head_app_ne; [done |]. by destruct b0.
      * rewrite last_snoc in Hv. congruence.
Qed.

End Segments.

Section Counts.
Import MapEncoder.

Lemma geti_neg {A} (a : list A) (i : Z) : i < 0 -> geti a i = None.
Proof. intros Hi. unfold geti. by destruct (Z.ltb_spec i 0); [| lia]. Qed.

Lemma geti_elem {A} (a : list A) (i : Z) (x : A) : geti a i = Some x -> x ∈ a.
Proof. intros H. apply geti_Some in H as [_ H]. by eapply list_elem_of_lookup_2. Qed.

Lemma geti_insert_eq {A} (a : list A) (i : Z) (x y : A) :
  geti a i = Some x -> geti (<[Z.to_nat i := y]> a) i = Some y.
Proof.
  intros H. apply geti_Some in H as [Hi H]. unfold geti.
  destruct (Z.ltb_spec i 0); [lia |].
  apply list_lookup_insert_eq. by eapply lookup_lt_Some.
Qed.

Lemma geti_insert_ne {A} (a : list A) (i j : Z) (y : A) :
  0 <= i -> j <> i -> geti (<[Z.to_nat i := y]> a) j = geti a j.
Proof.
  intros Hi Hne. unfold geti. destruct (Z.ltb_spec j 0); [done |].
  apply list_lookup_insert_ne. lia.
Qed.

Lemma geti_app_l {A} (a b : list A) (i : Z) (x : A) :
  geti a i = Some x -> geti (a ++ b) i = Some x.
Proof.
  intros H. apply geti_Some in H as [Hi H]. unfold geti.
  destruct (Z.ltb_spec i 0); [lia |]. by apply lookup_app_l_Some.
Qed.

Lemma geti_snoc {A} (a : list A) (x : A) :
  geti (a ++ [x]) (Z.of_nat (length (a ++ [x])) - 1) = Some x.
Proof.
  rewrite length_app. cbn [length].
  replace (Z.of_nat (length a + 1) - 1) with (Z.of_nat (length a)) by lia.
  rewrite geti_nat. by rewrite lookup_app_r, Nat.sub_diag by lia.
Qed.

Lemma geti_countUp cc i j :
  geti (countUp cc i) j
  = if decide (j = i) then (fun c => (c + 1) mod 256) <$> geti cc i else geti cc j.
Proof.
  unfold countUp. destruct (geti cc i) as [c|] eqn:E.
  - unfold set8. apply geti_Some in E as HE. destruct HE as [Hi _].
    destruct (Z.ltb_spec i 0); [lia |].
    destruct (decide (j = i)) as [-> | Hne].
    + by erewrite geti_insert_eq.
    + by rewrite geti_insert_ne.
  - destruct (decide (j = i)) as [-> | Hne]; [by rewrite E | done].
Qed.

Lemma countUp_nonneg cc i :
  Forall (fun c => 0 <= c) cc -> Forall (fun c => 0 <= c) (countUp cc i).
Proof.
  intros H. unfold countUp. destruct (geti cc i); [| done].
  unfold set8. destruct (i <? 0); [done |].
  apply Forall_insert; [done |]. apply Z.mod_pos_bound. lia.
Qed.

Lemma count_cases cc j c :
  Forall (fun c => 0 <= c) cc -> geti cc j = Some c -> countFull cc j = false ->
  c = 0 \/ c = 1.
Proof.
  intros Hall Hj Hfull. unfold countFull in Hfull. rewrite Hj in Hfull.
  rewrite Forall_forall in Hall. specialize (Hall c (geti_elem _ _ _ Hj)). lia.
Qed.

Lemma countZero_false cc j :
  Forall (fun c => 0 <= c) cc -> countFull cc j = false -> countZero cc j = false ->
  geti cc j = Some 1.
Proof.
  intros Hall Hfull Hzero. unfold countZero, truthy in Hzero.
  destruct (geti cc j) as [c|] eqn:E; [| done].
  destruct (count_cases cc j c Hall E Hfull) as [-> | ->]; [done | done].
Qed.

Lemma countZero_true cc j :
  countZero cc j = true -> geti cc j <> Some 1.
Proof.
  unfold countZero, truthy. destruct (geti cc j) as [c|]; [| done].
  intros H [= ->]. done.
Qed.

Lemma countUp2_one cc f t j :
  f <> t -> Forall (fun c => 0 <= c) cc ->
  countFull cc f = false -> countFull cc t = false ->
  geti (countUp (countUp cc f) t) j = Some 1 ->
  (j <> f /\ j <> t /\ geti cc j = Some 1)
  \/ (j = f /\ geti cc f = Some 0) \/ (j = t /\ geti cc t = Some 0).
Proof.
  intros Hne Hall Hf Ht. rewrite !geti_countUp.
  destruct (decide (j = t)) as [-> | Hjt].
  - destruct (decide (t = f)); [congruence |].
    destruct (geti cc t) as [c|] eqn:E; [| done]. cbn. intros [= Hc].
    destruct (count_cases cc t c Hall E Ht) as [-> | ->]; [auto | done].
  - destruct (decide (j = f)) as [-> | Hjf]; [| auto].
    destruct (geti cc f) as [c|] eqn:E; [| done]. cbn. intros [= Hc].
    destruct (count_cases cc f c Hall E Hf) as [-> | ->]; [auto | done].
Qed.

Lemma segmentAt_Ok st i sidx s :
  segmentMap st !! i = Some sidx -> geti (segments st) sidx = Some s ->
  segmentAt st i = Ok (sidx, s).
Proof. intros Hm Hs. unfold segmentAt. rewrite Hm. cbn. rewrite Hs. done. Qed.

Lemma geti_setSegment_eq segs sidx (s s' : list Z) :
  geti segs sidx = Some s -> geti (setSegment segs sidx s') sidx = Some s'.
Proof. apply geti_insert_eq. Qed.

Lemma geti_setSegment_ne segs sidx k (s' : list Z) :
  0 <= sidx -> k <> sidx -> geti (setSegment segs sidx s') k = geti segs k.
Proof. apply geti_insert_ne. Qed.

Lemma processConnection_unused f t c border st st' :
  processConnection f t c border st = Ok (false, st') -> st' = st.
Proof.
  unfold processConnection. intros H.
  apply bind_Ok in H as (vf & _ & H). apply bind_Ok in H as (vt & _ & H).
  destruct (f && t); [discriminate |].
  destruct f; [by apply bind_Ok in H as ([? ?] & _ & [=]) |].
  destruct t; [by apply bind_Ok in H as ([? ?] & _ & [=]) |].
  destruct (negb _); [| by injection H as <-].
  apply bind_Ok in H as ([? ?] & _ & H). apply bind_Ok in H as ([? ?] & _ & H).
  destruct (connectSegments _ _ _ _ _). by apply bind_Ok in H as (? & _ & [=]).
Qed.

End Counts.

Section Stitching.
Import MapEncoder.
Context (w zoneId : Z) (tm border : list Z).
Context (Hnd : NoDup border) (Hbz : Forall (inZone tm zoneId) border).

Local Abbreviation Inv := (stitchInv w tm zoneId border).

Lemma border_inj i j v : geti border i = Some v -> geti border j = Some v -> i = j.
Proof.
  intros Hi Hj. apply geti_Some in Hi as [Hi0 Hi]. apply geti_Some in Hj as [Hj0 Hj].
  pose proof (NoDup_lookup _ _ _ _ Hnd Hi Hj). lia.
Qed.

Lemma border_inZone i v : geti border i = Some v -> inZone tm zoneId v.
Proof.
  intros Hi. rewrite Forall_forall in Hbz. apply Hbz. by eapply geti_elem.
Qed.

Lemma stitch_step st c st' :
  Inv st -> connOk w tm zoneId border c ->
  countFull (connectionCount st) (from c) = false ->
  countFull (connectionCount st) (to c) = false ->
  processConnection (countZero (connectionCount st) (from c))
    (countZero (connectionCount st) (to c)) c border st = Ok (true, st') ->
  Inv {| segments := segments st'; segmentMap := segmentMap st';
         connectionCount := countUp (countUp (connectionCount st) (from c)) (to c) |}.
Proof.
  intros [Hsegs Hcnt Hends] [Hlt Hconn] Hff Hft H.
  assert (from c <> to c) as Hne by lia.
  unfold processConnection in H.
  apply bind_Ok in H as (vf & Hvf & H). apply ofOption_Ok in Hvf.
  apply bind_Ok in H as (vt & Hvt & H). apply ofOption_Ok in Hvt.
  destruct (Hconn vf vt Hvf Hvt) as [Hchain Hpz].
  pose proof (border_inZone _ _ Hvf) as Hzf. pose proof (border_inZone _ _ Hvt) as Hzt.
  assert (forall j v, geti border j = Some v -> j <> from c -> v <> vf) as Hnf.
  { intros j v Hj Hjf ->. apply Hjf. by eapply border_inj. }
  assert (forall j v, geti border j = Some v -> j <> to c -> v <> vt) as Hnt.
  { intros j v Hj Hjt ->. apply Hjt. by eapply border_inj. }
  destruct (countZero (connectionCount st) (from c)) eqn:Ezf;
    destruct (countZero (connectionCount st) (to c)) eqn:Ezt; cbn [andb] in H.
  - (* both points are new: a new segment *)
    injection H as <-. constructor; cbn [segments segmentMap connectionCount].
    + apply Forall_app. split; [done |]. constructor; [| constructor]. split; [| done].
      constructor; [done |]. apply Forall_app. split; [done | by constructor].
    + by do 2 apply countUp_nonneg.
    + intros j v Hj Hv.
      apply countUp2_one in Hj as [(Hjf & Hjt & Hj) | [(-> & Hj) | (-> & Hj)]]; try done.
      * destruct (Hends j v Hj Hv) as (sidx & s & Hm & Hs & He).
        exists sidx, s. rewrite !lookup_insert_ne by done.
        split; [done |]. split; [by apply geti_app_l | done].
      * eexists _, _. rewrite lookup_insert_eq. split; [done |].
        split; [apply geti_snoc |]. left. cbn. congruence.
      * eexists _, _. rewrite lookup_insert_ne, lookup_insert_eq by done. split; [done |].
        split; [apply geti_snoc |]. right.
        rewrite app_comm_cons, last_snoc. congruence.
  - (* only the from point is new *)
    pose proof (countZero_false _ _ Hcnt Hft Ezt) as Ht1.
    destruct (Hends _ _ Ht1 Hvt) as (sidx & s & Hm & Hs & He).
    rewrite (segmentAt_Ok _ _ _ _ Hm Hs) in H. cbn in H. injection H as <-.
    pose proof (geti_Some _ _ _ Hs) as [Hsidx _].
    assert (zoneChain w tm zoneId s) as Hgood.
    { rewrite Forall_forall in Hsegs. apply Hsegs. by eapply geti_elem. }
    destruct (concatSegment_ok w zoneId tm s (path c) vt vf Hgood He Hchain Hpz Hzf)
      as (Hg' & Hend' & Hkeep).
    constructor; cbn [segments segmentMap connectionCount].
    + by apply Forall_insert.
    + by do 2 apply countUp_nonneg.
    + intros j v Hj Hv.
      apply countUp2_one in Hj as [(Hjf & Hjt & Hj) | [(-> & Hj) | (-> & Hj)]]; try done.
      * destruct (Hends j v Hj Hv) as (sj & s1 & Hm1 & Hs1 & He1).
        rewrite lookup_insert_ne by done.
        destruct (decide (sj = sidx)) as [-> | Hsj].
        -- exists sidx, (concatSegment s (path c) vt vf). split; [done |].
           split; [by eapply geti_setSegment_eq |].
           apply Hkeep; [congruence | by eapply Hnt].
        -- exists sj, s1. split; [done |]. split; [| done].
           by rewrite geti_setSegment_ne.
      * exists sidx, (concatSegment s (path c) vt vf). rewrite lookup_insert_eq.
        split; [done |]. split; [by eapply geti_setSegment_eq |]. congruence.
      * congruence.
  - (* only the to point is new *)
    pose proof (countZero_false _ _ Hcnt Hff Ezf) as Hf1.
    destruct (Hends _ _ Hf1 Hvf) as (sidx & s & Hm & Hs & He).
    rewrite (segmentAt_Ok _ _ _ _ Hm Hs) in H. cbn in H. injection H as <-.
    pose proof (geti_Some _ _ _ Hs) as [Hsidx _].
    assert (zoneChain w tm zoneId s) as Hgood.
    { rewrite Forall_forall in Hsegs. apply Hsegs. by eapply geti_elem. }
    destruct (concatSegment_ok w zoneId tm s (rev (path c)) vf vt Hgood He)
      as (Hg' & Hend' & Hkeep); [by apply chain_rev_path | by apply Forall_rev | done |].
    constructor; cbn [segments segmentMap connectionCount].
    + by apply Forall_insert.
    + by do 2 apply countUp_nonneg.
    + intros j v Hj Hv.
      apply countUp2_one in Hj as [(Hjf & Hjt & Hj) | [(-> & Hj) | (-> & Hj)]]; try done.
      * destruct (Hends j v Hj Hv) as (sj & s1 & Hm1 & Hs1 & He1).
        rewrite lookup_insert_ne by done.
        destruct (decide (sj = sidx)) as [-> | Hsj].
        -- exists sidx, (concatSegment s (rev (path c)) vf vt). split; [done |].
           split; [by eapply geti_setSegment_eq |].
           apply Hkeep; [congruence | by eapply Hnf].
        -- exists sj, s1. split; [done |]. split; [| done].
           by rewrite geti_setSegment_ne.
      * congruence.
      * exists sidx, (concatSegment s (rev (path c)) vf vt). rewrite lookup_insert_eq.
        split; [done |]. split; [by eapply geti_setSegment_eq |]. congruence.
  - (* both points have a segment *)
    pose proof (countZero_false _ _ Hcnt Hff Ezf) as Hf1.
    pose proof (countZero_false _ _ Hcnt Hft Ezt) as Ht1.
    destruct (Hends _ _ Hf1 Hvf) as (ia & sa & Hma & Hsa & Hea).
    destruct (Hends _ _ Ht1 Hvt) as (ib & sb & Hmb & Hsb & Heb).
    destruct (negb _) eqn:Esame; [| discriminate].
    apply negb_true_iff, bool_decide_eq_false in Esame.
    assert (ia <> ib) as Hab by congruence.
    rewrite (segmentAt_Ok _ _ _ _ Hma Hsa) in H. cbn in H.
    rewrite (segmentAt_Ok _ _ _ _ Hmb Hsb) in H. cbn in H.
    destruct (connectSegments sa sb vf vt (path c)) as [sb' ostart] eqn:Ec.
    apply bind_Ok in H as (start & Hstart & H). apply ofOption_Ok in Hstart. subst ostart.
    injection H as <-.
    pose proof (geti_Some _ _ _ Hsa) as [Hia _]. pose proof (geti_Some _ _ _ Hsb) as [Hib _].
    assert (zoneChain w tm zoneId sa) as Hga.
    { rewrite Forall_forall in Hsegs. apply Hsegs. by eapply geti_elem. }
    assert (zoneChain w tm zoneId sb) as Hgb.
    { rewrite Forall_forall in Hsegs. apply Hsegs. by eapply geti_elem. }
    destruct (connectSegments_ok w zoneId tm sa sb vf vt (path c) sb' start
                Hga Hgb Hea Heb Hchain Hpz Ec) as (Hg' & Hother & Hstart & Hkeep).
    assert (geti (setSegment (setSegment (segments st) ib sb') ia []) ib = Some sb') as Hnew.
    { rewrite geti_setSegment_ne by done. by eapply geti_setSegment_eq. }
    constructor; cbn [segments segmentMap connectionCount].
    + apply Forall_insert; [by apply Forall_insert |]. split; constructor.
    + by do 2 apply countUp_nonneg.
    + intros j v Hj Hv.
      apply countUp2_one in Hj as [(Hjf & Hjt & Hj) | [(-> & Hj) | (-> & Hj)]];
        try done; try congruence.
      destruct (Hends j v Hj Hv) as (sj & s1 & Hm1 & Hs1 & He1).
      destruct (decide (j = indexOf border start)) as [Hjs | Hjs].
      * rewrite Hjs, lookup_insert_eq. exists ib, sb'. split; [done |]. split; [done |].
        rewrite Hjs in Hv. apply indexOf_geti in Hv as ->.
        apply Hstart. intros ->. apply Hjf. rewrite Hjs. by apply indexOf_NoDup.
      * rewrite lookup_insert_ne by done.
        destruct (decide (sj = ia)) as [-> | Hsja].
        { exfalso. apply Hjs. symmetry. apply indexOf_NoDup; [done |].
          assert (s1 = sa) as -> by congruence.
          rewrite <- (Hother v He1); [done | by eapply Hnf]. }
        destruct (decide (sj = ib)) as [-> | Hsjb].
        { exists ib, sb'. split; [done |]. split; [done |].
          assert (s1 = sb) as -> by congruence.
          apply Hkeep; [done | by eapply Hnt]. }
        exists sj, s1. split; [done |]. split; [| done].
        by rewrite !geti_setSegment_ne.
Qed.

Lemma stitchLoop_ok cs st st' :
  Inv st -> Forall (connOk w tm zoneId border) cs ->
  stitchLoop cs border st = Ok st' -> Inv st'.
Proof.
  intros Hinv Hcs. revert st Hinv.
  induction Hcs as [|c cs Hc _ IH]; intros st Hinv H; cbn [stitchLoop] in H.
  - by injection H as <-.
  - destruct (countFull _ (from c)) eqn:Eff; cbn [orb] in H; [by eapply IH |].
    destruct (countFull _ (to c)) eqn:Eft; [by eapply IH |].
    apply bind_Ok in H as ([used st1] & Hp & H). destruct used.
    + eapply IH; [| exact H]. by eapply stitch_step.
    + apply processConnection_unused in Hp as ->. by eapply IH.
Qed.

End Stitching.

Section NeededLines.
Import MapEncoder.
Context (w zoneId : Z) (tm : list Z).

Lemma cropLoop_Forall (P : list Z -> Prop) fuel done pending out :
  (forall l n, P l -> P (take n l)) -> (forall l n, P l -> P (drop n l)) ->
  Forall P (done ++ pending) ->
  cropLoop fuel (length done) (done ++ pending) = Some out -> Forall P out.
Proof.
  intros Htake Hdrop. revert done pending.
  induction fuel as [|fuel IH]; intros done pending Hall H.
  - destruct pending as [|l pending]; [| by rewrite cropLoop_zero in H].
    rewrite cropLoop_end in H. injection H as <-. by rewrite app_nil_r in Hall.
  - destruct pending as [|l pending].
    { rewrite cropLoop_end in H. injection H as <-. by rewrite app_nil_r in Hall. }
    apply Forall_app in Hall as [Hdone Hpend]. inversion Hpend as [|? ? Hl Hrest]; subst.
    destruct (Nat.lt_ge_cases 256 (length l)) as [Hlen | Hlen].
    + rewrite cropLoop_step_long in H by done. eapply IH; [| exact H].
      rewrite !Forall_app. repeat split; try done; repeat constructor; auto.
    + rewrite cropLoop_step_short in H by done. eapply IH; [| exact H].
      rewrite !Forall_app. repeat split; try done; repeat constructor; auto.
Qed.

Lemma addSinglesLoop_Forall (P : list Z -> Prop) border i cc lines :
  Forall (fun b => P [b]) border -> Forall P lines ->
  Forall P (addSinglesLoop border i cc lines).
Proof.
  intros Hb. revert i lines. induction Hb as [|b border Hpb _ IH]; intros i lines Hl; cbn.
  - done.
  - apply IH. destruct (bool_decide _); [| done].
    apply Forall_app. split; [done | by constructor].
Qed.

(** Every line that [calculateNeededLines] produces for distinct points of
    the zone is a line of the zone of 1 to 256 cells. *)
Lemma neededLines_ok (fuel : nat) (points : list Z) (pointMap : gset Z)
    (lines : list (list Z)) :
  NoDup points -> Forall (inZone tm zoneId) points ->
  calculateNeededLines fuel w points pointMap zoneId tm = Ok lines ->
  Forall (lineOk w tm zoneId) lines.
Proof.
  intros Hnd Hpz H. unfold calculateNeededLines in H.
  apply bind_Ok in H as (cm & Hcm & H). apply bind_Ok in H as (st & Hst & H).
  apply bind_Ok in H as (segs & Hsegs & H). apply ofOption_Ok in Hsegs.
  injection H as <-.
  apply (calculateConnections_ok w zoneId tm points Hnd) in Hcm.
  apply (stitchLoop_ok w zoneId tm points Hnd Hpz) in Hst; [| | done].
  2:{ constructor; cbn.
      - apply Forall_nil_2.
      - apply Forall_forall. intros c Hc. apply list_elem_of_In, repeat_spec in Hc. lia.
      - intros j v Hj _. apply geti_elem in Hj.
        by apply list_elem_of_In, repeat_spec in Hj. }
  destruct Hst as [Hgood _ _].
  set (P := fun l => zoneChain w tm zoneId l /\ short l).
  assert (Forall P segs) as Hcrop.
  { apply Forall_and. split.
    - eapply (cropLoop_Forall (zoneChain w tm zoneId) fuel [] (segments st)); [| | done | done].
      + intros l n [Hz Hc]. split; [by apply Forall_take | by apply chain_take].
      + intros l n [Hz Hc]. split; [by apply Forall_drop | by apply chain_drop].
    - by eapply (cropLoop_result fuel [] (segments st)). }
  assert (Forall P (addSingles points (connectionCount st) segs)) as Hall.
  { apply addSinglesLoop_Forall; [| done].
    eapply Forall_impl; [exact Hpz |]. intros b Hb.
    split; [split; [by constructor | by cbn] | unfold short; cbn; lia]. }
  apply Forall_forall. intros l Hl. apply list_elem_of_filter in Hl as [Hlen Hl].
  rewrite Forall_forall in Hall. destruct (Hall l Hl) as [[Hz Hc] Hs].
  unfold short in Hs. split; [done |]. split; [done | lia].
Qed.

End NeededLines.

(** ** The zones of [buildZones] *)

Section ZoneSteps.
Import ZoneCalculator.
Context (tt : list Z) (w : Z) (Hw : 0 < w).

Local Abbreviation n := (Z.of_nat (length tt)).

Lemma geti_inrange {A} (a : list A) (i : Z) :
  0 <= i < Z.of_nat (length a) -> is_Some (geti a i).
Proof.
  intros Hi. unfold geti. destruct (Z.ltb_spec i 0); [lia |].
  apply lookup_lt_is_Some. lia.
Qed.

Lemma geti_Some_range {A} (a : list A) (i : Z) (x : A) :
  geti a i = Some x -> 0 <= i < Z.of_nat (length a).
Proof.
  intros H. apply geti_Some in H as [Hi H]. apply lookup_lt_Some in H. lia.
Qed.

Lemma sameRead_true a b x :
  a = Some x -> sameRead b a = true -> b = a.
Proof.
  intros -> H. destruct b as [y|]; cbn in H; [| done].
  apply Z.eqb_eq in H. by subst.
Qed.

Lemma sameRead_refl a b : a = b -> sameRead a b = true.
Proof. intros ->. destruct b; cbn; [apply Z.eqb_refl | done]. Qed.

Lemma mod_pred_last a : (a - 1) mod w = w - 1 <-> a mod w = 0.
Proof.
  pose proof (Z.div_mod (a - 1) w ltac:(lia)) as H1.
  pose proof (Z.mod_pos_bound (a - 1) w Hw) as H2.
  pose proof (Z.div_mod a w ltac:(lia)) as H3.
  pose proof (Z.mod_pos_bound a w Hw) as H4.
  split; intros E.
  - symmetry. apply (Z.mod_unique a w ((a - 1) / w + 1) 0); lia.
  - symmetry. apply (Z.mod_unique (a - 1) w (a / w - 1) (w - 1)); lia.
Qed.

Lemma gridStep_sym a b : gridStep w n a b -> gridStep w n b a.
Proof.
  intros (Ha & Hb & H). split; [done |]. split; [done |].
  destruct H as [[-> Hm] | [[-> Hm] | [-> | ->]]].
  - right. left. split; [lia |]. by rewrite mod_pred_last.
  - left. split; [lia |]. rewrite <- mod_pred_last. by replace (a + 1 - 1) with a by lia.
  - right. right. right. lia.
  - right. right. left. lia.
Qed.

Lemma zoneStep_sym a b : zoneStep tt w a b -> zoneStep tt w b a.
Proof. intros [Hg He]. split; [by apply gridStep_sym | done]. Qed.

Lemma sameZone_sym a b : sameZone tt w a b -> sameZone tt w b a.
Proof.
  induction 1 as [|a b c Hab _ IH]; [apply rtc_refl |].
  eapply rtc_r; [exact IH | by apply zoneStep_sym].
Qed.

Lemma sameZone_range a b : 0 <= a < n -> sameZone tt w a b -> 0 <= b < n.
Proof.
  intros Ha H. induction H as [|a b c Hab _ IH]; [done |].
  apply IH. by destruct Hab as [(_ & ? & _) _].
Qed.

Lemma rem_mod_nonneg a : 0 <= a -> Z.rem a w = a mod w.
Proof. intros Ha. apply Z.rem_mod_nonneg; lia. Qed.

Lemma jsRemIs_spec a r : 0 <= a -> jsRemIs a w r = true <-> a mod w = r.
Proof.
  intros Ha. unfold jsRemIs. destruct (Z.eqb_spec w 0); [lia |].
  rewrite rem_mod_nonneg by done. apply Z.eqb_eq.
Qed.

(** The neighbour tests of [exploreZone] push exactly the neighbours of
    equal type. *)
Lemma leftOk_step a : 0 <= a < n -> leftOk tt w a = true -> zoneStep tt w a (a - 1).
Proof.
  intros Ha H. unfold leftOk in H. apply andb_true_iff in H as [Hm Hs].
  destruct (geti_inrange tt a Ha) as [x Hx].
  apply (sameRead_true _ _ x Hx) in Hs.
  assert (0 <= a - 1 < n) by (rewrite Hx in Hs; by apply geti_Some_range in Hs).
  split; [| done]. split; [done |]. split; [done |]. left. split; [done |].
  intros E. apply (jsRemIs_spec a 0) in E; [| lia]. by rewrite E in Hm.
Qed.

Lemma rightOk_step a : 0 <= a < n -> rightOk tt w a = true -> zoneStep tt w a (a + 1).
Proof.
  intros Ha H. unfold rightOk in H. apply andb_true_iff in H as [Hm Hs].
  destruct (geti_inrange tt a Ha) as [x Hx].
  apply (sameRead_true _ _ x Hx) in Hs.
  assert (0 <= a + 1 < n) by (rewrite Hx in Hs; by apply geti_Some_range in Hs).
  split; [| done]. split; [done |]. split; [done |]. right. left. split; [done |].
  intros E. apply (jsRemIs_spec a (w - 1)) in E; [| lia]. by rewrite E in Hm.
Qed.

Lemma topOk_step a : 0 <= a < n -> topOk tt w a = true -> zoneStep tt w a (a - w).
Proof.
  intros Ha H. unfold topOk in H. apply andb_true_iff in H as [Hm Hs].
  destruct (geti_inrange tt a Ha) as [x Hx].
  apply (sameRead_true _ _ x Hx) in Hs.
  assert (0 <= a - w < n) by (rewrite Hx in Hs; by apply geti_Some_range in Hs).
  split; [| done]. split; [done |]. split; [done |]. right. right. by left.
Qed.

Lemma bottomOk_step a : 0 <= a < n -> bottomOk tt w a = true -> zoneStep tt w a (a + w).
Proof.
  intros Ha H. unfold bottomOk in H. apply andb_true_iff in H as [Hm Hs].
  destruct (geti_inrange tt a Ha) as [x Hx].
  apply (sameRead_true _ _ x Hx) in Hs.
  assert (0 <= a + w < n) by (rewrite Hx in Hs; by apply geti_Some_range in Hs).
  split; [| done]. split; [done |]. split; [done |]. right. right. by right.
Qed.

Lemma step_tests a b :
  zoneStep tt w a b ->
  (leftOk tt w a = true /\ b = a - 1) \/ (rightOk tt w a = true /\ b = a + 1)
  \/ (topOk tt w a = true /\ b = a - w) \/ (bottomOk tt w a = true /\ b = a + w).
Proof.
  intros [(Ha & Hb & H) He].
  destruct H as [[-> Hm] | [[-> Hm] | [-> | ->]]].
  - left. split; [| done]. unfold leftOk. apply andb_true_iff. split.
    + apply negb_true_iff. destruct (jsRemIs a w 0) eqn:E; [| done].
      apply jsRemIs_spec in E; [done | lia].
    + by apply sameRead_refl.
  - right. left. split; [| done]. unfold rightOk. apply andb_true_iff. split.
    + apply negb_true_iff. destruct (jsRemIs a w (w - 1)) eqn:E; [| done].
      apply jsRemIs_spec in E; [done | lia].
    + by apply sameRead_refl.
  - right. right. left. split; [| done]. unfold topOk. apply andb_true_iff. split.
    + apply Z.leb_le. lia.
    + by apply sameRead_refl.
  - right. right. right. split; [| done]. unfold bottomOk. apply andb_true_iff. split.
    + apply Z.ltb_lt. lia.
    + by apply sameRead_refl.
Qed.

(** The stack after the visit of a cell. *)
Lemma visit_stack z cur st x :
  x ∈ stack (visit tt w z cur st) <->
  x ∈ stack st
  \/ (leftOk tt w cur = true /\ x = cur - 1) \/ (rightOk tt w cur = true /\ x = cur + 1)
  \/ (topOk tt w cur = true /\ x = cur - w) \/ (bottomOk tt w cur = true /\ x = cur + w).
Proof.
  unfold visit.
  destruct (leftOk tt w cur), (rightOk tt w cur), (topOk tt w cur), (bottomOk tt w cur),
    (decide (cur ∈ lbMap st)), (decide (cur ∈ tbMap st));
    cbn; rewrite ?elem_of_cons; intuition congruence.
Qed.

Lemma visit_zoneMap z cur st :
  zoneMap (visit tt w z cur st) = set16 (zoneMap st) cur z.
Proof.
  unfold visit.
  destruct (leftOk tt w cur), (rightOk tt w cur), (topOk tt w cur), (bottomOk tt w cur),
    (decide (cur ∈ lbMap st)), (decide (cur ∈ tbMap st)); reflexivity.
Qed.

Lemma visit_stack_step z cur st x :
  0 <= cur < n -> x ∈ stack (visit tt w z cur st) ->
  x ∈ stack st \/ zoneStep tt w cur x.
Proof.
  intros Hc Hx. apply visit_stack in Hx as [Hx | [[H ->] | [[H ->] | [[H ->] | [H ->]]]]];
    [by left | right ..].
  - by apply leftOk_step.
  - by apply rightOk_step.
  - by apply topOk_step.
  - by apply bottomOk_step.
Qed.

Lemma visit_stack_push z cur st x :
  zoneStep tt w cur x -> x ∈ stack (visit tt w z cur st).
Proof. intros H. apply visit_stack. right. by apply step_tests. Qed.

End ZoneSteps.

Section Explore.
Import ZoneCalculator.
Context (tt : list Z) (w : Z) (Hw : 0 < w).

Local Abbreviation n := (Z.of_nat (length tt)).

Lemma geti_set16_eq a i v x :
  geti a i = Some x -> geti (set16 a i v) i = Some (v mod 65536).
Proof.
  intros H. unfold set16. apply geti_Some in H as HH. destruct HH as [Hi _].
  destruct (Z.ltb_spec i 0); [lia |]. by eapply geti_insert_eq.
Qed.

Lemma truthy_false_inrange a i :
  0 <= i < Z.of_nat (length a) -> truthy (geti a i) = false -> geti a i = Some 0.
Proof.
  intros Hi H. destruct (geti_inrange a i Hi) as [x Hx]. rewrite Hx in *.
  cbn in H. apply negb_false_iff, Z.eqb_eq in H. by subst.
Qed.

Lemma truthy_true a i :
  truthy (geti a i) = true -> exists v, geti a i = Some v /\ v <> 0.
Proof.
  destruct (geti a i) as [v|]; cbn; [| done]. intros H. exists v. split; [done |].
  apply negb_true_iff, Z.eqb_neq in H. done.
Qed.

Context (zm0 : list Z) (seed z : Z).
Context (Hlen : length zm0 = length tt) (Hseed : 0 <= seed < n).
Context (Hseed0 : geti zm0 seed = Some 0).
Context (Hz : 0 < z < 65536) (Hfresh : forall c, geti zm0 c <> Some z).
Context (Hclosed : closedMarks tt w zm0).

Local Abbreviation exploring := (exploring tt w zm0 seed z).

Lemma exploring_mark_z st c v :
  exploring st -> geti (zoneMap st) c = Some v -> v <> 0 ->
  (exists c', zoneStep tt w c c' /\ geti (zoneMap st) c' = Some z) -> v = z.
Proof.
  intros [H1 H2 H3 H4 H5 H6] Hc Hv (c' & Hstep & Hc').
  destruct (decide (geti (zoneMap st) c = geti zm0 c)) as [E | E].
  - (* an old mark next to a new one: excluded by the closure of the old marks *)
    exfalso. rewrite Hc in E. symmetry in E.
    pose proof (Hclosed c c' v E Hv Hstep) as Hold.
    pose proof (H2 c' v Hold Hv) as Hnow.
    rewrite Hc' in Hnow. injection Hnow as <-. by apply (Hfresh c').
  - destruct (H3 c E) as [Hcz _]. congruence.
Qed.

Lemma exploreLoop_inv fuel st st' :
  exploring st -> exploreLoop fuel tt w z st = Some st' ->
  exploring st' /\ stack st' = [].
Proof.
  revert st. induction fuel as [|fuel IH]; intros st Hex H.
  - cbn in H. destruct (stack st) eqn:Es; [| discriminate]. injection H as <-. done.
  - cbn [exploreLoop] in H. destruct (stack st) as [|cur rest] eqn:Es.
    { injection H as <-. done. }
    assert (0 <= cur < n) as Hcur.
    { eapply sameZone_range; [exact Hseed |]. destruct Hex as [_ _ _ H4 _ _].
      apply H4. rewrite Es. by left. }
    assert (0 <= cur < Z.of_nat (length (zoneMap st))) as Hcur'.
    { destruct Hex as [H1 _ _ _ _ _]. rewrite H1. lia. }
    cbn [zoneMap] in H.
    destruct (truthy (geti (zoneMap st) cur)) eqn:Et.
    + (* the cell is in a zone already *)
      apply IH in H; [done |]. apply truthy_true in Et as (v & Hv & Hv0).
      destruct Hex as [H1 H2 H3 H4 H5 H6].
      constructor; cbn [zoneMap stack]; try done.
      * intros x Hx. apply H4. rewrite Es. by right.
      * intros c c' Hc Hstep. destruct (H5 c c' Hc Hstep) as [? | Hin]; [by left |].
        rewrite Es in Hin. apply elem_of_cons in Hin as [-> | Hin]; [| by right].
        left. rewrite Hv. f_equal.
        eapply (exploring_mark_z st cur v); [by constructor | done | done |].
        exists c. split; [by apply zoneStep_sym | done].
      * destruct H6 as [? | Hin]; [by left |].
        rewrite Es in Hin. apply elem_of_cons in Hin as [-> | Hin]; [| by right].
        left. rewrite Hv. f_equal.
        destruct (decide (geti (zoneMap st) cur = geti zm0 cur)) as [E | E].
        -- rewrite Hv, Hseed0 in E. congruence.
        -- destruct (H3 cur E) as [Hcz _]. congruence.
    + (* the cell is new: mark it and push its neighbours *)
      apply truthy_false_inrange in Et; [| done].
      set (st1 := {| stack := rest; zoneMap := zoneMap st; lb := lb st; lbMap := lbMap st;
                     tb := tb st; tbMap := tbMap st |}) in *.
      apply IH in H; [done |].
      destruct Hex as [H1 H2 H3 H4 H5 H6].
      assert (sameZone tt w seed cur) as Hsc by (apply H4; rewrite Es; by left).
      assert (geti (set16 (zoneMap st) cur z) cur = Some z) as Hnew.
      { erewrite geti_set16_eq by done. f_equal. apply Z.mod_small. lia. }
      constructor; rewrite ?visit_zoneMap; cbn [zoneMap stack].
      * by rewrite set16_length.
      * intros c v Hc Hv. destruct (decide (c = cur)) as [-> | Hne].
        -- rewrite (H2 cur v Hc Hv) in Et. congruence.
        -- rewrite geti_set16_ne by done. by apply H2.
      * intros c Hc. destruct (decide (c = cur)) as [-> | Hne]; [done |].
        rewrite geti_set16_ne in Hc |- * by done. by apply H3.
      * intros x Hx. apply visit_stack_step in Hx as [Hx | Hx]; [| | done | done].
        -- apply H4. rewrite Es. by right.
        -- eapply rtc_r; [exact Hsc | done].
      * intros c c' Hc Hstep. destruct (decide (c' = cur)) as [-> | Hne']; [by left |].
        rewrite (geti_set16_ne _ cur c') by done.
        destruct (decide (c = cur)) as [-> | Hne].
        -- right. by apply visit_stack_push.
        -- rewrite geti_set16_ne in Hc by done.
           destruct (H5 c c' Hc Hstep) as [? | Hin]; [by left |]. right.
           rewrite Es in Hin. apply elem_of_cons in Hin as [-> | Hin]; [done |].
           apply visit_stack. by left.
      * destruct (decide (seed = cur)) as [-> | Hne]; [by left |].
        rewrite geti_set16_ne by done.
        destruct H6 as [? | Hin]; [by left |]. right.
        rewrite Es in Hin. apply elem_of_cons in Hin as [-> | Hin]; [done |].
        apply visit_stack. by left.
Qed.

End Explore.

Section Scan.
Import ZoneCalculator.
Context (tt : list Z) (w : Z) (Hw : 0 < w).

Local Abbreviation n := (Z.of_nat (length tt)).

Lemma closed_sameZone zm c c' v :
  closedMarks tt w zm -> geti zm c = Some v -> v <> 0 -> sameZone tt w c c' ->
  geti zm c' = Some v.
Proof.
  intros Hcl Hc Hv H. induction H as [|a b c' Hab _ IH]; [done |].
  apply IH. by eapply Hcl.
Qed.

(** What one call of [exploreZone] does to the zone map. *)
Lemma exploreZone_marks fuel seed zm0 z zone zm1 :
  length zm0 = length tt -> 0 <= seed < n -> geti zm0 seed = Some 0 ->
  0 < z < 65536 -> (forall c, geti zm0 c <> Some z) -> closedMarks tt w zm0 ->
  exploreZone fuel seed tt w zm0 z = Ok (zone, zm1) ->
  length zm1 = length tt
  /\ (forall c v, geti zm0 c = Some v -> v <> 0 -> geti zm1 c = Some v)
  /\ (forall c, sameZone tt w seed c -> geti zm1 c = Some z)
  /\ (forall c, geti zm1 c <> geti zm0 c -> geti zm1 c = Some z /\ sameZone tt w seed c).
Proof.
  intros Hlen Hseed Hseed0 Hz Hfresh Hcl H. unfold exploreZone in H.
  apply bind_Ok in H as (st & Hst & H). apply ofOption_Ok in Hst.
  apply bind_Ok in H as (tid & _ & H). injection H as _ <-.
  apply (exploreLoop_inv tt w Hw zm0 seed z Hlen Hseed Hseed0 Hz Hfresh Hcl) in Hst
    as [[H1 H2 H3 H4 H5 H6] Hs].
  - split; [done |]. split; [done |]. split; [| done].
    rewrite Hs in H5, H6. destruct H6 as [H6 | H6]; [| by apply elem_of_nil in H6].
    assert (forall a c, sameZone tt w a c -> geti (zoneMap st) a = Some z ->
                        geti (zoneMap st) c = Some z) as Hprop.
    { clear -H5. intros a c Hac. induction Hac as [|a b c Hab _ IH]; [done |].
      intros Ha. apply IH.
      destruct (H5 a b Ha Hab) as [? | Hin]; [done | by apply elem_of_nil in Hin]. }
    intros c Hc. by eapply Hprop.
  - constructor; cbn [zoneMap stack]; try done.
    + intros x Hx. apply list_elem_of_singleton in Hx as ->. apply rtc_refl.
    + intros c c' Hc. by apply Hfresh in Hc.
    + right. by left.
Qed.

Lemma exploreZone_length_acc fuel k i acc zm zones zm' :
  buildLoop fuel k i tt w acc zm = Ok (zones, zm') -> (length acc <= length zones)%nat.
Proof.
  revert i acc zm. induction k as [|k IH]; intros i acc zm H; cbn [buildLoop] in H.
  - injection H as <- _. lia.
  - destruct (truthy _); [by eapply IH |].
    apply bind_Ok in H as ([zone zm1] & _ & H). apply IH in H.
    rewrite length_app in H. cbn in H. lia.
Qed.

Local Abbreviation scanned := (scanned tt w).

Lemma StronglySorted_snoc (l : list Z) (x : Z) :
  StronglySorted Z.lt l -> Forall (fun y => y < x) l -> StronglySorted Z.lt (l ++ [x]).
Proof.
  induction 1 as [|y l Hs IH Hy]; intros Hall; cbn.
  - repeat constructor.
  - inversion Hall; subst. constructor; [by apply IH |].
    apply Forall_app. split; [done | by constructor].
Qed.

Lemma exploreZone_seed fuel i zm z zone zm1 :
  exploreZone fuel i tt w zm z = Ok (zone, zm1) -> zoneSeed tt i zone.
Proof.
  unfold exploreZone. intros H. apply bind_Ok in H as (st & _ & H).
  apply bind_Ok in H as (tid & Htid & H). apply ofOption_Ok in Htid.
  by injection H as <- _.
Qed.

Lemma buildLoop_scanned fuel (k : nat) i acc zm seeds zones zm' :
  scanned i zm seeds -> Forall2 (zoneSeed tt) seeds acc ->
  0 <= i -> i + Z.of_nat k = n ->
  buildLoop fuel k i tt w acc zm = Ok (zones, zm') ->
  Z.of_nat (length zones) <= 65535 ->
  exists seeds', scanned n zm' seeds' /\ Forall2 (zoneSeed tt) seeds' zones.
Proof.
  revert i acc zm seeds. induction k as [|k IH]; intros i acc zm seeds Hsc Hso Hi Hk H Hmax;
    cbn [buildLoop] in H; pose proof (Forall2_length _ _ _ Hso) as Hsl.
  - injection H as <- <-. exists seeds. replace n with i by lia. done.
  - destruct (truthy (geti zm i)) eqn:Et.
    + eapply (IH (i + 1)); [| exact Hso | lia | lia | exact H | done].
      destruct Hsc as [H1 H2 H3 H4 H5 H6]. constructor; try done.
      * intros s Hs. destruct (H3 s Hs). split; [lia | done].
      * intros c Hc. destruct (decide (c = i)) as [-> | Hne]; [done | apply H6; lia].
    + apply bind_Ok in H as ([zone zm1] & Hz & H).
      pose proof (exploreZone_length_acc _ _ _ _ _ _ _ H) as Hgrow.
      pose proof (exploreZone_seed _ _ _ _ _ _ Hz) as Hseed.
      rewrite length_app in Hgrow. cbn [length] in Hgrow.
      destruct Hsc as [H1 H2 H3 H4 H5 H6].
      assert (0 <= i < n) as Hin by lia.
      assert (geti zm i = Some 0) as Hi0.
      { apply truthy_false_inrange; [rewrite H1; lia | done]. }
      assert (0 < Z.of_nat (length acc) + 1 < 65536) as Hzr by lia.
      assert (forall c, geti zm c <> Some (Z.of_nat (length acc) + 1)) as Hfr.
      { intros c Hc. destruct (H4 c _ Hc ltac:(lia)) as (k' & s & Hk' & _ & Hv).
        apply lookup_lt_Some in Hk'. lia. }
      destruct (exploreZone_marks fuel i zm _ zone zm1 H1 Hin Hi0 Hzr Hfr H5 Hz)
        as (R1 & R2 & R3 & R4).
      eapply (IH (i + 1) _ zm1 (seeds ++ [i])); [| | lia | lia | exact H | done].
      2:{ apply Forall2_app; [done | by repeat constructor]. }
      constructor.
      * done.
      * apply StronglySorted_snoc; [done |]. apply Forall_forall.
        intros s Hs. by destruct (H3 s Hs).
      * intros s Hs. apply elem_of_app in Hs as [Hs | Hs].
        -- destruct (H3 s Hs). split; [lia | done].
        -- apply list_elem_of_singleton in Hs as ->. split; [lia |]. split; [done |].
           intros c Hc. destruct (Z.le_gt_cases i c) as [? | Hlt]; [done | exfalso].
           pose proof (sameZone_range tt w i c Hin Hc) as Hcr.
           destruct (truthy_true zm c (H6 c ltac:(lia))) as (v & Hv & Hv0).
           pose proof (closed_sameZone zm c i v H5 Hv Hv0 (sameZone_sym tt w Hw _ _ Hc)).
           congruence.
      * intros c v Hc Hv. destruct (decide (geti zm1 c = geti zm c)) as [E | E].
        -- rewrite E in Hc. destruct (H4 c v Hc Hv) as (k' & s & Hk' & Hs & ->).
           exists k', s. split; [by apply lookup_app_l_Some | done].
        -- destruct (R4 c E) as [Hcz Hz']. exists (length seeds), i.
           split; [by rewrite lookup_app_r, Nat.sub_diag by lia |]. split; [done |].
           rewrite Hcz in Hc. injection Hc as <-. lia.
      * intros c c' v Hc Hv Hstep. destruct (decide (geti zm1 c = geti zm c)) as [E | E].
        -- rewrite E in Hc. apply R2; [| done]. by eapply H5.
        -- destruct (R4 c E) as [Hcz Hz']. rewrite Hcz in Hc. injection Hc as <-.
           apply R3. eapply rtc_r; [exact Hz' | done].
      * intros c Hc. destruct (decide (c = i)) as [-> | Hne].
        -- rewrite (R3 i (rtc_refl _ _)). cbn. apply negb_true_iff, Z.eqb_neq. lia.
        -- destruct (truthy_true zm c (H6 c ltac:(lia))) as (v & Hv & Hv0).
           rewrite (R2 c v Hv Hv0). cbn. by apply negb_true_iff, Z.eqb_neq.
Qed.

End Scan.

Section Wrap.
Import ZoneCalculator.
Context (tt : list Z) (w : Z) (Hw : 0 < w).

Local Abbreviation n := (Z.of_nat (length tt)).

Lemma set16_wrap zm cur z :
  z mod 65536 = 0 -> truthy (geti zm cur) = false -> set16 zm cur z = zm.
Proof.
  intros Hz Ht. unfold set16. destruct (Z.ltb_spec cur 0); [done |]. rewrite Hz.
  unfold geti in Ht. destruct (Z.ltb_spec cur 0); [lia |].
  destruct (zm !! Z.to_nat cur) as [v|] eqn:E.
  - cbn in Ht. apply negb_false_iff, Z.eqb_eq in Ht. subst. by apply list_insert_id.
  - apply list_insert_ge. by apply lookup_ge_None.
Qed.

Lemma exploreLoop_length fuel z st st' :
  exploreLoop fuel tt w z st = Some st' -> length (zoneMap st') = length (zoneMap st).
Proof.
  revert st. induction fuel as [|fuel IH]; intros st H; cbn [exploreLoop] in H.
  - destruct (stack st); [by injection H as <- | discriminate].
  - destruct (stack st) as [|cur rest]; [by injection H as <- |].
    cbn [zoneMap] in H. destruct (truthy _).
    + by apply IH in H.
    + apply IH in H. by rewrite visit_zoneMap, set16_length in H.
Qed.

(** With a zone id that is 0 modulo [2^16] the loop marks nothing, and it
    cannot end while a cell on the stack has a neighbour of equal type
    that is as unmarked as itself. *)
Lemma exploreLoop_wrap_zoneMap fuel z st st' :
  z mod 65536 = 0 -> exploreLoop fuel tt w z st = Some st' -> zoneMap st' = zoneMap st.
Proof.
  intros Hz. revert st. induction fuel as [|fuel IH]; intros st H; cbn [exploreLoop] in H.
  - destruct (stack st); [by injection H as <- | discriminate].
  - destruct (stack st) as [|cur rest]; [by injection H as <- |].
    cbn [zoneMap] in H. destruct (truthy _) eqn:Et.
    + by apply IH in H.
    + apply IH in H. by rewrite visit_zoneMap, set16_wrap in H.
Qed.

Lemma exploreLoop_wrap_diverges fuel z st x y :
  z mod 65536 = 0 ->
  x ∈ stack st -> geti (zoneMap st) x = Some 0 -> 0 <= x < n ->
  zoneStep tt w x y -> geti (zoneMap st) y = Some 0 ->
  exploreLoop fuel tt w z st = None.
Proof.
  intros Hz. revert st x y. induction fuel as [|fuel IH]; intros st x y Hx Hx0 Hxr Hstep Hy0;
    cbn [exploreLoop].
  - destruct (stack st); [by apply elem_of_nil in Hx | done].
  - destruct (stack st) as [|cur rest] eqn:Es; [by apply elem_of_nil in Hx |].
    cbn [zoneMap]. destruct (truthy (geti (zoneMap st) cur)) eqn:Et.
    + apply (IH _ x y); cbn [stack zoneMap]; try done.
      apply elem_of_cons in Hx as [-> | Hx]; [| done].
      rewrite Hx0 in Et. done.
    + set (st1 := {| stack := rest; zoneMap := zoneMap st; lb := lb st; lbMap := lbMap st;
                     tb := tb st; tbMap := tbMap st |}).
      assert (zoneMap (visit tt w z cur st1) = zoneMap st) as Hzm.
      { rewrite visit_zoneMap. by apply set16_wrap. }
      apply elem_of_cons in Hx as [-> | Hx].
      * apply (IH _ y cur); rewrite ?Hzm; try done.
        -- by apply visit_stack_push.
        -- by destruct Hstep as [(_ & ? & _) _].
        -- by apply zoneStep_sym.
      * apply (IH _ x y); rewrite ?Hzm; try done.
        apply visit_stack. by left.
Qed.

Local Abbreviation leftOut := (leftOut tt w).

Lemma exploreLoop_keeps fuel z st st' c0 :
  (forall x, x ∈ stack st -> 0 <= x < n) -> c0 ∉ stack st ->
  leftOut (zoneMap st) c0 ->
  exploreLoop fuel tt w z st = Some st' -> leftOut (zoneMap st') c0.
Proof.
  revert st. induction fuel as [|fuel IH]; intros st Hr Hnot Hleft H; cbn [exploreLoop] in H.
  - destruct (stack st); [by injection H as <- | discriminate].
  - destruct (stack st) as [|cur rest] eqn:Es; [by injection H as <- |].
    cbn [zoneMap] in H.
    assert (cur <> c0) as Hne by (intros ->; apply Hnot; by left).
    assert (0 <= cur < n) as Hcur by (apply Hr; by left).
    destruct (truthy (geti (zoneMap st) cur)) eqn:Et.
    + apply IH in H; cbn [stack zoneMap]; try done.
      * intros x Hx. apply Hr. by right.
      * intros Hin. apply Hnot. by right.
    + destruct Hleft as [H0 Hnb].
      apply IH in H; [done | | |].
      * intros x Hx. apply visit_stack_step in Hx as [Hx | Hx]; [| | done | done].
        -- apply Hr. by right.
        -- by destruct Hx as [(_ & ? & _) _].
      * intros Hin. apply visit_stack_step in Hin as [Hin | Hin]; [| | done | done].
        -- apply Hnot. by right.
        -- apply zoneStep_sym in Hin; [| done]. apply Hnb in Hin. congruence.
      * rewrite visit_zoneMap. cbn [zoneMap]. split.
        -- by rewrite geti_set16_ne.
        -- intros y Hy. rewrite geti_set16_ne; [by apply Hnb |].
           intros ->. apply Hnb in Hy. congruence.
Qed.

Lemma exploreZone_zoneMap fuel i zm z zone zm1 :
  exploreZone fuel i tt w zm z = Ok (zone, zm1) ->
  exists st', exploreLoop fuel tt w z
                {| stack := [i]; zoneMap := zm; lb := []; lbMap := ∅; tb := []; tbMap := ∅ |}
              = Some st' /\ zm1 = zoneMap st'.
Proof.
  unfold exploreZone. intros H.
  apply bind_Ok in H as (st & Hst & H). apply ofOption_Ok in Hst.
  apply bind_Ok in H as (tid & _ & H). injection H as _ <-. by exists st.
Qed.

Lemma buildLoop_keeps fuel (k : nat) i acc zm zones zm' c0 :
  leftOut zm c0 -> c0 < i -> 0 <= i -> i + Z.of_nat k = n ->
  buildLoop fuel k i tt w acc zm = Ok (zones, zm') -> leftOut zm' c0.
Proof.
  revert i acc zm. induction k as [|k IH]; intros i acc zm Hleft Hlt Hi Hk H;
    cbn [buildLoop] in H.
  - by injection H as _ <-.
  - destruct (truthy _); [eapply (IH (i + 1)); [| | | | exact H]; (done || lia) |].
    apply bind_Ok in H as ([zone zm1] & Hz & H).
    apply exploreZone_zoneMap in Hz as (st' & Hst & ->).
    eapply (IH (i + 1)); [| | | | exact H]; try lia.
    eapply exploreLoop_keeps; [| | | exact Hst]; cbn [stack zoneMap]; try done.
    + intros x Hx. apply list_elem_of_singleton in Hx as ->. lia.
    + intros Hin. apply list_elem_of_singleton in Hin. lia.
Qed.

Lemma buildLoop_wrap fuel (k : nat) i acc zm zones zm' :
  length zm = length tt -> 0 <= i -> i + Z.of_nat k = n ->
  Z.of_nat (length acc) <= 65535 -> 65535 < Z.of_nat (length zones) ->
  buildLoop fuel k i tt w acc zm = Ok (zones, zm') ->
  exists c0, 0 <= c0 < n /\ geti zm' c0 = Some 0.
Proof.
  revert i acc zm. induction k as [|k IH]; intros i acc zm Hlen Hi Hk Hacc Hmany H;
    cbn [buildLoop] in H.
  - injection H as <- _. lia.
  - destruct (truthy (geti zm i)) eqn:Et;
      [eapply (IH (i + 1)); [| | | | | exact H]; (done || lia) |].
    apply bind_Ok in H as ([zone zm1] & Hz & H).
    apply exploreZone_zoneMap in Hz as (st' & Hst & ->).
    pose proof (exploreLoop_length _ _ _ _ Hst) as Hlen1. cbn [zoneMap] in Hlen1.
    destruct (decide (Z.of_nat (length acc) = 65535)) as [Efull | Hless].
    + (* the 65536th zone: its id is 0 modulo 2^16 *)
      rewrite Efull in Hst. change (65535 + 1) with 65536 in Hst.
      pose proof (exploreLoop_wrap_zoneMap fuel 65536 _ _ eq_refl Hst) as Hsame.
      cbn [zoneMap] in Hsame.
      assert (geti zm i = Some 0) as Hi0.
      { apply truthy_false_inrange; [rewrite Hlen; lia | done]. }
      exists i. split; [lia |].
      eapply (buildLoop_keeps fuel k (i + 1) _ _ _ _ i); [| lia | lia | lia | exact H].
      rewrite Hsame. split; [done |]. intros y Hy.
      destruct (truthy (geti zm y)) eqn:Ety; [done | exfalso].
      assert (geti zm y = Some 0) as Hy0.
      { apply truthy_false_inrange; [| done]. rewrite Hlen.
        by destruct Hy as [(_ & ? & _) _]. }
      rewrite (exploreLoop_wrap_diverges fuel 65536 _ i y) in Hst; cbn [stack zoneMap];
        try done; [by left | lia].
    + eapply (IH (i + 1)); [| | | | | exact H]; try lia.
      rewrite length_app. cbn [length]. lia.
Qed.

End Wrap.

(** ** The lines handed on for emission *)

Section Borders.
Import ZoneCalculator.
Context (tt : list Z) (w : Z) (Hw : 0 < w).

Local Abbreviation n := (Z.of_nat (length tt)).

Lemma visit_lb z cur st :
  lb (visit tt w z cur st)
  = (if leftOk tt w cur then lb st
     else if decide (cur ∈ lbMap st) then lb st else lb st ++ [cur])
  /\ lbMap (visit tt w z cur st)
     = (if leftOk tt w cur then lbMap st
        else if decide (cur ∈ lbMap st) then lbMap st else {[cur]} ∪ lbMap st).
Proof.
  unfold visit.
  destruct (leftOk tt w cur), (rightOk tt w cur), (topOk tt w cur), (bottomOk tt w cur),
    (decide (cur ∈ lbMap st)), (decide (cur ∈ tbMap st)); done.
Qed.

Lemma visit_tb z cur st :
  tb (visit tt w z cur st)
  = (if topOk tt w cur then tb st
     else if decide (cur ∈ tbMap st) then tb st else tb st ++ [cur])
  /\ tbMap (visit tt w z cur st)
     = (if topOk tt w cur then tbMap st
        else if decide (cur ∈ tbMap st) then tbMap st else {[cur]} ∪ tbMap st).
Proof.
  unfold visit.
  destruct (leftOk tt w cur), (rightOk tt w cur), (topOk tt w cur), (bottomOk tt w cur),
    (decide (cur ∈ lbMap st)), (decide (cur ∈ tbMap st)); done.
Qed.

(** Marking the unmarked cell [cur] keeps a border of the zone in order,
    with or without [cur] added to it. *)
Lemma borderOk_mark zm z cur border borderMap (push : bool) :
  0 < z < 65536 -> geti zm cur = Some 0 ->
  borderOk zm z border borderMap ->
  borderOk (set16 zm cur z) z
    (if push then border
     else if decide (cur ∈ borderMap) then border else border ++ [cur])
    (if push then borderMap
     else if decide (cur ∈ borderMap) then borderMap else {[cur]} ∪ borderMap).
Proof.
  intros Hz Hcur (Hnd & Hmap & Hall).
  assert (Forall (inZone (set16 zm cur z) z) border) as Hall'.
  { eapply Forall_impl; [exact Hall |]. intros x Hx. unfold inZone in *.
    rewrite geti_set16_ne; [done |]. intros ->. rewrite Hcur in Hx.
    injection Hx as Hx. lia. }
  destruct push; [done |]. destruct (decide (cur ∈ borderMap)) as [Hin | Hin]; [done |].
  split; [| split].
  - apply NoDup_app. split; [done |]. split; [| apply NoDup_singleton].
    intros x Hx Hx'. apply list_elem_of_singleton in Hx' as ->. apply Hin. by apply Hmap.
  - intros x. rewrite elem_of_union, elem_of_singleton, elem_of_app, list_elem_of_singleton.
    rewrite Hmap. tauto.
  - apply Forall_app. split; [done |]. constructor; [| constructor].
    unfold inZone. erewrite geti_set16_eq by done. f_equal. apply Z.mod_small. lia.
Qed.

Lemma exploreLoop_borders fuel z st st' :
  0 < z < 65536 -> length (zoneMap st) = length tt ->
  (forall x, x ∈ stack st -> 0 <= x < n) ->
  borderOk (zoneMap st) z (lb st) (lbMap st) ->
  borderOk (zoneMap st) z (tb st) (tbMap st) ->
  exploreLoop fuel tt w z st = Some st' ->
  borderOk (zoneMap st') z (lb st') (lbMap st')
  /\ borderOk (zoneMap st') z (tb st') (tbMap st').
Proof.
  intros Hz. revert st. induction fuel as [|fuel IH]; intros st Hlen Hr Hlb Htb H;
    cbn [exploreLoop] in H.
  - destruct (stack st); [by injection H as <- | discriminate].
  - destruct (stack st) as [|cur rest] eqn:Es; [by injection H as <- |].
    cbn [zoneMap] in H.
    assert (0 <= cur < n) as Hcur by (apply Hr; by left).
    destruct (truthy (geti (zoneMap st) cur)) eqn:Et.
    + apply IH in H; cbn [stack zoneMap lb lbMap tb tbMap]; try done.
      intros x Hx. apply Hr. by right.
    + apply truthy_false_inrange in Et; [| rewrite Hlen; lia].
      apply IH in H; [done | | | |].
      * by rewrite visit_zoneMap, set16_length.
      * intros x Hx. apply visit_stack_step in Hx as [Hx | Hx]; [| | done | done].
        -- apply Hr. by right.
        -- by destruct Hx as [(_ & ? & _) _].
      * destruct (visit_lb z cur
                    {| stack := rest; zoneMap := zoneMap st; lb := lb st;
                       lbMap := lbMap st; tb := tb st; tbMap := tbMap st |}) as [-> ->].
        rewrite visit_zoneMap. cbn [zoneMap lb lbMap]. by apply borderOk_mark.
      * destruct (visit_tb z cur
                    {| stack := rest; zoneMap := zoneMap st; lb := lb st;
                       lbMap := lbMap st; tb := tb st; tbMap := tbMap st |}) as [-> ->].
        rewrite visit_zoneMap. cbn [zoneMap tb tbMap]. by apply borderOk_mark.
Qed.

(** Marks are never overwritten. *)
Lemma exploreLoop_old_marks fuel z st st' c v :
  geti (zoneMap st) c = Some v -> v <> 0 ->
  exploreLoop fuel tt w z st = Some st' -> geti (zoneMap st') c = Some v.
Proof.
  intros Hc Hv. revert st Hc. induction fuel as [|fuel IH]; intros st Hc H;
    cbn [exploreLoop] in H.
  - destruct (stack st); [by injection H as <- | discriminate].
  - destruct (stack st) as [|cur rest] eqn:Es; [by injection H as <- |].
    cbn [zoneMap] in H. destruct (truthy (geti (zoneMap st) cur)) eqn:Et.
    + by apply IH in H.
    + apply IH in H; [done |]. rewrite visit_zoneMap. cbn [zoneMap].
      rewrite geti_set16_ne; [done |]. intros ->. rewrite Hc in Et. cbn in Et.
      apply negb_false_iff, Z.eqb_eq in Et. done.
Qed.

Lemma borderOk_keep zm zm' z border borderMap :
  0 < z -> (forall c v, geti zm c = Some v -> v <> 0 -> geti zm' c = Some v) ->
  borderOk zm z border borderMap -> borderOk zm' z border borderMap.
Proof.
  intros Hz Hkeep (Hnd & Hmap & Hall). split; [done |]. split; [done |].
  eapply Forall_impl; [exact Hall |]. intros x Hx. apply Hkeep; [done | lia].
Qed.

(** The zones found so far have their borders in order. *)
Lemma buildLoop_borders fuel (k : nat) i acc zm zones zm' :
  length zm = length tt -> 0 <= i -> i + Z.of_nat k = n ->
  Z.of_nat (length zones) <= 65535 ->
  (forall j zone, acc !! j = Some zone -> zoneBordersOk zm j zone) ->
  buildLoop fuel k i tt w acc zm = Ok (zones, zm') ->
  forall j zone, zones !! j = Some zone -> zoneBordersOk zm' j zone.
Proof.
  revert i acc zm. induction k as [|k IH]; intros i acc zm Hlen Hi Hk Hmax Hacc H;
    cbn [buildLoop] in H.
  - by injection H as <- <-.
  - destruct (truthy (geti zm i)) eqn:Et;
      [eapply (IH (i + 1)); [| | | | | exact H]; (done || lia) |].
    apply bind_Ok in H as ([zone zm1] & Hz & H).
    pose proof (exploreZone_length_acc _ _ _ _ _ _ _ _ _ H) as Hgrow.
    rewrite length_app in Hgrow. cbn [length] in Hgrow.
    assert (0 < Z.of_nat (length acc) + 1 < 65536) as Hzr by lia.
    unfold exploreZone in Hz.
    apply bind_Ok in Hz as (st & Hst & Hz). apply ofOption_Ok in Hst.
    apply bind_Ok in Hz as (tid & _ & Hz). injection Hz as <- <-.
    pose proof (exploreLoop_length tt w _ _ _ _ Hst) as Hlen1. cbn [zoneMap] in Hlen1.
    eapply (IH (i + 1)); [| | | | | exact H]; try lia.
    intros j zone Hj. apply lookup_app_Some in Hj as [Hj | [Hge Hj]].
    + destruct (Hacc j zone Hj) as [Hl Ht].
      split; (eapply borderOk_keep; [lia | | done]);
        intros c v Hc Hv;
        (eapply (exploreLoop_old_marks fuel _ _ st c v); [| done | exact Hst]; done).
    + apply list_lookup_singleton_Some in Hj as [Hj0 <-].
      replace j with (length acc) by lia. unfold zoneBordersOk. cbn.
      eapply exploreLoop_borders; [exact Hzr | | | | | exact Hst]; cbn; try done.
      * intros x Hx. apply list_elem_of_singleton in Hx as ->. lia.
      * split; [constructor | split; [| constructor]].
        intros x. split; intros Hx; [by apply not_elem_of_empty in Hx | by apply elem_of_nil in Hx].
      * split; [constructor | split; [| constructor]].
        intros x. split; intros Hx; [by apply not_elem_of_empty in Hx | by apply elem_of_nil in Hx].
Qed.

End Borders.

Section Emitted.
Import ZoneCalculator MapEncoder.

Lemma sameBorders_refl a : sameBorders a a.
Proof. by repeat split. Qed.

Lemma sameBorders_trans a b c : sameBorders a b -> sameBorders b c -> sameBorders a c.
Proof. intros (? & ? & ? & ?) (? & ? & ? & ?). repeat split; congruence. Qed.

Lemma setId_sameBorders newId zones k :
  Forall2 sameBorders zones (setId newId zones k).
Proof.
  unfold setId. revert k. induction zones as [|z zones IH]; intros k; [constructor |].
  destruct k as [|k]; cbn.
  - constructor; [by repeat split |]. apply Forall2_same_length_lookup_2; [done |].
    intros i x y Hx Hy. rewrite Hx in Hy. injection Hy as <-. apply sameBorders_refl.
  - constructor; [apply sameBorders_refl | apply IH].
Qed.

Lemma Forall2_sameBorders_trans a b c :
  Forall2 sameBorders a b -> Forall2 sameBorders b c -> Forall2 sameBorders a c.
Proof.
  intros Hab. revert c. induction Hab as [|x y a b Hxy _ IH]; intros c Hbc.
  - by inversion Hbc.
  - inversion Hbc; subst. constructor; [by eapply sameBorders_trans | by apply IH].
Qed.

Lemma fold_setId_sameBorders newId u zones0 zones :
  Forall2 sameBorders zones0 zones ->
  Forall2 sameBorders zones0 (fold_left (setId newId) u zones).
Proof.
  revert zones. induction u as [|k u IH]; intros zones H; cbn; [done |].
  apply IH. eapply Forall2_sameBorders_trans; [exact H | apply setId_sameBorders].
Qed.

Lemma compactTypes_sameBorders types tu used zones0 zones :
  Forall2 sameBorders zones0 zones ->
  Forall2 sameBorders zones0 (compactTypes types tu used zones).2.
Proof.
  revert tu used zones. induction types as [|t types IH]; intros tu used zones H; cbn.
  - done.
  - destruct tu as [|u tu]; [done |]. destruct u as [|k u]; [by apply IH |].
    apply IH. by apply fold_setId_sameBorders.
Qed.

Lemma validateTileTypeUsage_sameBorders types zones used zones' :
  validateTileTypeUsage types zones = Ok (used, zones') -> Forall2 sameBorders zones zones'.
Proof.
  unfold validateTileTypeUsage. intros H. apply bind_Ok in H as (tu & _ & H).
  injection H as H.
  pose proof (compactTypes_sameBorders types tu [] zones zones) as Hc.
  rewrite H in Hc. apply Hc. apply Forall2_same_length_lookup_2; [done |].
  intros i x y Hx Hy. rewrite Hx in Hy. injection Hy as <-. apply sameBorders_refl.
Qed.

Lemma jsSort_perm {A} (cmp : A -> A -> Z) (l : list A) : Permutation (jsSort cmp l) l.
Proof.
  unfold jsSort. change l with ([] ++ l) at 2. generalize (@nil A) as acc.
  induction l as [|x l IH]; intros acc; cbn.
  - by rewrite app_nil_r.
  - rewrite IH, (sortInsert_perm cmp x acc). by rewrite <- app_assoc.
Qed.

Context (wd : Z) (zm : list Z).

Lemma zoneLines_emitted fuel zones (z0 m : nat) a b l2r t2b :
  (forall j zone, zones !! j = Some zone -> zoneBordersOk zm (z0 + j) zone) ->
  (z0 + length zones <= m)%nat ->
  Forall (emittedOk wd zm m) a -> Forall (emittedOk wd zm m) b ->
  zoneLines fuel wd zones (Z.of_nat z0) zm a b = Ok (l2r, t2b) ->
  Forall (emittedOk wd zm m) l2r /\ Forall (emittedOk wd zm m) t2b.
Proof.
  revert z0 a b. induction zones as [|zone zones IH]; intros z0 a b Hz Hm Ha Hb H;
    cbn [zoneLines] in H.
  - by injection H as <- <-.
  - apply bind_Ok in H as (ll & Hll & H). apply bind_Ok in H as (lt & Hlt & H).
    destruct (Hz 0%nat zone eq_refl) as [(Hnd1 & _ & Hin1) (Hnd2 & _ & Hin2)].
    rewrite Nat.add_0_r in Hin1, Hin2.
    apply (neededLines_ok wd (Z.of_nat z0 + 1) zm) in Hll; [| done | done].
    apply (neededLines_ok wd (Z.of_nat z0 + 1) zm) in Hlt; [| done | done].
    cbn [length] in Hm.
    assert (forall ls, Forall (lineOk wd zm (Z.of_nat z0 + 1)) ls ->
              Forall (emittedOk wd zm m)
                (map (fun l => {| lid := id zone; line := l |}) ls)) as Hwrap.
    { intros ls Hls. apply Forall_map. eapply Forall_impl; [exact Hls |].
      intros l Hl. exists z0. split; [lia | done]. }
    replace (Z.of_nat z0 + 1) with (Z.of_nat (S z0)) in H by lia.
    eapply (IH (S z0)); [| lia | | | exact H].
    + intros j zn Hj. replace (S z0 + j)%nat with (z0 + S j)%nat by lia. by apply Hz.
    + apply Forall_app. split; [done | by apply Hwrap].
    + apply Forall_app. split; [done | by apply Hwrap].
Qed.

End Emitted.

(** ** The bit stream: what is written is what is read *)

Lemma run_bind {A B} (a : A) (f : A -> result B) : Ok a ≫= f = f a.
Proof. reflexivity. Qed.

Section Bits.
Import BitStream.

Lemma bitsOf_length n v : length (bitsOf n v) = n.
Proof. induction n as [|n IH]; cbn; [done | by rewrite IH]. Qed.

Lemma valueOf_fold bs acc :
  fold_left (fun a (b : bool) => 2 * a + (if b then 1 else 0)) bs acc
  = acc * 2 ^ Z.of_nat (length bs) + valueOf bs.
Proof.
  unfold valueOf. revert acc. induction bs as [|b bs IH]; intros acc; cbn [fold_left length].
  - cbn. lia.
  - rewrite IH, (IH (2 * 0 + _)). rewrite Nat2Z.inj_succ, Z.pow_succ_r by lia. lia.
Qed.

Lemma valueOf_cons (b : bool) bs :
  valueOf (b :: bs) = (if b then 1 else 0) * 2 ^ Z.of_nat (length bs) + valueOf bs.
Proof. unfold valueOf at 1. cbn [fold_left]. rewrite valueOf_fold. lia. Qed.

Lemma valueOf_bound bs : 0 <= valueOf bs < 2 ^ Z.of_nat (length bs).
Proof.
  induction bs as [|b bs IH]; [cbn; lia |].
  rewrite valueOf_cons. cbn [length]. rewrite Nat2Z.inj_succ, Z.pow_succ_r by lia.
  destruct b; lia.
Qed.

Lemma valueOf_bitsOf n v : valueOf (bitsOf n v) = v mod 2 ^ Z.of_nat n.
Proof.
  induction n as [|n IH]; [cbn; by rewrite Z.mod_1_r |].
  cbn [bitsOf]. rewrite valueOf_cons, bitsOf_length, IH.
  rewrite Nat2Z.inj_succ, Z.pow_succ_r by lia.
  rewrite (Z.mul_comm 2), Z.rem_mul_r by lia.
  rewrite <- Z.testbit_spec' by lia. destruct (Z.testbit v (Z.of_nat n)); cbn; lia.
Qed.

Lemma bitsOf_mod n v : bitsOf n (v mod 2 ^ Z.of_nat n) = bitsOf n v.
Proof.
  assert (forall k, (k <= n)%nat -> bitsOf k (v mod 2 ^ Z.of_nat n) = bitsOf k v) as H.
  { induction k as [|k IH]; intros Hk; cbn; [done |].
    rewrite IH by lia. f_equal. apply Z.mod_pow2_bits_low. lia. }
  by apply H.
Qed.

Lemma bitsOf_valueOf bs : bitsOf (length bs) (valueOf bs) = bs.
Proof.
  induction bs as [|b bs IH]; [done |].
  cbn [length bitsOf]. pose proof (valueOf_bound bs) as Hb.
  rewrite valueOf_cons. f_equal.
  - apply Z.b2z_inj. rewrite Z.testbit_spec' by lia.
    rewrite Z.div_add_l by lia. rewrite (Z.div_small (valueOf bs)) by lia.
    destruct b; reflexivity.
  - rewrite <- bitsOf_mod. rewrite Z.add_comm, Z.mod_add by lia.
    rewrite Z.mod_small by lia. done.
Qed.

(** Reading [n] bits after writing a value with [n] bits gives the value
    back, modulo [2^n]. *)
Lemma readBits_bitsOf n v r :
  0 <= n -> readBits n (bitsOf (Z.to_nat n) v ++ r) = Ok (v mod 2 ^ n, r).
Proof.
  intros Hn. unfold readBits.
  destruct (Nat.ltb_spec (length (bitsOf (Z.to_nat n) v ++ r)) (Z.to_nat n)) as [Hlt | _].
  { rewrite length_app, bitsOf_length in Hlt. lia. }
  rewrite take_app_length' by (by rewrite bitsOf_length).
  rewrite drop_app_length' by (by rewrite bitsOf_length).
  rewrite valueOf_bitsOf. by rewrite Z2Nat.id.
Qed.

Lemma readBits_small n v r :
  0 <= n -> 0 <= v < 2 ^ n -> readBits n (bitsOf (Z.to_nat n) v ++ r) = Ok (v, r).
Proof. intros Hn Hv. rewrite readBits_bitsOf by done. by rewrite Z.mod_small. Qed.

Lemma byteBits_byteOfBits bs : length bs = 8%nat -> byteBits (byteOfBits bs) = bs.
Proof.
  intros Hlen. unfold byteBits, byteOfBits.
  pose proof (valueOf_bound bs) as Hb. rewrite Hlen in Hb.
  destruct (Byte.of_N (Z.to_N (valueOf bs))) as [b|] eqn:E.
  - apply Byte.to_of_N in E. rewrite E, Z2N.id by lia.
    rewrite <- Hlen. apply bitsOf_valueOf.
  - apply Byte.of_N_None_iff in E. change (2 ^ Z.of_nat 8) with 256 in Hb. lia.
Qed.

Lemma packBytes_bits fuel bs :
  (length bs <= fuel)%nat ->
  exists pad, newReader (packBytes fuel bs) = bs ++ pad /\ Forall (fun b => b = false) pad.
Proof.
  revert bs. induction fuel as [|fuel IH]; intros bs Hfuel.
  - destruct bs; [| cbn in Hfuel; lia]. exists []. done.
  - destruct bs as [|b bs]; [exists []; done |].
    cbn [packBytes]. set (l := b :: bs) in *.
    destruct (IH (drop 8 l)) as (pad & Hpad & Hall).
    { rewrite length_drop. cbn in Hfuel |- *. lia. }
    unfold newReader in *. cbn [flat_map]. rewrite Hpad.
    rewrite byteBits_byteOfBits.
    2:{ rewrite length_take, length_app, repeat_length. subst l. cbn [length]. lia. }
    destruct (Nat.le_gt_cases 8 (length l)) as [Hlong | Hshort].
    + exists pad. split; [| done].
      rewrite take_app_le by done. by rewrite app_assoc, take_drop.
    + rewrite (drop_ge l) in * by lia.
      exists (take (8 - length l) (repeat false 7) ++ pad). split.
      * rewrite take_app_ge by lia. by rewrite <- app_assoc.
      * apply Forall_app. split; [| done]. apply Forall_take.
        repeat constructor.
Qed.

(** Modelled from the spec: the reader sees the bits of the writer, and
    then the zero bits that fill the last byte. *)
Lemma newReader_compress w :
  exists pad, newReader (compress w) = w ++ pad /\ Forall (fun b => b = false) pad.
Proof. by apply packBytes_bits. Qed.

Lemma asciiBits_value c r :
  ascii_of_nat (Z.to_nat (valueOf (take 8 (asciiBits c ++ r)))) = c
  /\ drop 8 (asciiBits c ++ r) = r.
Proof.
  unfold asciiBits. rewrite take_app_length' by (by rewrite bitsOf_length).
  rewrite drop_app_length' by (by rewrite bitsOf_length). split; [| done].
  rewrite valueOf_bitsOf. pose proof (nat_ascii_bounded c) as Hc.
  rewrite Z.mod_small by (change (2 ^ Z.of_nat 8) with 256; lia).
  by rewrite Nat2Z.id, ascii_nat_embedding.
Qed.

Lemma bytesOfBits_ascii cs r :
  bytesOfBits (length cs) (flat_map asciiBits cs ++ r) = cs
  /\ drop (8 * length cs) (flat_map asciiBits cs ++ r) = r.
Proof.
  induction cs as [|c cs [IH1 IH2]]; [done |].
  cbn [length flat_map bytesOfBits]. rewrite <- app_assoc.
  destruct (asciiBits_value c (flat_map asciiBits cs ++ r)) as [-> Hd].
  rewrite Hd, IH1. split; [done |].
  replace (8 * S (length cs))%nat with (8 + 8 * length cs)%nat by lia.
  by rewrite <- drop_drop, Hd.
Qed.

Lemma log2ceil_fits maxChars len :
  0 <= len <= maxChars ->
  0 <= log2ceil (maxChars + 1) /\ len < 2 ^ log2ceil (maxChars + 1).
Proof.
  intros H. unfold log2ceil. split; [apply Z.log2_up_nonneg |].
  destruct (Z.eq_dec maxChars 0) as [-> | Hne].
  { replace len with 0 by lia. reflexivity. }
  pose proof (Z.log2_up_spec (maxChars + 1) ltac:(lia)). lia.
Qed.

(** Modelled from the spec: a string that fits its field is read back. *)
Lemma readString_writeString maxChars s w w' :
  writeString maxChars s w = Ok w' ->
  exists bits, w' = w ++ bits /\ forall r, readString maxChars (bits ++ r) = Ok (s, r).
Proof.
  unfold writeString. destruct (Z.ltb_spec maxChars (Z.of_nat (String.length s))) as [| Hle];
    [discriminate |].
  intros [= <-]. unfold writeBits. rewrite <- app_assoc. eexists. split; [reflexivity |].
  intros r.
  destruct (log2ceil_fits maxChars (Z.of_nat (String.length s)) ltac:(lia)) as [Hn Hfit].
  unfold readString. rewrite <- app_assoc, readBits_small by lia.
  rewrite run_bind. cbn beta iota.
  destruct (Z.ltb_spec maxChars (Z.of_nat (String.length s))); [lia |].
  assert (String.length s = length (list_ascii_of_string s)) as Hlen.
  { clear. induction s; cbn; [done | by f_equal]. }
  destruct (bytesOfBits_ascii (list_ascii_of_string s) r) as [Hb Hd].
  assert (length (flat_map asciiBits (list_ascii_of_string s))
          = (8 * length (list_ascii_of_string s))%nat) as Hfl.
  { clear. induction (list_ascii_of_string s) as [|c cs IH]; [done |].
    cbn [flat_map]. rewrite length_app, IH. unfold asciiBits. rewrite bitsOf_length.
    cbn [length]. lia. }
  rewrite Nat2Z.id, Hlen.
  replace (Z.to_nat (Z.of_nat (length (list_ascii_of_string s)) * 8))
    with (8 * length (list_ascii_of_string s))%nat by lia.
  rewrite Hb, Hd, string_of_list_ascii_of_string.
  match goal with |- context [(?a <? ?b)%nat] => destruct (Nat.ltb_spec a b) as [Hlt | _] end;
    [| done].
  rewrite length_app in Hlt. lia.
Qed.

End Bits.

(** ** The palette: what [writeTypeMap] writes, [readTypeMap] reads *)

Section Palette.
Import BitStream MapEncoder MapDecoder.

Lemma writeTypeMapLoop_read ts w w' :
  writeTypeMapLoop ts w = Ok w' ->
  exists bits, w' = w ++ bits
    /\ forall acc r, readTypes (length ts) (bits ++ r) acc = Ok (acc ++ map stored ts, r).
Proof.
  revert w. induction ts as [|t ts IH]; intros w H.
  - injection H as <-. exists []. split; [by rewrite app_nil_r |].
    intros acc r. cbn. by rewrite app_nil_r.
  - cbn [writeTypeMapLoop] in H.
    apply bind_Ok in H as (w1 & H1 & H). apply bind_Ok in H as (w2 & H2 & H).
    apply readString_writeString in H1 as (b1 & -> & R1).
    apply readString_writeString in H2 as (b2 & -> & R2).
    apply IH in H as (bits & -> & Hread).
    unfold writeBits, writeBoolean. rewrite <- !app_assoc.
    eexists. split; [reflexivity |].
    intros acc r. cbn [length readTypes]. rewrite <- !app_assoc.
    rewrite (readBits_bitsOf 3) by lia. rewrite run_bind. cbn beta iota.
    rewrite R1, run_bind. cbn beta iota. rewrite R2, run_bind. cbn beta iota.
    rewrite (readBits_bitsOf 4) by lia. rewrite run_bind. cbn beta iota.
    change (readBoolean ([conquerable t] ++ ?x)) with (@Ok (bool * Reader) (conquerable t, x)).
    rewrite run_bind. cbn beta iota.
    change (readBoolean ([navigable t] ++ ?x)) with (@Ok (bool * Reader) (navigable t, x)).
    rewrite run_bind. cbn beta iota.
    rewrite (readBits_bitsOf 8) by lia. rewrite run_bind. cbn beta iota.
    rewrite (readBits_bitsOf 8) by lia. rewrite run_bind. cbn beta iota.
    rewrite Hread, <- app_assoc. reflexivity.
Qed.

(** The palette that [writeTypeMap] wrote is read back by [readTypeMap]. *)
Lemma writeTypeMap_read ts w w' :
  Z.of_nat (length ts) < 65536 ->
  writeTypeMap w ts = Ok w' ->
  exists bits, w' = w ++ bits
    /\ forall r, readTypeMap (bits ++ r) = Ok (map stored ts, r).
Proof.
  intros Hlen H. unfold writeTypeMap in H.
  apply writeTypeMapLoop_read in H as (bits & -> & Hread).
  unfold writeBits. rewrite <- app_assoc. eexists. split; [reflexivity |].
  intros r. unfold readTypeMap. rewrite <- app_assoc.
  rewrite (readBits_small 16) by (change (2 ^ 16) with 65536; lia).
  rewrite run_bind. cbn beta iota. rewrite Nat2Z.id. apply (Hread []).
Qed.

(** X1.  What [writeTypeMap] writes for a palette of fewer than 65536
    entries, [readTypeMap] reads back entry by entry and leaves the rest of
    the stream untouched: the names and colours are the same, the colour
    variant is taken modulo 16 and the expansion time and cost modulo
    256. *)
Theorem readTypeMap_writeTypeMap ts w w' :
  Z.of_nat (length ts) < 65536 ->
  writeTypeMap w ts = Ok w' ->
  exists bits, w' = w ++ bits
    /\ forall r, readTypeMap (bits ++ r) = Ok (map stored ts, r).
Proof. exact (writeTypeMap_read ts w w'). Qed.

Lemma readTypeMap_writeTypeMap_witness :
  exists w', writeTypeMap [true] [grass; water] = Ok w'
    /\ exists bits, w' = [true] ++ bits
         /\ forall r, readTypeMap (bits ++ r) = Ok (map stored [grass; water], r).
Proof.
  eexists. split; [vm_compute; reflexivity |].
  apply (readTypeMap_writeTypeMap [grass; water] [true]); [cbn; lia | vm_compute; reflexivity].
Defined.

End Palette.

(** ** The line records: what [writeLines] writes, [putLines] reads *)

Section LineRoundTrip.
Import BitStream MapEncoder MapDecoder.

Lemma checkChunkLoop_Some fuel w chunk cur w' c' :
  checkChunkLoop fuel w chunk cur = Some (w', c') ->
  c' = chunk /\ cur <= chunk /\ w' = w ++ repeat true (Z.to_nat (chunk - cur)).
Proof.
  revert w cur. induction fuel as [|fuel IH]; intros w cur; cbn [checkChunkLoop];
    destruct (Z.eqb_spec chunk cur) as [-> | Hne].
  - intros [= <- <-]. rewrite Z.sub_diag. cbn. by rewrite app_nil_r.
  - discriminate.
  - intros [= <- <-]. rewrite Z.sub_diag. cbn. by rewrite app_nil_r.
  - intros H. apply IH in H as (-> & Hle & ->). split; [done |]. split; [lia |].
    replace (Z.to_nat (chunk - cur)) with (S (Z.to_nat (chunk - (cur + 1)))) by lia.
    unfold writeBits. cbn. by rewrite <- app_assoc.
Qed.

(** [checkChunk] returns only for a width other than 0, after as many 1
    bits as chunks to advance. *)
Lemma checkChunk_Some fuel width w cur position w' c' :
  checkChunk fuel width w cur position = Some (w', c') ->
  width <> 0 /\ c' = chunkNumber width position /\ cur <= chunkNumber width position
  /\ w' = w ++ repeat true (Z.to_nat (chunkNumber width position - cur)) ++ [false].
Proof.
  unfold checkChunk, chunkOf. destruct (Z.eqb_spec width 0) as [| Hw]; [discriminate |].
  destruct (checkChunkLoop fuel w (chunkNumber width position) cur) as [[w3 c3]|] eqn:Ec;
    [| discriminate].
  intros [= <- <-]. apply checkChunkLoop_Some in Ec as (-> & Hle & ->).
  unfold writeBits. cbn. by rewrite <- app_assoc.
Qed.

(** A run of [writeLines] that returns has written the line records, and
    its lines start in chunks that do not decrease. *)
Lemma writeLinesLoop_Ok fuel width typeLength lines w cur w' :
  writeLinesLoop fuel width typeLength lines w cur = Ok w' ->
  w' = w ++ lineRecords width typeLength cur lines /\ chunksAscend width cur lines.
Proof.
  revert w cur. induction lines as [|l lines IH]; intros w cur H; cbn in H.
  - injection H as <-. cbn. by rewrite app_nil_r.
  - apply bind_Ok in H as ([w1 c1] & H1 & H).
    unfold writeLine in H1. destruct (line l) as [|first rest] eqn:El; [discriminate |].
    apply bind_Ok in H1 as ([w2 c2] & Hc & H1). apply ofOption_Ok in Hc.
    apply checkChunk_Some in Hc as (_ & -> & Hle & ->).
    injection H1 as <- <-. apply IH in H as [-> Hasc].
    cbn [lineRecords chunksAscend]. rewrite El. cbn [hd]. split; [| done].
    unfold lineRecord, lineFields, chunkPrefix, positionInChunk. rewrite El. cbn [hd tl].
    rewrite writeSteps_bits. unfold writeBits. cbn [Z.to_nat Pos.to_nat Pos.iter_op Nat.add].
    rewrite <- !app_assoc. reflexivity.
Qed.

Lemma readChunk_prefix k r cur :
  readChunk (repeat true k ++ [false] ++ r) cur = Ok (cur + Z.of_nat k, r).
Proof.
  revert cur. induction k as [|k IH]; intros cur; cbn [repeat app readChunk].
  - by rewrite Z.add_0_r.
  - rewrite IH. do 2 f_equal. lia.
Qed.

(** The step codes of a line lead the decoder along its cells. *)
Lemma putSteps_stepBits width ty prev rest g r :
  chain width (prev :: rest) ->
  putSteps (length rest) (stepBits width prev rest ++ r) g width ty prev
  = Ok (fold_left (fun g c => put g c ty) rest g, r).
Proof.
  revert prev g. induction rest as [|cur rest IH]; intros prev g Hc; [done |].
  cbn [length putSteps stepBits fold_left]. rewrite <- app_assoc.
  destruct Hc as [Hstep Hc].
  assert (0 <= stepCode width prev cur < 4) as Hcode.
  { unfold stepCode. repeat destruct (_ =? _); lia. }
  rewrite (readBits_small 2 _ _ ltac:(lia) Hcode), run_bind. cbn beta iota.
  assert (prev + (if stepCode width prev cur =? 0 then 1
                  else if stepCode width prev cur =? 1 then -1
                  else if stepCode width prev cur =? 2 then width else - width) = cur) as ->.
  { unfold stepCode, step in *.
    destruct (Z.eqb_spec (cur - prev) 1); [cbn; lia |].
    destruct (Z.eqb_spec (cur - prev) (-1)); [cbn; lia |].
    destruct (Z.eqb_spec (cur - prev) width); cbn; lia. }
  by apply IH.
Qed.

(** The chunk and the position inside the chunk give the cell back. *)
Lemma position_of_chunk width first :
  0 < width -> 0 <= first ->
  let p := positionInChunk width first in
  let c := chunkNumber width first in
  Z.rem p 32 + Z.rem c (ceilDiv width 32) * 32 + p / 32 * width
  + c / ceilDiv width 32 * 32 * width = first
  /\ 0 <= p < 1024.
Proof.
  intros Hw Hf p c. subst p c. unfold positionInChunk, chunkNumber.
  rewrite (Z.rem_mod_nonneg first width) by lia.
  set (x := first mod width). set (y := first / width).
  assert (0 <= x < width) as Hx by (apply Z.mod_pos_bound; lia).
  assert (0 <= y) as Hy by (apply Z.div_pos; lia).
  assert (first = width * y + x) as Hfirst by (apply Z.div_mod; lia).
  rewrite (Z.rem_mod_nonneg x 32), (Z.rem_mod_nonneg y 32) by lia.
  set (cw := ceilDiv width 32).
  assert (width <= cw * 32) as Hcw.
  { unfold cw, ceilDiv. pose proof (Z.mul_div_le (- width) 32 ltac:(lia)). lia. }
  assert (0 < cw) as Hcw0 by lia.
  pose proof (Z.mod_pos_bound x 32 ltac:(lia)) as Hx32.
  pose proof (Z.mod_pos_bound y 32 ltac:(lia)) as Hy32.
  pose proof (Z.div_mod x 32 ltac:(lia)) as Hxd.
  pose proof (Z.div_mod y 32 ltac:(lia)) as Hyd.
  assert (0 <= x / 32 < cw) as Hxc.
  { split; [apply Z.div_pos; lia |]. apply Z.div_lt_upper_bound; lia. }
  assert (0 <= y / 32) as Hyc by (apply Z.div_pos; lia).
  rewrite (Z.rem_mod_nonneg (x mod 32 + y mod 32 * 32) 32) by lia.
  rewrite Z.mod_add, Z.mod_mod by lia.
  rewrite Z.div_add, (Z.div_small (x mod 32)), Z.add_0_l by lia.
  rewrite (Z.rem_mod_nonneg (y / 32 * cw + x / 32) cw) by nia.
  rewrite (Z.add_comm (y / 32 * cw)), Z.mod_add, (Z.mod_small (x / 32)) by lia.
  rewrite Z.div_add, (Z.div_small (x / 32)), Z.add_0_l by lia.
  split; [nia | lia].
Qed.

Lemma putLinesLoop_records width typeLength lines cur g r :
  0 < width -> 0 <= typeLength ->
  chunksAscend width cur lines ->
  Forall (fitsRecord width typeLength) lines ->
  putLinesLoop (length lines) (lineRecords width typeLength cur lines ++ r) g
    width typeLength cur
  = Ok (placeLines g lines, r).
Proof.
  intros Hw Ht. revert cur g.
  induction lines as [|l lines IH]; intros cur g Hasc Hfit; [done |].
  destruct Hasc as (Hne & Hle & Hasc). inversion Hfit as [|? ? Hl Hrest]; subst.
  destruct Hl as (Hlen & Hchain & Hfirst & Hid).
  cbn [length putLinesLoop lineRecords placeLines fold_left].
  unfold lineRecord, chunkPrefix, lineFields. rewrite <- !app_assoc.
  rewrite readChunk_prefix, run_bind. cbn beta iota.
  rewrite Z2Nat.id by lia.
  replace (cur + (chunkNumber width (hd 0 (line l)) - cur)) with (chunkNumber width (hd 0 (line l)))
    by lia.
  change (readBits 1 ([false] ++ ?x)) with (@Ok (Z * Reader) (0, x)).
  rewrite run_bind. cbn beta iota.
  rewrite (readBits_small 8) by (change (2 ^ 8) with 256; lia).
  rewrite run_bind. cbn beta iota.
  rewrite (readBits_small typeLength) by done. rewrite run_bind. cbn beta iota.
  destruct (position_of_chunk width (hd 0 (line l)) Hw Hfirst) as [Hpos Hp].
  rewrite (readBits_small 10) by (change (2 ^ 10) with 1024; lia).
  rewrite run_bind. cbn beta iota. rewrite Hpos.
  destruct (line l) as [|first rest] eqn:El; [done |]. cbn [hd tl length] in *.
  replace (Z.to_nat (Z.of_nat (S (length rest)) - 1 + 1 - 1)) with (length rest) by lia.
  rewrite putSteps_stepBits by done. rewrite run_bind. cbn beta iota.
  rewrite IH by done. unfold placeLine at 2. rewrite El. reflexivity.
Qed.

(** The line records that [writeLines] wrote are read back by [putLines]. *)
Lemma writeLines_read fuel width typeLength lines w w' :
  0 < width -> 0 <= typeLength ->
  Z.of_nat (length lines) < 2 ^ 32 ->
  Forall (fitsRecord width typeLength) lines ->
  writeLines fuel width w lines typeLength = Ok w' ->
  exists bits, w' = w ++ bits
    /\ forall g r, putLines (bits ++ r) g width typeLength = Ok (placeLines g lines, r).
Proof.
  intros Hw Ht Hlen Hfit H. unfold writeLines in H.
  apply writeLinesLoop_Ok in H as [-> Hasc].
  unfold writeBits. rewrite <- app_assoc. eexists. split; [reflexivity |].
  intros g r. unfold putLines. rewrite <- app_assoc.
  rewrite (readBits_small 32) by lia. rewrite run_bind. cbn beta iota.
  rewrite Nat2Z.id. by apply putLinesLoop_records.
Qed.

End LineRoundTrip.

(** ** The compaction of the palette *)

Section Compaction.
Import ZoneCalculator MapEncoder.

Lemma zonesOf_elem zones k i j :
  j ∈ zonesOf zones k i
  <-> exists z, zones !! (j - k)%nat = Some z /\ (k <= j)%nat /\ id z = Z.of_nat i.
Proof.
  revert k. induction zones as [|z zones IH]; intros k; cbn [zonesOf].
  - split; [intros H; by apply elem_of_nil in H | by intros (z & H & _)].
  - rewrite elem_of_app, IH. split.
    + intros [H | (z' & Hz' & Hk & Hid)].
      * destruct (Z.eqb_spec (id z) (Z.of_nat i)); [| by apply elem_of_nil in H].
        apply list_elem_of_singleton in H as ->. exists z. rewrite Nat.sub_diag. done.
      * exists z'. replace (j - k)%nat with (S (j - S k)) by lia. split; [done |].
        split; [lia | done].
    + intros (z' & Hz' & Hk & Hid). destruct (decide (j = k)) as [-> | Hne].
      * left. rewrite Nat.sub_diag in Hz'. injection Hz' as ->.
        rewrite Hid, Z.eqb_refl. by apply list_elem_of_singleton.
      * right. exists z'. replace (j - k)%nat with (S (j - S k)) in Hz' by lia.
        split; [done |]. split; [lia | done].
Qed.

Lemma zonesOf_usedBy zones i : usedBy zones i = true <-> zonesOf zones 0 i <> [].
Proof.
  unfold usedBy. generalize 0%nat. induction zones as [|z zones IH]; intros k; cbn.
  - done.
  - destruct (Z.eqb_spec (id z) (Z.of_nat i)); cbn; [done | apply IH].
Qed.

(** The first loop of [validateTileTypeUsage] files every zone under its
    type, and fails on a zone whose type is not in the palette. *)
Lemma collectUsage_spec types zones k tu tu' :
  length tu = length types ->
  collectUsage types zones k tu = Ok tu' ->
  length tu' = length types
  /\ Forall (fun z => 0 <= id z < Z.of_nat (length types)) zones
  /\ forall i, tu' !! i = (fun u => u ++ zonesOf zones k i) <$> tu !! i.
Proof.
  revert k tu. induction zones as [|z zones IH]; intros k tu Hlen H; cbn in H.
  - injection H as <-. split; [done |]. split; [constructor |].
    intros i. cbn. destruct (tu !! i); cbn; [by rewrite app_nil_r | done].
  - destruct (geti types (id z)) as [t|] eqn:Et; [| discriminate].
    apply geti_Some_range in Et.
    apply IH in H as (Hlen' & Hall & Hlook); [| by rewrite length_alter].
    split; [done |]. split; [by constructor |].
    intros i. rewrite Hlook. cbn [zonesOf].
    destruct (Z.eqb_spec (id z) (Z.of_nat i)) as [E | E].
    + rewrite E, Nat2Z.id, list_lookup_alter_eq.
      destruct (tu !! i); cbn; [by rewrite <- app_assoc | done].
    + rewrite list_lookup_alter_ne by lia. done.
Qed.

Lemma setId_lookup newId zones k j :
  setId newId zones k !! j
  = if decide (j = k)
    then (fun z => {| id := newId; leftBorder := leftBorder z;
                      leftBorderMap := leftBorderMap z; topBorder := topBorder z;
                      topBorderMap := topBorderMap z |}) <$> zones !! j
    else zones !! j.
Proof.
  unfold setId. destruct (decide (j = k)) as [-> | Hne].
  - by rewrite list_lookup_alter_eq.
  - by rewrite list_lookup_alter_ne.
Qed.

Lemma fold_setId_lookup newId u zones j :
  fold_left (setId newId) u zones !! j
  = if decide (j ∈ u)
    then (fun z => {| id := newId; leftBorder := leftBorder z;
                      leftBorderMap := leftBorderMap z; topBorder := topBorder z;
                      topBorderMap := topBorderMap z |}) <$> zones !! j
    else zones !! j.
Proof.
  revert zones. induction u as [|k u IH]; intros zones; cbn [fold_left].
  - destruct (decide (j ∈ [])) as [H | _]; [by apply elem_of_nil in H | done].
  - rewrite IH, setId_lookup.
    destruct (decide (j ∈ u)) as [Hu | Hu], (decide (j = k)) as [-> | Hk];
      destruct (decide _) as [Hin | Hin]; try done.
    + by destruct (zones !! k).
    + exfalso. apply Hin. by right.
    + exfalso. apply Hin. by right.
    + exfalso. apply Hin. by left.
    + apply elem_of_cons in Hin as [? | ?]; done.
Qed.

Lemma usedUpTo_S types zones i :
  usedUpTo types zones (S i)
  = usedUpTo types zones i
    ++ (if usedBy zones i then option_list (types !! i) else []).
Proof.
  unfold usedUpTo. rewrite seq_S, omap_app. cbn. f_equal.
  destruct (usedBy zones i); [| done]. by destruct (types !! i).
Qed.

Lemma usedUpTo_prefix types zones i m :
  (i <= m)%nat -> exists rest, usedUpTo types zones m = usedUpTo types zones i ++ rest.
Proof.
  intros Hle. unfold usedUpTo. replace m with (i + (m - i))%nat by lia.
  rewrite seq_app, omap_app. eauto.
Qed.

Lemma compacted_S types zones0 i z0 z :
  id z0 <> Z.of_nat i -> compacted types zones0 i z0 z -> compacted types zones0 (S i) z0 z.
Proof.
  intros Hne [Hb Hid]. split; [done |]. rewrite Hid.
  destruct (Z.ltb_spec (id z0) (Z.of_nat i)), (Z.ltb_spec (id z0) (Z.of_nat (S i)));
    try done; lia.
Qed.

Lemma compactTypes_cons t T u U used zs :
  compactTypes (t :: T) (u :: U) used zs
  = if decide (u = []) then compactTypes T U used zs
    else compactTypes T U (used ++ [t])
           (fold_left (setId (Z.of_nat (length (used ++ [t])) - 1)) u zs).
Proof. by destruct u. Qed.

Lemma compactTypes_inv types zones0 T1 : forall U1 i used zs,
  (i + length T1 = length types)%nat -> length U1 = length T1 ->
  (forall j, T1 !! j = types !! (i + j)%nat) ->
  (forall j u, U1 !! j = Some u -> u = zonesOf zones0 0 (i + j)) ->
  used = usedUpTo types zones0 i ->
  Forall2 (compacted types zones0 i) zones0 zs ->
  (compactTypes T1 U1 used zs).1 = usedUpTo types zones0 (length types)
  /\ Forall2 (compacted types zones0 (length types)) zones0 (compactTypes T1 U1 used zs).2.
Proof.
  induction T1 as [|t T1 IH]; intros U1 i used zs Hi HU HT Hu -> Hzs.
  - cbn in Hi. replace (length types) with i by lia. by destruct U1.
  - destruct U1 as [|u U1]; [done |]. cbn [length] in *.
    pose proof (Hu 0%nat u eq_refl) as Hu0. rewrite Nat.add_0_r in Hu0.
    pose proof (HT 0%nat) as Ht0. rewrite Nat.add_0_r in Ht0. cbn in Ht0.
    assert (forall j, T1 !! j = types !! (S i + j)%nat) as HT'.
    { intros j. replace (S i + j)%nat with (i + S j)%nat by lia. by rewrite <- (HT (S j)). }
    assert (forall j u', U1 !! j = Some u' -> u' = zonesOf zones0 0 (S i + j)) as Hu'.
    { intros j u' Hj. replace (S i + j)%nat with (i + S j)%nat by lia. by apply Hu. }
    apply Forall2_same_length_lookup in Hzs as [Hlen Hzs].
    rewrite compactTypes_cons. destruct (decide (u = [])) as [Eu | Eu].
    + rewrite Eu in Hu0. assert (usedBy zones0 i = false) as Hnone.
      { apply not_true_is_false. rewrite zonesOf_usedBy, <- Hu0. intros H. by apply H. }
      apply (IH U1 (S i)); [lia | lia | done | done | |].
      * by rewrite usedUpTo_S, Hnone, app_nil_r.
      * apply Forall2_same_length_lookup. split; [done |].
        intros j z0 z Hz0 Hz. apply compacted_S; [| by eapply Hzs].
        intros Hid. assert (j ∈ zonesOf zones0 0 i) as Hin.
        { apply zonesOf_elem. exists z0. rewrite Nat.sub_0_r. split; [done |].
          split; [lia | done]. }
        rewrite <- Hu0 in Hin. by apply elem_of_nil in Hin.
    + assert (usedBy zones0 i = true) as Hsome.
      { apply zonesOf_usedBy. by rewrite <- Hu0. }
      apply (IH U1 (S i)); [lia | lia | done | done | |].
      * by rewrite usedUpTo_S, Hsome, <- Ht0.
      * apply Forall2_same_length_lookup. split.
        { clear -Hlen. revert zs Hlen. induction u as [|k u IHu]; intros zs Hlen; [done |].
          cbn [fold_left]. apply IHu. unfold setId. by rewrite length_alter. }
        intros j z0 z Hz0 Hz. rewrite fold_setId_lookup in Hz.
        assert (j ∈ u <-> id z0 = Z.of_nat i) as Hju.
        { rewrite Hu0, zonesOf_elem, Nat.sub_0_r. split.
          - intros (z1 & Hz1 & _ & Hid). congruence.
          - intros Hid. exists z0. split; [done |]. split; [lia | done]. }
        destruct (decide (j ∈ u)) as [Hin | Hin].
        -- apply Hju in Hin. destruct (zs !! j) as [z1|] eqn:Ez1; [| done].
           injection Hz as <-. destruct (Hzs j z0 z1 Hz0 Ez1) as [Hb _].
           split; [exact Hb |]. cbn [id].
           destruct (Z.ltb_spec (id z0) (Z.of_nat (S i))); [| lia].
           rewrite Hin, Nat2Z.id, length_app. cbn [length]. lia.
        -- apply compacted_S; [| by eapply Hzs]. by rewrite <- Hju.
Qed.

(** The used types and the new ids that [validateTileTypeUsage] computes. *)
Lemma compaction_spec types zones used zones' :
  validateTileTypeUsage types zones = Ok (used, zones') ->
  used = usedUpTo types zones (length types)
  /\ Forall2 (fun z z' =>
                sameBorders z z'
                /\ id z' = Z.of_nat (length (usedUpTo types zones (Z.to_nat (id z))))
                /\ is_Some (geti types (id z))
                /\ geti used (id z') = geti types (id z)) zones zones'.
Proof.
  unfold validateTileTypeUsage. intros H. apply bind_Ok in H as (tu & Htu & H).
  apply collectUsage_spec in Htu as (Hlen & Hall & Hlook); [| by rewrite repeat_length].
  destruct (compactTypes_inv types zones types tu 0 [] zones) as [Hused Hzones];
    [done | done | done | | done | |].
  - intros j u Hj. rewrite Hlook in Hj.
    destruct (repeat [] (length types) !! j) as [u0|] eqn:E; [| done].
    apply list_elem_of_lookup_2, list_elem_of_In, repeat_spec in E as ->.
    cbn in Hj. by injection Hj as <-.
  - apply Forall2_same_length_lookup. split; [done |].
    intros j z0 z Hz0 Hz. assert (z = z0) as -> by congruence.
    split; [done |]. destruct (Z.ltb_spec (id z0) (Z.of_nat 0)); [| done].
    rewrite Forall_forall in Hall. specialize (Hall z0 (list_elem_of_lookup_2 _ _ _ Hz0)). lia.
  - injection H as H. rewrite H in Hused, Hzones. cbn in Hused, Hzones.
    split; [done |]. apply Forall2_same_length_lookup in Hzones as [Hl Hz].
    apply Forall2_same_length_lookup. split; [done |].
    intros j z z' Hj Hj'. destruct (Hz j z z' Hj Hj') as [Hb Hid].
    rewrite Forall_forall in Hall.
    pose proof (Hall z (list_elem_of_lookup_2 _ _ _ Hj)) as Hr.
    destruct (Z.ltb_spec (id z) (Z.of_nat (length types))); [| lia].
    split; [done |]. split; [done |]. split; [apply geti_inrange; lia |].
    set (i := Z.to_nat (id z)) in *.
    assert (usedBy zones i = true) as Hu.
    { apply existsb_exists. exists z. split; [by eapply list_elem_of_In, list_elem_of_lookup_2 |].
      apply Z.eqb_eq. lia. }
    destruct (lookup_lt_is_Some_2 types i ltac:(lia)) as [t Ht].
    destruct (usedUpTo_prefix types zones (S i) (length types) ltac:(lia)) as [rest Hrest].
    rewrite Hid, Hused, Hrest, usedUpTo_S, Hu, Ht. cbn [option_list].
    rewrite geti_nat, <- app_assoc, lookup_app_r, Nat.sub_diag by lia. cbn.
    unfold geti. destruct (Z.ltb_spec (id z) 0); [lia |]. done.
Qed.

(** X3.  The compaction of the palette by [validateTileTypeUsage]: the
    used types are the palette entries that are the type of some zone, in
    the order of the palette; every zone keeps its borders, its new id is
    the rank of its type among the used entries, and it names in the used
    types the very entry that its old id named in the palette. *)
Theorem validateTileTypeUsage_compacts types zones used zones' :
  validateTileTypeUsage types zones = Ok (used, zones') ->
  used = usedUpTo types zones (length types)
  /\ Forall2 (fun z z' =>
                sameBorders z z'
                /\ id z' = Z.of_nat (length (usedUpTo types zones (Z.to_nat (id z))))
                /\ is_Some (geti types (id z))
                /\ geti used (id z') = geti types (id z)) zones zones'.
Proof. exact (compaction_spec types zones used zones'). Qed.

Lemma validateTileTypeUsage_compacts_witness :
  let zone i := {| id := i; leftBorder := []; leftBorderMap := ∅;
                   topBorder := []; topBorderMap := ∅ |} in
  let zones := [zone 2; zone 0; zone 2] in
  let types := [grass; water; grass] in
  exists used zones',
    validateTileTypeUsage types zones = Ok (used, zones')
    /\ used = usedUpTo types zones (length types)
    /\ Forall2 (fun z z' =>
                  sameBorders z z'
                  /\ id z' = Z.of_nat (length (usedUpTo types zones (Z.to_nat (id z))))
                  /\ is_Some (geti types (id z))
                  /\ geti used (id z') = geti types (id z)) zones zones'.
Proof.
  intros zone zones types. eexists _, _. split; [vm_compute; reflexivity |].
  apply (validateTileTypeUsage_compacts types zones). vm_compute. reflexivity.
Defined.

(** When every palette entry is the type of some zone, the compaction
    changes nothing. *)
Lemma usedUpTo_all types zones i :
  (i <= length types)%nat -> (forall j, (j < i)%nat -> usedBy zones j = true) ->
  usedUpTo types zones i = take i types.
Proof.
  induction i as [|i IH]; intros Hi Hall; [done |].
  rewrite usedUpTo_S, IH, Hall by (try lia; intros; apply Hall; lia).
  destruct (lookup_lt_is_Some_2 types i ltac:(lia)) as [t Ht]. rewrite Ht. cbn.
  by erewrite take_S_r.
Qed.

End Compaction.

(** ** The borders of a zone are complete *)

Section Complete.
Import ZoneCalculator.
Context (tt : list Z) (w : Z) (Hw : 0 < w).

Local Abbreviation n := (Z.of_nat (length tt)).

Lemma borderFull_mark ok zm z cur border borderMap :
  borderFull ok zm z border borderMap ->
  borderFull ok (set16 zm cur z) z
    (if ok cur : bool then border
     else if decide (cur ∈ borderMap) then border else border ++ [cur])
    (if ok cur then borderMap
     else if decide (cur ∈ borderMap) then borderMap else {[cur]} ∪ borderMap).
Proof.
  intros (Hmap & Hall & Honly).
  assert (forall c, c <> cur -> geti (set16 zm cur z) c = Some z -> ok c = false ->
                    c ∈ border) as Hold.
  { intros c Hne Hc Hok. rewrite geti_set16_ne in Hc by done. by apply Hall. }
  destruct (ok cur) eqn:Eok; [| destruct (decide (cur ∈ borderMap)) as [Hin | Hin]].
  - split; [done |]. split; [| done]. intros c Hc Hok.
    destruct (decide (c = cur)) as [-> | Hne]; [congruence | by apply Hold].
  - split; [done |]. split; [| done]. intros c Hc Hok.
    destruct (decide (c = cur)) as [-> | Hne]; [by apply Hmap | by apply Hold].
  - split; [| split].
    + intros x Hx. apply elem_of_union in Hx as [Hx | Hx].
      * apply elem_of_singleton in Hx as ->. apply elem_of_app. right. by left.
      * apply elem_of_app. left. by apply Hmap.
    + intros c Hc Hok. apply elem_of_app.
      destruct (decide (c = cur)) as [-> | Hne]; [right; by left | left; by apply Hold].
    + intros c Hc. apply elem_of_app in Hc as [Hc | Hc]; [by apply Honly |].
      by apply list_elem_of_singleton in Hc as ->.
Qed.

Lemma exploreLoop_full fuel z st st' :
  borderFull (leftOk tt w) (zoneMap st) z (lb st) (lbMap st) ->
  borderFull (topOk tt w) (zoneMap st) z (tb st) (tbMap st) ->
  exploreLoop fuel tt w z st = Some st' ->
  borderFull (leftOk tt w) (zoneMap st') z (lb st') (lbMap st')
  /\ borderFull (topOk tt w) (zoneMap st') z (tb st') (tbMap st').
Proof.
  revert st. induction fuel as [|fuel IH]; intros st Hlb Htb H; cbn [exploreLoop] in H.
  - destruct (stack st); [by injection H as <- | discriminate].
  - destruct (stack st) as [|cur rest] eqn:Es; [by injection H as <- |].
    cbn [zoneMap] in H. destruct (truthy (geti (zoneMap st) cur)) eqn:Et.
    + by apply IH in H.
    + apply IH in H; [done | |].
      * destruct (visit_lb tt w z cur
                    {| stack := rest; zoneMap := zoneMap st; lb := lb st;
                       lbMap := lbMap st; tb := tb st; tbMap := tbMap st |}) as [-> ->].
        rewrite visit_zoneMap. cbn [zoneMap lb lbMap]. by apply borderFull_mark.
      * destruct (visit_tb tt w z cur
                    {| stack := rest; zoneMap := zoneMap st; lb := lb st;
                       lbMap := lbMap st; tb := tb st; tbMap := tbMap st |}) as [-> ->].
        rewrite visit_zoneMap. cbn [zoneMap tb tbMap]. by apply borderFull_mark.
Qed.

(** The exploration writes no other mark than its zone id. *)
Lemma exploreLoop_marks fuel z st st' c :
  exploreLoop fuel tt w z st = Some st' ->
  geti (zoneMap st') c = geti (zoneMap st) c
  \/ geti (zoneMap st') c = Some (z mod 65536).
Proof.
  revert st. induction fuel as [|fuel IH]; intros st H; cbn [exploreLoop] in H.
  - destruct (stack st); [injection H as <-; by left | discriminate].
  - destruct (stack st) as [|cur rest] eqn:Es; [injection H as <-; by left |].
    cbn [zoneMap] in H. destruct (truthy (geti (zoneMap st) cur)) eqn:Et.
    + by apply IH in H.
    + apply IH in H as [H | H]; [| by right].
      rewrite visit_zoneMap in H. cbn [zoneMap] in H.
      destruct (decide (c = cur)) as [-> | Hne].
      * destruct (geti (zoneMap st) cur) as [x|] eqn:Ex.
        -- right. rewrite H. by eapply geti_set16_eq.
        -- left. rewrite H. unfold set16, geti in *.
           destruct (Z.ltb_spec cur 0); [done |].
           rewrite list_insert_ge; [done |]. by apply lookup_ge_None.
      * left. by rewrite H, geti_set16_ne.
Qed.

Lemma borderFull_keep ok zm zm' z border borderMap :
  (forall c, geti zm' c = Some z -> geti zm c = Some z) ->
  borderFull ok zm z border borderMap -> borderFull ok zm' z border borderMap.
Proof.
  intros Hkeep (Hmap & Hall & Honly). split; [done |]. split; [| done].
  intros c Hc Hok. apply Hall; [by apply Hkeep | done].
Qed.

Lemma borderFull_empty ok zm z :
  (forall c, geti zm c <> Some z) -> borderFull ok zm z [] ∅.
Proof.
  intros Hfree. split; [| split].
  - intros x Hx. by apply not_elem_of_empty in Hx.
  - intros c Hc. by apply Hfree in Hc.
  - intros c Hc. by apply elem_of_nil in Hc.
Qed.

(** The zones found so far have complete borders. *)
Lemma buildLoop_full fuel (k : nat) i acc zm zones zm' :
  Z.of_nat (length zones) <= 65535 ->
  (forall c v, geti zm c = Some v -> v <= Z.of_nat (length acc)) ->
  (forall j zone, acc !! j = Some zone -> zoneBordersFull tt w zm j zone) ->
  buildLoop fuel k i tt w acc zm = Ok (zones, zm') ->
  forall j zone, zones !! j = Some zone -> zoneBordersFull tt w zm' j zone.
Proof.
  revert i acc zm. induction k as [|k IH]; intros i acc zm Hmax Hle Hacc H;
    cbn [buildLoop] in H.
  - by injection H as <- <-.
  - destruct (truthy (geti zm i)) eqn:Et; [by eapply (IH (i + 1)) |].
    apply bind_Ok in H as ([zone zm1] & Hz & H).
    pose proof (exploreZone_length_acc _ _ _ _ _ _ _ _ _ H) as Hgrow.
    rewrite length_app in Hgrow. cbn [length] in Hgrow.
    assert (0 < Z.of_nat (length acc) + 1 < 65536) as Hzr by lia.
    unfold exploreZone in Hz.
    apply bind_Ok in Hz as (st & Hst & Hz). apply ofOption_Ok in Hst.
    apply bind_Ok in Hz as (tid & _ & Hz). injection Hz as <- <-.
    assert (forall c, geti (zoneMap st) c = geti zm c
                      \/ geti (zoneMap st) c = Some (Z.of_nat (length acc) + 1)) as Hmarks.
    { intros c. destruct (exploreLoop_marks fuel _ _ _ c Hst) as [E | E]; [by left |].
      right. by rewrite Z.mod_small in E by lia. }
    eapply (IH (i + 1)); [done | | | exact H].
    + intros c v Hc. rewrite length_app. cbn [length].
      destruct (Hmarks c) as [E | E]; rewrite E in Hc.
      * apply Hle in Hc. lia.
      * injection Hc as <-. lia.
    + intros j zone Hj. apply lookup_app_Some in Hj as [Hj | [Hge Hj]].
      * destruct (Hacc j zone Hj) as [Hl Ht]. apply lookup_lt_Some in Hj as Hlt.
        split; (eapply borderFull_keep; [| done]); intros c Hc;
          (destruct (Hmarks c) as [E | E]; rewrite E in Hc; [done | injection Hc; lia]).
      * apply list_lookup_singleton_Some in Hj as [Hj0 <-].
        replace j with (length acc) by lia. unfold zoneBordersFull. cbn.
        eapply exploreLoop_full; [| | exact Hst]; cbn; apply borderFull_empty;
          intros c Hc; apply Hle in Hc; lia.
Qed.

Lemma sameZone_tiles a b : sameZone tt w a b -> geti tt a = geti tt b.
Proof.
  intros H. induction H as [|a b c [_ Hab] _ IH]; [done | congruence].
Qed.

End Complete.

Section ZoneFacts.
Import ZoneCalculator.

(** What the scan of [buildZones] establishes on a map with at most 65535
    zones: the borders of every zone are distinct cells of the zone and are
    complete, and every cell carries the mark of a zone of its type. *)
Lemma buildZones_facts fuel data zones zm :
  wellFormed data ->
  buildZones fuel data = Ok (zones, zm) ->
  Z.of_nat (length zones) <= 65535 ->
  length zm = length (tiles data)
  /\ (forall j zone, zones !! j = Some zone ->
        zoneBordersOk zm j zone /\ zoneBordersFull (tiles data) (width data) zm j zone)
  /\ (forall c, 0 <= c < Z.of_nat (length (tiles data)) ->
        exists (k : nat) zone,
          zones !! k = Some zone /\ geti zm c = Some (Z.of_nat k + 1)
          /\ geti (tiles data) c = Some (id zone)).
Proof.
  intros (Hw & Hh & Hlen) H Hmax. rewrite buildZones_unfold in H by nia.
  set (zm0 := repeat 0 (Z.to_nat (width data * height data))) in *.
  assert (length zm0 = length (tiles data)) as Hzm by (unfold zm0; rewrite repeat_length; lia).
  assert (forall c v, geti zm0 c = Some v -> v = 0) as Hzero.
  { intros c v Hc. by apply geti_elem, list_elem_of_In, repeat_spec in Hc. }
  destruct (buildLoop_scanned (tiles data) (width data) Hw fuel (length (tiles data)) 0
              [] zm0 [] zones zm) as (seeds & [H1 H2 H3 H4 H5 H6] & Hsl);
    [| constructor | lia | lia | exact H | done |].
  { constructor; try done.
    - constructor.
    - intros s Hs. by apply elem_of_nil in Hs.
    - intros c v Hc Hv. by apply Hzero in Hc.
    - intros c c' v Hc Hv. by apply Hzero in Hc.
    - intros c Hc. lia. }
  split; [done |]. split.
  - intros j zone Hj. split.
    + eapply (buildLoop_borders (tiles data) (width data) Hw fuel (length (tiles data)) 0 []);
        [exact Hzm | lia | lia | done | | exact H | exact Hj].
      intros j' zone' Hj'. by rewrite lookup_nil in Hj'.
    + eapply (buildLoop_full (tiles data) (width data) fuel (length (tiles data)) 0 []);
        [done | | | exact H | exact Hj].
      * intros c v Hc. apply Hzero in Hc. cbn. lia.
      * intros j' zone' Hj'. by rewrite lookup_nil in Hj'.
  - intros c Hc. destruct (truthy_true zm c (H6 c Hc)) as (v & Hv & Hv0).
    destruct (H4 c v Hv Hv0) as (k & s & Hk & Hs & ->).
    destruct (Forall2_lookup_l _ _ _ _ _ Hsl Hk) as (zone & Hzone & Hseed).
    exists k, zone. split; [done |]. split; [done |].
    rewrite <- (sameZone_tiles _ _ _ _ Hs). exact Hseed.
Qed.

(** X4.  On a well-formed map with at most 65535 zones, the left border of
    a zone holds, once each, exactly the cells of the zone that fail the
    left-neighbour test of [exploreZone] (the cell is in the first column,
    or the cell to its left has another type), and the top border exactly
    those that fail the top-neighbour test. *)
Theorem buildZones_borders fuel data zones zm (k : nat) zone :
  wellFormed data ->
  buildZones fuel data = Ok (zones, zm) ->
  Z.of_nat (length zones) <= 65535 ->
  zones !! k = Some zone ->
  NoDup (leftBorder zone) /\ NoDup (topBorder zone)
  /\ forall c,
       (c ∈ leftBorder zone
        <-> geti zm c = Some (Z.of_nat k + 1) /\ leftOk (tiles data) (width data) c = false)
       /\ (c ∈ topBorder zone
           <-> geti zm c = Some (Z.of_nat k + 1) /\ topOk (tiles data) (width data) c = false).
Proof.
  intros Hwf H Hmax Hk.
  destruct (buildZones_facts fuel data zones zm Hwf H Hmax) as (_ & Hb & _).
  destruct (Hb k zone Hk) as [[(Hnl & _ & Hzl) (Hnt & _ & Hzt)]
                                [(_ & Hal & Hol) (_ & Hat & Hot)]].
  rewrite Forall_forall in Hzl, Hzt.
  split; [done |]. split; [done |]. intros c. split; split.
  - intros Hc. split; [by apply Hzl | by apply Hol].
  - intros [Hc Hok]. by apply Hal.
  - intros Hc. split; [by apply Hzt | by apply Hot].
  - intros [Hc Hok]. by apply Hat.
Qed.

Lemma buildZones_borders_witness :
  let zone := {| id := 1; leftBorder := [1; 3]; leftBorderMap := {[1; 3]};
                 topBorder := [1]; topBorderMap := {[1]} |} in
  NoDup (leftBorder zone) /\ NoDup (topBorder zone)
  /\ forall c,
       (c ∈ leftBorder zone
        <-> geti [1; 2; 1; 2] c = Some (Z.of_nat 1 + 1)
            /\ leftOk (tiles mapTwoColumns) (width mapTwoColumns) c = false)
       /\ (c ∈ topBorder zone
           <-> geti [1; 2; 1; 2] c = Some (Z.of_nat 1 + 1)
               /\ topOk (tiles mapTwoColumns) (width mapTwoColumns) c = false).
Proof.
  intros zone.
  apply (buildZones_borders 8 mapTwoColumns
           [ {| id := 0; leftBorder := [0; 2]; leftBorderMap := {[0; 2]};
                topBorder := [0]; topBorderMap := {[0]} |}; zone ] [1; 2; 1; 2] 1 zone).
  - split; [reflexivity |]. split; [by vm_compute | reflexivity].
  - vm_compute. reflexivity.
  - cbn. lia.
  - reflexivity.
Defined.

End ZoneFacts.

(** ** Every border point lies on a line *)

Section Cover.
Import MapEncoder.

Lemma lookup_repeat {A} (x : A) (n i : nat) : (i < n)%nat -> repeat x n !! i = Some x.
Proof.
  revert i. induction n as [|n IH]; intros i Hi; [lia |].
  destruct i as [|i]; [done |]. cbn. apply IH. lia.
Qed.

Lemma elem_of_concat {A} (x : A) (ls : list (list A)) :
  x ∈ concat ls <-> exists l, l ∈ ls /\ x ∈ l.
Proof.
  rewrite list_elem_of_In, in_concat. split; intros (l & Hl & Hx); exists l.
  - by rewrite !list_elem_of_In.
  - by rewrite <- !list_elem_of_In.
Qed.

Lemma elem_of_rev {A} (x : A) (l : list A) : x ∈ rev l <-> x ∈ l.
Proof. rewrite !list_elem_of_In. symmetry. apply in_rev. Qed.

Lemma concatSegment_elem s pth ending toAdd x :
  x ∈ s \/ x = toAdd -> x ∈ concatSegment s pth ending toAdd.
Proof.
  unfold concatSegment. destruct (firstIs s ending); intros [Hx | ->].
  - right. apply elem_of_app. by right.
  - by left.
  - apply elem_of_app. by left.
  - rewrite !elem_of_app. right. right. by left.
Qed.

Lemma connectSegments_elem a b vf vt pth x :
  x ∈ a \/ x ∈ b -> x ∈ (connectSegments a b vf vt pth).1.
Proof.
  unfold connectSegments.
  destruct (firstIs b vt), (firstIs a vf); cbn; rewrite !elem_of_app, ?elem_of_rev; tauto.
Qed.

Lemma segmentAt_inv st i sidx s :
  segmentAt st i = Ok (sidx, s) ->
  segmentMap st !! i = Some sidx /\ geti (segments st) sidx = Some s.
Proof.
  unfold segmentAt. intros H. apply bind_Ok in H as (k & Hk & H). apply ofOption_Ok in Hk.
  apply bind_Ok in H as (s' & Hs & H). apply ofOption_Ok in Hs. by injection H as <- <-.
Qed.

Lemma setSegment_elem segs sidx (s s' : list Z) x :
  geti segs sidx = Some s -> (forall y, y ∈ s -> y ∈ s') ->
  (exists t, t ∈ segs /\ x ∈ t) -> exists t, t ∈ setSegment segs sidx s' /\ x ∈ t.
Proof.
  intros Hs Hsub (t & Ht & Hx). apply list_elem_of_lookup in Ht as [i Hi].
  pose proof (geti_Some _ _ _ Hs) as [Hk Hs'].
  destruct (decide (i = Z.to_nat sidx)) as [-> | Hne].
  - exists s'. split.
    + eapply list_elem_of_lookup_2. apply list_lookup_insert_eq. by eapply lookup_lt_Some.
    + apply Hsub. congruence.
  - exists t. split; [| done]. eapply list_elem_of_lookup_2.
    unfold setSegment. by rewrite list_lookup_insert_ne.
Qed.

Lemma process_cover border c st st' :
  covered border (connectionCount st) (segments st) ->
  processConnection (countZero (connectionCount st) (from c))
    (countZero (connectionCount st) (to c)) c border st = Ok (true, st') ->
  covered border (countUp (countUp (connectionCount st) (from c)) (to c)) (segments st').
Proof.
  intros Hcov H.
  assert (forall i, countZero (connectionCount st) i = false ->
                    geti (connectionCount st) i <> Some 0) as Hold.
  { intros i Hi E. unfold countZero in Hi. by rewrite E in Hi. }
  enough ((forall x, (exists t, t ∈ segments st /\ x ∈ t) ->
                     exists t, t ∈ segments st' /\ x ∈ t)
          /\ (forall v, geti border (from c) = Some v -> exists t, t ∈ segments st' /\ v ∈ t)
          /\ (forall v, geti border (to c) = Some v -> exists t, t ∈ segments st' /\ v ∈ t))
    as (Hmono & Hfrom & Hto).
  { intros j v Hv Hj. rewrite !geti_countUp in Hj.
    destruct (decide (j = to c)) as [-> | Hjt]; [by apply Hto |].
    destruct (decide (j = from c)) as [-> | Hjf]; [by apply Hfrom |].
    apply Hmono. by eapply Hcov. }
  unfold processConnection in H.
  apply bind_Ok in H as (vf & Hvf & H). apply ofOption_Ok in Hvf.
  apply bind_Ok in H as (vt & Hvt & H). apply ofOption_Ok in Hvt.
  rewrite Hvf, Hvt.
  destruct (countZero (connectionCount st) (from c)) eqn:Ezf;
    destruct (countZero (connectionCount st) (to c)) eqn:Ezt; cbn [andb] in H.
  - injection H as <-. cbn [segments]. split; [| split].
    + intros x (t & Ht & Hx). exists t. split; [| done]. apply elem_of_app. by left.
    + intros v [= <-]. eexists. split; [apply elem_of_app; right; by left |]. by left.
    + intros v [= <-]. eexists. split; [apply elem_of_app; right; by left |].
      right. apply elem_of_app. right. by left.
  - apply bind_Ok in H as ([sidx seg] & Hseg & H). injection H as <-. cbn [segments].
    apply segmentAt_inv in Hseg as [_ Hseg].
    assert (forall x, (exists t, t ∈ segments st /\ x ∈ t) ->
              exists t, t ∈ setSegment (segments st) sidx
                              (concatSegment seg (path c) vt vf) /\ x ∈ t) as Hmono.
    { intros x. apply (setSegment_elem _ _ seg); [done |].
      intros y Hy. apply concatSegment_elem. by left. }
    split; [done |]. split.
    + intros v [= <-]. eexists. split.
      * eapply geti_elem, geti_setSegment_eq. exact Hseg.
      * apply concatSegment_elem. by right.
    + intros v [= <-]. apply Hmono. apply (Hcov (to c)); [done | by apply Hold].
  - apply bind_Ok in H as ([sidx seg] & Hseg & H). injection H as <-. cbn [segments].
    apply segmentAt_inv in Hseg as [_ Hseg].
    assert (forall x, (exists t, t ∈ segments st /\ x ∈ t) ->
              exists t, t ∈ setSegment (segments st) sidx
                              (concatSegment seg (rev (path c)) vf vt) /\ x ∈ t) as Hmono.
    { intros x. apply (setSegment_elem _ _ seg); [done |].
      intros y Hy. apply concatSegment_elem. by left. }
    split; [done |]. split.
    + intros v [= <-]. apply Hmono. apply (Hcov (from c)); [done | by apply Hold].
    + intros v [= <-]. eexists. split.
      * eapply geti_elem, geti_setSegment_eq. exact Hseg.
      * apply concatSegment_elem. by right.
  - destruct (negb _) eqn:Esame; [| discriminate].
    apply negb_true_iff, bool_decide_eq_false in Esame.
    apply bind_Ok in H as ([ia sa] & Hsa & H). apply bind_Ok in H as ([ib sb] & Hsb & H).
    apply segmentAt_inv in Hsa as [Hma Hsa]. apply segmentAt_inv in Hsb as [Hmb Hsb].
    assert (ia <> ib) as Hab by congruence.
    pose proof (connectSegments_elem sa sb vf vt (path c)) as Helem.
    destruct (connectSegments sa sb vf vt (path c)) as [sb' ostart] eqn:Ec.
    apply bind_Ok in H as (start & _ & H). injection H as <-. cbn [segments fst] in *.
    pose proof (geti_Some _ _ _ Hsa) as [Hia Hla]. pose proof (geti_Some _ _ _ Hsb) as [Hib Hlb].
    assert (forall x, (exists t, t ∈ segments st /\ x ∈ t) ->
              exists t, t ∈ setSegment (setSegment (segments st) ib sb') ia [] /\ x ∈ t)
      as Hmono.
    { intros x (t & Ht & Hx). apply list_elem_of_lookup in Ht as [i Hi].
      assert (setSegment (setSegment (segments st) ib sb') ia [] !! Z.to_nat ib = Some sb')
        as Hnew.
      { unfold setSegment. rewrite list_lookup_insert_ne by lia.
        apply list_lookup_insert_eq. eapply lookup_lt_Some. exact Hlb. }
      destruct (decide (i = Z.to_nat ia)) as [-> | Hna].
      { exists sb'. split; [by eapply list_elem_of_lookup_2 |].
        apply Helem. left. congruence. }
      destruct (decide (i = Z.to_nat ib)) as [-> | Hnb].
      { exists sb'. split; [by eapply list_elem_of_lookup_2 |].
        apply Helem. right. congruence. }
      exists t. split; [| done]. eapply list_elem_of_lookup_2.
      unfold setSegment. by rewrite !list_lookup_insert_ne. }
    split; [done |].
    split; intros v [= <-]; apply Hmono;
      [apply (Hcov (from c)) | apply (Hcov (to c))]; (done || by apply Hold).
Qed.

Lemma stitchLoop_cover cs border st st' :
  covered border (connectionCount st) (segments st) ->
  stitchLoop cs border st = Ok st' ->
  covered border (connectionCount st') (segments st').
Proof.
  revert st. induction cs as [|c cs IH]; intros st Hcov H; cbn [stitchLoop] in H.
  - by injection H as <-.
  - destruct (countFull _ (from c) || countFull _ (to c)); [by eapply IH |].
    apply bind_Ok in H as ([used st1] & Hp & H). destruct used.
    + eapply IH; [| exact H]. cbn [segments connectionCount]. by eapply process_cover.
    + apply processConnection_unused in Hp as ->. by eapply IH.
Qed.

Lemma addSinglesLoop_cover border i cc lines :
  (forall l, l ∈ lines -> l ∈ addSinglesLoop border i cc lines)
  /\ (forall (j : nat) b, border !! j = Some b -> geti cc (i + Z.of_nat j) = Some 0 ->
                          [b] ∈ addSinglesLoop border i cc lines).
Proof.
  revert i lines. induction border as [|b0 border IH]; intros i lines; cbn [addSinglesLoop].
  - split; [done |]. intros j b Hj. by rewrite lookup_nil in Hj.
  - destruct (IH (i + 1)
               (if bool_decide (geti cc i = Some 0) then lines ++ [[b0]] else lines))
      as [Hkeep Hnew].
    split.
    + intros l Hl. apply Hkeep. destruct (bool_decide _); [| done].
      apply elem_of_app. by left.
    + intros [|j] b Hj Hc; cbn in Hj.
      * injection Hj as ->. rewrite Z.add_0_r in Hc. apply Hkeep.
        rewrite bool_decide_eq_true_2 by done. apply elem_of_app. right. by left.
      * apply (Hnew j); [done |]. by replace (i + 1 + Z.of_nat j) with (i + Z.of_nat (S j)) by lia.
Qed.

(** The lines of [calculateNeededLines] pass through every border point. *)
Lemma neededLines_cover fuel w points pointMap zoneId tm lines p :
  calculateNeededLines fuel w points pointMap zoneId tm = Ok lines ->
  p ∈ points -> exists l, l ∈ lines /\ p ∈ l.
Proof.
  intros H Hp. unfold calculateNeededLines in H.
  apply bind_Ok in H as (cm & _ & H). apply bind_Ok in H as (st & Hst & H).
  apply bind_Ok in H as (segs & Hsegs & H). apply ofOption_Ok in Hsegs.
  injection H as <-.
  apply stitchLoop_cover in Hst.
  2:{ intros j v Hj Hc. exfalso. apply Hc. cbn.
      apply geti_Some in Hj as Hj'. destruct Hj' as [Hj0 Hj'].
      apply lookup_lt_Some in Hj'. unfold geti. destruct (Z.ltb_spec j 0); [lia |].
      apply lookup_repeat. lia. }
  apply list_elem_of_lookup in Hp as [j Hj].
  destruct (addSinglesLoop_cover points 0 (connectionCount st) segs) as [Hkeep Hnew].
  assert (exists l, l ∈ addSingles points (connectionCount st) segs /\ p ∈ l)
    as (l & Hl & Hpl).
  { destruct (decide (geti (connectionCount st) (Z.of_nat j) = Some 0)) as [E | E].
    - exists [p]. split; [by apply (Hnew j) | by left].
    - destruct (Hst (Z.of_nat j) p) as (s & Hs & Hps); [by rewrite geti_nat | done |].
      destruct (cropLoop_result fuel [] (segments st) segs) as (_ & _ & Hperm);
        [constructor | done |].
      assert (p ∈ concat segs) as Hin.
      { rewrite Hperm. apply elem_of_concat. eauto. }
      apply elem_of_concat in Hin as (l & Hl & Hpl). exists l. split; [by apply Hkeep | done]. }
  exists l. split; [| done]. apply list_elem_of_filter. split; [| done].
  destruct l; [by apply elem_of_nil in Hpl | cbn; lia].
Qed.

(** X5.  Every border point handed to [calculateNeededLines] lies on one of
    the lines it returns. *)
Theorem calculateNeededLines_covers fuel w points pointMap zoneId tm lines p :
  calculateNeededLines fuel w points pointMap zoneId tm = Ok lines ->
  p ∈ points -> exists l, l ∈ lines /\ p ∈ l.
Proof. exact (neededLines_cover fuel w points pointMap zoneId tm lines p). Qed.

Lemma calculateNeededLines_covers_witness :
  exists lines,
    calculateNeededLines 8 2 [1; 3] {[1; 3]} 2 [1; 2; 1; 2] = Ok lines
    /\ exists l, l ∈ lines /\ 3 ∈ l.
Proof.
  eexists. split; [vm_compute; reflexivity |].
  apply (calculateNeededLines_covers 8 2 [1; 3] {[1; 3]} 2 [1; 2; 1; 2]).
  - vm_compute. reflexivity.
  - right. by left.
Defined.

End Cover.

(** ** The lines that the encoder emits *)

Section EmittedLines.
Import ZoneCalculator MapEncoder.
Context (wd : Z) (zm : list Z) (allZones : list TileZone).

Lemma wrap_emitted (k : nat) zone ls :
  allZones !! k = Some zone ->
  Forall (lineOk wd zm (Z.of_nat k + 1)) ls ->
  Forall (emittedFor wd zm allZones) (map (fun l => {| lid := id zone; line := l |}) ls).
Proof.
  intros Hk Hls. apply Forall_map. eapply Forall_impl; [exact Hls |].
  intros l Hl. by exists k, zone.
Qed.

Lemma onLines_app a b c : onLines (a ++ b) c <-> onLines a c \/ onLines b c.
Proof.
  unfold onLines. split.
  - intros (l & Hl & Hc). apply elem_of_app in Hl as [Hl | Hl]; eauto.
  - intros [(l & Hl & Hc) | (l & Hl & Hc)]; exists l; (split; [| done]);
      apply elem_of_app; auto.
Qed.

Lemma onLines_wrap i ls c :
  (exists l, l ∈ ls /\ c ∈ l) -> onLines (map (fun l => {| lid := i; line := l |}) ls) c.
Proof.
  intros (l & Hl & Hc). exists {| lid := i; line := l |}. split; [| done].
  apply list_elem_of_fmap. by exists l.
Qed.

(** The lines of the two directions: every line belongs to a zone and
    carries its type id, and every border point lies on a line of its
    direction. *)
Lemma zoneLines_facts fuel zones (z0 : nat) a b l2r t2b :
  (forall j zone, zones !! j = Some zone ->
     allZones !! (z0 + j)%nat = Some zone /\ zoneBordersOk zm (z0 + j) zone) ->
  zoneLines fuel wd zones (Z.of_nat z0) zm a b = Ok (l2r, t2b) ->
  exists la lb,
    l2r = a ++ la /\ t2b = b ++ lb
    /\ Forall (emittedFor wd zm allZones) la /\ Forall (emittedFor wd zm allZones) lb
    /\ (forall zone p, zone ∈ zones -> p ∈ leftBorder zone -> onLines la p)
    /\ (forall zone p, zone ∈ zones -> p ∈ topBorder zone -> onLines lb p).
Proof.
  revert z0 a b. induction zones as [|zone zones IH]; intros z0 a b Hz H;
    cbn [zoneLines] in H.
  - injection H as <- <-. exists [], []. rewrite !app_nil_r.
    repeat split; try done; try constructor; intros zone p Hzone; by apply elem_of_nil in Hzone.
  - apply bind_Ok in H as (ll & Hll & H). apply bind_Ok in H as (lt & Hlt & H).
    destruct (Hz 0%nat zone eq_refl) as [Hk [(Hnd1 & _ & Hin1) (Hnd2 & _ & Hin2)]].
    rewrite Nat.add_0_r in Hk, Hin1, Hin2.
    pose proof (neededLines_ok wd (Z.of_nat z0 + 1) zm fuel _ _ _ Hnd1 Hin1 Hll) as Hokl.
    pose proof (neededLines_ok wd (Z.of_nat z0 + 1) zm fuel _ _ _ Hnd2 Hin2 Hlt) as Hokt.
    replace (Z.of_nat z0 + 1) with (Z.of_nat (S z0)) in H by lia.
    apply (IH (S z0)) in H as (la & lb & -> & -> & Hla & Hlb & Hcl & Hct).
    2:{ intros j zn Hj. replace (S z0 + j)%nat with (z0 + S j)%nat by lia. by apply Hz. }
    eexists _, _. rewrite <- !app_assoc. split; [reflexivity |]. split; [reflexivity |].
    split; [apply Forall_app; split; [by eapply wrap_emitted | done] |].
    split; [apply Forall_app; split; [by eapply wrap_emitted | done] |].
    split; intros zn p Hzn Hp; apply onLines_app;
      (apply elem_of_cons in Hzn as [-> | Hzn]; [left | right; eauto]);
      apply onLines_wrap; by eapply neededLines_cover.
Qed.

Lemma onLines_perm a b c : Permutation a b -> onLines a c -> onLines b c.
Proof. intros Hp (l & Hl & Hc). exists l. split; [by rewrite <- Hp | done]. Qed.

(** What [calculateLines] hands on: the direction bit, and lines of which
    each belongs to a zone and which cover the borders of the direction. *)
Lemma calculateLines_facts fuel w0 zones typeLength w1 lines :
  (forall j zone, zones !! j = Some zone ->
     allZones !! j = Some zone /\ zoneBordersOk zm j zone) ->
  calculateLines fuel wd w0 zones zm typeLength = Ok (w1, lines) ->
  exists dir : bool,
    w1 = w0 ++ [dir]
    /\ Forall (emittedFor wd zm allZones) lines
    /\ forall zone p, zone ∈ zones ->
         p ∈ (if dir then topBorder zone else leftBorder zone) -> onLines lines p.
Proof.
  intros Hz H. unfold calculateLines in H.
  apply bind_Ok in H as ([l2r t2b] & Hl & H).
  apply (zoneLines_facts fuel zones 0 [] []) in Hl
    as (la & lb & -> & -> & Hla & Hlb & Hcl & Hct); [| done].
  cbn [app] in H. injection H as <- <-.
  eexists. split; [reflexivity |]. unfold chunkLines.
  destruct (costGt _ _).
  - split; [by rewrite jsSort_perm |].
    intros zone p Hzone Hp. eapply onLines_perm; [symmetry; apply jsSort_perm | eauto].
  - split; [by rewrite jsSort_perm |].
    intros zone p Hzone Hp. eapply onLines_perm; [symmetry; apply jsSort_perm | eauto].
Qed.

End EmittedLines.

(** ** Filling from anchors that hold the tiles of a map *)

Section Fill.
Import MapEncoder MapDecoder.
Context (t : Z -> Z) (n : Z).

Lemma put_anchored g c :
  anchored t n g -> 0 <= c < n -> 0 <= t c < 65536 -> anchored t n (put g c (t c)).
Proof.
  intros [Hlen Hall] Hc Ht. split; cbn; [by rewrite set16_length |].
  destruct (geti_inrange g.1 c ltac:(lia)) as [x Hx].
  intros c' Hc'. destruct (decide (c' = c)) as [-> | Hne].
  - split; [done |]. erewrite geti_set16_eq by done. by rewrite Z.mod_small.
  - rewrite geti_set16_ne by done. apply Hall.
    apply elem_of_union in Hc' as [Hc' | Hc']; [by apply elem_of_singleton in Hc' | done].
Qed.

Lemma placeLine_facts g ty cells :
  anchored t n g ->
  Forall (fun c => 0 <= c < n /\ ty = t c /\ 0 <= t c < 65536) cells ->
  anchored t n (fold_left (fun g c => put g c ty) cells g)
  /\ forall c, c ∈ (fold_left (fun g c => put g c ty) cells g).2 <-> c ∈ g.2 \/ c ∈ cells.
Proof.
  intros Hg Hcells. revert g Hg.
  induction Hcells as [|c cells (Hc & -> & Ht) _ IH]; intros g Hg; cbn [fold_left].
  - split; [done |]. intros c. rewrite elem_of_nil. tauto.
  - destruct (IH (put g c (t c))) as [Ha Hm]; [by apply put_anchored |].
    split; [done |]. intros c'. rewrite Hm, elem_of_cons. cbn.
    rewrite elem_of_union, elem_of_singleton. tauto.
Qed.

Lemma placeLines_facts g lines :
  anchored t n g ->
  Forall (fun l => Forall (fun c => 0 <= c < n /\ lid l = t c /\ 0 <= t c < 65536) (line l))
    lines ->
  anchored t n (placeLines g lines)
  /\ forall c, c ∈ (placeLines g lines).2 <-> c ∈ g.2 \/ onLines lines c.
Proof.
  intros Hg Hlines. revert g Hg.
  induction Hlines as [|l lines Hl _ IH]; intros g Hg; cbn [placeLines fold_left].
  - split; [done |]. intros c. unfold onLines. split; [auto |].
    intros [H | (l & Hl & _)]; [done | by apply elem_of_nil in Hl].
  - destruct (placeLine_facts g (lid l) (line l) Hg Hl) as [Ha Hm].
    destruct (IH (placeLine g l) Ha) as [Ha' Hm'].
    split; [done |]. intros c. unfold placeLines in Hm'. rewrite Hm'.
    unfold placeLine at 1. rewrite Hm. unfold onLines. split.
    + intros [[H | H] | (l' & Hl' & Hc)]; [by left | |].
      * right. exists l. split; [by left | done].
      * right. exists l'. split; [by right | done].
    + intros [H | (l' & Hl' & Hc)]; [by left; left |].
      apply elem_of_cons in Hl' as [-> | Hl']; [left; by right | right; eauto].
Qed.

Lemma fill_follows vm cells : forall res cur,
  anchored t n (res, vm) ->
  Forall (fun c => 0 <= c < n /\ 0 <= t c < 65536) cells ->
  follows vm t cur cells ->
  let out := (fold_left (fun st i => fillCell vm i st) cells (res, cur)).1 in
  Z.of_nat (length out) = n
  /\ (forall c, c ∈ cells -> geti out c = Some (t c))
  /\ (forall c, c ∉ cells -> geti out c = geti res c).
Proof.
  induction cells as [|c cells IH]; intros res cur Hg Hcells Hf; cbn [fold_left].
  - destruct Hg as [Hlen _]. split; [done |]. split; [| done].
    intros c Hc. by apply elem_of_nil in Hc.
  - inversion Hcells as [|? ? [Hc Ht] Hrest]; subst. destruct Hf as [Hfc Hf].
    destruct Hg as [Hlen Hall]. cbn [fst snd] in *.
    destruct (geti_inrange res c ltac:(lia)) as [x Hx].
    assert (fillCell vm c (res, cur) = (set16 res c (t c), t c)) as ->.
    { unfold fillCell. destruct (decide (c ∈ vm)) as [Hin | Hin].
      - destruct (Hall c Hin) as [_ E]. by rewrite E.
      - destruct Hfc as [? | <-]; done. }
    assert (geti (set16 res c (t c)) c = Some (t c)) as Hset.
    { erewrite geti_set16_eq by done. by rewrite Z.mod_small. }
    destruct (IH (set16 res c (t c)) (t c)) as (Hl' & Hin' & Hout'); [| done | done |].
    { split; cbn; [by rewrite set16_length |].
      intros c' Hc'. destruct (Hall c' Hc') as [Hr E]. split; [done |].
      destruct (decide (c' = c)) as [-> | Hne]; [done | by rewrite geti_set16_ne]. }
    split; [done |]. split.
    + intros c' Hc'. destruct (decide (c' ∈ cells)) as [Hin | Hin]; [by apply Hin' |].
      apply elem_of_cons in Hc' as [-> | Hc']; [| done]. by rewrite Hout'.
    + intros c' Hc'. apply not_elem_of_cons in Hc' as [Hne Hc'].
      rewrite Hout' by done. by rewrite geti_set16_ne.
Qed.

Lemma follows_seq vm (f : nat -> Z) m : forall a cur,
  (m = 0%nat \/ f a ∈ vm \/ t (f a) = cur) ->
  (forall k, (a <= k)%nat -> (S k < a + m)%nat ->
             f (S k) ∈ vm \/ t (f (S k)) = t (f k)) ->
  follows vm t cur (map f (seq a m)).
Proof.
  induction m as [|m IH]; intros a cur Hfirst Hnext; [done |].
  cbn [seq map follows]. split; [destruct Hfirst as [? | ?]; [lia | done] |].
  apply IH.
  - destruct m; [by left | right]. apply Hnext; lia.
  - intros k Hk Hlt. apply Hnext; lia.
Qed.

Lemma fillL2R_fold vm m : forall i st,
  fillL2R m vm i st
  = (fold_left (fun st c => fillCell vm c st)
       (map (fun k => i + Z.of_nat k) (seq 0 m)) st).1.
Proof.
  induction m as [|m IH]; intros i st; [done |].
  cbn [fillL2R seq map fold_left]. rewrite IH, Z.add_0_r. do 2 f_equal.
  rewrite <- seq_shift, map_map. apply map_ext. intros k. lia.
Qed.

End Fill.

(** ** The number of lines *)

Section Count.
Import ZoneCalculator MapEncoder.

Lemma addConnections_buckets points i found cm cm' :
  addConnections points i found cm = Ok cm' -> buckets cm -> buckets cm'.
Proof.
  revert cm. induction found as [|[pt pth] found IH]; intros cm H Hb; cbn in H.
  - by injection H as <-.
  - destruct (i <=? indexOf points pt); [by eapply IH |].
    destruct (cm !! length pth) as [b|] eqn:Eb; [| discriminate].
    eapply IH; [exact H |]. destruct Hb as [Hlen Hall]. split; [by rewrite length_alter |].
    intros d b' Hd. destruct (decide (d = length pth)) as [-> | Hne].
    + rewrite list_lookup_alter_eq, Eb in Hd. injection Hd as <-.
      apply Forall_app. split; [by eapply Hall | by repeat constructor].
    + rewrite list_lookup_alter_ne in Hd by done. by eapply Hall.
Qed.

Lemma connectionsLoop_buckets fuel w points rest i pm zoneId tm cm cm' :
  connectionsLoop fuel w points rest i pm zoneId tm cm = Ok cm' -> buckets cm -> buckets cm'.
Proof.
  revert i cm. induction rest as [|p rest IH]; intros i cm H Hb; cbn in H.
  - by injection H as <-.
  - apply bind_Ok in H as (found & _ & H). apply bind_Ok in H as (cm1 & Ha & H).
    eapply IH; [exact H |]. by eapply addConnections_buckets.
Qed.

Lemma calculateConnections_short fuel w points pm zoneId tm cm :
  calculateConnections fuel w points pm zoneId tm = Ok cm ->
  Forall (fun c => (length (path c) <= 7)%nat) (concat cm).
Proof.
  intros H. apply connectionsLoop_buckets in H as [Hlen Hall].
  - apply Forall_forall. intros c Hc. apply elem_of_concat in Hc as (b & Hb & Hc).
    apply list_elem_of_lookup in Hb as [d Hd].
    pose proof (Hall d b Hd) as Hf. rewrite Forall_forall in Hf.
    apply lookup_lt_Some in Hd. rewrite (Hf c Hc). lia.
  - split; [done |]. intros d b Hd.
    apply list_elem_of_lookup_2, list_elem_of_In, repeat_spec in Hd as ->. constructor.
Qed.

Lemma zsum_insert l (i : nat) x y :
  l !! i = Some x -> zsum (<[i := y]> l) = zsum l - x + y.
Proof.
  unfold zsum. revert i. induction l as [|a l IH]; intros [|i] H; try done.
  - injection H as ->. change (<[0%nat := y]> (x :: l)) with (y :: l). cbn [fold_right]. lia.
  - change (<[S i := y]> (a :: l)) with (a :: <[i := y]> l). cbn [fold_right].
    rewrite (IH i H). lia.
Qed.

Lemma zsum_zeros k : zsum (repeat 0 k) = 0.
Proof. induction k as [|k IH]; [done |]. unfold zsum in *. cbn. by rewrite IH. Qed.

Lemma zsum_bound l : Forall (fun c => 0 <= c <= 2) l -> zsum l <= 2 * Z.of_nat (length l).
Proof. induction 1 as [|c l Hc _ IH]; cbn [zsum fold_right length] in *; [lia |]. unfold zsum in IH. lia. Qed.

Lemma countUp_sum cc i c :
  Forall (fun c => 0 <= c <= 2) cc -> geti cc i = Some c -> c < 2 ->
  zsum (countUp cc i) = zsum cc + 1
  /\ Forall (fun c => 0 <= c <= 2) (countUp cc i)
  /\ length (countUp cc i) = length cc.
Proof.
  intros Hall Hc Hlt. unfold countUp. rewrite Hc. unfold set8.
  pose proof (geti_Some _ _ _ Hc) as [Hi Hl]. destruct (Z.ltb_spec i 0); [lia |].
  rewrite Forall_forall in Hall. pose proof (Hall c (geti_elem _ _ _ Hc)) as Hr.
  rewrite Z.mod_small by lia. split; [| split].
  - rewrite (zsum_insert _ _ c) by done. lia.
  - apply Forall_insert; [by apply Forall_forall | lia].
  - apply length_insert.
Qed.

Lemma length_concat_insert (segs : list (list Z)) (i : nat) s s' :
  segs !! i = Some s ->
  Z.of_nat (length (concat (<[i := s']> segs)))
  = Z.of_nat (length (concat segs)) - Z.of_nat (length s) + Z.of_nat (length s').
Proof.
  revert i. induction segs as [|a segs IH]; intros [|i] H; try done.
  - injection H as ->. change (<[0%nat := s']> (s :: segs)) with (s' :: segs).
    cbn [concat]. rewrite !length_app. lia.
  - change (<[S i := s']> (a :: segs)) with (a :: <[i := s']> segs).
    cbn [concat]. rewrite !length_app, !Nat2Z.inj_add, (IH i H). lia.
Qed.

Lemma concatSegment_length s pth e a :
  length (concatSegment s pth e a) = (length s + length pth + 1)%nat.
Proof.
  unfold concatSegment. destruct (firstIs s e); cbn [length];
    rewrite ?length_app, ?length_rev; cbn [length]; lia.
Qed.

Lemma connectSegments_length a b vf vt pth :
  length (connectSegments a b vf vt pth).1 = (length a + length pth + length b)%nat.
Proof.
  unfold connectSegments. destruct (firstIs b vt), (firstIs a vf); cbn;
    rewrite ?length_app, ?length_rev; lia.
Qed.

Lemma process_count border c st st' :
  stitchCount border st -> to c < from c -> (length (path c) <= 7)%nat ->
  countFull (connectionCount st) (from c) = false ->
  countFull (connectionCount st) (to c) = false ->
  processConnection (countZero (connectionCount st) (from c))
    (countZero (connectionCount st) (to c)) c border st = Ok (true, st') ->
  stitchCount border
    {| segments := segments st'; segmentMap := segmentMap st';
       connectionCount := countUp (countUp (connectionCount st) (from c)) (to c) |}.
Proof.
  intros (Hcells & Hcc & Hlen) Hlt Hpath Hff Hft H.
  unfold processConnection in H.
  apply bind_Ok in H as (vf & Hvf & H). apply ofOption_Ok in Hvf.
  apply bind_Ok in H as (vt & Hvt & H). apply ofOption_Ok in Hvt.
  destruct (geti_inrange (connectionCount st) (from c)) as [cf Hcf];
    [rewrite Hlen; by eapply geti_Some_range |].
  destruct (geti_inrange (connectionCount st) (to c)) as [ct Hct];
    [rewrite Hlen; by eapply geti_Some_range |].
  assert (cf < 2) as Hcf2.
  { unfold countFull in Hff. rewrite Hcf in Hff. lia. }
  assert (ct < 2) as Hct2.
  { unfold countFull in Hft. rewrite Hct in Hft. lia. }
  destruct (countUp_sum _ _ _ Hcc Hcf Hcf2) as (Hs1 & Hcc1 & Hl1).
  assert (geti (countUp (connectionCount st) (from c)) (to c) = Some ct) as Hct'.
  { rewrite geti_countUp. destruct (decide (to c = from c)); [lia | done]. }
  destruct (countUp_sum _ _ _ Hcc1 Hct' Hct2) as (Hs2 & Hcc2 & Hl2).
  unfold stitchCount. cbn [segments connectionCount].
  split; [| split; [done | lia]]. rewrite Hs2, Hs1.
  destruct (countZero (connectionCount st) (from c)) eqn:Ezf;
    destruct (countZero (connectionCount st) (to c)) eqn:Ezt; cbn [andb] in H.
  - injection H as <-. cbn [segments].
    rewrite concat_app, length_app. cbn [concat]. rewrite app_nil_r. cbn [length].
    rewrite length_app. cbn [length]. lia.
  - apply bind_Ok in H as ([sidx seg] & Hseg & H). injection H as <-. cbn [segments].
    apply segmentAt_inv in Hseg as [_ Hseg]. apply geti_Some in Hseg as [_ Hseg].
    unfold setSegment. rewrite (length_concat_insert _ _ seg) by done.
    rewrite concatSegment_length. lia.
  - apply bind_Ok in H as ([sidx seg] & Hseg & H). injection H as <-. cbn [segments].
    apply segmentAt_inv in Hseg as [_ Hseg]. apply geti_Some in Hseg as [_ Hseg].
    unfold setSegment. rewrite (length_concat_insert _ _ seg) by done.
    rewrite concatSegment_length, length_rev. lia.
  - destruct (negb _) eqn:Esame; [| discriminate].
    apply negb_true_iff, bool_decide_eq_false in Esame.
    apply bind_Ok in H as ([ia sa] & Hsa & H). apply bind_Ok in H as ([ib sb] & Hsb & H).
    apply segmentAt_inv in Hsa as [Hma Hsa]. apply segmentAt_inv in Hsb as [Hmb Hsb].
    assert (ia <> ib) as Hab by congruence.
    pose proof (connectSegments_length sa sb vf vt (path c)) as Hcl.
    destruct (connectSegments sa sb vf vt (path c)) as [sb' ostart] eqn:Ec.
    apply bind_Ok in H as (start & _ & H). injection H as <-. cbn [segments fst] in *.
    apply geti_Some in Hsa as [Hia Hsa]. apply geti_Some in Hsb as [Hib Hsb].
    unfold setSegment. rewrite (length_concat_insert _ _ sa).
    2:{ rewrite list_lookup_insert_ne by lia. done. }
    rewrite (length_concat_insert _ _ sb) by done. cbn [length]. lia.
Qed.

Lemma stitchLoop_count cs border st st' :
  stitchCount border st ->
  Forall (fun c => to c < from c /\ (length (path c) <= 7)%nat) cs ->
  stitchLoop cs border st = Ok st' -> stitchCount border st'.
Proof.
  intros Hinv Hcs. revert st Hinv.
  induction Hcs as [|c cs [Hlt Hp] _ IH]; intros st Hinv H; cbn [stitchLoop] in H.
  - by injection H as <-.
  - destruct (countFull _ (from c)) eqn:Eff; cbn [orb] in H; [by eapply IH |].
    destruct (countFull _ (to c)) eqn:Eft; [by eapply IH |].
    apply bind_Ok in H as ([used st1] & Hp1 & H). destruct used.
    + eapply IH; [| exact H]. by eapply process_count.
    + apply processConnection_unused in Hp1 as ->. by eapply IH.
Qed.

Lemma filter_nonempty_length (ls : list (list Z)) :
  (length (filter (fun s => (0 < length s)%nat) ls) <= length (concat ls))%nat.
Proof.
  induction ls as [|l ls IH]; [done |]. rewrite filter_cons. cbn [concat].
  rewrite length_app. destruct (decide _); cbn [length]; lia.
Qed.

Lemma addSinglesLoop_length border i cc lines :
  (length (concat (addSinglesLoop border i cc lines))
   <= length (concat lines) + length border)%nat.
Proof.
  revert i lines. induction border as [|b border IH]; intros i lines; cbn [addSinglesLoop length].
  - lia.
  - etransitivity; [apply IH |]. destruct (bool_decide _); [| lia].
    rewrite concat_app, length_app. cbn. lia.
Qed.

(** The lines for a border are at most ten times its points. *)
Lemma neededLines_count fuel w points pm zoneId tm lines :
  NoDup points ->
  calculateNeededLines fuel w points pm zoneId tm = Ok lines ->
  (length lines <= 10 * length points)%nat.
Proof.
  intros Hnd H. unfold calculateNeededLines in H.
  apply bind_Ok in H as (cm & Hcm & H). apply bind_Ok in H as (st & Hst & H).
  apply bind_Ok in H as (segs & Hsegs & H). apply ofOption_Ok in Hsegs.
  injection H as <-.
  pose proof (calculateConnections_short _ _ _ _ _ _ _ Hcm) as Hshort.
  apply (calculateConnections_ok w zoneId tm points Hnd) in Hcm.
  apply (stitchLoop_count _ points) in Hst as (Hcells & Hcc & Hlen).
  2:{ split; cbn [segments connectionCount concat length]; [rewrite zsum_zeros; lia |].
      split; [| by rewrite repeat_length].
      apply Forall_forall. intros c Hc. apply list_elem_of_In, repeat_spec in Hc. lia. }
  2:{ apply Forall_forall. intros c Hc. rewrite Forall_forall in Hcm, Hshort.
      split; [by destruct (Hcm c Hc) | by apply Hshort]. }
  pose proof (zsum_bound _ Hcc) as Hsum.
  destruct (cropLoop_result fuel [] (segments st) segs) as (_ & _ & Hperm);
    [constructor | done |].
  apply Permutation_length in Hperm. cbn [app] in Hperm.
  pose proof (filter_nonempty_length (addSingles points (connectionCount st) segs)) as Hf.
  pose proof (addSinglesLoop_length points 0 (connectionCount st) segs) as Ha.
  unfold addSingles in *. lia.
Qed.

Lemma NoDup_bounded (l : list Z) (n : nat) :
  NoDup l -> (forall x, x ∈ l -> 0 <= x < Z.of_nat n) -> (length l <= n)%nat.
Proof.
  intros Hnd Hall.
  transitivity (length (map Z.of_nat (seq 0 n))); [| by rewrite length_map, length_seq].
  apply NoDup_incl_length; [by apply NoDup_ListNoDup |]. intros x Hx. apply list_elem_of_In in Hx.
  apply list_elem_of_In, list_elem_of_fmap. exists (Z.to_nat x).
  specialize (Hall x Hx). split; [lia |]. apply elem_of_seq. lia.
Qed.

(** The borders of distinct zones share no point. *)
Lemma disjoint_borders zm (bs : list (list Z)) (z0 : nat) :
  (forall j b, bs !! j = Some b ->
     NoDup b /\ Forall (inZone zm (Z.of_nat (z0 + j) + 1)) b) ->
  NoDup (concat bs)
  /\ forall x, x ∈ concat bs -> exists v, geti zm x = Some v /\ Z.of_nat z0 < v.
Proof.
  revert z0. induction bs as [|b bs IH]; intros z0 H; cbn [concat].
  - split; [constructor |]. intros x Hx. by apply elem_of_nil in Hx.
  - destruct (H 0%nat b eq_refl) as [Hnd Hin]. rewrite Nat.add_0_r in Hin.
    destruct (IH (S z0)) as [Hnd' Hin'].
    { intros j b' Hj. replace (S z0 + j)%nat with (z0 + S j)%nat by lia. by apply H. }
    rewrite Forall_forall in Hin. split.
    + apply NoDup_app. split; [done |]. split; [| done].
      intros x Hx Hx'. apply Hin in Hx. destruct (Hin' x Hx') as (v & Hv & Hlt).
      unfold inZone in Hx. rewrite Hx in Hv. injection Hv as <-. lia.
    + intros x Hx. apply elem_of_app in Hx as [Hx | Hx].
      * exists (Z.of_nat z0 + 1). split; [by apply Hin | lia].
      * destruct (Hin' x Hx) as (v & Hv & Hlt). exists v. split; [done | lia].
Qed.

Lemma borders_total zm (bs : list (list Z)) (z0 : nat) :
  (forall j b, bs !! j = Some b ->
     NoDup b /\ Forall (inZone zm (Z.of_nat (z0 + j) + 1)) b) ->
  (length (concat bs) <= length zm)%nat.
Proof.
  intros H. destruct (disjoint_borders zm bs z0 H) as [Hnd Hin].
  apply NoDup_bounded; [done |]. intros x Hx. destruct (Hin x Hx) as (v & Hv & _).
  by eapply geti_Some_range.
Qed.

Lemma zoneLines_count fuel wd zm zones (z0 : nat) a b l2r t2b :
  (forall j zone, zones !! j = Some zone -> zoneBordersOk zm (z0 + j) zone) ->
  zoneLines fuel wd zones (Z.of_nat z0) zm a b = Ok (l2r, t2b) ->
  (length l2r <= length a + 10 * length (concat (map leftBorder zones)))%nat
  /\ (length t2b <= length b + 10 * length (concat (map topBorder zones)))%nat.
Proof.
  revert z0 a b. induction zones as [|zone zones IH]; intros z0 a b Hz H;
    cbn [zoneLines] in H.
  - injection H as <- <-. cbn. lia.
  - apply bind_Ok in H as (ll & Hll & H). apply bind_Ok in H as (lt & Hlt & H).
    destruct (Hz 0%nat zone eq_refl) as [(Hnd1 & _ & _) (Hnd2 & _ & _)].
    apply neededLines_count in Hll; [| done]. apply neededLines_count in Hlt; [| done].
    replace (Z.of_nat z0 + 1) with (Z.of_nat (S z0)) in H by lia.
    apply (IH (S z0)) in H as [H1 H2].
    2:{ intros j zn Hj. replace (S z0 + j)%nat with (z0 + S j)%nat by lia. by apply Hz. }
    rewrite !length_app, !length_map in *. cbn [map concat]. rewrite !length_app. lia.
Qed.

(** The lines that [calculateLines] hands on are at most ten times the
    cells of the zone map. *)
Lemma calculateLines_count fuel wd zm w0 zones typeLength w1 lines :
  (forall j zone, zones !! j = Some zone -> zoneBordersOk zm j zone) ->
  calculateLines fuel wd w0 zones zm typeLength = Ok (w1, lines) ->
  (length lines <= 10 * length zm)%nat.
Proof.
  intros Hz H. unfold calculateLines in H.
  apply bind_Ok in H as ([l2r t2b] & Hl & H).
  apply (zoneLines_count fuel wd zm zones 0 [] []) in Hl as [H1 H2]; [| done].
  assert (length (concat (map leftBorder zones)) <= length zm)%nat as Hb1.
  { apply (borders_total zm _ 0). intros j b Hj.
    apply list_lookup_fmap_Some in Hj as (zone & -> & Hj).
    by destruct (Hz j zone Hj) as [(? & _ & ?) _]. }
  assert (length (concat (map topBorder zones)) <= length zm)%nat as Hb2.
  { apply (borders_total zm _ 0). intros j b Hj.
    apply list_lookup_fmap_Some in Hj as (zone & -> & Hj).
    by destruct (Hz j zone Hj) as [_ (? & _ & ?)]. }
  injection H as _ <-. unfold chunkLines. cbn [length] in *.
  destruct (costGt _ _); rewrite (Permutation_length (jsSort_perm _ _)); lia.
Qed.

End Count.

(** ** Decoding what was encoded *)

Section RoundTrip.
Import BitStream ZoneCalculator MapEncoder MapDecoder.

Lemma stored_fit t : fieldsFit t -> stored t = t.
Proof.
  intros (H1 & H2 & H3). destruct t. unfold stored. cbn in *.
  by rewrite !Z.mod_small by lia.
Qed.

(** The stream that [encodeMap] builds, field by field. *)
Lemma encodeMap_stream fuel data zones zm bytes :
  wellFormed data -> Z.of_nat (length (types data)) < 65536 ->
  buildZones fuel data = Ok (zones, zm) -> Z.of_nat (length zones) <= 65535 ->
  encodeMap fuel data = Ok bytes ->
  exists used zones' (dir : bool) lines palBits w4 w5,
    validateTileTypeUsage (types data) zones = Ok (used, zones')
    /\ Forall (emittedFor (width data) zm zones') lines
    /\ (forall zone p, zone ∈ zones' ->
          p ∈ (if dir then topBorder zone else leftBorder zone) -> onLines lines p)
    /\ (forall r, readTypeMap (palBits ++ r) = Ok (map stored (types data), r))
    /\ (length lines <= 10 * length zm)%nat
    /\ writeLines fuel (width data) w4 lines (log2ceil (Z.of_nat (length used))) = Ok w5
    /\ w4 = bitsOf 4 0 ++ bitsOf 16 (width data) ++ bitsOf 16 (height data)
            ++ bitsOf 8 0 ++ [dir] ++ [false] ++ palBits
    /\ bytes = compress (w5 ++ bitsOf 8 0).
Proof.
  intros Hwf Hpal Hb Hmax H. unfold encodeMap in H.
  apply bind_Ok in H as (w5 & Hc & H). injection H as <-.
  unfold writeCompressed in Hc. rewrite Hb in Hc. rewrite run_bind in Hc. cbn beta iota in Hc.
  apply bind_Ok in Hc as ([used zones'] & Hv & Hc).
  apply bind_Ok in Hc as ([w2 lines] & Hl & Hc).
  apply bind_Ok in Hc as (w4 & Hp & Hc).
  destruct (buildZones_facts fuel data zones zm Hwf Hb Hmax) as (_ & Hbord & _).
  pose proof (validateTileTypeUsage_sameBorders _ _ _ _ Hv) as Hsame.
  assert (forall j zone', zones' !! j = Some zone' -> zoneBordersOk zm j zone') as Hbord'.
  { intros j zone' Hj.
    destruct (Forall2_lookup_r _ _ _ _ _ Hsame Hj) as (zone & Hzone & (E1 & E2 & E3 & E4)).
    destruct (Hbord j zone Hzone) as [Hok _]. unfold zoneBordersOk in *.
    by rewrite <- E1, <- E2, <- E3, <- E4. }
  pose proof (calculateLines_count _ _ _ _ _ _ _ _ Hbord' Hl) as Hcount.
  apply (calculateLines_facts (width data) zm zones') in Hl as (dir & -> & Hem & Hcov).
  2:{ intros j zone' Hj. split; [done | by apply Hbord']. }
  apply writeTypeMap_read in Hp as (palBits & -> & Hread); [| done].
  exists used, zones', dir, lines, palBits. eexists _, w5.
  split; [done |]. split; [done |]. split; [done |]. split; [done |]. split; [done |].
  split; [exact Hc |]. split; [| done].
  unfold writeBits. cbn [app Z.to_nat Pos.to_nat Pos.iter_op Nat.add].
  rewrite <- !app_assoc. reflexivity.
Qed.

Lemma list_eq_geti (a b : list Z) :
  length a = length b ->
  (forall c, 0 <= c < Z.of_nat (length a) -> geti a c = geti b c) -> a = b.
Proof.
  intros Hlen H. apply list_eq. intros i.
  destruct (Nat.lt_ge_cases i (length a)) as [Hlt | Hge].
  - specialize (H (Z.of_nat i) ltac:(lia)). by rewrite !geti_nat in H.
  - rewrite !lookup_ge_None_2; [done | lia | lia].
Qed.

Lemma log2ceil_bound m : 0 < m -> 0 <= log2ceil m /\ m <= 2 ^ log2ceil m.
Proof.
  intros Hm. unfold log2ceil. split; [apply Z.log2_up_nonneg |].
  destruct (Z.eq_dec m 1) as [-> | Hne]; [done |].
  pose proof (Z.log2_up_spec m ltac:(lia)). lia.
Qed.

Lemma placeLines_other g lines c :
  c ∉ (placeLines g lines).2 -> geti (placeLines g lines).1 c = geti g.1 c.
Proof.
  revert g. induction lines as [|l lines IH]; intros g Hc; [done |].
  cbn [placeLines fold_left] in *. fold (placeLines (placeLine g l) lines) in *.
  rewrite IH by done.
  assert (c ∉ (placeLine g l).2) as Hc'.
  { intros Hin. apply Hc. clear -Hin. revert Hin. generalize (placeLine g l).
    induction lines as [|l' lines IH]; intros g' Hin; [done |].
    cbn [placeLines fold_left]. apply IH. clear -Hin. unfold placeLine.
    revert g' Hin. induction (line l') as [|c' cs IHc]; intros g' Hin; [done |].
    cbn [fold_left]. apply IHc. cbn. apply elem_of_union. by right. }
  clear -Hc'. unfold placeLine in *. revert g Hc'.
  induction (line l) as [|c' cs IHc]; intros g Hc'; [done |].
  cbn [fold_left] in *. rewrite IHc by done. cbn.
  apply geti_set16_ne. intros ->. apply Hc'. clear.
  generalize (lid l). intros ty.
  assert (forall g', c ∈ g'.2 -> c ∈ (fold_left (fun g c => put g c ty) cs g').2) as Hmono.
  { induction cs as [|c1 cs IH]; intros g' Hin; [done |].
    cbn [fold_left]. apply IH. cbn. apply elem_of_union. by right. }
  apply Hmono. cbn. apply elem_of_union. left. by apply elem_of_singleton.
Qed.

Section Fills.
Context (tt : list Z) (w h : Z) (Hw : 0 < w) (Hh : 0 <= h).
Context (Hlen : Z.of_nat (length tt) = w * h).
Context (Hu16 : forall c, 0 <= tileAt tt c < 65536).
Context (g1 : list Z) (vm : gset Z) (Hg : anchored (tileAt tt) (w * h) (g1, vm)).

Lemma tileAt_geti c : 0 <= c < w * h -> geti tt c = Some (tileAt tt c).
Proof.
  intros Hc. unfold tileAt. by destruct (geti_inrange tt c ltac:(lia)) as [x ->].
Qed.

Lemma filled_eq out :
  Z.of_nat (length out) = w * h ->
  (forall c, 0 <= c < w * h -> geti out c = Some (tileAt tt c)) -> out = tt.
Proof.
  intros Hl Hall. apply list_eq_geti; [lia |]. intros c Hc.
  rewrite Hall, tileAt_geti by lia. done.
Qed.

(** The left-to-right fill gives the tiles back when the anchors hold their
    tiles and every cell that fails the left-neighbour test is an anchor. *)
Lemma fill_l2r :
  (forall c, 0 <= c < w * h -> leftOk tt w c = false -> c ∈ vm) ->
  fillLinesLeftToRight g1 vm = tt.
Proof.
  intros Hcov. unfold fillLinesLeftToRight. rewrite fillL2R_fold.
  destruct Hg as [Hl1 _]. cbn in Hl1.
  destruct (fill_follows (tileAt tt) (w * h) vm
              (map (fun k => 0 + Z.of_nat k) (seq 0 (length g1))) g1 0) as (Hl & Hin & _).
  - done.
  - apply Forall_forall. intros c Hc. apply list_elem_of_fmap in Hc as (k & -> & Hk).
    apply elem_of_seq in Hk. split; [lia | apply Hu16].
  - apply follows_seq.
    + destruct (length g1) eqn:E; [by left | right; left].
      apply Hcov; [lia |]. unfold leftOk, jsRemIs.
      destruct (Z.eqb_spec w 0); [lia |]. by rewrite Z.rem_0_l by lia.
    + intros k _ Hk. destruct (leftOk tt w (0 + Z.of_nat (S k))) eqn:El.
      * right. apply andb_true_iff in El as [_ El].
        pose proof (tileAt_geti (0 + Z.of_nat (S k)) ltac:(lia)) as E.
        apply (sameRead_true _ _ _ E) in El. unfold tileAt at 2.
        replace (0 + Z.of_nat k) with (0 + Z.of_nat (S k) - 1) by lia.
        by rewrite El, E.
      * left. apply Hcov; [lia | done].
  - apply filled_eq; [done |]. intros c Hc. apply Hin.
    apply list_elem_of_fmap. exists (Z.to_nat c). split; [lia |].
    apply elem_of_seq. lia.
Qed.

(** The top-to-bottom fill gives the tiles back, but for the last cell,
    which it leaves as the lines left it. *)
Lemma fill_t2b fuel :
  (forall c, 0 <= c < w * h -> topOk tt w c = false -> c ∈ vm) ->
  (forall c, 0 <= c < w * h -> c ∉ vm -> geti g1 c = Some 0) ->
  (Z.to_nat (w * h) <= fuel)%nat ->
  fillLinesTopToBottom fuel g1 vm w = Some tt
  \/ fillLinesTopToBottom fuel g1 vm w = Some (set16 tt (w * h - 1) 0).
Proof.
  intros Hcov Hrest Hfuel. destruct Hg as [Hl1 Hanch]. cbn in Hl1, Hanch.
  destruct (Z.eq_dec h 0) as [-> | Hh0].
  { left. unfold fillLinesTopToBottom. destruct fuel; cbn [fillT2B fst]; rewrite Hl1;
      replace (w * 0) with 0 by lia; cbn; f_equal;
      (apply list_eq_geti; [lia | intros c Hc; lia]). }
  assert (0 < h) as Hhp by lia.
  set (cells := map (fun q => colMajorCell w h (0 + Z.of_nat q))
                  (seq 0 (Z.to_nat (w * h - 1)))).
  assert (fillLinesTopToBottom fuel g1 vm w
          = Some (fold_left (fun st i => fillCell vm i st) cells (g1, 0)).1) as ->.
  { unfold fillLinesTopToBottom.
    replace 0 with (colMajorCell w h 0) at 1
      by (unfold colMajorCell; by rewrite Z.div_0_l, Z.mod_0_l by lia).
    by rewrite (fillT2B_walk w h Hw Hhp vm (Z.to_nat (w * h - 1))) by (done || nia). }
  assert (forall q, (q < Z.to_nat (w * h - 1))%nat ->
            0 <= colMajorCell w h (0 + Z.of_nat q) < w * h - 1) as Hrange.
  { intros q Hq. destruct (colMajorCell_next w h Hw Hhp (0 + Z.of_nat q)) as [Hlt _];
      [lia | lia |]. split; [| done]. unfold colMajorCell.
    pose proof (Z.div_pos (0 + Z.of_nat q) h ltac:(lia) Hhp).
    pose proof (Z.mod_pos_bound (0 + Z.of_nat q) h Hhp). nia. }
  destruct (fill_follows (tileAt tt) (w * h) vm cells g1 0) as (Hl & Hin & Hout).
  - done.
  - apply Forall_forall. intros c Hc. apply list_elem_of_fmap in Hc as (q & -> & Hq).
    apply elem_of_seq in Hq. split; [| apply Hu16]. specialize (Hrange q ltac:(lia)). lia.
  - apply follows_seq.
    + destruct (Z.to_nat (w * h - 1)) eqn:E; [by left | right; left].
      replace (colMajorCell w h (0 + Z.of_nat 0)) with 0
        by (unfold colMajorCell; by rewrite Z.div_0_l, Z.mod_0_l by lia).
      apply Hcov; [nia |]. unfold topOk. by destruct (Z.leb_spec w 0); [lia |].
    + intros k _ Hk. pose proof (Hrange k ltac:(lia)) as Hrk.
      pose proof (Hrange (S k) ltac:(lia)) as Hrk1.
      destruct (colMajorCell_next w h Hw Hhp (0 + Z.of_nat k)) as [_ Hnext]; [lia | lia |].
      replace (0 + Z.of_nat k + 1) with (0 + Z.of_nat (S k)) in Hnext by lia.
      set (c := colMajorCell w h (0 + Z.of_nat k)) in *.
      set (c1 := colMajorCell w h (0 + Z.of_nat (S k))) in *.
      destruct (topOk tt w c1) eqn:Et; [right | left; apply Hcov; [lia | done]].
      apply andb_true_iff in Et as [Hge Et]. apply Z.leb_le in Hge.
      destruct (Z.leb_spec (w * h - w) c).
      * exfalso. rewrite Z.rem_mod_nonneg in Hnext by lia.
        pose proof (Z.mod_pos_bound (c + 1) w Hw). lia.
      * pose proof (tileAt_geti c1 ltac:(lia)) as E.
        apply (sameRead_true _ _ _ E) in Et. unfold tileAt at 2.
        replace c with (c1 - w) by lia. by rewrite Et, E.
  - assert (w * h - 1 ∉ cells) as Hlast.
    { intros Hc. apply list_elem_of_fmap in Hc as (q & Hq & Hs). apply elem_of_seq in Hs.
      specialize (Hrange q ltac:(lia)). lia. }
    assert (forall c, 0 <= c < w * h - 1 -> c ∈ cells) as Hcells.
    { intros c Hc. apply list_elem_of_fmap.
      exists (Z.to_nat ((c mod w) * h + c / w)). 
      pose proof (Z.div_mod c w ltac:(lia)). pose proof (Z.mod_pos_bound c w Hw).
      assert (0 <= c / w) by (apply Z.div_pos; lia).
      assert (c / w < h) by (apply Z.div_lt_upper_bound; nia).
      split.
      - unfold colMajorCell. rewrite Z.add_0_l, Z2Nat.id by nia.
        assert ((c mod w * h + c / w) / h = c mod w) as ->.
        { symmetry. apply (Z.div_unique _ _ _ (c / w)); lia. }
        assert ((c mod w * h + c / w) mod h = c / w) as ->.
        { symmetry. apply (Z.mod_unique _ _ (c mod w)); lia. }
        lia.
      - apply elem_of_seq. split; [lia |].
        destruct (Z.eq_dec (c mod w) (w - 1)) as [E | E]; [| nia].
        assert (c / w < h - 1) by nia. nia. }
    cbn [fst] in *.
    set (out := (fold_left (fun st i => fillCell vm i st) cells (g1, 0)).1) in *.
    destruct (decide (w * h - 1 ∈ vm)) as [Hv | Hv].
    + left. f_equal. apply filled_eq; [done |]. intros c Hc.
      destruct (decide (c = w * h - 1)) as [-> | Hne].
      * rewrite Hout by done. by apply Hanch.
      * apply Hin, Hcells. lia.
    + right. f_equal. apply list_eq_geti; [rewrite set16_length; lia |].
      intros c Hc. destruct (decide (c = w * h - 1)) as [-> | Hne].
      * rewrite Hout by done. rewrite Hrest by (done || lia).
        pose proof (tileAt_geti (w * h - 1) ltac:(lia)) as E.
        erewrite geti_set16_eq by done. done.
      * rewrite geti_set16_ne by done. rewrite Hin, tileAt_geti by (try apply Hcells; lia).
        done.
Qed.

End Fills.

(** The decoder on a stream of the encoder whose lines carry the tiles of
    the map and cover the borders of the direction. *)
Lemma decode_stream fuel fuel' data (dir : bool) lines palBits w5 :
  wellFormed data -> width data < 65536 -> height data < 65536 ->
  Forall fieldsFit (types data) ->
  (forall c, 0 <= tileAt (tiles data) c < 65536) ->
  (forall r, readTypeMap (palBits ++ r) = Ok (map stored (types data), r)) ->
  writeLines fuel (width data)
    (bitsOf 4 0 ++ bitsOf 16 (width data) ++ bitsOf 16 (height data)
     ++ bitsOf 8 0 ++ [dir] ++ [false] ++ palBits)
    lines (log2ceil (Z.of_nat (length (types data)))) = Ok w5 ->
  Z.of_nat (length lines) < 2 ^ 32 ->
  Forall (fitsRecord (width data) (log2ceil (Z.of_nat (length (types data))))) lines ->
  Forall (fun l => Forall (fun c => 0 <= c < width data * height data
                                    /\ lid l = tileAt (tiles data) c
                                    /\ 0 <= tileAt (tiles data) c < 65536) (line l)) lines ->
  (forall c, 0 <= c < width data * height data ->
     (if dir then topOk (tiles data) (width data) c
      else leftOk (tiles data) (width data) c) = false -> onLines lines c) ->
  (Z.to_nat (width data * height data) <= fuel')%nat ->
  decodeMap fuel' (compress (w5 ++ bitsOf 8 0)) = Ok data
  \/ decodeMap fuel' (compress (w5 ++ bitsOf 8 0)) = Ok (lastCleared data).
Proof.
  intros Hwf Hwd Hht Hfit Hu16 Hread Hwl Hcount Hrec Hcells Hcov Hfuel.
  pose proof Hwf as (Hw & Hh & Hlen).
  apply writeLines_read in Hwl as (lineBits & -> & Hput);
    [| done | apply Z.log2_up_nonneg | done | done].
  destruct (newReader_compress
              (((bitsOf 4 0 ++ bitsOf 16 (width data) ++ bitsOf 16 (height data)
                 ++ bitsOf 8 0 ++ [dir] ++ [false] ++ palBits) ++ lineBits) ++ bitsOf 8 0))
    as (pad & E & _).
  set (g := placeLines (repeat 0 (Z.to_nat (width data * height data)), ∅) lines).
  assert (anchored (tileAt (tiles data)) (width data * height data) g
          /\ forall c, c ∈ g.2 <-> onLines lines c) as [Hanch Hvm].
  { destruct (placeLines_facts (tileAt (tiles data)) (width data * height data)
                (repeat 0 (Z.to_nat (width data * height data)), ∅) lines) as [Ha Hm].
    - split; cbn; [rewrite repeat_length; nia |]. intros c Hc. by apply not_elem_of_empty in Hc.
    - done.
    - split; [done |]. intros c. unfold g. rewrite Hm. cbn. split; [| auto].
      intros [Hc | Hc]; [by apply not_elem_of_empty in Hc | done]. }
  assert (forall c, 0 <= c < width data * height data -> c ∉ g.2 -> geti g.1 c = Some 0)
    as Hrest.
  { intros c Hc Hn. unfold g. rewrite placeLines_other by done. cbn.
    unfold geti. destruct (Z.ltb_spec c 0); [lia |]. apply lookup_repeat. lia. }
  assert (forall tiles',
            (if dir then ofOption OutOfFuel (fillLinesTopToBottom fuel' g.1 g.2 (width data))
             else Ok (fillLinesLeftToRight g.1 g.2)) = Ok tiles' ->
            decodeMap fuel' (compress
              (((bitsOf 4 0 ++ bitsOf 16 (width data) ++ bitsOf 16 (height data)
                 ++ bitsOf 8 0 ++ [dir] ++ [false] ++ palBits) ++ lineBits) ++ bitsOf 8 0))
            = Ok {| width := width data; height := height data; tiles := tiles';
                    types := types data |}) as Hdec.
  { intros tiles' Hfill. unfold decodeMap. rewrite E. rewrite <- !app_assoc.
    change (bitsOf 4 0) with (bitsOf (Z.to_nat 4) 0).
    change (bitsOf 16) with (bitsOf (Z.to_nat 16)).
    change (bitsOf 8 0) with (bitsOf (Z.to_nat 8) 0).
    rewrite (readBits_small 4) by lia. rewrite run_bind. cbn beta iota.
    change ((CURRENT_VERSION <? 0) || (0 <? MINIMUM_VERSION)) with false. cbn match.
    rewrite (readBits_small 16) by lia. rewrite run_bind. cbn beta iota.
    rewrite (readBits_small 16) by lia. rewrite run_bind. cbn beta iota.
    unfold readCompressed.
    rewrite (readBits_small 8) by lia. rewrite run_bind. cbn beta iota.
    change (readBoolean ([dir] ++ ?x)) with (@Ok (bool * Reader) (dir, x)).
    rewrite run_bind. cbn beta iota.
    change (readBits 1 ([false] ++ ?x)) with (@Ok (Z * Reader) (0, x)).
    rewrite run_bind. cbn beta iota.
    rewrite Hread, run_bind. cbn beta iota.
    assert (map stored (types data) = types data) as ->.
    { clear -Hfit. induction Hfit as [|t ts Ht _ IH]; [done |].
      cbn. by rewrite IH, stored_fit. }
    rewrite Hput, run_bind. cbn beta iota. fold g.
    rewrite Hfill, run_bind. cbn beta iota. rewrite run_bind. cbn beta iota.
    rewrite (readBits_small 8) by lia. rewrite run_bind. cbn beta iota. done. }
  destruct g as [g1 vm] eqn:Eg. cbn [fst snd] in *.
  destruct dir.
  - destruct (fill_t2b (tiles data) (width data) (height data) Hw Hh Hlen Hu16 g1 vm Hanch
                fuel') as [Hf | Hf]; [| done | done | |].
    + intros c Hc Ht. apply Hvm. by apply Hcov.
    + left. rewrite (Hdec (tiles data)) by (by rewrite Hf). by destruct data.
    + right. rewrite (Hdec _) by (by rewrite Hf). unfold lastCleared.
      by rewrite Hlen.
  - left. rewrite (Hdec (tiles data)); [by destruct data |]. f_equal.
    apply (fill_l2r (tiles data) (width data) (height data) Hw Hlen Hu16 g1 vm Hanch).
    intros c Hc Ht. apply Hvm. by apply Hcov.
Qed.

End RoundTrip.

(** ** The round trip *)

Section RoundTripTheorem.
Import BitStream ZoneCalculator MapEncoder MapDecoder.

(** The round trip of a map that the format can hold, whose palette
    entries are all in use and that has at most 65535 zones. *)
Lemma round_trip fuel fuel' data zones zm bytes :
  fitsFormat data -> paletteUsed data ->
  buildZones fuel data = Ok (zones, zm) -> Z.of_nat (length zones) <= 65535 ->
  encodeMap fuel data = Ok bytes ->
  (Z.to_nat (width data * height data) <= fuel')%nat ->
  decodeMap fuel' bytes = Ok data \/ decodeMap fuel' bytes = Ok (lastCleared data).
Proof.
  intros (Hwf & Hwd & Hht & Hsize & Hpal & Hfit) Hused Hb Hmax Henc Hfuel.
  pose proof Hwf as (Hw & Hh & Hlen).
  destruct (encodeMap_stream fuel data zones zm bytes Hwf Hpal Hb Hmax Henc)
    as (used & zones' & dir & lines & palBits & w4 & w5
        & Hv & Hem & Hcov & Hread & Hcount & Hwl & -> & ->).
  destruct (buildZones_facts fuel data zones zm Hwf Hb Hmax) as (Hzl & Hbord & Hcell).
  destruct (compaction_spec _ _ _ _ Hv) as [Hu Hz].
  (* every palette entry is in use: the compaction is the identity *)
  assert (forall j, (j < length (types data))%nat -> usedBy zones j = true) as Hall.
  { intros j Hj. specialize (Hused (Z.of_nat j) ltac:(lia)).
    apply list_elem_of_lookup in Hused as [c Hc].
    destruct (Hcell (Z.of_nat c)) as (k & zone & Hk & _ & Hid).
    { apply lookup_lt_Some in Hc. lia. }
    rewrite geti_nat, Hc in Hid. injection Hid as Hid.
    apply existsb_exists. exists zone.
    split; [by eapply list_elem_of_In, list_elem_of_lookup_2 |]. apply Z.eqb_eq. lia. }
  rewrite usedUpTo_all, firstn_all in Hu by (done || lia). subst used.
  assert (forall k zone zone', zones !! k = Some zone -> zones' !! k = Some zone' ->
            sameBorders zone zone' /\ id zone' = id zone
            /\ 0 <= id zone < Z.of_nat (length (types data))) as Hid.
  { intros k zone zone' Hk Hk'.
    destruct (Forall2_lookup_lr _ _ _ _ _ _ Hz Hk Hk') as (Hs & Hi & Hsome & _).
    destruct Hsome as [ty Hty]. apply geti_Some_range in Hty.
    split; [done |]. split; [| done].
    rewrite Hi, usedUpTo_all, length_take by (try lia; intros; apply Hall; lia). lia. }
  pose proof (Forall2_length _ _ _ Hz) as Hzlen.
  (* the tile of a cell is the type of its zone *)
  assert (forall c, 0 <= tileAt (tiles data) c < 65536) as Hu16.
  { intros c. unfold tileAt. destruct (geti (tiles data) c) as [v|] eqn:E; [| cbn; lia].
    destruct (Hcell c (geti_Some_range _ _ _ E)) as (k & zone & Hk & _ & Ht).
    destruct (lookup_lt_is_Some_2 zones' k) as [zone' Hk'];
      [rewrite <- Hzlen; by eapply lookup_lt_Some |].
    destruct (Hid k zone zone' Hk Hk') as (_ & _ & Hr).
    rewrite E in Ht. injection Ht as ->. cbn. lia. }
  assert (Forall (fun l => Forall (fun c => 0 <= c < width data * height data
                                           /\ lid l = tileAt (tiles data) c
                                           /\ 0 <= tileAt (tiles data) c < 65536) (line l))
            lines) as Hcells.
  { eapply Forall_impl; [exact Hem |]. intros l (k & zone' & Hk' & Hl & (Hin & _ & _)).
    eapply Forall_impl; [exact Hin |]. intros c Hc. unfold inZone in Hc.
    pose proof (geti_Some_range _ _ _ Hc) as Hr. rewrite Hzl in Hr.
    destruct (Hcell c Hr) as (k2 & zone & Hk & Hm & Ht).
    rewrite Hc in Hm. injection Hm as Hm. assert (k2 = k) as -> by lia.
    destruct (Hid k zone zone' Hk Hk') as (_ & Hi & _).
    split; [lia |]. split; [| done]. unfold tileAt. rewrite Ht. cbn. congruence. }
  assert (Forall (fitsRecord (width data) (log2ceil (Z.of_nat (length (types data))))) lines)
    as Hrec.
  { apply Forall_forall. intros l Hl. rewrite Forall_forall in Hem, Hcells.
    destruct (Hem l Hl) as (k & zone' & Hk' & Hlid & (Hin & Hchain & Hlen')).
    specialize (Hcells l Hl). rewrite Forall_forall in Hcells.
    destruct (line l) as [|c0 rest] eqn:El; [cbn in Hlen'; lia |].
    destruct (Hcells c0 ltac:(by left)) as (Hr & Hlt & _).
    unfold fitsRecord. rewrite El.
    split; [done |]. split; [done |]. split; [cbn; lia |].
    destruct (Hcell c0 ltac:(lia)) as (k2 & zone & Hk & _ & Ht).
    destruct (lookup_lt_is_Some_2 zones' k2) as [zone2 Hk2];
      [rewrite <- Hzlen; by eapply lookup_lt_Some |].
    destruct (Hid k2 zone zone2 Hk Hk2) as (_ & _ & Hrange).
    unfold tileAt in Hlt. rewrite Ht in Hlt. cbn in Hlt.
    destruct (log2ceil_bound (Z.of_nat (length (types data))) ltac:(lia)) as [_ Hpow].
    lia. }
  (* every cell that fails the neighbour test of the direction is on a line *)
  assert (forall c, 0 <= c < width data * height data ->
            (if dir then topOk (tiles data) (width data) c
             else leftOk (tiles data) (width data) c) = false -> onLines lines c) as Hcover.
  { intros c Hc Hok. destruct (Hcell c ltac:(lia)) as (k & zone & Hk & Hm & _).
    destruct (lookup_lt_is_Some_2 zones' k) as [zone' Hk'];
      [rewrite <- Hzlen; by eapply lookup_lt_Some |].
    destruct (Hid k zone zone' Hk Hk') as ((E1 & _ & E3 & _) & _ & _).
    destruct (Hbord k zone Hk) as [_ [(_ & Hl & _) (_ & Ht & _)]].
    apply (Hcov zone'); [by eapply list_elem_of_lookup_2 |].
    destruct dir; [rewrite <- E3; by apply Ht | rewrite <- E1; by apply Hl]. }
  eapply decode_stream; try done. lia.
Qed.

(** X6.  Decoding what was encoded.  For a map that the format can hold,
    whose palette entries are all the type of some tile and which has at
    most 65535 zones: whenever [encodeMap] returns bytes, [decodeMap]
    returns on them the very same map, or the map with its last tile set to
    0 (the top-to-bottom fill never stores into the last cell). *)
Theorem decodeMap_encodeMap fuel fuel' data zones zm bytes :
  fitsFormat data -> paletteUsed data ->
  buildZones fuel data = Ok (zones, zm) -> Z.of_nat (length zones) <= 65535 ->
  encodeMap fuel data = Ok bytes ->
  (Z.to_nat (width data * height data) <= fuel')%nat ->
  decodeMap fuel' bytes = Ok data \/ decodeMap fuel' bytes = Ok (lastCleared data).
Proof. exact (round_trip fuel fuel' data zones zm bytes). Qed.

Lemma decodeMap_encodeMap_witness :
  exists bytes,
    encodeMap 8 mapTwoColumns = Ok bytes
    /\ (decodeMap 4 bytes = Ok mapTwoColumns
        \/ decodeMap 4 bytes = Ok (lastCleared mapTwoColumns)).
Proof.
  eexists. split; [vm_compute; reflexivity |].
  apply (decodeMap_encodeMap 8 4 mapTwoColumns
           [ {| id := 0; leftBorder := [0; 2]; leftBorderMap := {[0; 2]};
                topBorder := [0]; topBorderMap := {[0]} |};
             {| id := 1; leftBorder := [1; 3]; leftBorderMap := {[1; 3]};
                topBorder := [1]; topBorderMap := {[1]} |} ] [1; 2; 1; 2]).
  - split; [split; [reflexivity | split; [by vm_compute | reflexivity]] |].
    split; [reflexivity |]. split; [reflexivity |]. split; [reflexivity |].
    split; [reflexivity |]. repeat constructor; cbn; lia.
  - intros i Hi. cbn in Hi. assert (i = 0 \/ i = 1) as [-> | ->] by lia.
    + by left.
    + right. by left.
  - vm_compute. reflexivity.
  - cbn. lia.
  - vm_compute. reflexivity.
  - cbn. lia.
Defined.

End RoundTripTheorem.

(** ** The fills of the decoder *)

Section FillTheorems.
Import ZoneCalculator MapDecoder.

Lemma tileAt_u16 tt :
  Forall (fun v => 0 <= v < 65536) tt -> forall c, 0 <= tileAt tt c < 65536.
Proof.
  intros Hall c. unfold tileAt. destruct (geti tt c) as [v|] eqn:E; [| unfold default; cbn; lia].
  rewrite Forall_forall in Hall. exact (Hall v (geti_elem _ _ _ E)).
Qed.

(** X7.  The left-to-right fill restores a map of 16-bit tiles from its
    anchors: when every anchor holds the tile of its cell, and every cell
    that starts a row or differs from its left neighbour is an anchor, the
    fill returns the tiles of the map. *)
Theorem fillLinesLeftToRight_restores (tt : list Z) (w h : Z) (g1 : list Z) (vm : gset Z) :
  0 < w -> Z.of_nat (length tt) = w * h ->
  Forall (fun v => 0 <= v < 65536) tt ->
  anchored (tileAt tt) (w * h) (g1, vm) ->
  (forall c, 0 <= c < w * h -> leftOk tt w c = false -> c ∈ vm) ->
  fillLinesLeftToRight g1 vm = tt.
Proof.
  intros Hw Hlen Hu Hg. exact (fill_l2r tt w h Hw Hlen (tileAt_u16 tt Hu) g1 vm Hg).
Qed.

Lemma fillLinesLeftToRight_restores_witness :
  fillLinesLeftToRight [5; 0; 7; 7; 0; 0] {[0; 2; 3]} = [5; 5; 7; 7; 7; 7].
Proof.
  apply (fillLinesLeftToRight_restores [5; 5; 7; 7; 7; 7] 3 2).
  - lia.
  - reflexivity.
  - repeat constructor; lia.
  - split; [reflexivity |]. intros c Hc. change (c ∈ ({[0; 2; 3]} : gset Z)) in Hc.
    rewrite !elem_of_union, !elem_of_singleton in Hc. destruct Hc as [[-> | ->] | ->]; by cbn.
  - intros c Hc Hok. rewrite !elem_of_union, !elem_of_singleton.
    assert (c = 0 \/ c = 1 \/ c = 2 \/ c = 3 \/ c = 4 \/ c = 5) as Hcs by lia.
    destruct Hcs as [-> | [-> | [-> | [-> | [-> | ->]]]]]; cbn in Hok; auto; discriminate.
Defined.

(** X8.  The top-to-bottom fill restores a map of 16-bit tiles from its
    anchors, but for the last cell: when every anchor holds the tile of its
    cell, every other cell holds 0, and every cell of the first row or that
    differs from the cell above is an anchor, the fill returns the tiles of
    the map, or these tiles with the last one set to 0. *)
Theorem fillLinesTopToBottom_restores (tt : list Z) (w h : Z) (g1 : list Z) (vm : gset Z)
    (fuel : nat) :
  0 < w -> 0 <= h -> Z.of_nat (length tt) = w * h ->
  Forall (fun v => 0 <= v < 65536) tt ->
  anchored (tileAt tt) (w * h) (g1, vm) ->
  (forall c, 0 <= c < w * h -> topOk tt w c = false -> c ∈ vm) ->
  (forall c, 0 <= c < w * h -> c ∉ vm -> geti g1 c = Some 0) ->
  (Z.to_nat (w * h) <= fuel)%nat ->
  fillLinesTopToBottom fuel g1 vm w = Some tt
  \/ fillLinesTopToBottom fuel g1 vm w = Some (set16 tt (w * h - 1) 0).
Proof.
  intros Hw Hh Hlen Hu Hg.
  exact (fill_t2b tt w h Hw Hh Hlen (tileAt_u16 tt Hu) g1 vm Hg fuel).
Qed.

Lemma fillLinesTopToBottom_restores_witness :
  fillLinesTopToBottom 4 [0; 1; 0; 0] {[0; 1]} 2 = Some [0; 1; 0; 1]
  \/ fillLinesTopToBottom 4 [0; 1; 0; 0] {[0; 1]} 2 = Some (set16 [0; 1; 0; 1] (2 * 2 - 1) 0).
Proof.
  apply (fillLinesTopToBottom_restores [0; 1; 0; 1] 2 2).
  - lia.
  - lia.
  - reflexivity.
  - repeat constructor; lia.
  - split; [reflexivity |]. intros c Hc. change (c ∈ ({[0; 1]} : gset Z)) in Hc.
    rewrite !elem_of_union, !elem_of_singleton in Hc. destruct Hc as [-> | ->]; by cbn.
  - intros c Hc Hok. rewrite !elem_of_union, !elem_of_singleton.
    assert (c = 0 \/ c = 1 \/ c = 2 \/ c = 3) as Hcs by lia.
    destruct Hcs as [-> | [-> | [-> | ->]]]; cbn in Hok; auto; discriminate.
  - intros c Hc Hn. rewrite !elem_of_union, !elem_of_singleton in Hn.
    assert (c = 2 \/ c = 3) as [-> | ->] by lia; reflexivity.
  - cbn. lia.
Defined.

End FillTheorems.

(** ** Bounds and edge behaviour of the encoder *)

Section EncoderEdges.
Import ZoneCalculator MapEncoder.

(** X9.  For distinct border points, [calculateNeededLines] returns at most
    ten lines per point. *)
Theorem calculateNeededLines_bounded fuel w points pm zoneId tm lines :
  NoDup points ->
  calculateNeededLines fuel w points pm zoneId tm = Ok lines ->
  (length lines <= 10 * length points)%nat.
Proof. exact (neededLines_count fuel w points pm zoneId tm lines). Qed.

Lemma calculateNeededLines_bounded_witness :
  exists lines,
    calculateNeededLines 8 2 [1; 3] {[1; 3]} 2 [1; 2; 1; 2] = Ok lines
    /\ (length lines <= 10 * length [1; 3])%nat.
Proof.
  eexists. split; [vm_compute; reflexivity |].
  apply (calculateNeededLines_bounded 8 2 [1; 3] {[1; 3]} 2 [1; 2; 1; 2]).
  - refine (bool_decide_unpack (NoDup [1; 3]) _). vm_compute. exact I.
  - vm_compute. reflexivity.
Defined.

(** X10.  A zone id that is a multiple of 65536 is stored as 0 in the zone
    map, the mark of a free cell: explored with such an id, a free cell
    that has a free neighbour of its own type is visited again and again,
    and [exploreZone] returns for no amount of fuel. *)
Theorem exploreZone_wrapped_id fuel tile y tt w zm z :
  0 < w -> z mod 65536 = 0 ->
  0 <= tile < Z.of_nat (length tt) ->
  zoneStep tt w tile y ->
  geti zm tile = Some 0 -> geti zm y = Some 0 ->
  exploreZone fuel tile tt w zm z = Err OutOfFuel.
Proof.
  intros Hw Hz Hr Hstep Ht Hy. unfold exploreZone.
  rewrite (exploreLoop_wrap_diverges tt w Hw fuel z _ tile y); try done. by left.
Qed.

Lemma exploreZone_wrapped_id_witness :
  exploreZone 1000 0 [3; 3] 2 [0; 0] 65536 = Err OutOfFuel.
Proof.
  apply (exploreZone_wrapped_id 1000 0 1 [3; 3] 2 [0; 0] 65536); try done.
  split; [| reflexivity]. split; [done |]. split; [done |]. right. left. done.
Defined.

End EncoderEdges.

(** ** The shape of what the decoder returns *)

Section DecodedShape.
Import BitStream MapDecoder.

Lemma readBits_range n r v r' : 0 <= n -> readBits n r = Ok (v, r') -> 0 <= v < 2 ^ n.
Proof.
  intros Hn. unfold readBits. destruct (Nat.ltb_spec (length r) (Z.to_nat n)); [discriminate |].
  intros [= <- _]. pose proof (valueOf_bound (take (Z.to_nat n) r)) as Hb.
  rewrite length_take, Nat.min_l, Z2Nat.id in Hb by lia. done.
Qed.

Lemma set16_u16 a i v : Forall u16 a -> Forall u16 (set16 a i v).
Proof.
  intros Ha. unfold set16. destruct (i <? 0); [done |].
  apply Forall_insert; [done |]. apply Z.mod_pos_bound. lia.
Qed.

Local Abbreviation shaped m := (fun g : Grid => length g.1 = m /\ Forall u16 g.1).

Lemma put_shaped m g p ty : shaped m g -> shaped m (put g p ty).
Proof. intros [Hl Hu]. split; cbn; [by rewrite set16_length | by apply set16_u16]. Qed.

Lemma putSteps_shaped m k : forall r g width ty p g' r',
  shaped m g -> putSteps k r g width ty p = Ok (g', r') -> shaped m g'.
Proof.
  induction k as [|k IH]; intros r g width ty p g' r' Hg H; cbn [putSteps] in H.
  - by injection H as <- _.
  - apply bind_Ok in H as ([diff r1] & _ & H). eapply IH; [| exact H]. by apply put_shaped.
Qed.

Lemma putLinesLoop_shaped m k : forall r g width tl cur g' r',
  shaped m g -> putLinesLoop k r g width tl cur = Ok (g', r') -> shaped m g'.
Proof.
  induction k as [|k IH]; intros r g width tl cur g' r' Hg H; cbn [putLinesLoop] in H.
  - by injection H as <- _.
  - apply bind_Ok in H as ([c1 r1] & _ & H). apply bind_Ok in H as ([x2 r2] & _ & H).
    apply bind_Ok in H as ([len1 r3] & _ & H). apply bind_Ok in H as ([ty r4] & _ & H).
    apply bind_Ok in H as ([pos r5] & _ & H). apply bind_Ok in H as ([g1 r6] & Hs & H).
    eapply IH; [| exact H]. eapply putSteps_shaped; [| exact Hs]. by apply put_shaped.
Qed.

Lemma fillCell_u16 vm i st : Forall u16 st.1 -> Forall u16 (fillCell vm i st).1.
Proof. destruct st as [res cur]. cbn. apply set16_u16. Qed.

Lemma fillL2R_shaped vm k : forall i st,
  length (fillL2R k vm i st) = length st.1
  /\ (Forall u16 st.1 -> Forall u16 (fillL2R k vm i st)).
Proof.
  induction k as [|k IH]; intros i st; cbn [fillL2R]; [done |].
  destruct (IH (i + 1) (fillCell vm i st)) as [Hl Hu]. rewrite fillCell_length in Hl.
  split; [done |]. intros H. by apply Hu, fillCell_u16.
Qed.

Lemma fillT2B_u16 fuel vm w : forall i st out,
  Forall u16 st.1 -> fillT2B fuel vm w i st = Some out -> Forall u16 out.
Proof.
  induction fuel as [|fuel IH]; intros i st out Hu; cbn [fillT2B].
  - destruct (_ <? _); [discriminate | by intros [= <-]].
  - destruct (_ <? _); [| by intros [= <-]]. apply IH. by apply fillCell_u16.
Qed.

Lemma readTypes_fit k : forall r acc ts r',
  Forall fieldsFit acc -> readTypes k r acc = Ok (ts, r') ->
  Forall fieldsFit ts /\ length ts = (length acc + k)%nat.
Proof.
  induction k as [|k IH]; intros r acc ts r' Hacc H; cbn [readTypes] in H.
  - injection H as <- _. split; [done | lia].
  - apply bind_Ok in H as ([x1 r1] & _ & H). apply bind_Ok in H as ([nm r2] & _ & H).
    apply bind_Ok in H as ([cb r3] & _ & H). apply bind_Ok in H as ([cv r4] & Hcv & H).
    apply bind_Ok in H as ([cq r5] & _ & H). apply bind_Ok in H as ([nv r6] & _ & H).
    apply bind_Ok in H as ([et r7] & Het & H). apply bind_Ok in H as ([ec r8] & Hec & H).
    apply readBits_range in Hcv; [| lia]. apply readBits_range in Het; [| lia].
    apply readBits_range in Hec; [| lia].
    apply IH in H as [Hf Hl].
    + split; [done |]. rewrite length_app in Hl. cbn [length] in Hl. lia.
    + apply Forall_app. split; [done |]. repeat constructor; cbn; lia.
Qed.

(** X11.  Whatever bytes it is given, a map that [decodeMap] returns has
    sizes of 16 bits, one tile of 16 bits for each of its width times
    height cells, and fewer than 65536 palette entries whose numeric fields
    are in the range of their bit fields. *)
Theorem decodeMap_shape fuel bytes d :
  decodeMap fuel bytes = Ok d -> decodedShape d.
Proof.
  unfold decodeMap. intros H.
  apply bind_Ok in H as ([version r0] & _ & H).
  destruct (_ || _); [discriminate |].
  apply bind_Ok in H as ([wd r1] & Hwd & H). apply bind_Ok in H as ([ht r2] & Hht & H).
  apply readBits_range in Hwd; [| lia]. apply readBits_range in Hht; [| lia].
  apply bind_Ok in H as ([res r3] & Hc & H).
  apply bind_Ok in H as ([x r4] & _ & H). injection H as <-.
  unfold readCompressed in Hc.
  apply bind_Ok in Hc as ([x1 r5] & _ & Hc). apply bind_Ok in Hc as ([dir r6] & _ & Hc).
  apply bind_Ok in Hc as ([x2 r7] & _ & Hc). apply bind_Ok in Hc as ([tys r8] & Hty & Hc).
  apply bind_Ok in Hc as ([g r9] & Hput & Hc). apply bind_Ok in Hc as (tls & Hfill & Hc).
  injection Hc as <- _. unfold decodedShape. cbn [width height tiles types].
  unfold readTypeMap in Hty. apply bind_Ok in Hty as ([cnt r10] & Hcnt & Hty).
  apply readBits_range in Hcnt; [| lia].
  apply readTypes_fit in Hty as [Hfit Hlen]; [| constructor]. cbn [length] in Hlen.
  unfold putLines in Hput. apply bind_Ok in Hput as ([lc r11] & _ & Hput).
  apply (putLinesLoop_shaped (Z.to_nat (wd * ht))) in Hput as [Hgl Hgu].
  2:{ split; cbn; [by rewrite repeat_length |].
      apply Forall_forall. intros v Hv. apply list_elem_of_In, repeat_spec in Hv.
      unfold u16. lia. }
  split; [lia |]. split; [lia |].
  assert (length tls = Z.to_nat (wd * ht) /\ Forall u16 tls) as [Hl Hu].
  { destruct dir.
    - apply ofOption_Ok in Hfill. unfold fillLinesTopToBottom in Hfill. split.
      + apply fillT2B_last_cell in Hfill as [Hl _]. cbn in Hl. lia.
      + eapply fillT2B_u16; [| exact Hfill]. done.
    - injection Hfill as <-. unfold fillLinesLeftToRight.
      destruct (fillL2R_shaped g.2 (length g.1) 0 (g.1, 0)) as [Hl Hu].
      split; [by rewrite Hl | by apply Hu]. }
  split; [done |]. split; [done |]. split; [lia | done].
Qed.

Lemma decodeMap_shape_witness : decodedShape (lastCleared mapTwoColumns).
Proof.
  apply (decodeMap_shape 4
           [Byte.x00; Byte.x00; Byte.x20; Byte.x00; Byte.x20; Byte.x08;
            Byte.x00; Byte.x08; Byte.x0a; Byte.xce; Byte.xe4; Byte.xc2;
            Byte.xe6; Byte.xe6; Byte.x56; Byte.x77; Byte.x26; Byte.x56;
            Byte.x56; Byte.xe1; Byte.x8c; Byte.x8c; Byte.x80; Byte.xae;
            Byte.xec; Byte.x2e; Byte.x8c; Byte.xae; Byte.x44; Byte.x62;
            Byte.x6c; Byte.x75; Byte.x65; Byte.x24; Byte.xf1; Byte.x18;
            Byte.x00; Byte.x00; Byte.x00; Byte.x08; Byte.x00; Byte.x00;
            Byte.x00; Byte.x04; Byte.x01; Byte.x00]
           (lastCleared mapTwoColumns)).
  vm_compute. reflexivity.
Defined.

End DecodedShape.

(** ** The header and the palette always come back *)

Section Header.
Import BitStream ZoneCalculator MapEncoder MapDecoder.

(** The head of the stream of [encodeMap], for any map it encodes. *)
Lemma encodeMap_head fuel data bytes :
  encodeMap fuel data = Ok bytes ->
  exists (dir : bool) palBits rest,
    newReader bytes
    = bitsOf 4 0 ++ bitsOf 16 (width data) ++ bitsOf 16 (height data)
      ++ bitsOf 8 0 ++ [dir] ++ [false] ++ palBits ++ rest
    /\ (Z.of_nat (length (types data)) < 65536 ->
        forall r, readTypeMap (palBits ++ r) = Ok (map stored (types data), r)).
Proof.
  intros H. unfold encodeMap in H.
  apply bind_Ok in H as (w5 & Hc & H). injection H as <-.
  unfold writeCompressed in Hc.
  apply bind_Ok in Hc as ([zones zm] & _ & Hc).
  apply bind_Ok in Hc as ([used zones'] & _ & Hc).
  apply bind_Ok in Hc as ([w2 lines] & Hl & Hc).
  apply bind_Ok in Hc as (w4 & Hp & Hc).
  unfold calculateLines in Hl. apply bind_Ok in Hl as ([l2r t2b] & _ & Hl).
  injection Hl as <- _.
  unfold writeLines in Hc. apply writeLinesLoop_Ok in Hc as [-> _].
  unfold writeTypeMap in Hp. apply writeTypeMapLoop_read in Hp as (bits & -> & Hread).
  match goal with
  | |- context [newReader (compress ?x)] => destruct (newReader_compress x) as (pad & E & _)
  end.
  rewrite E. unfold writeBits, writeBoolean.
  cbn [app Z.to_nat Pos.to_nat Pos.iter_op Nat.add]. rewrite <- !app_assoc.
  eexists _, (bitsOf 16 (Z.of_nat (length (types data))) ++ bits), _.
  rewrite <- !app_assoc. split; [reflexivity |].
  intros Hlen r. unfold readTypeMap. rewrite <- app_assoc.
  change (bitsOf 16) with (bitsOf (Z.to_nat 16)).
  rewrite (readBits_small 16) by (change (2 ^ 16) with 65536; lia).
  rewrite run_bind. cbn beta iota. rewrite Nat2Z.id. apply (Hread []).
Qed.

(** X12.  For any map that [encodeMap] encodes, the version gate of
    [decodeMap] accepts the bytes, and a map that [decodeMap] returns on
    them has the width and the height of the input modulo 65536 and, for a
    palette of fewer than 65536 entries, the whole palette of the input,
    unused entries included, with its numeric fields reduced to their bit
    fields. *)
Theorem decodeMap_header fuel fuel' data bytes :
  encodeMap fuel data = Ok bytes ->
  (forall v, decodeMap fuel' bytes <> Err (UnsupportedVersion v))
  /\ forall d, decodeMap fuel' bytes = Ok d ->
       width d = width data mod 65536 /\ height d = height data mod 65536
       /\ (Z.of_nat (length (types data)) < 65536 -> types d = map stored (types data)).
Proof.
  intros H. destruct (encodeMap_head fuel data bytes H) as (dir & palBits & rest & E & Hread).
  assert (decodeMap fuel' bytes
          = afterVersion fuel'
              (bitsOf 16 (width data) ++ bitsOf 16 (height data)
               ++ bitsOf 8 0 ++ [dir] ++ [false] ++ palBits ++ rest)) as ->.
  { rewrite decodeMap_unfold, E. change (bitsOf 4 0) with (bitsOf (Z.to_nat 4) 0).
    by rewrite (readBits_small 4) by lia. }
  split.
  - intros v Hv. apply afterVersion_Err in Hv. by destruct Hv as [? | [? | ?]].
  - intros d Hd. unfold afterVersion in Hd.
    change (bitsOf 16) with (bitsOf (Z.to_nat 16)) in Hd.
    change (bitsOf 8 0) with (bitsOf (Z.to_nat 8) 0) in Hd.
    rewrite (readBits_bitsOf 16), run_bind in Hd by lia. cbn beta iota in Hd.
    rewrite (readBits_bitsOf 16), run_bind in Hd by lia. cbn beta iota in Hd.
    apply bind_Ok in Hd as ([res r3] & Hc & Hd).
    apply bind_Ok in Hd as ([x r4] & _ & Hd). injection Hd as <-.
    unfold readCompressed in Hc.
    rewrite (readBits_small 8), run_bind in Hc by lia. cbn beta iota in Hc.
    change (readBoolean ([dir] ++ ?x)) with (@Ok (bool * Reader) (dir, x)) in Hc.
    rewrite run_bind in Hc. cbn beta iota in Hc.
    change (readBits 1 ([false] ++ ?x)) with (@Ok (Z * Reader) (0, x)) in Hc.
    rewrite run_bind in Hc. cbn beta iota in Hc.
    apply bind_Ok in Hc as ([tys r8] & Hty & Hc).
    apply bind_Ok in Hc as ([g r9] & _ & Hc). apply bind_Ok in Hc as (tls & _ & Hc).
    injection Hc as <- _. cbn [width height types].
    split; [done |]. split; [done |]. intros Hlen.
    rewrite (Hread Hlen) in Hty. by injection Hty as <- _.
Qed.

Lemma decodeMap_header_witness :
  exists bytes,
    encodeMap 8 mapUnusedEntry = Ok bytes
    /\ (forall v, decodeMap 4 bytes <> Err (UnsupportedVersion v))
    /\ forall d, decodeMap 4 bytes = Ok d ->
         width d = width mapUnusedEntry mod 65536
         /\ height d = height mapUnusedEntry mod 65536
         /\ (Z.of_nat (length (types mapUnusedEntry)) < 65536 ->
             types d = map stored (types mapUnusedEntry)).
Proof.
  eexists. split; [vm_compute; reflexivity |].
  apply (decodeMap_header 8 4 mapUnusedEntry). vm_compute. reflexivity.
Defined.

End Header.

(** ** Chunk prefixes, costs and connections *)

Section ChunksAndCosts.
Import BitStream MapEncoder.

Lemma checkChunkLoop_fuel fuel w chunk cur w' c' :
  checkChunkLoop fuel w chunk cur = Some (w', c') -> (Z.to_nat (chunk - cur) <= fuel)%nat.
Proof.
  revert w cur. induction fuel as [|fuel IH]; intros w cur; cbn [checkChunkLoop];
    destruct (Z.eqb_spec chunk cur) as [-> | Hne]; try (intros; lia); [discriminate |].
  intros H. pose proof (checkChunkLoop_Some _ _ _ _ _ _ H) as (_ & Hle & _).
  apply IH in H. lia.
Qed.

(** X13.  [checkChunk] returns exactly when the width is not 0, the chunk
    of the position is not behind the current chunk and the loop is given
    its turns: it has then written one 1 bit per chunk advanced and a
    closing 0 bit, and the current chunk is the chunk of the position.  For
    a width of 0, whose chunk is [NaN], and for a position in a chunk behind
    the current one, the loop never ends. *)
Theorem checkChunk_advances fuel width w currentChunk position w' c' :
  checkChunk fuel width w currentChunk position = Some (w', c')
  <-> width <> 0
      /\ currentChunk <= chunkNumber width position
      /\ (Z.to_nat (chunkNumber width position - currentChunk) <= fuel)%nat
      /\ w' = w ++ repeat true (Z.to_nat (chunkNumber width position - currentChunk)) ++ [false]
      /\ c' = chunkNumber width position.
Proof.
  unfold checkChunk, chunkOf. split.
  - destruct (Z.eqb_spec width 0) as [| Hw]; [discriminate |].
    destruct (checkChunkLoop fuel w (chunkNumber width position) currentChunk)
      as [[w1 c1]|] eqn:E; [| discriminate].
    intros [= <- <-]. pose proof (checkChunkLoop_fuel _ _ _ _ _ _ E) as Hfuel.
    apply checkChunkLoop_Some in E as (-> & Hle & ->).
    unfold writeBits. cbn. by rewrite <- app_assoc.
  - intros (Hw & Hle & Hfuel & -> & ->). apply Z.eqb_neq in Hw as ->.
    rewrite checkChunkLoop_run by done.
    unfold writeBits. cbn. by rewrite <- app_assoc.
Qed.

Lemma checkChunk_advances_witness :
  checkChunk 2 40 [true] 0 39 = Some ([true; true; false], 1)
  /\ ~ (exists w' c', checkChunk 1000 0 [] 0 0 = Some (w', c')).
Proof.
  split.
  - apply (proj2 (checkChunk_advances 2 40 [true] 0 39 [true; true; false] 1)).
    split; [lia |]. split; [by vm_compute |]. split; [vm_compute; lia |]. split; reflexivity.
  - intros (w' & c' & H).
    by apply (proj1 (checkChunk_advances 1000 0 [] 0 0 w' c')) in H as [Hw _].
Defined.

Lemma lineRecord_length width typeLength cur l :
  line l <> [] -> cur <= chunkNumber width (hd 0 (line l)) -> 0 <= typeLength ->
  Z.of_nat (length (lineRecord width typeLength cur l))
  = (Z.of_nat (length (line l)) - 1) * 2 + 20 + typeLength
    + (chunkNumber width (hd 0 (line l)) - cur).
Proof.
  intros Hne Hle Ht. unfold lineRecord, chunkPrefix, lineFields.
  rewrite !length_app, repeat_length, !bitsOf_length, stepBits_length. cbn [length].
  destruct (line l) as [|c rest]; [done |]. cbn [length tl]. lia.
Qed.

Lemma costLoop_bits width typeLength lines : forall cost cur,
  width <> 0 ->
  chunksAscend width cur lines -> 0 <= typeLength ->
  costLoop width typeLength lines (Some cost) (Some cur)
  = Some (cost + Z.of_nat (length (lineRecords width typeLength cur lines))).
Proof.
  induction lines as [|l lines IH]; intros cost cur Hw Hasc Ht; cbn [costLoop lineRecords].
  - cbn. f_equal. lia.
  - destruct Hasc as (Hne & Hle & Hasc).
    destruct (line l) as [|c rest] eqn:El; [done |]. cbn [head mbind option_bind].
    rewrite chunkOf_Some by done. cbn [mbind option_bind].
    cbn [hd] in *. rewrite IH by done. f_equal.
    rewrite length_app, Nat2Z.inj_add, lineRecord_length; rewrite ?El; cbn [hd length];
      try done. lia.
Qed.

(** [writeLines] returns for a width of 0 only when there is no line. *)
Lemma writeLinesLoop_width fuel width typeLength lines w cur w' :
  writeLinesLoop fuel width typeLength lines w cur = Ok w' -> lines <> [] -> width <> 0.
Proof.
  destruct lines as [|l lines]; [done |]. intros H _. cbn in H.
  apply bind_Ok in H as ([w1 c1] & H1 & H).
  unfold writeLine in H1. destruct (line l) as [|first rest]; [discriminate |].
  apply bind_Ok in H1 as ([w2 c2] & Hc & H1). apply ofOption_Ok in Hc.
  by apply checkChunk_Some in Hc as (Hw & _).
Qed.

(** X14.  The cost that [calculateCost] gives a list of lines is the number
    of bits that [writeLines] writes for them after the 32-bit count of
    lines. *)
Theorem calculateCost_bits fuel width w lines typeLength w' :
  0 <= typeLength ->
  writeLines fuel width w lines typeLength = Ok w' ->
  exists cost,
    calculateCost width lines typeLength = Some cost
    /\ Z.of_nat (length w') = Z.of_nat (length w) + 32 + cost.
Proof.
  intros Ht H. unfold writeLines in H.
  pose proof (writeLinesLoop_width _ _ _ _ _ _ _ H) as Hw.
  apply writeLinesLoop_Ok in H as [-> Hasc]. unfold calculateCost.
  destruct lines as [|l lines].
  - exists 0. split; [done |]. unfold writeBits. cbn [lineRecords].
    rewrite !length_app, bitsOf_length. cbn. lia.
  - eexists. split; [apply costLoop_bits; [by apply Hw | done | done] |].
    unfold writeBits. rewrite !length_app, bitsOf_length. lia.
Qed.

Lemma calculateCost_bits_witness :
  let lines := [{| lid := 1; line := [0; 4; 5] |}; {| lid := 2; line := [40; 39] |}] in
  exists w', writeLines 4 4 [true] lines 2 = Ok w'
    /\ exists cost, calculateCost 4 lines 2 = Some cost
         /\ Z.of_nat (length w') = Z.of_nat (length [true]) + 32 + cost.
Proof.
  intros lines. eexists. split; [vm_compute; reflexivity |].
  apply (calculateCost_bits 4 4 [true] lines 2); [lia | vm_compute; reflexivity].
Defined.

(** X15.  The connections that [calculateConnections] finds between
    distinct border points of a zone: each leads from a point to a point
    earlier in the list, and its path, of at most 7 cells, joins the two
    points by steps between neighbours through cells of the zone. *)
Theorem calculateConnections_sound fuel w points pointMap zoneId tm cm :
  NoDup points ->
  calculateConnections fuel w points pointMap zoneId tm = Ok cm ->
  Forall (fun c => connOk w tm zoneId points c /\ (length (path c) <= 7)%nat) (concat cm).
Proof.
  intros Hnd H. apply Forall_and. split.
  - by eapply calculateConnections_ok.
  - by eapply calculateConnections_short.
Qed.

Lemma calculateConnections_sound_witness :
  exists cm,
    calculateConnections 8 2 [1; 3] {[1; 3]} 2 [1; 2; 1; 2] = Ok cm
    /\ Forall (fun c => connOk 2 [1; 2; 1; 2] 2 [1; 3] c /\ (length (path c) <= 7)%nat)
         (concat cm).
Proof.
  eexists. split; [vm_compute; reflexivity |].
  apply (calculateConnections_sound 8 2 [1; 3] {[1; 3]} 2 [1; 2; 1; 2]).
  - refine (bool_decide_unpack (NoDup [1; 3]) _). vm_compute. exact I.
  - vm_compute. reflexivity.
Defined.

End ChunksAndCosts.

(** ** The top-to-bottom fill, cell by cell *)

Section FillRule.
Import MapDecoder.

Lemma fillCell_rule vm i res cur :
  0 <= i < Z.of_nat (length res) -> Forall u16 res -> u16 cur ->
  let cur' := if decide (i ∈ vm) then nth (Z.to_nat i) res 0 else cur in
  fillCell vm i (res, cur) = (<[Z.to_nat i := cur']> res, cur') /\ u16 cur'.
Proof.
  intros Hi Hres Hcur cur'.
  assert (geti res i = Some (nth (Z.to_nat i) res 0)) as Hget.
  { unfold geti. destruct (Z.ltb_spec i 0); [lia |].
    destruct (lookup_lt_is_Some_2 res (Z.to_nat i) ltac:(lia)) as [x Hx].
    rewrite Hx. f_equal. symmetry. by apply nth_lookup_Some. }
  assert (u16 cur') as Hu.
  { unfold cur'. destruct (decide _); [| done].
    rewrite Forall_forall in Hres. apply Hres. eapply geti_elem, Hget. }
  split; [| done]. unfold fillCell. rewrite Hget. fold cur'.
  unfold set16. destruct (Z.ltb_spec i 0); [lia |].
  unfold u16 in Hu. by rewrite Z.mod_small.
Qed.

Lemma fold_fillCell_rule vm cells : forall res cur,
  Forall (fun i => 0 <= i < Z.of_nat (length res)) cells -> Forall u16 res -> u16 cur ->
  (fold_left (fun st i => fillCell vm i st) cells (res, cur)).1
  = fillRuleSpec vm cells res cur.
Proof.
  induction cells as [|i cells IH]; intros res cur Hin Hres Hcur; [done |].
  inversion Hin as [|? ? Hi Hrest]; subst.
  cbn [fold_left fillRuleSpec].
  destruct (fillCell_rule vm i res cur Hi Hres Hcur) as [-> Hu].
  apply IH; [| | done].
  - rewrite length_insert. done.
  - apply Forall_insert; done.
Qed.

(** The state of a fill after the cells [cell 0 .. cell (m - 1)]. *)
Lemma fold_fillCell_pointwise vm (cell : nat -> Z) result (m : nat) :
  (forall p, (p < m)%nat -> 0 <= cell p < Z.of_nat (length result)) ->
  (forall p q, (p < m)%nat -> (q < m)%nat -> cell p = cell q -> p = q) ->
  Forall u16 result ->
  let st := fold_left (fun st i => fillCell vm i st) (map cell (seq 0 m)) (result, 0) in
  length st.1 = length result
  /\ Forall u16 st.1
  /\ st.2 = match m with O => 0 | S q => tileAt st.1 (cell q) end
  /\ (forall c, (forall p, (p < m)%nat -> cell p <> c) -> geti st.1 c = geti result c)
  /\ (forall p, (p < m)%nat ->
        geti st.1 (cell p)
        = Some (if decide (cell p ∈ vm) then tileAt result (cell p)
                else match p with O => 0 | S q => tileAt st.1 (cell q) end)).
Proof.
  intros Hin Hinj Hres. induction m as [|m IH]; intros st.
  - subst st. cbn. split; [done |]. split; [done |]. split; [done |].
    split; [done |]. intros p Hp. lia.
  - subst st. rewrite seq_S, map_app, fold_left_app. cbn [map fold_left Nat.add].
    destruct IH as (Hlen & Hu & Hcur & Hother & Hpt).
    { intros p Hp. apply Hin. lia. }
    { intros p q Hp Hq. apply Hinj; lia. }
    set (st := fold_left _ _ _) in *. destruct st as [res cur] eqn:Est. cbn [fst snd] in *.
    assert (0 <= cell m < Z.of_nat (length res)) as Hm by (rewrite Hlen; apply Hin; lia).
    assert (u16 cur) as Hucur.
    { rewrite Hcur. destruct m; [unfold u16; lia |]. by apply tileAt_u16. }
    destruct (fillCell_rule vm (cell m) res cur Hm Hu Hucur) as [-> Hu'].
    cbn [fst snd].
    assert (geti res (cell m) = geti result (cell m)) as Hfresh.
    { apply Hother. intros p Hp E. apply Hinj in E; lia. }
    assert (nth (Z.to_nat (cell m)) res 0 = tileAt result (cell m)) as Hnth.
    { unfold tileAt. rewrite <- Hfresh. unfold geti.
      destruct (Z.ltb_spec (cell m) 0); [lia |].
      destruct (lookup_lt_is_Some_2 res (Z.to_nat (cell m)) ltac:(lia)) as [x Hx].
      rewrite Hx. cbn. by apply nth_lookup_Some. }
    set (cur' := if decide (cell m ∈ vm) then _ else cur) in *.
    assert (forall c, c <> cell m -> geti (<[Z.to_nat (cell m) := cur']> res) c = geti res c)
      as Hne.
    { intros c Hc. apply geti_insert_ne; [lia | done]. }
    assert (geti (<[Z.to_nat (cell m) := cur']> res) (cell m) = Some cur') as Heq.
    { destruct (geti_inrange res (cell m) Hm) as [x Hx]. by eapply geti_insert_eq. }
    split; [by rewrite length_insert |]. split; [by apply Forall_insert |].
    split; [by unfold tileAt; rewrite Heq |].
    split.
    + intros c Hc. rewrite Hne; [| intros ->; apply (Hc m); [lia | done]].
      apply Hother. intros p Hp. apply Hc. lia.
    + intros p Hp. destruct (decide (p = m)) as [-> | Hpm].
      * rewrite Heq. f_equal.
        transitivity (if decide (cell m ∈ vm) then tileAt result (cell m) else cur);
          [subst cur'; by rewrite Hnth |].
        destruct (decide (cell m ∈ vm)); [done |]. rewrite Hcur. destruct m as [|q]; [done |].
        unfold tileAt. rewrite Hne; [reflexivity |]. intros E. apply Hinj in E; lia.
      * rewrite Hne; [| intros E; apply Hinj in E; lia].
        rewrite Hpt by lia. f_equal. destruct (decide (cell p ∈ vm)); [done |].
        destruct p as [|q]; [done |]. unfold tileAt. rewrite Hne; [done |].
        intros E. apply Hinj in E; lia.
Qed.

End FillRule.

Section ColumnMajor.
Import MapDecoder.

Lemma colMajorCell_range w h p :
  0 < w -> 0 < h -> 0 <= p < w * h -> 0 <= colMajorCell w h p < w * h.
Proof.
  intros Hw Hh Hp. unfold colMajorCell.
  pose proof (Z.div_mod p h ltac:(lia)) as Hdm.
  pose proof (Z.mod_pos_bound p h Hh) as Hr.
  pose proof (Z.div_pos p h ltac:(lia) Hh) as Hc.
  assert (p / h < w) by nia. nia.
Qed.

Lemma colMajorCell_inj w h p q :
  0 < w -> 0 < h -> 0 <= p < w * h -> 0 <= q < w * h ->
  colMajorCell w h p = colMajorCell w h q -> p = q.
Proof.
  intros Hw Hh Hp Hq. unfold colMajorCell.
  pose proof (Z.div_mod p h ltac:(lia)) as Hdp.
  pose proof (Z.mod_pos_bound p h Hh) as Hrp.
  pose proof (Z.div_pos p h ltac:(lia) Hh) as Hcp.
  pose proof (Z.div_mod q h ltac:(lia)) as Hdq.
  pose proof (Z.mod_pos_bound q h Hh) as Hrq.
  pose proof (Z.div_pos q h ltac:(lia) Hh) as Hcq.
  assert (p / h < w) by nia. assert (q / h < w) by nia.
  intros E. assert (p mod h = q mod h) as Er by nia.
  assert (p / h = q / h) as Ec by nia. rewrite Hdp, Hdq, Er, Ec. done.
Qed.

(** C9. On a grid [w] wide and [h] high that holds 16-bit values, the
    top-to-bottom fill runs the fill rule of the specification ("if
    [anchor[i]] then [current := tiles[i]]; [tiles[i] := current]", from
    [current = 0]) over the first [w * h - 1] cells of the column-major walk,
    in that order, and over no other cell.  Cell by cell: the cell of turn
    [p] ends with its own value if it is an anchor, and otherwise with the
    final value of the cell of turn [p - 1] (0 at the first turn); the last
    cell [w * h - 1] is never stored into and keeps the value that the lines
    gave it. *)
Theorem fillLinesTopToBottom_column_major (fuel : nat) (result : list Z)
    (valueMap : gset Z) (w h : Z) :
  0 < w -> 0 < h -> Z.of_nat (length result) = w * h -> Forall u16 result ->
  (Z.to_nat (w * h) <= fuel)%nat ->
  let cells := colMajor w h (Z.to_nat (w * h - 1)) in
  exists out,
    fillLinesTopToBottom fuel result valueMap w = Some out
    /\ out = fillRuleSpec valueMap cells result 0
    /\ Z.of_nat (length cells) = w * h - 1
    /\ (forall c r, 0 <= c < w -> 0 <= r < h -> colMajorCell w h (c * h + r) = c + r * w)
    /\ (forall p, 0 <= p < w * h - 1 ->
          geti out (colMajorCell w h p)
          = Some (if decide (colMajorCell w h p ∈ valueMap)
                  then tileAt result (colMajorCell w h p)
                  else if p =? 0 then 0 else tileAt out (colMajorCell w h (p - 1))))
    /\ geti out (w * h - 1) = geti result (w * h - 1).
Proof.
  intros Hw Hh Hlen Hres Hfuel cells.
  set (m := Z.to_nat (w * h - 1)).
  set (cell := fun p : nat => colMajorCell w h (Z.of_nat p)).
  assert (cells = map cell (seq 0 m)) as Hcells by done.
  assert (forall p, (p < m)%nat -> 0 <= cell p < Z.of_nat (length result)) as Hin.
  { intros p Hp. rewrite Hlen. apply colMajorCell_range; lia. }
  assert (forall p q, (p < m)%nat -> (q < m)%nat -> cell p = cell q -> p = q) as Hinj.
  { intros p q Hp Hq E. apply colMajorCell_inj in E; lia. }
  set (st := fold_left (fun st i => fillCell valueMap i st) cells (result, 0)).
  assert (fillLinesTopToBottom fuel result valueMap w = Some st.1) as Hrun.
  { unfold fillLinesTopToBottom, st, cells, colMajor.
    replace 0 with (colMajorCell w h 0) at 1
      by (unfold colMajorCell; by rewrite Z.div_0_l, Z.mod_0_l by lia).
    rewrite (fillT2B_walk w h Hw Hh valueMap (Z.to_nat (w * h - 1))); [| lia | nia | done | lia].
    do 3 f_equal. }
  exists st.1. split; [done |]. split; [| split; [| split; [| split]]].
  - unfold st. apply fold_fillCell_rule; [| done | unfold u16; lia].
    rewrite Hcells. apply Forall_forall. intros c Hc.
    apply list_elem_of_fmap in Hc as (p & -> & Hp). apply elem_of_seq in Hp.
    apply Hin. lia.
  - unfold cells, colMajor. rewrite length_map, length_seq. nia.
  - intros c r Hc Hr. unfold colMajorCell.
    assert ((c * h + r) / h = c) as ->.
    { symmetry. apply (Z.div_unique _ _ _ r); lia. }
    assert ((c * h + r) mod h = r) as ->.
    { symmetry. apply (Z.mod_unique _ _ c); lia. }
    done.
  - intros p Hp.
    destruct (fold_fillCell_pointwise valueMap cell result m Hin Hinj Hres)
      as (_ & _ & _ & _ & Hpt).
    rewrite <- Hcells in Hpt. fold st in Hpt.
    specialize (Hpt (Z.to_nat p) ltac:(lia)).
    assert (cell (Z.to_nat p) = colMajorCell w h p) as Ecell by (unfold cell; f_equal; lia).
    rewrite Ecell in Hpt. rewrite Hpt. f_equal.
    destruct (decide _); [done |].
    destruct (Z.to_nat p) as [|q] eqn:Eq.
    + replace p with 0 by lia. done.
    + replace (p =? 0) with false by lia. unfold cell. do 2 f_equal. lia.
  - unfold fillLinesTopToBottom in Hrun.
    apply fillT2B_last_cell in Hrun as [_ Hget]. cbn in Hget.
    by rewrite Hlen in Hget.
Qed.

(** An instance: a grid of 2 columns and 2 rows with the anchors 0 and 1. *)
Lemma fillLinesTopToBottom_column_major_witness :
  exists out,
    fillLinesTopToBottom 4 [7; 9; 0; 0] {[0; 1]} 2 = Some out
    /\ out = fillRuleSpec {[0; 1]} (colMajor 2 2 (Z.to_nat (2 * 2 - 1))) [7; 9; 0; 0] 0
    /\ Z.of_nat (length (colMajor 2 2 (Z.to_nat (2 * 2 - 1)))) = 2 * 2 - 1
    /\ (forall c r, 0 <= c < 2 -> 0 <= r < 2 -> colMajorCell 2 2 (c * 2 + r) = c + r * 2)
    /\ (forall p, 0 <= p < 2 * 2 - 1 ->
          geti out (colMajorCell 2 2 p)
          = Some (if decide (colMajorCell 2 2 p ∈ ({[0; 1]} : gset Z))
                  then tileAt [7; 9; 0; 0] (colMajorCell 2 2 p)
                  else if p =? 0 then 0 else tileAt out (colMajorCell 2 2 (p - 1))))
    /\ geti out (2 * 2 - 1) = geti [7; 9; 0; 0] (2 * 2 - 1).
Proof.
  apply (fillLinesTopToBottom_column_major 4 [7; 9; 0; 0] {[0; 1]} 2 2);
    [lia | lia | reflexivity | | vm_compute; lia].
  repeat constructor; unfold u16; lia.
Defined.

End ColumnMajor.

(** ** The lines that the decoder puts on the grid *)

Section Placed.
Import BitStream MapEncoder MapDecoder.

Lemma geti_set16 a i j v :
  geti (set16 a i v) j
  = if decide (i = j) then match geti a i with Some _ => Some (v mod 65536) | None => None end else geti a j.
Proof.
  destruct (decide (i = j)) as [<- | Hne]; [| by apply geti_set16_ne].
  destruct (geti a i) as [x|] eqn:E; [by eapply geti_set16_eq |].
  unfold set16, geti in *. destruct (i <? 0); [done |].
  apply lookup_ge_None in E. apply lookup_ge_None. by rewrite length_insert.
Qed.

(** The cells of a line, put one after the other. *)
Lemma put_cells ty cells : forall g,
  let g' := fold_left (fun g c => put g c ty) cells g in
  length g'.1 = length g.1
  /\ (forall c, c ∈ g'.2 <-> c ∈ g.2 \/ c ∈ cells)
  /\ forall c, geti g'.1 c
               = if decide (c ∈ cells)
                 then match geti g.1 c with Some _ => Some (ty mod 65536) | None => None end
                 else geti g.1 c.
Proof.
  induction cells as [|x cells IH]; intros g; cbn [fold_left].
  - split; [done |]. split.
    + intros c. rewrite elem_of_nil. tauto.
    + intros c. destruct (decide _) as [Hin |]; [by apply elem_of_nil in Hin | done].
  - destruct (IH (put g x ty)) as (Hlen & Hmap & Hval). cbn zeta in *.
    split; [by rewrite Hlen; apply set16_length |]. split.
    + intros c. rewrite Hmap. unfold put. cbn [snd].
      rewrite elem_of_union, elem_of_singleton, elem_of_cons. tauto.
    + intros c. rewrite Hval. unfold put. cbn [fst]. rewrite !geti_set16.
      destruct (decide (c ∈ cells)) as [Hin | Hin];
        destruct (decide (x = c)) as [-> | Hne].
      * rewrite decide_True by (by left). by destruct (geti g.1 c).
      * rewrite decide_True by (by right). done.
      * rewrite decide_True by (by left). done.
      * rewrite decide_False; [done |]. intros [-> | H]%elem_of_cons; done.
Qed.

Lemma lastTypeAt_cons l lines c :
  lastTypeAt (l :: lines) c
  = match lastTypeAt lines c with
    | Some t => Some t
    | None => if decide (c ∈ line l) then Some (lid l) else None
    end.
Proof.
  unfold lastTypeAt. rewrite filter_cons.
  destruct (decide (c ∈ line l)); [| by destruct (last _)].
  rewrite last_cons. by destruct (last _).
Qed.

(** The grid after a list of lines has been put: the anchors are the cells
    of the lines, and a cell holds the type of the last line through it. *)
Lemma placeLines_cells lines : forall g,
  length (placeLines g lines).1 = length g.1
  /\ (forall c, c ∈ (placeLines g lines).2 <-> c ∈ g.2 \/ onLines lines c)
  /\ forall c v, geti g.1 c = Some v ->
       geti (placeLines g lines).1 c
       = Some (match lastTypeAt lines c with Some t => t mod 65536 | None => v end).
Proof.
  induction lines as [|l lines IH]; intros g; cbn [placeLines fold_left].
  - split; [done |]. split; [| done].
    intros c. split; [by left |]. intros [H | (l & Hl & _)]; [done |].
    by apply elem_of_nil in Hl.
  - fold (placeLines (placeLine g l) lines).
    destruct (IH (placeLine g l)) as (Hlen & Hmap & Hval).
    destruct (put_cells (lid l) (line l) g) as (Hlen1 & Hmap1 & Hval1).
    cbn zeta in *. fold (placeLine g l) in Hlen1, Hmap1, Hval1.
    split; [congruence |]. split.
    + intros c. rewrite Hmap, Hmap1. unfold onLines. split.
      * intros [[H | H] | (l' & Hl' & Hc)]; [by left | |].
        -- right. exists l. split; [by left | done].
        -- right. exists l'. split; [by right | done].
      * intros [H | (l' & [-> | Hl']%elem_of_cons & Hc)]; [by left; left | |].
        -- by left; right.
        -- right. by exists l'.
    + intros c v Hv. rewrite lastTypeAt_cons.
      specialize (Hval1 c). rewrite Hv in Hval1.
      destruct (decide (c ∈ line l)).
      * rewrite (Hval c _ Hval1). by destruct (lastTypeAt lines c).
      * rewrite (Hval c _ Hval1). by destruct (lastTypeAt lines c).
Qed.

(** X2.  What [writeLines] writes, [putLines] reads back: for a grid of
    positive width and lines that fit their records, the reader consumes
    exactly the written bits, marks as anchors the cells of the lines (and
    keeps the anchors it had), stores on every cell of the grid that lies on
    a line the type of the last line through it, as a 16-bit value, and
    leaves every other cell and the rest of the stream untouched. *)
Theorem putLines_writeLines fuel width typeLength lines w w' :
  0 < width -> 0 <= typeLength ->
  Z.of_nat (length lines) < 2 ^ 32 ->
  Forall (fitsRecord width typeLength) lines ->
  writeLines fuel width w lines typeLength = Ok w' ->
  exists bits,
    w' = w ++ bits
    /\ forall result valueMap r,
         exists result' valueMap',
           putLines (bits ++ r) (result, valueMap) width typeLength
           = Ok ((result', valueMap'), r)
           /\ length result' = length result
           /\ (forall c, c ∈ valueMap' <-> c ∈ valueMap \/ onLines lines c)
           /\ forall c v, geti result c = Some v ->
                geti result' c
                = Some (match lastTypeAt lines c with
                        | Some type => type mod 65536
                        | None => v
                        end).
Proof.
  intros Hw Ht Hlen Hfit H.
  destruct (writeLines_read fuel width typeLength lines w w' Hw Ht Hlen Hfit H)
    as (bits & -> & Hread).
  exists bits. split; [done |]. intros result valueMap r.
  destruct (placeLines_cells lines (result, valueMap)) as (Hl & Hm & Hv).
  exists (placeLines (result, valueMap) lines).1, (placeLines (result, valueMap) lines).2.
  rewrite Hread. split; [by destruct (placeLines _ _) |]. done.
Qed.

Lemma putLines_writeLines_witness :
  let lines := [{| lid := 1; line := [0; 4; 5] |}; {| lid := 2; line := [40; 39] |}] in
  exists w', writeLines 4 4 [true] lines 2 = Ok w'
    /\ exists bits,
         w' = [true] ++ bits
         /\ forall result valueMap r,
              exists result' valueMap',
                putLines (bits ++ r) (result, valueMap) 4 2 = Ok ((result', valueMap'), r)
                /\ length result' = length result
                /\ (forall c, c ∈ valueMap' <-> c ∈ valueMap \/ onLines lines c)
                /\ forall c v, geti result c = Some v ->
                     geti result' c
                     = Some (match lastTypeAt lines c with
                             | Some type => type mod 65536
                             | None => v
                             end).
Proof.
  intros lines. eexists. split; [vm_compute; reflexivity |].
  apply (putLines_writeLines 4 4 2 lines [true]);
    [lia | lia | cbn; lia | | vm_compute; reflexivity].
  repeat constructor; cbn; unfold step; lia.
Defined.

End Placed.

(** ** [cropLines], level by level *)

Section Cropped.
Import MapEncoder.

Lemma remainders_cons l segs :
  remainders (l :: segs)
  = (if (256 <? length l)%nat then [drop 256 l] else []) ++ remainders segs.
Proof.
  unfold remainders. rewrite filter_cons.
  destruct (Nat.ltb_spec 256 (length l)); destruct (decide _); (done || lia).
Qed.

(** One pass of the loop over the segments [cur]: they are cropped in place
    and their remainders queue up behind the segments that were pending. *)
Lemma cropLoop_level cur : forall fuel done acc out,
  cropLoop fuel (length done) (done ++ cur ++ acc) = Some out ->
  exists fuel',
    cropLoop fuel' (length (done ++ map (take 256) cur))
      ((done ++ map (take 256) cur) ++ acc ++ remainders cur) = Some out.
Proof.
  induction cur as [|l cur IH]; intros fuel done acc out H.
  - exists fuel. cbn [map]. unfold remainders. cbn. by rewrite !app_nil_r.
  - destruct fuel as [|fuel]; [by rewrite <- app_comm_cons, cropLoop_zero in H |].
    rewrite <- app_comm_cons in H. rewrite remainders_cons. cbn [map].
    replace (done ++ take 256 l :: map (take 256) cur)
      with ((done ++ [take 256 l]) ++ map (take 256) cur) by (by rewrite <- app_assoc).
    destruct (Nat.ltb_spec 256 (length l)) as [Hl | Hl].
    + rewrite cropLoop_step_long in H by done. rewrite <- (app_assoc cur) in H.
      apply IH in H as [fuel' H]. exists fuel'.
      by rewrite <- (app_assoc acc) in H.
    + rewrite cropLoop_step_short in H by done.
      rewrite <- (take_ge l 256) in H by done.
      apply IH in H as [fuel' H]. by exists fuel'.
Qed.

Lemma remainders_short segs :
  Forall (fun l => (length l <= 256)%nat) segs -> remainders segs = [].
Proof.
  induction 1 as [|l segs Hl _ IH]; [done |]. rewrite remainders_cons, IH.
  by destruct (Nat.ltb_spec 256 (length l)); [lia |].
Qed.

Lemma remainders_bound (n : nat) segs :
  Forall (fun l => (length l <= 256 * S (S n))%nat) segs ->
  Forall (fun l => (length l <= 256 * S n)%nat) (remainders segs).
Proof.
  induction 1 as [|l segs Hl _ IH]; [constructor |]. rewrite remainders_cons.
  destruct (Nat.ltb_spec 256 (length l)); [| done].
  constructor; [| done]. rewrite length_drop. lia.
Qed.

Lemma cropLoop_levels (n : nat) : forall pending fuel done out,
  Forall (fun l => (length l <= 256 * S n)%nat) pending ->
  cropLoop fuel (length done) (done ++ pending) = Some out ->
  out = done ++ cropLevels n pending.
Proof.
  induction n as [|n IH]; intros pending fuel done out Hlen H;
    rewrite <- (app_nil_r pending) in H; apply cropLoop_level in H as [fuel' H];
    cbn [app] in H; cbn [cropLevels].
  - rewrite remainders_short in H by (eapply Forall_impl; [exact Hlen | cbn; lia]).
    rewrite cropLoop_end in H. injection H as <-. by rewrite app_nil_r.
  - apply IH in H; [| by apply remainders_bound]. by rewrite H, <- app_assoc.
Qed.

Lemma length_concat_ge (l : list Z) segs : l ∈ segs -> (length l <= length (concat segs))%nat.
Proof.
  induction segs as [|s segs IH]; intros Hin; [by apply elem_of_nil in Hin |].
  cbn. rewrite length_app. apply elem_of_cons in Hin as [-> | Hin]; [lia |].
  specialize (IH Hin). lia.
Qed.

(** With enough levels for the longest segment, the number of levels does
    not matter. *)
Lemma cropLevels_enough (n m : nat) segs :
  Forall (fun l => (length l <= 256 * S n)%nat) segs ->
  Forall (fun l => (length l <= 256 * S m)%nat) segs ->
  cropLevels n segs = cropLevels m segs.
Proof.
  intros Hn Hm.
  destruct (cropLoop_total (list_sum (map cropTurns segs)) [] segs) as [out H]; [done |].
  pose proof (cropLoop_levels n segs _ [] out Hn H) as Eqn.
  pose proof (cropLoop_levels m segs _ [] out Hm H) as Eqm.
  cbn in Eqn, Eqm. congruence.
Qed.

Lemma cropped_unfold segs :
  cropped segs = map (take 256) segs ++ cropped (remainders segs).
Proof.
  unfold cropped. destruct (length (concat segs)) as [|k] eqn:E; cbn [cropLevels].
  - rewrite remainders_short.
    + cbn. by rewrite app_nil_r.
    + apply Forall_forall. intros l Hl. apply length_concat_ge in Hl. lia.
  - f_equal. apply cropLevels_enough.
    + apply remainders_bound. apply Forall_forall. intros l Hl.
      apply length_concat_ge in Hl. lia.
    + apply Forall_forall. intros l Hl. apply length_concat_ge in Hl. lia.
Qed.

(** C4 (as the code has it).  [cropLines] ends on every list of segments,
    and its outcome is [cropped]: every segment keeps its first 256 cells in
    its place, and the remainders of the segments longer than 256 cells (the
    cells from the 257th on) stand behind them in the order of their
    segments, cropped in the same way, because the loop reaches a pushed
    remainder like any other segment.  No segment of the outcome is longer
    than 256 cells, and the cells are the same cells. *)
Theorem cropLines_crops_tails (lines : list (list Z)) :
  (forall fuel,
      (list_sum (map cropTurns lines) <= fuel)%nat ->
      cropLines fuel lines = Some (cropped lines))
  /\ (forall fuel out, cropLines fuel lines = Some out -> out = cropped lines)
  /\ cropped lines = map (take 256) lines ++ cropped (remainders lines)
  /\ Forall (fun l => (length l <= 256)%nat) (cropped lines)
  /\ Permutation (concat (cropped lines)) (concat lines).
Proof.
  assert (forall fuel out, cropLines fuel lines = Some out -> out = cropped lines) as Hout.
  { intros fuel out H. apply (cropLoop_levels _ lines fuel [] out); [| done].
    apply Forall_forall. intros l Hl. apply length_concat_ge in Hl. lia. }
  assert (forall fuel, (list_sum (map cropTurns lines) <= fuel)%nat ->
            cropLines fuel lines = Some (cropped lines)) as Hrun.
  { intros fuel Hfuel. destruct (cropLoop_total fuel [] lines Hfuel) as [out H].
    cbn in H. unfold cropLines. rewrite H. f_equal. by eapply Hout. }
  split; [done |]. split; [done |]. split; [apply cropped_unfold |].
  specialize (Hrun _ (Nat.le_refl _)).
  apply (cropLoop_result _ [] lines) in Hrun as (Hs & _ & Hp); done.
Qed.

End Cropped.

(** ** The 65536th zone *)

Section WrapZone.
Import ZoneCalculator.
Context (tt : list Z) (w : Z) (Hw : 0 < w).

Local Abbreviation n := (Z.of_nat (length tt)).
Local Abbreviation scanned := (scanned tt w).




Lemma alone_visit z c st :
  alone tt w c -> c ∉ lbMap st -> c ∉ tbMap st ->
  visit tt w z c st
  = {| stack := stack st; zoneMap := set16 (zoneMap st) c z;
       lb := lb st ++ [c]; lbMap := {[c]} ∪ lbMap st;
       tb := tb st ++ [c]; tbMap := {[c]} ∪ tbMap st |}.
Proof.
  intros (H1 & H2 & H3 & H4) Hl Ht. unfold visit. rewrite H1, H2, H3, H4.
  by rewrite !decide_False by done.
Qed.

Lemma alone_exploreZone fuel c zm z t :
  alone tt w c -> truthy (geti zm c) = false -> geti tt c = Some t ->
  exploreZone (S fuel) c tt w zm z
  = Ok ({| id := t; leftBorder := [c]; leftBorderMap := {[c]} ∪ ∅;
           topBorder := [c]; topBorderMap := {[c]} ∪ ∅ |}, set16 zm c z).
Proof.
  intros Ha Ht Hc. unfold exploreZone. cbn [exploreLoop stack zoneMap]. rewrite Ht.
  rewrite alone_visit; [| done | apply not_elem_of_empty | apply not_elem_of_empty].
  cbn [stack lb lbMap tb tbMap zoneMap].
  destruct fuel; cbn [exploreLoop stack]; cbn; by rewrite Hc.
Qed.





End WrapZone.

(** ** Runs of cells that are zones of their own *)

Section Runs.
Import ZoneCalculator.
Context (tt : list Z) (w : Z).

Lemma buildLoop_app fuel (a b : nat) : forall i acc zm,
  buildLoop fuel (a + b) i tt w acc zm
  = '(acc', zm') ← buildLoop fuel a i tt w acc zm;
    buildLoop fuel b (i + Z.of_nat a) tt w acc' zm'.
Proof.
  induction a as [|a IH]; intros i acc zm.
  - cbn. by rewrite Z.add_0_r.
  - cbn [Nat.add buildLoop].
    replace (i + Z.of_nat (S a)) with (i + 1 + Z.of_nat a) by lia.
    destruct (truthy _).
    + by rewrite IH.
    + destruct (exploreZone _ _ _ _ _ _) as [[zone zm1]|e]; [| done]. cbn.
      by rewrite IH.
Qed.

Lemma buildLoop_marked fuel i acc zm :
  truthy (geti zm i) = true -> buildLoop fuel 1 i tt w acc zm = Ok (acc, zm).
Proof. intros H. cbn. by rewrite H. Qed.

Lemma buildLoop_alone1 fuel i acc zm t :
  alone tt w i -> geti zm i = Some 0 -> geti tt i = Some t ->
  buildLoop (S fuel) 1 i tt w acc zm
  = Ok (acc ++ [cellZone t i], set16 zm i (Z.of_nat (length acc) + 1)).
Proof.
  intros Ha Hz Ht. cbn [buildLoop]. rewrite Hz. cbn [truthy Z.eqb negb].
  rewrite (alone_exploreZone tt w fuel i zm _ t Ha); [done | by rewrite Hz | done].
Qed.

(** The scan over a run of unmarked cells without neighbours of equal type:
    every cell becomes a zone of its own. *)
Lemma buildLoop_alone fuel (k : nat) : forall i acc zm,
  0 <= i ->
  (forall c, i <= c < i + Z.of_nat k ->
     alone tt w c /\ geti zm c = Some 0 /\ is_Some (geti tt c)) ->
  exists more zm',
    buildLoop (S fuel) k i tt w acc zm = Ok (acc ++ more, zm')
    /\ length more = k /\ length zm' = length zm
    /\ forall c, geti zm' c
                 = if decide (i <= c < i + Z.of_nat k)
                   then Some ((Z.of_nat (length acc) + (c - i) + 1) mod 65536)
                   else geti zm c.
Proof.
  induction k as [|k IH]; intros i acc zm Hi Hrun.
  - exists [], zm. cbn. rewrite app_nil_r. split; [done |]. split; [done |]. split; [done |].
    intros c. destruct (decide _); [lia | done].
  - destruct (Hrun i ltac:(lia)) as (Ha & Hz & [t Ht]).
    change (S k) with (1 + k)%nat. rewrite buildLoop_app.
    rewrite (buildLoop_alone1 fuel i acc zm t Ha Hz Ht). cbn [mbind result_bind].
    destruct (IH (i + Z.of_nat 1) (acc ++ [cellZone t i])
                (set16 zm i (Z.of_nat (length acc) + 1)))
      as (more & zm' & -> & Hm & Hl & Hg); [lia | |].
    { intros c Hc. destruct (Hrun c ltac:(lia)) as (Hca & Hcz & Hct).
      split; [done |]. split; [| done]. rewrite geti_set16_ne by lia. done. }
    exists (cellZone t i :: more), zm'. rewrite <- app_assoc.
    split; [done |]. split; [cbn; lia |]. split; [by rewrite Hl, set16_length |].
    intros c. rewrite Hg. rewrite length_app. cbn [length].
    destruct (decide (i + Z.of_nat 1 <= c < i + Z.of_nat 1 + Z.of_nat k)) as [H1 | H1].
    + rewrite decide_True by lia. do 2 f_equal. lia.
    + destruct (decide (c = i)) as [-> | Hne].
      * rewrite decide_True by lia. erewrite geti_set16_eq by done. do 2 f_equal. lia.
      * rewrite decide_False by lia. by rewrite geti_set16_ne.
Qed.

Lemma exploreLoop_skip fuel z cur rest zm l lm t tm :
  truthy (geti zm cur) = true ->
  exploreLoop (S fuel) tt w z
    {| stack := cur :: rest; zoneMap := zm; lb := l; lbMap := lm; tb := t; tbMap := tm |}
  = exploreLoop fuel tt w z
      {| stack := rest; zoneMap := zm; lb := l; lbMap := lm; tb := t; tbMap := tm |}.
Proof. intros H. cbn [exploreLoop stack zoneMap lb lbMap tb tbMap]. by rewrite H. Qed.

Lemma exploreLoop_visit fuel z cur rest zm l lm t tm :
  truthy (geti zm cur) = false ->
  exploreLoop (S fuel) tt w z
    {| stack := cur :: rest; zoneMap := zm; lb := l; lbMap := lm; tb := t; tbMap := tm |}
  = exploreLoop fuel tt w z
      (visit tt w z cur
         {| stack := rest; zoneMap := zm; lb := l; lbMap := lm; tb := t; tbMap := tm |}).
Proof. intros H. cbn [exploreLoop stack zoneMap lb lbMap tb tbMap]. by rewrite H. Qed.

Lemma exploreLoop_done fuel z zm l lm t tm :
  exploreLoop fuel tt w z
    {| stack := []; zoneMap := zm; lb := l; lbMap := lm; tb := t; tbMap := tm |}
  = Some {| stack := []; zoneMap := zm; lb := l; lbMap := lm; tb := t; tbMap := tm |}.
Proof. by destruct fuel. Qed.

End Runs.

(** ** The zones of [mapManyZones] *)

Section ManyZones.
Import ZoneCalculator.
Context (tt : list Z).
Hypothesis Hlen : length tt = Z.to_nat 131074.
Hypothesis Hin : forall c, 0 <= c < 131074 -> geti tt c = Some (manyTile c).

Local Abbreviation W := 65537.

Lemma many_out c : ~ 0 <= c < 131074 -> geti tt c = None.
Proof.
  intros Hc. unfold geti. destruct (Z.ltb_spec c 0); [done |].
  apply lookup_ge_None. lia.
Qed.

Lemma manyTile_first c : inFirstZone c = true -> manyTile c = 0.
Proof. unfold manyTile. by intros ->. Qed.

Lemma manyTile_other c :
  inFirstZone c = false -> manyTile c = 1 + (c mod W + c / W) mod 2.
Proof. unfold manyTile. by intros ->. Qed.

Lemma manyTile_pos c : inFirstZone c = false -> 1 <= manyTile c <= 2.
Proof.
  intros H. rewrite manyTile_other by done.
  pose proof (Z.mod_pos_bound (c mod W + c / W) 2 ltac:(lia)). lia.
Qed.

(** Two neighbours of which one is outside the first zone differ in
    type. *)
Lemma manyTile_right c :
  0 <= c -> c mod W <> W - 1 ->
  inFirstZone c = false \/ inFirstZone (c + 1) = false ->
  manyTile c <> manyTile (c + 1).
Proof.
  intros Hc Hm Hf.
  destruct (inFirstZone c) eqn:E1, (inFirstZone (c + 1)) eqn:E2.
  - by destruct Hf.
  - rewrite (manyTile_first c E1). pose proof (manyTile_pos _ E2). lia.
  - rewrite (manyTile_first _ E2). pose proof (manyTile_pos _ E1). lia.
  - rewrite !manyTile_other by done.
    assert ((c + 1) mod W = c mod W + 1 /\ (c + 1) / W = c / W) as [-> ->].
    { pose proof (Z.div_mod c W ltac:(lia)). pose proof (Z.mod_pos_bound c W ltac:(lia)).
      split.
      - symmetry. apply (Z.mod_unique _ _ (c / W)); lia.
      - symmetry. apply (Z.div_unique _ _ _ (c mod W + 1)); lia. }
    pose proof (Z.div_mod (c mod W + 1 + c / W) 2 ltac:(lia)).
    pose proof (Z.mod_pos_bound (c mod W + 1 + c / W) 2 ltac:(lia)).
    pose proof (Z.div_mod (c mod W + c / W) 2 ltac:(lia)).
    pose proof (Z.mod_pos_bound (c mod W + c / W) 2 ltac:(lia)).
    lia.
Qed.

Lemma manyTile_below c :
  0 <= c ->
  inFirstZone c = false \/ inFirstZone (c + W) = false ->
  manyTile c <> manyTile (c + W).
Proof.
  intros Hc Hf.
  destruct (inFirstZone c) eqn:E1, (inFirstZone (c + W)) eqn:E2.
  - by destruct Hf.
  - rewrite (manyTile_first c E1). pose proof (manyTile_pos _ E2). lia.
  - rewrite (manyTile_first _ E2). pose proof (manyTile_pos _ E1). lia.
  - rewrite !manyTile_other by done.
    assert ((c + W) mod W = c mod W /\ (c + W) / W = c / W + 1) as [-> ->].
    { pose proof (Z.div_mod c W ltac:(lia)). pose proof (Z.mod_pos_bound c W ltac:(lia)).
      split.
      - symmetry. apply (Z.mod_unique _ _ (c / W + 1)); lia.
      - symmetry. apply (Z.div_unique _ _ _ (c mod W)); lia. }
    pose proof (Z.div_mod (c mod W + (c / W + 1)) 2 ltac:(lia)).
    pose proof (Z.mod_pos_bound (c mod W + (c / W + 1)) 2 ltac:(lia)).
    pose proof (Z.div_mod (c mod W + c / W) 2 ltac:(lia)).
    pose proof (Z.mod_pos_bound (c mod W + c / W) 2 ltac:(lia)).
    lia.
Qed.

Lemma sameRead_differ a b x y :
  a = Some x -> b = Some y -> x <> y -> sameRead a b = false.
Proof. intros -> -> H. cbn. by apply Z.eqb_neq. Qed.

Lemma sameRead_none a y : a = None -> sameRead a (Some y) = false.
Proof. by intros ->. Qed.

(** Every cell outside the first zone is a zone of its own. *)
Lemma many_alone c : 0 <= c < 131074 -> inFirstZone c = false -> alone tt W c.
Proof.
  intros Hc Hf. pose proof (Hin c Hc) as Hgc.
  pose proof (Z.div_mod c W ltac:(lia)) as Hdm.
  pose proof (Z.mod_pos_bound c W ltac:(lia)) as Hmb.
  split; [| split; [| split]].
  - unfold leftOk, jsRemIs. change (W =? 0) with false. cbn match.
    rewrite Z.rem_mod_nonneg by lia.
    destruct (Z.eqb_spec (c mod W) 0) as [E | E]; [done |]. cbn [negb andb].
    rewrite Hgc. apply (sameRead_differ _ _ (manyTile (c - 1)) _ (Hin (c - 1) ltac:(lia)) eq_refl).
    replace c with (c - 1 + 1) at 2 by lia. apply manyTile_right; [lia | |].
    + intros E'. apply E. replace c with (c - 1 + 1) by lia.
      rewrite <- Zplus_mod_idemp_l, E'. done.
    + right. by replace (c - 1 + 1) with c by lia.
  - unfold rightOk, jsRemIs. change (W =? 0) with false. cbn match.
    rewrite Z.rem_mod_nonneg by lia.
    destruct (Z.eqb_spec (c mod W) (W - 1)) as [E | E]; [done |]. cbn [negb andb].
    rewrite Hgc. destruct (Z.lt_ge_cases (c + 1) 131074) as [Hr | Hr].
    + apply (sameRead_differ _ _ (manyTile (c + 1)) _ (Hin (c + 1) ltac:(lia)) eq_refl).
      apply not_eq_sym. apply manyTile_right; [lia | done | by left].
    + apply sameRead_none, many_out. lia.
  - unfold topOk. destruct (Z.leb_spec W c) as [Ht | Ht]; [| done]. cbn [andb].
    rewrite Hgc. apply (sameRead_differ _ _ (manyTile (c - W)) _ (Hin (c - W) ltac:(lia)) eq_refl).
    replace c with (c - W + W) at 2 by lia. apply manyTile_below; [lia |].
    right. by replace (c - W + W) with c by lia.
  - unfold bottomOk. rewrite Hlen.
    destruct (Z.ltb_spec c (Z.of_nat (Z.to_nat 131074) - W)) as [Hb | Hb]; [| done].
    cbn [andb]. rewrite Hgc.
    apply (sameRead_differ _ _ (manyTile (c + W)) _ (Hin (c + W) ltac:(lia)) eq_refl).
    apply not_eq_sym. apply manyTile_below; [lia | by left].
Qed.


Context (zm0 : list Z).
Hypothesis Hzl : length zm0 = Z.to_nat 131074.
Hypothesis Hz0 : forall c, 0 <= c < 131074 -> geti zm0 c = Some 0.

Lemma visit_eval z cur st (bl br bt bb dl dt : bool) :
  leftOk tt W cur = bl -> rightOk tt W cur = br ->
  topOk tt W cur = bt -> bottomOk tt W cur = bb ->
  bool_decide (cur ∈ lbMap st) = dl -> bool_decide (cur ∈ tbMap st) = dt ->
  visit tt W z cur st
  = {| stack := (if bb then [cur + W] else []) ++ (if bt then [cur - W] else [])
                ++ (if br then [cur + 1] else []) ++ (if bl then [cur - 1] else [])
                ++ stack st;
       zoneMap := set16 (zoneMap st) cur z;
       lb := if bl || dl then lb st else lb st ++ [cur];
       lbMap := if bl || dl then lbMap st else {[cur]} ∪ lbMap st;
       tb := if bt || dt then tb st else tb st ++ [cur];
       tbMap := if bt || dt then tbMap st else {[cur]} ∪ tbMap st |}.
Proof.
  intros <- <- <- <- <- <-. unfold visit.
  destruct (leftOk tt W cur), (rightOk tt W cur), (topOk tt W cur), (bottomOk tt W cur);
    destruct (decide (cur ∈ lbMap st)) as [Hl | Hl];
    destruct (decide (cur ∈ tbMap st)) as [Ht | Ht];
    rewrite ?(bool_decide_eq_true_2 _ Hl), ?(bool_decide_eq_false_2 _ Hl),
      ?(bool_decide_eq_true_2 _ Ht), ?(bool_decide_eq_false_2 _ Ht);
    reflexivity.
Qed.

Lemma many_tests :
  (leftOk tt W 0 = false /\ rightOk tt W 0 = true
   /\ topOk tt W 0 = false /\ bottomOk tt W 0 = false)
  /\ (leftOk tt W 1 = true /\ rightOk tt W 1 = false
      /\ topOk tt W 1 = false /\ bottomOk tt W 1 = true)
  /\ (leftOk tt W 65538 = false /\ rightOk tt W 65538 = false
      /\ topOk tt W 65538 = true /\ bottomOk tt W 65538 = false).
Proof.
  pose proof (Hin 0 ltac:(lia)) as H0. pose proof (Hin 1 ltac:(lia)) as H1.
  pose proof (Hin 2 ltac:(lia)) as H2. pose proof (Hin 65537 ltac:(lia)) as H3.
  pose proof (Hin 65538 ltac:(lia)) as H4. pose proof (Hin 65539 ltac:(lia)) as H5.
  unfold leftOk, rightOk, topOk, bottomOk. rewrite Hlen.
  change (0 + 1) with 1. change (0 + W) with 65537. change (1 - 1) with 0.
  change (1 + 1) with 2. change (1 + W) with 65538. change (65538 - 1) with 65537.
  change (65538 + 1) with 65539. change (65538 - W) with 1.
  rewrite H0, H1, H2, H3, H4, H5.
  repeat split; reflexivity.
Qed.

Lemma geti_set16_in a i v j :
  is_Some (geti a i) ->
  geti (set16 a i v) j = if decide (j = i) then Some (v mod 65536) else geti a j.
Proof.
  intros [x Hx]. destruct (decide (j = i)) as [-> | Hne].
  - by eapply geti_set16_eq.
  - by apply geti_set16_ne.
Qed.

Lemma firstMarks_geti c :
  geti (firstMarks zm0) c
  = if decide (c = 0 \/ c = 1 \/ c = 65538) then Some 1 else geti zm0 c.
Proof.
  unfold firstMarks.
  rewrite geti_set16_in by (rewrite !geti_set16_ne, Hz0 by lia; eauto).
  rewrite geti_set16_in by (rewrite !geti_set16_ne, Hz0 by lia; eauto).
  rewrite geti_set16_in by (rewrite Hz0 by lia; eauto).
  repeat destruct (decide _); (done || lia).
Qed.

Lemma many_first fuel :
  exploreZone (5 + fuel) 0 tt W zm0 1 = Ok (firstZone, (firstMarks zm0)).
Proof.
  destruct many_tests as ((L0 & R0 & T0 & B0) & (L1 & R1 & T1 & B1) & (L2 & R2 & T2 & B2)).
  unfold exploreZone. change (5 + fuel)%nat with (S (S (S (S (S fuel))))).
  rewrite exploreLoop_visit by (by rewrite Hz0 by lia).
  rewrite (visit_eval 1 0 _ false true false false false false)
    by (done || (vm_compute; reflexivity)).
  cbn [stack zoneMap lb lbMap tb tbMap app orb]. change (0 + 1) with 1.
  rewrite exploreLoop_visit by (by rewrite geti_set16_ne, Hz0 by lia).
  rewrite (visit_eval 1 1 _ true false false true false false)
    by (done || (vm_compute; reflexivity)).
  cbn [stack zoneMap lb lbMap tb tbMap app orb].
  change (1 + W) with 65538. change (1 - 1) with 0.
  rewrite exploreLoop_visit by (by rewrite !geti_set16_ne, Hz0 by lia).
  rewrite (visit_eval 1 65538 _ false false true false false false)
    by (done || (vm_compute; reflexivity)).
  cbn [stack zoneMap lb lbMap tb tbMap app orb]. change (65538 - W) with 1.
  fold (firstMarks zm0).
  rewrite exploreLoop_skip by (by rewrite firstMarks_geti, decide_True by lia).
  rewrite exploreLoop_skip by (by rewrite firstMarks_geti, decide_True by lia).
  rewrite exploreLoop_done. cbn [ofOption mbind result_bind].
  rewrite (Hin 0) by lia. reflexivity.
Qed.


Lemma inFirstZone_false c : c <> 0 -> c <> 1 -> c <> 65538 -> inFirstZone c = false.
Proof. intros. unfold inFirstZone. lia. Qed.

(** The scan of [buildZones] over the map: the first zone, then a zone for
    every other cell. *)
Lemma many_scan fuel :
  (5 <= fuel)%nat ->
  exists zones zm,
    buildLoop fuel (Z.to_nat 131074) 0 tt W [] zm0 = Ok (zones, zm)
    /\ length zones = Z.to_nat 131072
    /\ zones !! 0%nat = Some firstZone
    /\ forall c, geti zm c = Some 1 <-> c = 0 \/ c = 1 \/ c = 65537 \/ c = 65538.
Proof.
  intros Hfuel. destruct fuel as [|fuel]; [lia |].
  assert (forall a b : Z, Some a = Some b -> a = b) as Hsome by (by intros a b [= ->]).
  replace (Z.to_nat 131074)
    with (1 + (1 + (Z.to_nat 65535 + (1 + (1 + Z.to_nat 65535)))))%nat by lia.
  (* the cell 0: the first zone *)
  rewrite buildLoop_app.
  assert (buildLoop (S fuel) 1 0 tt W [] zm0 = Ok ([firstZone], (firstMarks zm0))) as ->.
  { cbn [buildLoop]. rewrite Hz0 by lia. cbn [truthy Z.eqb negb].
    replace (S fuel) with (5 + (fuel - 4))%nat by lia. by rewrite many_first. }
  cbn [mbind result_bind]. change (0 + Z.of_nat 1) with 1.
  (* the cell 1 is in the first zone *)
  rewrite buildLoop_app.
  rewrite buildLoop_marked by (by rewrite firstMarks_geti, decide_True by lia).
  cbn [mbind result_bind]. change (1 + Z.of_nat 1) with 2.
  (* the cells 2 .. 65536 *)
  rewrite buildLoop_app.
  destruct (buildLoop_alone tt W fuel (Z.to_nat 65535) 2 [firstZone] (firstMarks zm0))
    as (moreA & zmA & -> & HlA & _ & HgA); [lia | |].
  { intros c Hc. split; [apply many_alone; [lia | apply inFirstZone_false; lia] |].
    split; [rewrite firstMarks_geti, decide_False by lia; apply Hz0; lia |].
    rewrite Hin by lia. eauto. }
  cbn [mbind result_bind]. replace (2 + Z.of_nat (Z.to_nat 65535)) with 65537 by lia.
  (* the cell 65537 *)
  rewrite buildLoop_app.
  assert (geti zmA 65537 = Some 0) as HA0.
  { rewrite HgA, decide_False by lia. rewrite firstMarks_geti, decide_False by lia.
    apply Hz0. lia. }
  rewrite (buildLoop_alone1 tt W fuel 65537 _ zmA (manyTile 65537));
    [| apply many_alone; [lia | done] | done | apply Hin; lia].
  cbn [mbind result_bind]. change (65537 + Z.of_nat 1) with 65538.
  set (zmF := set16 zmA 65537 _).
  assert (forall c, geti zmF c = if decide (c = 65537) then Some 1 else geti zmA c) as HgF.
  { intros c. unfold zmF. rewrite geti_set16_in by eauto.
    rewrite length_app, HlA. cbn [length].
    replace (Z.of_nat (1 + Z.to_nat 65535) + 1) with 65537 by lia. done. }
  (* the cell 65538 is in the first zone *)
  rewrite buildLoop_app.
  rewrite buildLoop_marked.
  2:{ rewrite HgF, decide_False by lia. rewrite HgA, decide_False by lia.
      by rewrite firstMarks_geti, decide_True by lia. }
  cbn [mbind result_bind]. change (65538 + Z.of_nat 1) with 65539.
  (* the cells 65539 .. 131073 *)
  destruct (buildLoop_alone tt W fuel (Z.to_nat 65535) 65539
              (([firstZone] ++ moreA) ++ [cellZone (manyTile 65537) 65537]) zmF)
    as (moreB & zmB & -> & HlB & _ & HgB); [lia | |].
  { intros c Hc. split; [apply many_alone; [lia | apply inFirstZone_false; lia] |].
    split.
    - rewrite HgF, decide_False by lia. rewrite HgA, decide_False by lia.
      rewrite firstMarks_geti, decide_False by lia. apply Hz0. lia.
    - rewrite Hin by lia. eauto. }
  eexists _, zmB. split; [reflexivity |]. split; [| split].
  - rewrite !length_app, HlA, HlB. cbn [length]. lia.
  - by rewrite <- !app_assoc.
  - intros c. rewrite HgB. rewrite !length_app, HlA. cbn [length].
    destruct (decide (65539 <= c < 65539 + Z.of_nat (Z.to_nat 65535))) as [Hb | Hb].
    { split; [| lia]. intros E. apply Hsome in E. exfalso. revert E.
      replace (Z.of_nat (1 + Z.to_nat 65535 + 1) + (c - 65539) + 1) with (c - 1) by lia.
      intros E. pose proof (Z.div_mod (c - 1) 65536 ltac:(lia)). lia. }
    rewrite HgF. destruct (decide (c = 65537)) as [-> | Hf]; [split; [lia | done] |].
    rewrite HgA. destruct (decide (2 <= c < 2 + Z.of_nat (Z.to_nat 65535))) as [Ha | Ha].
    { split; [| lia]. intros E. apply Hsome in E. exfalso. revert E.
      change (length [firstZone]) with 1%nat.
      replace (Z.of_nat 1 + (c - 2) + 1) with c by lia.
      intros E. pose proof (Z.div_mod c 65536 ltac:(lia)). lia. }
    rewrite firstMarks_geti.
    destruct (decide (c = 0 \/ c = 1 \/ c = 65538)) as [Hs | Hs]; [split; [lia | done] |].
    split; [| lia]. intros E. exfalso.
    destruct (decide (0 <= c < 131074)) as [Hr | Hr].
    + rewrite Hz0 in E by done. done.
    + unfold geti in E. destruct (Z.ltb_spec c 0); [done |].
      apply lookup_lt_Some in E. lia.
Qed.

End ManyZones.

(** ** [calculateNeededLines] and the marks of the zone map *)

Section SameMarks.
Import MapEncoder.
Context (w z : Z) (tm tm' : list Z).
Hypothesis Hsame : forall c, geti tm c = Some z <-> geti tm' c = Some z.

Lemma pushNeighbours_marks cands path0 : forall open paths vis,
  pushNeighbours cands z tm path0 open paths vis
  = pushNeighbours cands z tm' path0 open paths vis.
Proof.
  induction cands as [|c cands IH]; intros open paths vis; [done |].
  cbn [pushNeighbours]. rewrite (bool_decide_ext _ _ (Hsame c)).
  destruct (_ && _); apply IH.
Qed.

Lemma pathsLoop_marks fuel pm : forall open paths vis res,
  pathsLoop fuel w pm z tm open paths vis res
  = pathsLoop fuel w pm z tm' open paths vis res.
Proof.
  induction fuel as [|fuel IH]; intros open paths vis res; [done |].
  cbn [pathsLoop]. destruct open as [|point open]; [done |].
  destruct paths as [|path0 paths]; [done |].
  destruct (_ <? 8); [| apply IH].
  rewrite pushNeighbours_marks. destruct (pushNeighbours _ _ _ _ _ _ _) as [[? ?] ?].
  apply IH.
Qed.

Lemma connectionsLoop_marks fuel points pm rest : forall i cm,
  connectionsLoop fuel w points rest i pm z tm cm
  = connectionsLoop fuel w points rest i pm z tm' cm.
Proof.
  induction rest as [|p rest IH]; intros i cm; [done |].
  cbn [connectionsLoop]. unfold calculatePaths. rewrite pathsLoop_marks.
  destruct (pathsLoop _ _ _ _ _ _ _ _ _) as [found|e]; [| done]. cbn.
  destruct (addConnections _ _ _ _) as [cm1|e]; [| done]. cbn. apply IH.
Qed.

(** [calculateNeededLines] reads the zone map only to tell the cells of
    the zone from the others. *)
Lemma calculateNeededLines_marks fuel points pm :
  calculateNeededLines fuel w points pm z tm
  = calculateNeededLines fuel w points pm z tm'.
Proof.
  unfold calculateNeededLines, calculateConnections. by rewrite connectionsLoop_marks.
Qed.

End SameMarks.

Lemma manyMarks_geti c :
  geti manyMarks c = Some 1 <-> c = 0 \/ c = 1 \/ c = 65537 \/ c = 65538.
Proof.
  unfold manyMarks, geti. destruct (Z.ltb_spec c 0) as [Hn | Hn]; [split; [done | lia] |].
  destruct (decide (c = 0)) as [-> | H0]; [split; [by left | done] |].
  destruct (decide (c = 1)) as [-> | H1]; [split; [by right; left | done] |].
  rewrite lookup_app_r by (cbn; lia). cbn [length].
  destruct (decide (c < 65537)) as [Hlt | Hge].
  - rewrite lookup_app_l by (rewrite repeat_length; lia).
    rewrite lookup_repeat by lia. split; [done | lia].
  - rewrite lookup_app_r by (rewrite repeat_length; lia). rewrite repeat_length.
    destruct (decide (c = 65537)) as [-> | H2].
    { replace (Z.to_nat 65537 - 2 - Z.to_nat 65535)%nat with 0%nat by lia.
      split; [lia | done]. }
    destruct (decide (c = 65538)) as [-> | H3].
    { replace (Z.to_nat 65538 - 2 - Z.to_nat 65535)%nat with 1%nat by lia.
      split; [lia | done]. }
    split; [| lia]. intros E. apply lookup_lt_Some in E. cbn in E. lia.
Qed.

Lemma manyMarks_lines :
  MapEncoder.calculateNeededLines 8 65537 [0; 65538] ({[65538]} ∪ ({[0]} ∪ ∅)) 1 manyMarks
  = Ok [[65538; 65537; 0]].
Proof. vm_compute. reflexivity. Qed.

Section ManyZonesMap.
Import ZoneCalculator MapEncoder.

Lemma many_tiles_length : length (tiles mapManyZones) = Z.to_nat 131074.
Proof. unfold mapManyZones. cbn [tiles]. by rewrite length_map, length_seq. Qed.

Lemma many_tiles_geti c :
  0 <= c < 131074 -> geti (tiles mapManyZones) c = Some (manyTile c).
Proof.
  intros Hc. unfold mapManyZones, geti. cbn [tiles].
  destruct (Z.ltb_spec c 0); [lia |].
  rewrite list_lookup_fmap, lookup_seq_lt by lia. cbn. f_equal. f_equal. lia.
Qed.

Lemma many_wellFormed : wellFormed mapManyZones.
Proof.
  unfold wellFormed. rewrite many_tiles_length. cbn [width height mapManyZones]. lia.
Qed.

(** The zones of [mapManyZones]: 131072 of them, the first with the left
    border [0; 65538]; the mark 1 sits on its three cells and on the cell
    65537, which is the 65537th zone. *)
Lemma many_zones fuel :
  (5 <= fuel)%nat ->
  exists zones zm,
    buildZones fuel mapManyZones = Ok (zones, zm)
    /\ length zones = Z.to_nat 131072
    /\ zones !! 0%nat = Some firstZone
    /\ forall c, geti zm c = Some 1 <-> c = 0 \/ c = 1 \/ c = 65537 \/ c = 65538.
Proof.
  intros Hfuel. rewrite buildZones_unfold by (cbn [width height mapManyZones]; lia).
  rewrite many_tiles_length.
  change (width mapManyZones) with 65537. change (height mapManyZones) with 2.
  change (65537 * 2) with 131074.
  apply (many_scan (tiles mapManyZones) many_tiles_length many_tiles_geti
           (repeat 0 (Z.to_nat 131074))); [apply repeat_length | | done].
  intros c Hc. unfold geti. destruct (Z.ltb_spec c 0); [lia |].
  apply lookup_repeat. lia.
Qed.

End ManyZonesMap.

(** ** Zone ids *)

Section Seeds.
Import ZoneCalculator MapEncoder.


End Seeds.



(** ** Lines and zones *)

Section RealZones.
Import ZoneCalculator MapEncoder.



End RealZones.



(** C6 as stated fails: on [mapManyZones], whose zones number more than
    65535, the line that [calculateNeededLines] builds for the left border
    of the first zone runs from the cell 65538 through the cell 65537 to the
    cell 0; the cell 65537 is of another type than the cell 0, hence of
    another zone. *)
Lemma lines_leave_zone :
  wellFormed mapManyZones
  /\ exists zones tileMap zone,
       ZoneCalculator.buildZones 8 mapManyZones = Ok (zones, tileMap)
       /\ zones !! 0%nat = Some zone
       /\ MapEncoder.calculateNeededLines 8 (width mapManyZones)
            (ZoneCalculator.leftBorder zone) (ZoneCalculator.leftBorderMap zone) 1 tileMap
          = Ok [[65538; 65537; 0]]
       /\ geti (tiles mapManyZones) 0 = Some 0
       /\ geti (tiles mapManyZones) 65537 = Some 2
       /\ ~ sameZone (tiles mapManyZones) (width mapManyZones) 0 65537.
Proof.
  split; [apply many_wellFormed |].
  destruct (many_zones 8 ltac:(lia)) as (zones & zm & Hb & _ & Hz & Hm).
  assert (geti (tiles mapManyZones) 0 = Some 0) as H0.
  { rewrite many_tiles_geti by lia. reflexivity. }
  assert (geti (tiles mapManyZones) 65537 = Some 2) as H1.
  { rewrite many_tiles_geti by lia. reflexivity. }
  exists zones, zm, firstZone. split; [done |]. split; [done |]. split; [| split; [done |]].
  - change (width mapManyZones) with 65537. cbn [ZoneCalculator.leftBorder
      ZoneCalculator.leftBorderMap firstZone].
    rewrite (calculateNeededLines_marks 65537 1 zm manyMarks).
    + apply manyMarks_lines.
    + intros c. by rewrite Hm, manyMarks_geti.
  - split; [done |]. intros Hs. apply sameZone_tiles in Hs. congruence.
Qed.
